(** * undici: a shallow embedding of the client core

    The development follows the JavaScript sources of the repository:

    - [Request]       : lib/core/request.js (the per-call record bound to a handler);
    - [ClientBase]    : the parser-binding client (retry delay, [Parser.destroy]);
    - [Client]        : the llhttp client (queue, scheduler, writer, socket events);
    - [Redirect]      : the redirect handler wrapping a user handler;
    - [RedirectAgent] : the redirect agent's [dispatch] around it;
    - [ParserHeaders], [ParserBuffer], [StreamBody] : the llhttp client's
      header callbacks, parse buffer and stream-body writer;
    - [HTTPParser]    : lib/llhttp/parser.js (the stand-alone parser);
    - [UpgradeHandler] : the handler behind [upgrade].

    JavaScript numbers that hold counters, indices and millisecond delays are
    integers in every path modelled here; indices are [nat], delays are [Z].
    Handlers are user code: a handler is modelled by the trace of callbacks it
    observes, plus the few answers the client reads back from it. *)

From Stdlib Require Import ZArith Lia Bool Ascii String.
From stdpp Require Import base option list.

Local Open Scope string_scope.
Local Open Scope list_scope.

(** ** JavaScript helpers *)

Module Js.

(** [String.prototype.toLowerCase] on the ASCII range. *)
Definition lower_ascii (c : ascii) : ascii :=
  let n := nat_of_ascii c in
  if (65 <=? n)%nat && (n <=? 90)%nat then ascii_of_nat (n + 32) else c.

Fixpoint toLowerCase (s : string) : string :=
  match s with
  | EmptyString => EmptyString
  | String c s' => String (lower_ascii c) (toLowerCase s')
  end.

(** [s.indexOf(p) === 0]. *)
Definition startsWith (p s : string) : bool := String.prefix p s.

(** Truthiness of a string: only the empty string is falsy. *)
Definition truthy_string (s : string) : bool :=
  match s with EmptyString => false | _ => true end.

End Js.

(** ** Redirect handler *)

Module Redirect.

(** The shapes [opts.headers] can take. *)
Inductive Headers :=
| HeadersNullish
| HeadersArray (flat : list string)
| HeadersObject (entries : list (string * string))
| HeadersOther.

Inductive Body :=
| BodyBuffer (bytes : string)
| BodyStream.

Record Opts := mkOpts {
  origin : string;
  path : string;
  method : string;
  headers : Headers;
  body : option Body;
  maxRedirections : nat
}.

(** What [util.parseURL(new URL(location, origin))] yields; the URL parser
    is a collaborator of the handler. *)
Record ParsedURL := mkURL {
  url_origin : string;
  url_pathname : string;
  url_search : string
}.

Inductive Event :=
| EvHeaders (statusCode : nat) (rawHeaders : list string)
| EvData
| EvComplete
| EvDispatch (o : Opts).

Record RedirectHandler := mkRH {
  location : option string;
  opts : Opts;
  trace : list Event
}.

Inductive Outcome :=
| Done (h : RedirectHandler)
| Threw (h : RedirectHandler).

Definition redirectCodes : list nat := [300; 301; 302; 303; 307; 308]%nat.

(** [parseLocation]: the headers are a flat array [k0, v0, k1, v1, ...]. *)
Fixpoint parseLocation (hs : list string) : option string :=
  match hs with
  | k :: v :: rest =>
      if (String.length k =? 8)%nat && String.eqb (Js.toLowerCase k) "location"
      then Some v
      else parseLocation rest
  | _ => None
  end.

Definition shouldRemoveHeader (header : string) (removeContent : bool) : bool :=
  ((String.length header =? 4)%nat && String.eqb (Js.toLowerCase header) "host")
  || (removeContent && Js.startsWith "content-" (Js.toLowerCase header)).

Fixpoint cleanArray (hs : list string) (removeContent : bool) : list string :=
  match hs with
  | k :: v :: rest =>
      if shouldRemoveHeader k removeContent
      then cleanArray rest removeContent
      else k :: v :: cleanArray rest removeContent
  | _ => []
  end.

Fixpoint cleanObject (es : list (string * string)) (removeContent : bool) : list string :=
  match es with
  | (k, v) :: rest =>
      if shouldRemoveHeader k removeContent
      then cleanObject rest removeContent
      else k :: v :: cleanObject rest removeContent
  | [] => []
  end.

(** [cleanRequestHeaders]; [None] is the thrown [InvalidArgumentError]. *)
Definition cleanRequestHeaders (h : Headers) (removeContent : bool) : option (list string) :=
  match h with
  | HeadersArray flat => Some (cleanArray flat removeContent)
  | HeadersObject es => Some (cleanObject es removeContent)
  | HeadersNullish => Some []
  | HeadersOther => None
  end.

Section WithURL.

(** [new URL(location, origin)] followed by [util.parseURL]; [None] when
    either throws. *)
Variable resolve : string -> string -> option ParsedURL.

Definition forward (h : RedirectHandler) (statusCode : nat) (raw : list string)
  : RedirectHandler :=
  mkRH (location h) (opts h) (trace h ++ [EvHeaders statusCode raw]).

Definition onHeaders (h : RedirectHandler) (statusCode : nat) (raw : list string)
  : Outcome :=
  if negb (existsb (Nat.eqb statusCode) redirectCodes) then
    Done (forward h statusCode raw)
  else
    let loc := parseLocation raw in
    let h1 := mkRH loc (opts h) (trace h) in
    match loc with
    | None => Done (forward h1 statusCode raw)
    | Some l =>
        if negb (Js.truthy_string l) then Done (forward h1 statusCode raw)
        else
          match resolve l (origin (opts h1)) with
          | None => Threw h1
          | Some u =>
              let p :=
                if Js.truthy_string (url_search u)
                then ((if Js.truthy_string (url_pathname u)
                       then url_pathname u else "/") ++ url_search u)%string
                else url_pathname u in
              match cleanRequestHeaders (headers (opts h1)) (statusCode =? 303)%nat with
              | None => Threw h1
              | Some hs =>
                  let o := opts h1 in
                  let o1 := mkOpts (url_origin u) p (method o) (HeadersArray hs)
                              (body o) (maxRedirections o) in
                  let o2 :=
                    if (statusCode =? 303)%nat && negb (String.eqb (method o1) "HEAD")
                    then mkOpts (origin o1) (path o1) "GET" (headers o1) None
                           (maxRedirections o1)
                    else o1 in
                  Done (mkRH loc o2 (trace h1))
              end
          end
    end.

(** [onComplete]: re-dispatch through the agent when a location was
    recorded (an empty location is falsy). *)
Definition followed (h : RedirectHandler) : bool :=
  match location h with
  | Some l => Js.truthy_string l
  | None => false
  end.

Definition onComplete (h : RedirectHandler) : RedirectHandler :=
  if followed h
  then mkRH (location h) (opts h) (trace h ++ [EvDispatch (opts h)])
  else mkRH (location h) (opts h) (trace h ++ [EvComplete]).

End WithURL.

End Redirect.

(** ** Errors and completions shared by the client models *)

Record Err := mkErr { err_name : string; err_code : string; err_message : string }.

Definition InvalidArgumentError (msg : string) : Err :=
  mkErr "InvalidArgumentError" "UND_ERR_INVALID_ARG" msg.
Definition NotSupportedError (msg : string) : Err :=
  mkErr "NotSupportedError" "UND_ERR_NOT_SUPPORTED" msg.
Definition RequestAbortedError : Err :=
  mkErr "RequestAbortedError" "UND_ERR_ABORTED" "Request aborted".
Definition RequestTimeoutError : Err :=
  mkErr "RequestTimeoutError" "UND_ERR_REQUEST_TIMEOUT" "Request timeout".
Definition ClientDestroyedError : Err :=
  mkErr "ClientDestroyedError" "UND_ERR_DESTROYED" "The client is destroyed".
Definition ClientClosedError : Err :=
  mkErr "ClientClosedError" "UND_ERR_CLOSED" "The client is closed".
Definition SocketError (msg : string) : Err :=
  mkErr "SocketError" "UND_ERR_SOCKET" msg.
Definition InformationalError (msg : string) : Err :=
  mkErr "InformationalError" "UND_ERR_INFO" msg.
Definition RequestContentLengthMismatchError : Err :=
  mkErr "RequestContentLengthMismatchError" "UND_ERR_CONTENT_LENGTH_MISMATCH"
        "Request body length does not match content-length header".
Definition AssertionError : Err :=
  mkErr "AssertionError" "ERR_ASSERTION" "assertion failed".
Definition TypeError : Err :=
  mkErr "TypeError" "" "cannot read property of null".

(** A JavaScript call either returns or throws. *)
Inductive Completion (A : Type) :=
| Normal (a : A)
| Throw (e : Err).
Arguments Normal {A} a.
Arguments Throw {A} e.

#[global] Instance completion_ret : MRet Completion := fun _ a => Normal a.
#[global] Instance completion_bind : MBind Completion := fun _ _ k m =>
  match m with
  | Normal a => k a
  | Throw e => Throw e
  end.

Definition assert (b : bool) : Completion unit :=
  if b then Normal tt else Throw AssertionError.

(** [Array.prototype.splice] as used on the queue. *)
Definition splice_from {A} (start : nat) (l : list A) : list A * list A :=
  (take start l, drop start l).

Definition splice_one {A} (i : nat) (l : list A) : list A :=
  take i l ++ drop (S i) l.

Definition splice_head {A} (n : nat) (ins : list A) (l : list A) : list A :=
  ins ++ drop n l.

(** ** lib/core/request.js *)

Module Request.

(** The JavaScript values an option can hold, as far as the constructor
    tells them apart. *)
Inductive Value :=
| VUndefined
| VNull
| VBool (b : bool)
| VInt (z : Z)
| VNaN
| VNonInt                        (* any other number that is not an integer *)
| VString (s : string)
| VBuffer (len : nat)
| VStream (endedLength : option nat)
| VObject
| VFunction.

Definition nullish (v : Value) : bool :=
  match v with VUndefined | VNull => true | _ => false end.

(** [!!v]: the falsy values are [undefined], [null], [false], [0], [NaN]
    and the empty string. *)
Definition truthy (v : Value) : bool :=
  match v with
  | VUndefined | VNull | VBool false | VInt 0 | VNaN | VString "" => false
  | _ => true
  end.

Definition isString (v : Value) : bool :=
  match v with VString _ => true | _ => false end.

(** A header value: [typeof val === 'object'], [undefined], or a scalar
    with its text and what [parseInt] makes of it ([None] for NaN). *)
Inductive HeaderVal :=
| HVObject
| HVUndefined
| HVScalar (text : string) (parsed : option Z).

Record Opts := mkOpts {
  o_path : Value;
  o_method : Value;
  o_body : Value;
  o_headers : option (list (string * HeaderVal));
  o_idempotent : option bool;
  o_upgrade : Value;
  o_requestTimeout : Value
}.

Inductive Body :=
| BodyBuffer (len : nat)
| BodyStream (endedLength : option nat).

(** What the handler does when [onConnect] hands it the abort callback. *)
Inductive ConnectAnswer :=
| Proceed
| AbortNow (err : option Err)
| ThrowNow (err : Err).

Record Handler := mkHandler {
  h_id : nat;
  h_onConnect : ConnectAnswer
}.

Inductive Event :=
| OnConnect
| OnHeaders (statusCode : Z)
| OnData
| OnUpgrade (statusCode : Z)
| OnComplete
| OnError (err : Err).

Record Request := mkRequest {
  kHandler : Handler;
  method : string;
  body : option Body;
  host : option string;
  servername : option string;
  aborted : bool;
  upgrade : bool;
  path : string;
  idempotent : bool;
  contentLength : option Z;
  headers : string;
  kRequestTimeout : option Z;
  kTimeout : bool;               (* a request timer is armed *)
  kResume : bool                 (* a resume callback is stored *)
}.

Definition set_aborted (r : Request) (b : bool) : Request :=
  mkRequest (kHandler r) (method r) (body r) (host r) (servername r) b (upgrade r)
    (path r) (idempotent r) (contentLength r) (headers r) (kRequestTimeout r)
    (kTimeout r) (kResume r).
Definition set_body (r : Request) (b : option Body) : Request :=
  mkRequest (kHandler r) (method r) b (host r) (servername r) (aborted r) (upgrade r)
    (path r) (idempotent r) (contentLength r) (headers r) (kRequestTimeout r)
    (kTimeout r) (kResume r).
Definition set_kTimeout (r : Request) (b : bool) : Request :=
  mkRequest (kHandler r) (method r) (body r) (host r) (servername r) (aborted r)
    (upgrade r) (path r) (idempotent r) (contentLength r) (headers r)
    (kRequestTimeout r) b (kResume r).
Definition set_kResume (r : Request) (b : bool) : Request :=
  mkRequest (kHandler r) (method r) (body r) (host r) (servername r) (aborted r)
    (upgrade r) (path r) (idempotent r) (contentLength r) (headers r)
    (kRequestTimeout r) (kTimeout r) b.

(** *** The constructor *)

Definition lookup_header (k : string) (hs : list (string * HeaderVal)) : option string :=
  match List.find (fun kv => String.eqb (fst kv) k) hs with
  | Some (_, HVScalar text _) => if Js.truthy_string text then Some text else None
  | _ => None
  end.

Record HeaderScan := mkScan { sc_contentLength : option Z; sc_headers : string }.

(** The [for ... of Object.entries(headers)] loop. *)
Fixpoint scan_headers (hs : list (string * HeaderVal)) (acc : HeaderScan)
  : Completion HeaderScan :=
  match hs with
  | [] => Normal acc
  | (key, val) :: rest =>
      match val with
      | HVObject => Throw (InvalidArgumentError ("invalid " ++ key ++ " header")%string)
      | HVUndefined => scan_headers rest acc
      | HVScalar text parsed =>
          let lk := Js.toLowerCase key in
          let len := String.length key in
          if match sc_contentLength acc with None => true | Some _ => false end
             && (len =? 14)%nat && String.eqb lk "content-length" then
            match parsed with
            | None => Throw (InvalidArgumentError "invalid content-length header")
            | Some n => scan_headers rest (mkScan (Some n) (sc_headers acc))
            end
          else if (len =? 17)%nat && String.eqb lk "transfer-encoding" then
            Throw (InvalidArgumentError "invalid transfer-encoding header")
          else if (len =? 10)%nat && String.eqb lk "connection" then
            Throw (InvalidArgumentError "invalid connection header")
          else if (len =? 10)%nat && String.eqb lk "keep-alive" then
            Throw (InvalidArgumentError "invalid keep-alive header")
          else if (len =? 7)%nat && String.eqb lk "upgrade" then
            Throw (InvalidArgumentError "invalid upgrade header")
          else if (len =? 6)%nat && String.eqb lk "expect" then
            Throw (NotSupportedError "expect header not supported")
          else
            scan_headers rest
              (mkScan (sc_contentLength acc)
                      (sc_headers acc ++ key ++ ": " ++ text
                       ++ String "013" (String "010" ""))%string)
      end
  end.

Section Constructor.

(** [net.isIP]. *)
Variable isIP : string -> bool.

Definition starts_with_bracket (s : string) : bool :=
  match s with String "[" _ => true | _ => false end.

Definition new (o : Opts) (defaultRequestTimeout : Value) (handler : Handler)
  : Completion Request :=
  p ← match o_path o with
      | VString (String "/" rest) => Normal (String "/" rest)
      | _ => Throw (InvalidArgumentError "path must be a valid path")
      end;
  m ← match o_method o with
      | VString m => Normal m
      | _ => Throw (InvalidArgumentError "method must be a string")
      end;
  _ ← (if truthy (o_upgrade o) && negb (isString (o_upgrade o))
       then Throw (InvalidArgumentError "upgrade must be a string")
       else Normal tt);
  let requestTimeout :=
    if nullish (o_requestTimeout o) && truthy defaultRequestTimeout
    then defaultRequestTimeout else o_requestTimeout o in
  rt ← match requestTimeout with
       | VUndefined | VNull => Normal None
       | VInt z =>
           if (z <? 0)%Z
           then Throw (InvalidArgumentError
                         "requestTimeout must be a positive integer or zero")
           else Normal (Some z)
       | _ => Throw (InvalidArgumentError
                       "requestTimeout must be a positive integer or zero")
       end;
  b ← match o_body o with
      | VUndefined | VNull => Normal None
      | VStream l => Normal (Some (BodyStream l))
      | VBuffer len => Normal (if (len =? 0)%nat then None else Some (BodyBuffer len))
      | VString s =>
          Normal (if (String.length s =? 0)%nat then None
                  else Some (BodyBuffer (String.length s)))
      | _ => Throw (InvalidArgumentError
                      "body must be a string, a Buffer or a Readable stream")
      end;
  let h :=
    match o_headers o with
    | Some hs =>
        match lookup_header "host" hs with
        | Some v => Some v
        | None => lookup_header "Host" hs
        end
    | None => None
    end in
  let sn :=
    match h with
    | Some v => if negb (starts_with_bracket v) && negb (isIP v) then Some v else None
    | None => None
    end in
  let idem :=
    match o_idempotent o with
    | None => String.eqb m "HEAD" || String.eqb m "GET"
    | Some i => i
    end in
  sc ← scan_headers (match o_headers o with Some hs => hs | None => [] end)
                    (mkScan None "");
  Normal (mkRequest handler m b h sn false (truthy (o_upgrade o)) p idem
            (sc_contentLength sc) (sc_headers sc) rt false false).

End Constructor.

(** *** The handler-facing methods *)

Record Result := mkResult {
  res_request : Request;
  res_events : list Event;       (* callbacks the handler observed, in order *)
  res_resumed : bool;            (* the stored resume callback was invoked *)
  res_throw : option Err
}.

Definition returns (r : Request) (evs : list Event) : Result :=
  mkResult r evs false None.
Definition throws (r : Request) (evs : list Event) (e : Err) : Result :=
  mkResult r evs false (Some e).

(** The module-level [destroy (request)]: disarm the request timer. *)
Definition destroy (r : Request) : Request := set_kTimeout r false.

Definition onError (r : Request) (err : Err) : Result :=
  if aborted r then returns r []
  else
    let r1 := destroy (set_aborted r true) in
    if kResume r1
    then mkResult (set_kResume r1 false) [OnError err] true None
    else mkResult r1 [OnError err] false None.

Definition seq (a : Result) (k : Request -> Result) : Result :=
  match res_throw a with
  | Some _ => a
  | None =>
      let b := k (res_request a) in
      mkResult (res_request b) (res_events a ++ res_events b)
               (res_resumed a || res_resumed b) (res_throw b)
  end.

Definition onConnect (r : Request) : Result :=
  if aborted r then throws r [] AssertionError
  else
    let r1 := set_kResume r true in
    let r2 :=
      match kRequestTimeout r1 with
      | Some z => if (z =? 0)%Z then r1 else set_kTimeout r1 true
      | None => r1
      end in
    match h_onConnect (kHandler r2) with
    | Proceed => returns r2 [OnConnect]
    | AbortNow e =>
        seq (returns r2 [OnConnect])
            (fun r3 => onError r3 (match e with Some e => e | None => RequestAbortedError end))
    | ThrowNow e => throws r2 [OnConnect] e
    end.

Definition onHeaders (r : Request) (statusCode : Z) : Result :=
  if aborted r then throws r [] AssertionError
  else returns (set_kTimeout r false) [OnHeaders statusCode].

Definition onBody (r : Request) : Result :=
  if aborted r then throws r [] AssertionError
  else returns r [OnData].

Definition onUpgrade (r : Request) (statusCode : Z) : Result :=
  if aborted r then throws r [] AssertionError
  else returns (destroy r) [OnUpgrade statusCode].

Definition onComplete (r : Request) : Result :=
  if aborted r then throws r [] AssertionError
  else returns (destroy r) [OnComplete].

(** Everything that can reach a request after it was dispatched: the
    client's calls, the abort callback given to the handler, and the
    request timer. *)
Inductive Call :=
| CallConnect
| CallHeaders (statusCode : Z)
| CallBody
| CallUpgrade (statusCode : Z)
| CallComplete
| CallError (err : Err)
| CallAbort (err : option Err)
| TimerFired.

Definition call (r : Request) (c : Call) : Result :=
  match c with
  | CallConnect => onConnect r
  | CallHeaders s => onHeaders r s
  | CallBody => onBody r
  | CallUpgrade s => onUpgrade r s
  | CallComplete => onComplete r
  | CallError e => onError r e
  | CallAbort e => onError r (match e with Some e => e | None => RequestAbortedError end)
  | TimerFired => if kTimeout r then onError r RequestTimeoutError else returns r []
  end.

(** The handler's view of a whole life: a thrown call leaves the request
    as it was and the caller goes on. *)
Fixpoint run (r : Request) (cs : list Call) : Request * list Event :=
  match cs with
  | [] => (r, [])
  | c :: cs' =>
      let a := call r c in
      let '(r', evs) := run (res_request a) cs' in
      (r', res_events a ++ evs)
  end.

Definition isError (e : Event) : bool :=
  match e with OnError _ => true | _ => false end.

End Request.

(** ** A state monad with JavaScript exceptions

    Client code mutates one client object and may throw at any point; the
    state reached at the throw is kept.  Loops carry fuel, and running out
    of it is a third outcome, never confused with a return. *)

Inductive Outcome (S A : Type) :=
| Ret (a : A) (s : S)
| Exc (e : Err) (s : S)
| OutOfFuel.
Arguments Ret {S A} a s.
Arguments Exc {S A} e s.
Arguments OutOfFuel {S A}.

Definition M (S A : Type) : Type := S -> Outcome S A.

#[global] Instance M_ret {S} : MRet (M S) := fun _ a s => Ret a s.
#[global] Instance M_bind {S} : MBind (M S) := fun _ _ k m s =>
  match m s with
  | Ret a s' => k a s'
  | Exc e s' => Exc e s'
  | OutOfFuel => OutOfFuel
  end.

Definition get {S} : M S S := fun s => Ret s s.
Definition gets {S A} (f : S -> A) : M S A := fun s => Ret (f s) s.
Definition modify {S} (f : S -> S) : M S unit := fun s => Ret tt (f s).
Definition throw {S A} (e : Err) : M S A := fun s => Exc e s.
Definition massert {S} (b : bool) : M S unit :=
  if b then mret tt else throw AssertionError.
Definition when {S} (b : bool) (m : M S unit) : M S unit :=
  if b then m else mret tt.

(** [try { m } catch (err) { h err }]. *)
Definition try_catch {S A} (m : M S A) (h : Err -> M S A) : M S A := fun s =>
  match m s with
  | Exc e s' => h e s'
  | o => o
  end.

Definition final_state {S A} (o : Outcome S A) : option S :=
  match o with
  | Ret _ s | Exc _ s => Some s
  | OutOfFuel => None
  end.

(** ** The parser-binding client *)

Module ClientBase.

(** The fields of a request this client reads.  [callback] is cleared by
    the request once its callback was consumed. *)
Record Request := mkRequest {
  id : nat;
  idempotent : bool;
  streaming : bool;
  hasBody : bool;
  servername : option string;
  callback : bool
}.

Record Socket := mkSocket {
  connecting : bool;
  authorizedOk : bool;           (* [authorized !== false || authorizationError] *)
  destroyed : bool;
  s_kClosed : bool;
  s_kError : option Err
}.

Inductive Event :=
| EvInvoke (rid : nat) (err : Err)      (* [request.invoke(err, null)] *)
| EvBody (err : Err)                    (* [body(err, null)] on the current response *)
| EvWrite (rid : nat)
| EvEmit (name : string) (err : option Err)
| EvNextTick (task : string).

Record Client := mkClient {
  kQueue : list (option Request);
  kRunningIdx : nat;
  kPendingIdx : nat;
  kPipelining : Z;
  kSocket : option Socket;
  parserBody : bool;             (* the parser holds a response body callback *)
  kSocketTimeout : Z;
  kRetryDelay : Z;
  kRetryTimeout : option Z;      (* a reconnect timer and the delay it was set with *)
  kClosed : bool;
  kDestroyed : bool;
  kServerName : option string;
  kWriting : bool;
  kOnDestroyed : option nat;     (* callbacks waiting; [None] once they ran *)
  events : list Event
}.

Definition set_queue (q : list (option Request)) (r p : nat) (c : Client) : Client :=
  mkClient q r p (kPipelining c) (kSocket c) (parserBody c) (kSocketTimeout c)
    (kRetryDelay c) (kRetryTimeout c) (kClosed c) (kDestroyed c) (kServerName c)
    (kWriting c) (kOnDestroyed c) (events c).
Definition set_socket (s : option Socket) (c : Client) : Client :=
  mkClient (kQueue c) (kRunningIdx c) (kPendingIdx c) (kPipelining c) s (parserBody c)
    (kSocketTimeout c) (kRetryDelay c) (kRetryTimeout c) (kClosed c) (kDestroyed c)
    (kServerName c) (kWriting c) (kOnDestroyed c) (events c).
Definition set_parserBody (b : bool) (c : Client) : Client :=
  mkClient (kQueue c) (kRunningIdx c) (kPendingIdx c) (kPipelining c) (kSocket c) b
    (kSocketTimeout c) (kRetryDelay c) (kRetryTimeout c) (kClosed c) (kDestroyed c)
    (kServerName c) (kWriting c) (kOnDestroyed c) (events c).
Definition set_retry (d : Z) (t : option Z) (c : Client) : Client :=
  mkClient (kQueue c) (kRunningIdx c) (kPendingIdx c) (kPipelining c) (kSocket c)
    (parserBody c) (kSocketTimeout c) d t (kClosed c) (kDestroyed c)
    (kServerName c) (kWriting c) (kOnDestroyed c) (events c).
Definition set_lifecycle (cl de : bool) (od : option nat) (c : Client) : Client :=
  mkClient (kQueue c) (kRunningIdx c) (kPendingIdx c) (kPipelining c) (kSocket c)
    (parserBody c) (kSocketTimeout c) (kRetryDelay c) (kRetryTimeout c) cl de
    (kServerName c) (kWriting c) od (events c).
Definition set_serverName (n : option string) (c : Client) : Client :=
  mkClient (kQueue c) (kRunningIdx c) (kPendingIdx c) (kPipelining c) (kSocket c)
    (parserBody c) (kSocketTimeout c) (kRetryDelay c) (kRetryTimeout c) (kClosed c)
    (kDestroyed c) n (kWriting c) (kOnDestroyed c) (events c).
Definition set_writing (w : bool) (c : Client) : Client :=
  mkClient (kQueue c) (kRunningIdx c) (kPendingIdx c) (kPipelining c) (kSocket c)
    (parserBody c) (kSocketTimeout c) (kRetryDelay c) (kRetryTimeout c) (kClosed c)
    (kDestroyed c) (kServerName c) w (kOnDestroyed c) (events c).
Definition log (evs : list Event) (c : Client) : Client :=
  mkClient (kQueue c) (kRunningIdx c) (kPendingIdx c) (kPipelining c) (kSocket c)
    (parserBody c) (kSocketTimeout c) (kRetryDelay c) (kRetryTimeout c) (kClosed c)
    (kDestroyed c) (kServerName c) (kWriting c) (kOnDestroyed c) (events c ++ evs).

(** The getters; counts are JavaScript numbers and may be negative. *)
Definition pending (c : Client) : Z := Z.of_nat (length (kQueue c)) - Z.of_nat (kPendingIdx c).
Definition running (c : Client) : Z := Z.of_nat (kPendingIdx c) - Z.of_nat (kRunningIdx c).
Definition size (c : Client) : Z := Z.of_nat (length (kQueue c)) - Z.of_nat (kRunningIdx c).

Definition connected (c : Client) : bool :=
  match kSocket c with
  | Some s => negb (connecting s) && authorizedOk s && negb (destroyed s)
  | None => false
  end.

Definition opt_string_eqb (a b : option string) : bool :=
  match a, b with
  | Some x, Some y => String.eqb x y
  | None, None => true
  | _, _ => false
  end.

(** [for (const request of requests) request.invoke(err, null)]; a null
    slot makes the call a [TypeError]. *)
Fixpoint invoke_all (reqs : list (option Request)) (err : Err) : M Client unit :=
  match reqs with
  | [] => mret tt
  | Some r :: rest => modify (log [EvInvoke (id r) err]);; invoke_all rest err
  | None :: _ => throw TypeError
  end.

(** The loop of [Parser.destroy] that sorts the running tail. *)
Fixpoint partition_retry (reqs : list (option Request))
  : option (list (option Request) * list (option Request)) :=
  match reqs with
  | [] => Some ([], [])
  | Some r :: rest =>
      '(retry, errs) ← partition_retry rest;
      if idempotent r && negb (streaming r)
      then Some (Some r :: retry, errs)
      else Some (retry, Some r :: errs)
  | None :: _ => None
  end.

Definition slice {A} (from to : nat) (l : list A) : list A :=
  take (to - from) (drop from l).

Definition Parser_destroy (err : Err) : M Client unit :=
  c ← get;
  if (kPendingIdx c <=? kRunningIdx c)%nat then
    massert (negb (parserBody c))
  else
    let body := parserBody c in
    let head := default None (kQueue c !! kRunningIdx c) in
    modify (set_parserBody false);;
    modify (set_queue (kQueue c) (S (kRunningIdx c)) (kPendingIdx c));;
    match partition_retry (slice (S (kRunningIdx c)) (kPendingIdx c) (kQueue c)) with
    | None => throw TypeError
    | Some (retryRequests, errorTail) =>
        modify (set_queue (splice_head (kPendingIdx c) retryRequests (kQueue c)) 0 0);;
        when body (modify (log [EvBody err]));;
        invoke_all (head :: errorTail) err
    end.

Definition connect : M Client unit :=
  c ← get;
  massert (negb (bool_decide (is_Some (kSocket c))));;
  massert (negb (bool_decide (is_Some (kRetryTimeout c))));;
  modify (set_socket (Some (mkSocket true true false false None))).

Definition write (r : Request) : M Client unit :=
  c ← get;
  match kSocket c with
  | None => throw TypeError
  | Some _ =>
      modify (log [EvWrite (id r)]);;
      when (hasBody r && streaming r) (modify (set_writing true))
  end.

Definition socket_destroy (s : Socket) : Socket :=
  mkSocket (connecting s) (authorizedOk s) true (s_kClosed s) (s_kError s).

(** [client.destroy(nop)] as the scheduler calls it. *)
Definition destroy : M Client unit :=
  c ← get;
  if kDestroyed c then
    match kOnDestroyed c with
    | Some n => modify (set_lifecycle (kClosed c) true (Some (S n)))
    | None => modify (log [EvNextTick "callback"])
    end
  else
    match kOnDestroyed c with
    | None => throw TypeError
    | Some n =>
        modify (set_retry (kRetryDelay c) None);;
        modify (set_lifecycle true true (Some (S n)));;
        match kSocket c with
        | Some s =>
            if s_kClosed s then modify (log [EvNextTick "onDestroyed"])
            else modify (set_socket (Some (socket_destroy s)))
        | None => modify (log [EvNextTick "onDestroyed"])
        end;;
        modify (log [EvNextTick "resume"])
    end.

Fixpoint resume (fuel : nat) : M Client unit :=
  match fuel with
  | O => fun _ => OutOfFuel
  | S fuel' =>
      c ← get;
      if kDestroyed c then
        let '(keep, requests) := splice_from (kPendingIdx c) (kQueue c) in
        modify (set_queue keep (kRunningIdx c) (kPendingIdx c));;
        invoke_all requests ClientDestroyedError
      else if (size c =? 0)%Z then
        when (kClosed c) destroy;;
        c ← get;
        when (0 <? kRunningIdx c)%nat (modify (set_queue [] 0 0))
      else
        when (256 <? kRunningIdx c)%nat
          (modify (set_queue (drop (kRunningIdx c) (kQueue c)) 0
                             (kPendingIdx c - kRunningIdx c)));;
        c ← get;
        if (kPipelining c <=? running c)%Z then mret tt
        else if (pending c =? 0)%Z then mret tt
        else
          match kQueue c !! kPendingIdx c with
          | Some (Some request) =>
              if negb (callback request) then
                modify (set_queue (splice_one (kPendingIdx c) (kQueue c))
                                  (kRunningIdx c) (kPendingIdx c));;
                resume fuel'
              else if negb (opt_string_eqb (kServerName c) (servername request))
                      && negb (running c =? 0)%Z then mret tt
              else
                when (negb (opt_string_eqb (kServerName c) (servername request)))
                  (modify (set_serverName (servername request));;
                   modify (fun c => set_socket (socket_destroy <$> kSocket c) c));;
                c ← get;
                if negb (bool_decide (is_Some (kSocket c)))
                   && negb (bool_decide (is_Some (kRetryTimeout c)))
                then connect
                else if negb (connected c) then mret tt
                else if kWriting c then mret tt
                else if negb (idempotent request) && negb (running c =? 0)%Z then mret tt
                else if streaming request && negb (running c =? 0)%Z then mret tt
                else
                  modify (set_queue (kQueue c) (kRunningIdx c) (S (kPendingIdx c)));;
                  write request;;
                  resume fuel'
          | _ => throw TypeError
          end
  end.

Definition run_resume : M Client unit :=
  c ← get; resume (S (length (kQueue c))).

(** The ['connect'] / ['secureConnect'] listener. *)
Definition onConnect : M Client unit :=
  c ← get;
  modify (set_retry 0 (kRetryTimeout c));;
  modify (fun c => set_socket
            ((fun s => mkSocket false (authorizedOk s) (destroyed s) (s_kClosed s)
                         (s_kError s)) <$> kSocket c) c);;
  modify (log [EvEmit "connect" None]);;
  run_resume.

(** The reconnect timer set by the ['close'] listener fires. *)
Definition onRetryTimeout : M Client unit :=
  c ← get;
  modify (set_retry (kRetryDelay c) None);;
  connect.

(** The ['close'] listener installed by [connect]. *)
Definition onClose : M Client unit :=
  c ← get;
  match kSocket c with
  | None => throw TypeError
  | Some socket =>
      let err := default (SocketError "closed") (s_kError socket) in
      modify (set_socket
                (Some (mkSocket (connecting socket) (authorizedOk socket) true true
                         (Some err))));;
      Parser_destroy err;;
      run_resume;;
      c ← get;
      if kDestroyed c then mret tt
      else
        modify (set_socket None);;
        c ← get;
        when (0 <? pending c)%Z
          (if negb (kRetryDelay c =? 0)%Z then
             modify (set_retry (Z.min (kRetryDelay c * 2) (kSocketTimeout c))
                               (Some (kRetryDelay c)))
           else
             connect;;
             modify (fun c => set_retry 1000 (kRetryTimeout c) c));;
        modify (log [EvEmit "disconnect" (Some err)])
  end.

(** A client as the constructor leaves it. *)
Definition new (pipelining socketTimeout : option Z) : Client :=
  mkClient [] 0 0
    (match pipelining with Some p => if (p =? 0)%Z then 1 else p | None => 1 end)%Z
    None false
    (default 30000%Z socketTimeout)
    0 None false false None false (Some 0%nat) [].

End ClientBase.

(** ** The llhttp client *)

Module Client.

Definition TIMEOUT_HEADERS : nat := 1.
Definition TIMEOUT_BODY : nat := 2.
Definition TIMEOUT_IDLE : nat := 3.
Definition TIMEOUT_CONNECT : nat := 4.

Record Parser := mkParser {
  timeoutValue : option Z;
  timeoutType : option nat;
  statusCode : option Z;
  p_upgrade : bool;
  p_headers : list string;       (* flat: field, value, field, value, ... *)
  p_trailers : list string;
  shouldKeepAlive : bool;
  paused : bool
}.

Record Socket := mkSocket {
  kConnecting : bool;
  destroyed : bool;
  kWriting : bool;
  kReset : bool;
  kNoRef : bool;
  kError : option Err;
  s_servername : option string;
  kParser : Parser
}.

Inductive Connection := ConnUpgrade | ConnKeepAlive | ConnClose.

Inductive Framing :=
| NoBody                         (* header, CRLF *)
| ContentLengthZero              (* header, content-length: 0, CRLF CRLF CRLF *)
| BufferBody (contentLength : Z) (len : nat)
| StreamBody (contentLength : option Z).

(** What [write] puts on the socket for one request. *)
Record Wire := mkWire {
  w_method : string;
  w_path : string;
  w_connection : Connection;
  w_hostAdded : bool;            (* the client's own host header was appended *)
  w_headers : string;
  w_framing : Framing
}.

Inductive Event :=
| Handler (hid : nat) (e : Request.Event)   (* a callback observed by a handler *)
| Written (hid : nat) (w : Wire)
| SocketDestroy (err : option Err)
| Emit (name : string) (err : option Err)
| NextTick (task : string)
| Warning (err : Err).

Record Config := mkConfig {
  protocol : string;
  kConnectTimeoutValue : Z;
  kKeepAliveDefaultTimeout : Z;
  kKeepAliveMaxTimeout : Z;
  kKeepAliveTimeoutThreshold : Z;
  kHeadersTimeout : Z;
  kBodyTimeout : Z;
  kStrictContentLength : bool
}.

Record Client := mkClient {
  config : Config;
  kPipelining : Z;
  kQueue : list (option Request.Request);
  kRunningIdx : nat;
  kPendingIdx : nat;
  kSocket : option Socket;
  kClosed : bool;
  kDestroyed : bool;
  kServerName : option string;
  kOnDestroyed : option nat;       (* callbacks waiting; [None] once they ran *)
  kResuming : nat;
  kNeedDrain : nat;
  kKeepAliveTimeoutValue : Z;
  trace : list Event
}.

Definition set_queue (q : list (option Request.Request)) (c : Client) : Client :=
  mkClient (config c) (kPipelining c) q (kRunningIdx c) (kPendingIdx c) (kSocket c)
    (kClosed c) (kDestroyed c) (kServerName c) (kOnDestroyed c) (kResuming c)
    (kNeedDrain c) (kKeepAliveTimeoutValue c) (trace c).
Definition set_runningIdx (i : nat) (c : Client) : Client :=
  mkClient (config c) (kPipelining c) (kQueue c) i (kPendingIdx c) (kSocket c)
    (kClosed c) (kDestroyed c) (kServerName c) (kOnDestroyed c) (kResuming c)
    (kNeedDrain c) (kKeepAliveTimeoutValue c) (trace c).
Definition set_pendingIdx (i : nat) (c : Client) : Client :=
  mkClient (config c) (kPipelining c) (kQueue c) (kRunningIdx c) i (kSocket c)
    (kClosed c) (kDestroyed c) (kServerName c) (kOnDestroyed c) (kResuming c)
    (kNeedDrain c) (kKeepAliveTimeoutValue c) (trace c).
Definition set_socket (s : option Socket) (c : Client) : Client :=
  mkClient (config c) (kPipelining c) (kQueue c) (kRunningIdx c) (kPendingIdx c) s
    (kClosed c) (kDestroyed c) (kServerName c) (kOnDestroyed c) (kResuming c)
    (kNeedDrain c) (kKeepAliveTimeoutValue c) (trace c).
Definition set_closed (b : bool) (c : Client) : Client :=
  mkClient (config c) (kPipelining c) (kQueue c) (kRunningIdx c) (kPendingIdx c)
    (kSocket c) b (kDestroyed c) (kServerName c) (kOnDestroyed c) (kResuming c)
    (kNeedDrain c) (kKeepAliveTimeoutValue c) (trace c).
Definition set_destroyed (b : bool) (c : Client) : Client :=
  mkClient (config c) (kPipelining c) (kQueue c) (kRunningIdx c) (kPendingIdx c)
    (kSocket c) (kClosed c) b (kServerName c) (kOnDestroyed c) (kResuming c)
    (kNeedDrain c) (kKeepAliveTimeoutValue c) (trace c).
Definition set_serverName (n : option string) (c : Client) : Client :=
  mkClient (config c) (kPipelining c) (kQueue c) (kRunningIdx c) (kPendingIdx c)
    (kSocket c) (kClosed c) (kDestroyed c) n (kOnDestroyed c) (kResuming c)
    (kNeedDrain c) (kKeepAliveTimeoutValue c) (trace c).
Definition set_onDestroyed (o : option nat) (c : Client) : Client :=
  mkClient (config c) (kPipelining c) (kQueue c) (kRunningIdx c) (kPendingIdx c)
    (kSocket c) (kClosed c) (kDestroyed c) (kServerName c) o (kResuming c)
    (kNeedDrain c) (kKeepAliveTimeoutValue c) (trace c).
Definition set_resuming (n : nat) (c : Client) : Client :=
  mkClient (config c) (kPipelining c) (kQueue c) (kRunningIdx c) (kPendingIdx c)
    (kSocket c) (kClosed c) (kDestroyed c) (kServerName c) (kOnDestroyed c) n
    (kNeedDrain c) (kKeepAliveTimeoutValue c) (trace c).
Definition set_needDrain (n : nat) (c : Client) : Client :=
  mkClient (config c) (kPipelining c) (kQueue c) (kRunningIdx c) (kPendingIdx c)
    (kSocket c) (kClosed c) (kDestroyed c) (kServerName c) (kOnDestroyed c)
    (kResuming c) n (kKeepAliveTimeoutValue c) (trace c).
Definition set_keepAliveTimeoutValue (z : Z) (c : Client) : Client :=
  mkClient (config c) (kPipelining c) (kQueue c) (kRunningIdx c) (kPendingIdx c)
    (kSocket c) (kClosed c) (kDestroyed c) (kServerName c) (kOnDestroyed c)
    (kResuming c) (kNeedDrain c) z (trace c).
Definition log (evs : list Event) (c : Client) : Client :=
  mkClient (config c) (kPipelining c) (kQueue c) (kRunningIdx c) (kPendingIdx c)
    (kSocket c) (kClosed c) (kDestroyed c) (kServerName c) (kOnDestroyed c)
    (kResuming c) (kNeedDrain c) (kKeepAliveTimeoutValue c) (trace c ++ evs).

Definition set_pipelining (z : Z) (c : Client) : Client :=
  mkClient (config c) z (kQueue c) (kRunningIdx c) (kPendingIdx c)
    (kSocket c) (kClosed c) (kDestroyed c) (kServerName c) (kOnDestroyed c)
    (kResuming c) (kNeedDrain c) (kKeepAliveTimeoutValue c) (trace c).

(** Socket and parser field updates. *)
Definition sock_destroyed (s : Socket) : Socket :=
  mkSocket (kConnecting s) true (kWriting s) (kReset s) (kNoRef s) (kError s)
    (s_servername s) (kParser s).
Definition sock_connecting (b : bool) (s : Socket) : Socket :=
  mkSocket b (destroyed s) (kWriting s) (kReset s) (kNoRef s) (kError s)
    (s_servername s) (kParser s).
Definition sock_writing (b : bool) (s : Socket) : Socket :=
  mkSocket (kConnecting s) (destroyed s) b (kReset s) (kNoRef s) (kError s)
    (s_servername s) (kParser s).
Definition sock_reset (b : bool) (s : Socket) : Socket :=
  mkSocket (kConnecting s) (destroyed s) (kWriting s) b (kNoRef s) (kError s)
    (s_servername s) (kParser s).
Definition sock_noRef (b : bool) (s : Socket) : Socket :=
  mkSocket (kConnecting s) (destroyed s) (kWriting s) (kReset s) b (kError s)
    (s_servername s) (kParser s).
Definition sock_error (e : option Err) (s : Socket) : Socket :=
  mkSocket (kConnecting s) (destroyed s) (kWriting s) (kReset s) (kNoRef s) e
    (s_servername s) (kParser s).
Definition sock_parser (p : Parser) (s : Socket) : Socket :=
  mkSocket (kConnecting s) (destroyed s) (kWriting s) (kReset s) (kNoRef s) (kError s)
    (s_servername s) p.

(** The getters.  Counts are JavaScript numbers. *)
Definition kPending (c : Client) : Z :=
  Z.of_nat (length (kQueue c)) - Z.of_nat (kPendingIdx c).
Definition kRunning (c : Client) : Z :=
  Z.of_nat (kPendingIdx c) - Z.of_nat (kRunningIdx c).
Definition kSize (c : Client) : Z :=
  Z.of_nat (length (kQueue c)) - Z.of_nat (kRunningIdx c).

Definition kConnected (c : Client) : Z :=
  match kSocket c with
  | Some s => if negb (kConnecting s) && negb (destroyed s) then 1 else 0
  | None => 0
  end.

(** [client[kPipelining] || 1]. *)
Definition pipelining_or_1 (c : Client) : Z :=
  if (kPipelining c =? 0)%Z then 1%Z else kPipelining c.

Definition kBusy (c : Client) : bool :=
  match kSocket c with
  | Some s => kReset s || kWriting s
  | None => false
  end
  || (pipelining_or_1 c <=? kSize c)%Z
  || (0 <? kPending c)%Z.

Definition isStream (b : option Request.Body) : bool :=
  match b with Some (Request.BodyStream _) => true | _ => false end.

Definition opt_Z_eqb (a b : option Z) : bool :=
  match a, b with
  | Some x, Some y => (x =? y)%Z
  | None, None => true
  | _, _ => false
  end.

Definition on_socket (f : Socket -> Socket) : M Client unit :=
  modify (fun c => set_socket (f <$> kSocket c) c).

(** Modelled from the spec: [util.destroy(socket, err)] is not among the
    sources; the spec has it destroy the socket, and a socket is destroyed
    once.  The ['error'] and ['close'] events follow from the environment. *)
Definition util_destroy (err : option Err) : M Client unit :=
  c ← get;
  match kSocket c with
  | Some s =>
      if destroyed s then mret tt
      else on_socket sock_destroyed;; modify (log [SocketDestroy err])
  | None => mret tt
  end.

(** [Parser.setTimeout (value, type)]. *)
Definition Parser_setTimeout (value : Z) (type : nat) (p : Parser) : Parser :=
  mkParser (Some value) (Some type) (statusCode p) (p_upgrade p) (p_headers p)
    (p_trailers p) (shouldKeepAlive p) (paused p).

Definition new_Parser : Parser :=
  mkParser None None None false [] [] false false.

(** Deliver what a request method did to its handler; the caller gets the
    request back together with what the method threw. *)
Definition deliver (res : Request.Result) : M Client (Request.Request * option Err) :=
  modify (log (Handler (Request.h_id (Request.kHandler (Request.res_request res)))
                 <$> Request.res_events res));;
  mret (Request.res_request res, Request.res_throw res).

(** [request.onError(err); assert(request.aborted)]. *)
Definition fail_request (r : Request.Request) (err : Err) : M Client Request.Request :=
  '(r1, _) ← deliver (Request.onError r err);
  massert (Request.aborted r1);;
  mret r1.

Fixpoint fail_all (reqs : list (option Request.Request)) (err : Err) : M Client unit :=
  match reqs with
  | [] => mret tt
  | Some r :: rest => fail_request r err;; fail_all rest err
  | None :: _ => throw TypeError
  end.

Definition connect : M Client unit :=
  c ← get;
  massert (negb (bool_decide (is_Some (kSocket c))));;
  modify (set_socket
            (Some (mkSocket true false false false false None (kServerName c) new_Parser))).

Section Sources.

(** [util.bodyLength], a collaborator whose source is not at hand:
    [None] is JavaScript's null. *)
Variable bodyLength : option Request.Body -> option Z.

Definition expectsPayload (method : string) : bool :=
  String.eqb method "PUT" || String.eqb method "POST" || String.eqb method "PATCH".

Definition write (request : Request.Request) : M Client (bool * Request.Request) :=
  c ← get;
  let body := Request.body request in
  let method := Request.method request in
  let hid := Request.h_id (Request.kHandler request) in
  let contentLength0 :=
    match bodyLength body with
    | Some n => Some n
    | None => Request.contentLength request
    end in
  let contentLength :=
    if opt_Z_eqb contentLength0 (Some 0%Z) && negb (expectsPayload method)
    then None else contentLength0 in
  let mismatch :=
    bool_decide (is_Some (Request.contentLength request))
    && negb (opt_Z_eqb (Request.contentLength request) contentLength) in
  if mismatch && kStrictContentLength (config c) then
    r1 ← fail_request request RequestContentLengthMismatchError;
    mret (false, r1)
  else
    when mismatch (modify (log [Warning RequestContentLengthMismatchError]));;
    '(r1, thrown) ← deliver (Request.onConnect request);
    r2 ← match thrown with
         | Some err => fail_request r1 err
         | None => mret r1
         end;
    if Request.aborted r2 then mret (false, r2)
    else
      match kSocket c with
      | None => throw TypeError
      | Some _ =>
          when (String.eqb method "HEAD") (on_socket (sock_reset true));;
          when (Request.upgrade r2 || String.eqb method "CONNECT")
            (on_socket (sock_reset true));;
          let wire :=
            mkWire method (Request.path r2)
              (if Request.upgrade r2 then ConnUpgrade
               else if negb (kPipelining c =? 0)%Z then ConnKeepAlive else ConnClose)
              (match Request.host r2 with
               | Some h => negb (Js.truthy_string h)
               | None => true
               end)
              (Request.headers r2) in
          match body with
          | None =>
              if opt_Z_eqb contentLength (Some 0%Z) then
                modify (log [Written hid (wire ContentLengthZero)])
              else
                massert (opt_Z_eqb contentLength None);;
                modify (log [Written hid (wire NoBody)])
          | Some (Request.BodyBuffer len) =>
              match contentLength with
              | None => throw AssertionError
              | Some n =>
                  modify (log [Written hid (wire (BufferBody n len))]);;
                  when (negb (expectsPayload method)) (on_socket (sock_reset true))
              end
          | Some (Request.BodyStream _) =>
              on_socket (sock_writing true);;
              c ← get;
              massert (negb (opt_Z_eqb contentLength (Some 0%Z)) || (kRunning c =? 0)%Z)
          end;;
          mret (true, r2)
      end.

Inductive Callback := CbUndefined | CbFunction | CbOther.

(** [emitDrain]. *)
Definition emitDrain : M Client unit :=
  modify (set_needDrain 0);; modify (log [Emit "drain" None]).

(** The closure [onDestroyed] of [destroy]: run the waiting callbacks. *)
Definition onDestroyed : M Client unit :=
  c ← get;
  match kOnDestroyed c with
  | Some n => modify (set_onDestroyed None);;
              modify (log (replicate n (Emit "destroyed" None)))
  | None => throw TypeError
  end.

(** [destroy (err, callback)] up to its last statement, [resume(this)],
    which is passed in. *)
Definition destroy_with (resume_this : M Client unit) (err : option Err) : M Client unit :=
  c ← get;
  if kDestroyed c then
    match kOnDestroyed c with
    | Some n => modify (set_onDestroyed (Some (S n)))
    | None => modify (log [NextTick "callback"])
    end
  else
    let err := default ClientDestroyedError err in
    let '(keep, requests) := splice_from (kPendingIdx c) (kQueue c) in
    modify (set_queue keep);;
    fail_all requests err;;
    modify (set_closed true);;
    modify (set_destroyed true);;
    match kOnDestroyed c with
    | None => throw TypeError
    | Some n =>
        modify (set_onDestroyed (Some (S n)));;
        match kSocket c with
        | None => modify (log [NextTick "onDestroyed"])
        | Some _ => util_destroy (Some err)
        end;;
        resume_this
    end.

(** The part of [resume] after [_resume]: head compaction. *)
Definition compact : M Client unit :=
  c ← get;
  when (256 <? kRunningIdx c)%nat
    (modify (set_queue (drop (kRunningIdx c) (kQueue c)));;
     modify (set_pendingIdx (kPendingIdx c - kRunningIdx c));;
     modify (set_runningIdx 0)).

Definition resume_with (_resume : bool -> M Client unit) (sync : bool) : M Client unit :=
  c ← get;
  if (kResuming c =? 2)%nat then mret tt
  else
    modify (set_resuming 2);;
    _resume sync;;
    modify (set_resuming 0);;
    compact.

(** The timer and ref bookkeeping at the top of the scheduler loop. *)
Definition resume_timers (socket : Socket) : M Client unit :=
  c ← get;
  (if (kSize c =? 0)%Z
   then when (negb (kNoRef socket)) (on_socket (sock_noRef true))
   else when (kNoRef socket) (on_socket (sock_noRef false)));;
  let p := kParser socket in
  let setT v t := on_socket (fun s => sock_parser (Parser_setTimeout v t (kParser s)) s) in
  if kConnecting socket then
    when (negb (bool_decide (timeoutType p = Some TIMEOUT_CONNECT)))
      (setT (kConnectTimeoutValue (config c)) TIMEOUT_CONNECT)
  else if (kSize c =? 0)%Z then
    when (negb (bool_decide (timeoutType p = Some TIMEOUT_IDLE)))
      (setT (kKeepAliveTimeoutValue c) TIMEOUT_IDLE)
  else if (0 <? kRunning c)%Z && (default 0 (statusCode p) <? 200)%Z then
    when (negb (bool_decide (timeoutType p = Some TIMEOUT_HEADERS)))
      (match kQueue c !! kRunningIdx c with
       | Some (Some request) => setT (kHeadersTimeout (config c)) TIMEOUT_HEADERS
       | _ => throw TypeError
       end)
  else mret tt.

Definition opt_string_eqb (a b : option string) : bool :=
  match a, b with
  | Some x, Some y => String.eqb x y
  | None, None => true
  | _, _ => false
  end.

(** One iteration of the scheduler loop from [if (client[kPending] === 0)]
    on; [socket] is the constant read at the top of the iteration and
    [continue] is the next iteration. *)
Definition resume_dispatch (continue : M Client unit) (socket : option Socket)
  : M Client unit :=
  c ← get;
  if (kPending c =? 0)%Z then mret tt
  else if (pipelining_or_1 c <=? kRunning c)%Z then mret tt
  else
    match kQueue c !! kPendingIdx c with
    | Some (Some request) =>
        let differs :=
          String.eqb (protocol (config c)) "https:"
          && negb (opt_string_eqb (kServerName c) (Request.servername request)) in
        if differs && (0 <? kRunning c)%Z then mret tt
        else
          when differs (modify (set_serverName (Request.servername request)));;
          if differs
             && match socket with
                | Some s => negb (opt_string_eqb (s_servername s)
                                    (Request.servername request))
                | None => false
                end
          then util_destroy (Some (InformationalError "servername changed"))
          else
            match socket with
            | None => connect;; continue
            | Some _ =>
                c ← get;
                match kSocket c with
                | None => throw TypeError
                | Some s =>
                    if destroyed s || kConnecting s || kWriting s || kReset s
                    then mret tt
                    else if (0 <? kRunning c)%Z && negb (Request.idempotent request)
                    then mret tt
                    else if (0 <? kRunning c)%Z
                            && (Request.upgrade request
                                || String.eqb (Request.method request) "CONNECT")
                    then mret tt
                    else
                      let request :=
                        if isStream (Request.body request)
                           && opt_Z_eqb (bodyLength (Request.body request)) (Some 0%Z)
                        then Request.set_body request None else request in
                      modify (fun c => set_queue
                                (<[kPendingIdx c := Some request]> (kQueue c)) c);;
                      if (0 <? kRunning c)%Z && isStream (Request.body request)
                      then mret tt
                      else
                        let attempt : M Client (bool * Request.Request) :=
                          if Request.aborted request then mret (false, request)
                          else write request in
                        attempt ≫= fun wr : bool * Request.Request =>
                        (if fst wr then
                           modify (fun c => set_queue
                                     (<[kPendingIdx c := Some (snd wr)]> (kQueue c)) c);;
                           modify (fun c => set_pendingIdx (S (kPendingIdx c)) c)
                         else
                           modify (fun c => set_queue
                                     (splice_one (kPendingIdx c) (kQueue c)) c));;
                        continue
                end
            end
    | _ => throw TypeError
    end.

(** The scheduler loop.  [fuel] bounds the number of iterations; the
    nested [client.destroy(util.nop)] ends in a [resume] of its own. *)
Fixpoint _resume (fuel : nat) (sync : bool) : M Client unit :=
  match fuel with
  | O => fun _ => OutOfFuel
  | S fuel' =>
      c ← get;
      if kDestroyed c then massert (kPending c =? 0)%Z
      else if kClosed c && (kSize c =? 0)%Z then
        destroy_with (resume_with (_resume fuel') false) None;;
        _resume fuel' sync
      else
        let socket := kSocket c in
        match socket with
        | Some s => resume_timers s
        | None => mret tt
        end;;
        c ← get;
        if kBusy c then
          modify (set_needDrain 2);;
          resume_dispatch (_resume fuel' sync) socket
        else if (kNeedDrain c =? 2)%nat then
          (if sync
           then modify (set_needDrain 1);; modify (log [NextTick "emitDrain"])
           else emitDrain);;
          _resume fuel' sync
        else resume_dispatch (_resume fuel' sync) socket
  end.

(** Enough iterations for any queue: an iteration that goes round again
    has written or dropped a request, connected, signalled the drain or
    destroyed the client. *)
Definition resume_fuel (c : Client) : nat := 4 * length (kQueue c) + 5.

Definition resume (sync : bool) : M Client unit :=
  c ← get; resume_with (_resume (resume_fuel c)) sync.

Definition destroy (err : option Err) (callback : Callback) : M Client unit :=
  match callback with
  | CbOther => throw (InvalidArgumentError "invalid callback")
  | _ => destroy_with (resume false) err
  end.

Definition close (callback : Callback) : M Client unit :=
  match callback with
  | CbOther => throw (InvalidArgumentError "invalid callback")
  | _ =>
      c ← get;
      if kDestroyed c then modify (log [NextTick "callback"])
      else
        modify (set_closed true);;
        if (kSize c =? 0)%Z then destroy None CbFunction
        else
          match kOnDestroyed c with
          | Some n => modify (set_onDestroyed (Some (S n)))
          | None => throw TypeError
          end
  end.

(** [array[i] = v]: JavaScript grows the array when [i] is past its end. *)
Definition js_set {A} (i : nat) (v : option A) (l : list (option A)) : list (option A) :=
  if (i <? length l)%nat then <[i := v]> l
  else l ++ replicate (i - length l) None ++ [v].

Variable isIP : string -> bool.

Inductive HandlerArg :=
| HaUndefined
| HaNull
| HaPrimitive
| HaFunction
| HaObject (onErrorIsFunction : bool) (h : Request.Handler).

Definition lift {A} (m : Completion A) : M Client A :=
  match m with
  | Normal a => mret a
  | Throw e => throw e
  end.

(** [dispatch (opts, handler)].  [opts = None] stands for a nullish
    [opts], which the constructor cannot destructure. *)
Definition dispatch (opts : option Request.Opts) (handler : HandlerArg) : M Client bool :=
  match handler with
  | HaObject onErrorIsFunction h =>
      try_catch
        (request ← lift (match opts with
                         | Some o => Request.new isIP o Request.VUndefined h
                         | None => Throw TypeError
                         end);
         c ← get;
         if kDestroyed c then throw ClientDestroyedError
         else if kClosed c then throw ClientClosedError
         else
           modify (set_queue (kQueue c ++ [Some request]));;
           (if negb (kResuming c =? 0)%nat then mret tt
            else if isStream (Request.body request) then
              modify (set_resuming 1);; modify (log [NextTick "resume"])
            else resume true);;
           c ← get;
           when (negb (kResuming c =? 0)%nat && negb (kNeedDrain c =? 2)%nat && kBusy c)
             (modify (set_needDrain 2)))
        (fun err =>
           if onErrorIsFunction
           then modify (log [Handler (Request.h_id h) (Request.OnError err)])
           else throw (InvalidArgumentError "invalid onError method"));;
      c ← get;
      mret (kNeedDrain c <? 2)%nat
  | _ => throw (InvalidArgumentError "handler")
  end.

(** *** Socket events *)

Definition onSocketConnect : M Client unit :=
  c ← get;
  match kSocket c with
  | None => throw TypeError
  | Some _ =>
      on_socket (sock_connecting false);;
      modify (log [Emit "connect" None]);;
      resume false
  end.

(** The [while] loop of the certificate error: every pending request
    for the current server name is failed and stepped over. *)
Fixpoint fail_servername (reqs : list (option Request.Request)) (err : Err)
  : M Client unit :=
  match reqs with
  | [] => mret tt
  | None :: _ => throw TypeError
  | Some r :: rest =>
      c ← get;
      if opt_string_eqb (Request.servername r) (kServerName c) then
        modify (set_pendingIdx (S (kPendingIdx c)));;
        r1 ← fail_request r err;
        modify (fun c' => set_queue (<[kPendingIdx c := Some r1]> (kQueue c')) c');;
        fail_servername rest err
      else mret tt
  end.

Definition onSocketError (err : Err) : M Client unit :=
  c ← get;
  match kSocket c with
  | None => throw TypeError
  | Some _ =>
      on_socket (sock_error (Some err));;
      if String.eqb (err_code err) "ERR_TLS_CERT_ALTNAME_INVALID" then
        massert (kRunning c =? 0)%Z;;
        fail_servername (drop (kPendingIdx c) (kQueue c)) err
      else if (kRunning c =? 0)%Z
              && negb (String.eqb (err_code err) "UND_ERR_INFO")
              && negb (String.eqb (err_code err) "UND_ERR_SOCKET") then
        massert (kPendingIdx c =? kRunningIdx c)%nat;;
        let '(keep, requests) := splice_from (kRunningIdx c) (kQueue c) in
        modify (set_queue keep);;
        fail_all requests err;;
        c ← get;
        massert (kSize c =? 0)%Z
      else mret tt
  end.

Definition onSocketClose : M Client unit :=
  c ← get;
  match kSocket c with
  | None => throw TypeError
  | Some this =>
      let err := default (SocketError "closed") (kError this) in
      modify (set_socket None);;
      (if kDestroyed c then
         massert (kPending c =? 0)%Z;;
         let '(keep, requests) := splice_from (kRunningIdx c) (kQueue c) in
         modify (set_queue keep);;
         fail_all requests err
       else if (0 <? kRunning c)%Z && negb (String.eqb (err_code err) "UND_ERR_INFO") then
         let request := kQueue c !! kRunningIdx c in
         modify (set_queue (js_set (kRunningIdx c) None (kQueue c)));;
         modify (set_runningIdx (S (kRunningIdx c)));;
         match request with
         | Some (Some r) => fail_request r err;; mret tt
         | _ => throw TypeError
         end
       else mret tt);;
      modify (fun c => set_pendingIdx (kRunningIdx c) c);;
      c ← get;
      massert (kRunning c =? 0)%Z;;
      (if kConnecting this
       then modify (log [Emit "connectionError" (Some err)])
       else modify (log [Emit "disconnect" (Some err)]));;
      resume false
  end.

(** *** Parser callbacks *)

(** [util.parseKeepAliveTimeout], a collaborator whose source is not at
    hand: the advertised timeout in milliseconds, or null. *)
Variable parseKeepAliveTimeout : string -> option Z.

Definition on_parser (f : Parser -> Parser) : M Client unit :=
  on_socket (fun s => sock_parser (f (kParser s)) s).

(** The loop of [onHeadersComplete] over the raw headers: the first
    [keep-alive] and the first [trailer] value. *)
Fixpoint scan_raw (hs : list string) (keepAlive trailers : option string)
  : option string * option string :=
  match hs with
  | key :: val :: rest =>
      if negb (bool_decide (is_Some keepAlive))
         && (String.length key =? 10)%nat
         && String.eqb (Js.toLowerCase key) "keep-alive" then
        if bool_decide (is_Some trailers) then (Some val, trailers)
        else scan_raw rest (Some val) trailers
      else if negb (bool_decide (is_Some trailers))
              && (String.length key =? 7)%nat
              && String.eqb (Js.toLowerCase key) "trailer" then
        if bool_decide (is_Some keepAlive) then (keepAlive, Some val)
        else scan_raw rest keepAlive (Some val)
      else scan_raw rest keepAlive trailers
  | _ => (keepAlive, trailers)
  end.

Definition is_space (c : ascii) : bool :=
  let n := nat_of_ascii c in
  (n =? 32)%nat || ((9 <=? n)%nat && (n <=? 13)%nat).

Fixpoint skip_spaces (s : string) : string :=
  match s with
  | String c s' => if is_space c then skip_spaces s' else s
  | EmptyString => s
  end.

(** [s.split(/,\s*/)]. *)
Fixpoint split_commas (fuel : nat) (cur s : string) : list string :=
  match fuel with
  | O => [cur]
  | S fuel' =>
      match s with
      | EmptyString => [cur]
      | String "," s' => cur :: split_commas fuel' "" (skip_spaces s')
      | String c s' => split_commas fuel' (cur ++ String c "")%string s'
      end
  end.

(** The keep-alive block of [onHeadersComplete]. *)
Definition keepAlive_block (shouldKeepAlive : bool) (keepAlive : option string)
  : M Client unit :=
  c ← get;
  if shouldKeepAlive && negb (kPipelining c =? 0)%Z then
    let keepAliveTimeout :=
      match keepAlive with
      | Some v => parseKeepAliveTimeout v
      | None => None
      end in
    match keepAliveTimeout with
    | Some kat =>
        let timeout :=
          Z.min (kat - kKeepAliveTimeoutThreshold (config c))
                (kKeepAliveMaxTimeout (config c)) in
        if (timeout <=? 0)%Z then on_socket (sock_reset true)
        else modify (set_keepAliveTimeoutValue timeout)
    | None =>
        modify (set_keepAliveTimeoutValue (kKeepAliveDefaultTimeout (config c)))
    end
  else on_socket (sock_reset true).

Definition Parser_onHeadersComplete (status : Z) (upgrade shouldKeepAlive' : bool)
  : M Client (option Z) :=
  c ← get;
  match kSocket c with
  | None => throw TypeError
  | Some socket =>
      if destroyed socket then mret (Some (-1)%Z)
      else
        match kQueue c !! kRunningIdx c with
        | Some (Some request) =>
            let p := kParser socket in
            let rawHeaders := p_headers p in
            massert (negb (p_upgrade p));;
            massert (default 0 (statusCode p) <? 200)%Z;;
            if (status =? 100)%Z then
              util_destroy (Some (SocketError "bad response"));; mret (Some (-1)%Z)
            else if upgrade && negb (Request.upgrade request) then
              util_destroy (Some (SocketError "bad upgrade"));; mret (Some (-1)%Z)
            else
              massert (bool_decide (timeoutType p = Some TIMEOUT_HEADERS));;
              on_parser (fun p => mkParser (timeoutValue p) (timeoutType p) (Some status)
                                    (p_upgrade p) (p_headers p) (p_trailers p)
                                    shouldKeepAlive' (paused p));;
              when (200 <=? status)%Z
                (on_parser (Parser_setTimeout (kBodyTimeout (config c)) TIMEOUT_BODY));;
              let set_upgrade :=
                on_parser (fun p => mkParser (timeoutValue p) (timeoutType p)
                                      (statusCode p) true (p_headers p) (p_trailers p)
                                      (shouldKeepAlive p) (paused p)) in
              if String.eqb (Request.method request) "CONNECT"
                 && (200 <=? status)%Z && (status <? 300)%Z then
                massert (kRunning c =? 1)%Z;; set_upgrade;; mret (Some 2%Z)
              else if upgrade then
                massert (kRunning c =? 1)%Z;; set_upgrade;; mret (Some 2%Z)
              else
                massert (Nat.even (length rawHeaders));;
                let '(keepAlive, trailers) := scan_raw rawHeaders None None in
                on_parser (fun p => mkParser (timeoutValue p) (timeoutType p)
                                      (statusCode p) (p_upgrade p) []
                                      (match trailers with
                                       | Some t =>
                                           split_commas (String.length t) ""
                                             (Js.toLowerCase t)
                                       | None => []
                                       end)
                                      (shouldKeepAlive p) (paused p));;
                keepAlive_block shouldKeepAlive' keepAlive;;
                '(r1, thrown) ← deliver (Request.onHeaders request status);
                modify (fun c => set_queue (<[kRunningIdx c := Some r1]> (kQueue c)) c);;
                match thrown with
                | Some err => util_destroy (Some err)
                | None => mret tt
                end;;
                if String.eqb (Request.method request) "HEAD" then
                  c ← get;
                  massert (match kSocket c with Some s => kReset s | None => false end);;
                  mret (Some 1%Z)
                else if (status <? 200)%Z then mret (Some 1%Z)
                else mret None
        | _ => throw AssertionError
        end
  end.

Definition TrailerMismatchError : Err :=
  mkErr "TrailerMismatchError" "UND_ERR_TRAILER_MISMATCH"
        "Trailers does not match trailer header".

(** Every announced trailer is among the keys of the trailing headers. *)
Fixpoint has_key (trailer : string) (raw : list string) : bool :=
  match raw with
  | key :: _ :: rest =>
      ((String.length key =? String.length trailer)%nat
       && String.eqb (Js.toLowerCase key) (Js.toLowerCase trailer))
      || has_key trailer rest
  | [key] =>
      (String.length key =? String.length trailer)%nat
      && String.eqb (Js.toLowerCase key) (Js.toLowerCase trailer)
  | [] => false
  end.

Definition Parser_onMessageComplete : M Client (option Z) :=
  c ← get;
  match kSocket c with
  | None => throw TypeError
  | Some socket =>
      let p := kParser socket in
      if destroyed socket then mret (Some (-1)%Z)
      else if p_upgrade p then mret None
      else
        match kQueue c !! kRunningIdx c with
        | Some (Some request) =>
            massert (match statusCode p with Some s => (100 <=? s)%Z | None => false end);;
            on_parser (fun p => mkParser (timeoutValue p) (timeoutType p) None
                                  (p_upgrade p) (p_headers p) [] (shouldKeepAlive p)
                                  (paused p));;
            massert (Nat.even (length (p_headers p)));;
            on_parser (fun p => mkParser (timeoutValue p) (timeoutType p) (statusCode p)
                                  (p_upgrade p) [] (p_trailers p) (shouldKeepAlive p)
                                  (paused p));;
            if (default 0 (statusCode p) <? 200)%Z then mret None
            else if negb (forallb (fun t => has_key t (p_headers p)) (p_trailers p)) then
              util_destroy (Some TrailerMismatchError);; mret (Some (-1)%Z)
            else
              '(r1, thrown) ← deliver (Request.onComplete request);
              match thrown with
              | Some err => fail_request r1 err;; mret tt
              | None => mret tt
              end;;
              modify (set_queue (js_set (kRunningIdx c) None (kQueue c)));;
              modify (set_runningIdx (S (kRunningIdx c)));;
              c ← get;
              (if kWriting socket then
                 util_destroy (Some (InformationalError "reset"))
               else if negb (shouldKeepAlive p) then
                 util_destroy (Some (InformationalError "reset"))
               else if kReset socket && (kRunning c =? 0)%Z then
                 util_destroy (Some (InformationalError "reset"))
               else resume false);;
              mret None
        | _ => throw AssertionError
        end
  end.

(** [onUpgrade]: the socket is handed to the request and leaves the
    client.  Whether the socket's stream is paused is not modelled. *)
Definition Parser_onUpgrade : M Client unit :=
  c ← get;
  match kSocket c with
  | None => throw TypeError
  | Some socket =>
      let p := kParser socket in
      massert (p_upgrade p);;
      match kQueue c !! kRunningIdx c with
      | Some (Some request) =>
          massert (negb (destroyed socket));;
          massert (negb (paused p));;
          massert (Request.upgrade request
                   || String.eqb (Request.method request) "CONNECT");;
          massert (Nat.even (length (p_headers p)));;
          modify (set_socket None);;
          modify (set_queue (js_set (kRunningIdx c) None (kQueue c)));;
          modify (set_runningIdx (S (kRunningIdx c)));;
          modify (log [Emit "disconnect" (Some (InformationalError "upgrade"))]);;
          '(_, thrown) ← deliver (Request.onUpgrade request (default 0%Z (statusCode p)));
          match thrown with
          | Some err => modify (log [SocketDestroy (Some err)])
          | None => mret tt
          end;;
          resume false
      | _ => throw AssertionError
      end
  end.

End Sources.

(** Modelled from the spec: [util.bodyLength] is not among the sources.
    A request without body has length 0, a buffer its byte length, and a
    stream has a known length only once it has ended. *)
Definition bodyLength (b : option Request.Body) : option Z :=
  match b with
  | None => Some 0%Z
  | Some (Request.BodyBuffer len) => Some (Z.of_nat len)
  | Some (Request.BodyStream ended) => Z.of_nat <$> ended
  end.

Definition defaultConfig (protocol : string) : Config :=
  mkConfig protocol 10000 4000 600000 1000 30000 30000 true.

(** A client as the constructor leaves it; [pipelining = None] is a
    nullish option. *)
Definition new (cfg : Config) (pipelining : option Z) : Client :=
  mkClient cfg (default 1%Z pipelining) [] 0 0 None false false None (Some 0%nat) 0 0
    (kKeepAliveDefaultTimeout cfg) [].

End Client.

(** ** Collaborators given by the specification *)

Module Util.

Definition digit_value (c : ascii) : option Z :=
  let n := nat_of_ascii c in
  if (48 <=? n)%nat && (n <=? 57)%nat then Some (Z.of_nat (n - 48)) else None.

(** The longest run of decimal digits at the head of [s]. *)
Fixpoint leading_digits (s : string) (acc : option Z) : option Z :=
  match s with
  | String c s' =>
      match digit_value c with
      | Some d => leading_digits s' (Some (default 0%Z acc * 10 + d)%Z)
      | None => acc
      end
  | EmptyString => acc
  end.

Fixpoint drop_string (n : nat) (s : string) : string :=
  match n, s with
  | S n', String _ s' => drop_string n' s'
  | _, _ => s
  end.

(** The leftmost [timeout=] that is followed by a digit. *)
Fixpoint find_timeout (s : string) : option Z :=
  match (if String.prefix "timeout=" s then leading_digits (drop_string 8 s) None
         else None) with
  | Some n => Some n
  | None =>
      match s with
      | String _ s' => find_timeout s'
      | EmptyString => None
      end
  end.

(** Modelled from the spec: [util.parseKeepAliveTimeout] is not among the
    sources.  The spec reads [Keep-Alive: timeout=N] as an idle time of N
    seconds, which the client keeps in milliseconds; a value without a
    timeout gives null. *)
Definition parseKeepAliveTimeout (val : string) : option Z :=
  (fun n => n * 1000)%Z <$> find_timeout val.

(** [net.isIP] on the dotted IPv4 literals used in the examples. *)
Definition isIP (s : string) : bool := String.eqb s "127.0.0.1".

End Util.

(** * Properties *)

(** ** Redirects *)

Section RedirectFacts.

Import Redirect.

Variable resolve : string -> string -> option ParsedURL.

(** C9 (as the code has it).  When a 303 response with a Location is
    followed, the request dispatched again by [onComplete] has method GET
    and no body for every original method except HEAD; a HEAD request is
    dispatched again as HEAD, with the body it had. *)
Theorem C9_see_other_redispatch (h h' : RedirectHandler) (raw : list string) :
  onHeaders resolve h 303 raw = Done h' ->
  followed h' = true ->
  exists o,
    trace (onComplete h') = trace h ++ [EvDispatch o] /\
    (if String.eqb (method (opts h)) "HEAD"
     then method o = "HEAD" /\ body o = body (opts h)
     else method o = "GET" /\ body o = None).
Proof.
  unfold onHeaders, forward. cbn [redirectCodes existsb Nat.eqb negb orb].
  intros Hrun Hf. unfold onComplete. rewrite Hf.
  exists (opts h'). cbn [trace opts].
  destruct (parseLocation raw) as [l|] eqn:Hloc.
  2:{ injection Hrun as <-. unfold followed in Hf. cbn in Hf. discriminate. }
  destruct (Js.truthy_string l) eqn:Hl; cbn [negb] in Hrun.
  2:{ injection Hrun as <-. unfold followed in Hf. cbn in Hf. congruence. }
  cbn [opts origin] in Hrun.
  destruct (resolve l (origin (opts h))) as [u|]; [|discriminate].
  destruct (cleanRequestHeaders _ _) as [hs|]; [|discriminate].
  cbn [method andb Nat.eqb] in Hrun.
  destruct (String.eqb (method (opts h)) "HEAD") eqn:Hm; cbn [negb] in Hrun;
    injection Hrun as <-; cbn [trace opts method body]; auto.
  split; [reflexivity|]. split; [|reflexivity].
  now apply String.eqb_eq.
Qed.

End RedirectFacts.

(** A 303 answer to a HEAD request with a body: the request goes out again
    as HEAD and keeps its body. *)
Definition head_handler : Redirect.RedirectHandler :=
  Redirect.mkRH None
    (Redirect.mkOpts "http://a" "/" "HEAD" Redirect.HeadersNullish
       (Some (Redirect.BodyBuffer "x")) 10)
    [].

Definition post_handler : Redirect.RedirectHandler :=
  Redirect.mkRH None
    (Redirect.mkOpts "http://a" "/" "POST" Redirect.HeadersNullish
       (Some (Redirect.BodyBuffer "x")) 10)
    [].

Definition resolve_b (location origin : string) : option Redirect.ParsedURL :=
  Some (Redirect.mkURL "http://b" "/" "").

Lemma C9_counterexample :
  exists h' o,
    Redirect.onHeaders resolve_b head_handler 303 ["Location"; "http://b/"]
      = Redirect.Done h' /\
    Redirect.followed h' = true /\
    Redirect.trace (Redirect.onComplete h') = [Redirect.EvDispatch o] /\
    ~ (Redirect.method o = "GET" /\ Redirect.body o = None).
Proof.
  eexists. eexists. split; [reflexivity|]. split; [reflexivity|].
  split; [reflexivity|]. cbn. intros [H _]. discriminate.
Qed.

Lemma C9_witness :
  let h' := Redirect.mkRH (Some "http://b/")
              (Redirect.mkOpts "http://b" "/" "GET" (Redirect.HeadersArray []) None 10) [] in
  Redirect.onHeaders resolve_b post_handler 303 ["Location"; "http://b/"]
    = Redirect.Done h' /\
  Redirect.followed h' = true /\
  exists o,
    Redirect.trace (Redirect.onComplete h')
      = Redirect.trace post_handler ++ [Redirect.EvDispatch o] /\
    (if String.eqb (Redirect.method (Redirect.opts post_handler)) "HEAD"
     then Redirect.method o = "HEAD"
          /\ Redirect.body o = Redirect.body (Redirect.opts post_handler)
     else Redirect.method o = "GET" /\ Redirect.body o = None).
Proof.
  intros h'. split; [reflexivity|]. split; [reflexivity|].
  apply (C9_see_other_redispatch resolve_b post_handler h' ["Location"; "http://b/"]);
    reflexivity.
Defined.

(** ** A Hoare logic for the state monad

    [hoare D P m Q E]: from a state in [P], [m] returns in [Q] or throws in
    [E]; [D] is what running out of fuel is worth: [True] for partial
    correctness, [False] when the loop is shown to come back. *)

Definition hoare {S A} (D : Prop) (P : S -> Prop) (m : M S A) (Q : A -> S -> Prop)
  (E : S -> Prop) : Prop :=
  forall s, P s ->
    match m s with
    | Ret a s' => Q a s'
    | Exc _ s' => E s'
    | OutOfFuel => D
    end.

(** [m] keeps the invariant [I], also when it throws. *)
Definition keeps {S A} (D : Prop) (I : S -> Prop) (m : M S A) : Prop :=
  hoare D I m (fun _ => I) I.

Abbreviation preserves := (keeps True).

Section HoareRules.

Context {S : Type} {D : Prop}.
Implicit Types (P E : S -> Prop).

Lemma hoare_conseq {A} P P' (m : M S A) (Q Q' : A -> S -> Prop) E E' :
  hoare D P' m Q' E' ->
  (forall s, P s -> P' s) -> (forall a s, Q' a s -> Q a s) -> (forall s, E' s -> E s) ->
  hoare D P m Q E.
Proof.
  intros H HP HQ HE s Hs. specialize (H s (HP s Hs)).
  destruct (m s); auto.
Qed.

Lemma hoare_pre {A} P P' (m : M S A) Q E :
  hoare D P' m Q E -> (forall s, P s -> P' s) -> hoare D P m Q E.
Proof. intros H HP. eapply hoare_conseq; eauto. Qed.

Lemma hoare_ret {A} P (a : A) (Q : A -> S -> Prop) E :
  (forall s, P s -> Q a s) -> hoare D P (mret a) Q E.
Proof. intros H s Hs. cbn. auto. Qed.

Lemma hoare_bind {A B} P (m : M S A) (k : A -> M S B) Q' Q E :
  hoare D P m Q' E -> (forall a, hoare D (Q' a) (k a) Q E) -> hoare D P (m ≫= k) Q E.
Proof.
  intros Hm Hk s Hs. specialize (Hm s Hs).
  unfold mbind, M_bind. destruct (m s) as [a s'|e s'|]; auto.
  apply (Hk a s' Hm).
Qed.

Lemma hoare_get P (k : S -> M S unit) Q E :
  (forall c, hoare D (fun s => P s /\ s = c) (k c) Q E) -> hoare D P (get ≫= k) Q E.
Proof.
  intros H s Hs. unfold mbind, M_bind, get. apply (H s s). auto.
Qed.

Lemma hoare_get_any {A} P (k : S -> M S A) Q E :
  (forall c, hoare D (fun s => P s /\ s = c) (k c) Q E) -> hoare D P (get ≫= k) Q E.
Proof.
  intros H s Hs. unfold mbind, M_bind, get. apply (H s s). auto.
Qed.

Lemma hoare_modify P (f : S -> S) (Q : unit -> S -> Prop) E :
  (forall s, P s -> Q tt (f s)) -> hoare D P (modify f) Q E.
Proof. intros H s Hs. cbn. auto. Qed.

Lemma hoare_throw {A} P (e : Err) (Q : A -> S -> Prop) E :
  (forall s, P s -> E s) -> hoare D P (throw e) Q E.
Proof. intros H s Hs. cbn. auto. Qed.

Lemma hoare_massert P (b : bool) (Q : unit -> S -> Prop) E :
  (forall s, P s -> if b then Q tt s else E s) -> hoare D P (massert b) Q E.
Proof. intros H s Hs. specialize (H s Hs). destruct b; cbn; auto. Qed.

Lemma hoare_when P (b : bool) (m : M S unit) (Q : unit -> S -> Prop) E :
  (b = true -> hoare D P m Q E) -> (b = false -> forall s, P s -> Q tt s) ->
  hoare D P (when b m) Q E.
Proof.
  intros Hm Hn. destruct b; cbn.
  - auto.
  - apply hoare_ret. auto.
Qed.

Lemma hoare_false {A} (m : M S A) Q E : hoare D (fun _ => False) m Q E.
Proof. intros s []. Qed.

Lemma hoare_try_catch {A} P (m : M S A) (h : Err -> M S A) Q E E' :
  hoare D P m Q E' -> (forall e, hoare D E' (h e) Q E) -> hoare D P (try_catch m h) Q E.
Proof.
  intros Hm Hh s Hs. specialize (Hm s Hs). unfold try_catch.
  destruct (m s) as [a s'|e s'|]; auto.
  apply (Hh e s' Hm).
Qed.

End HoareRules.

(** *** Symbolic execution from a known state *)

Section Exact.

Context {S : Type} {D : Prop}.

Lemma hx_intro {A} (P : S -> Prop) (m : M S A) Q E :
  (forall c, P c -> hoare D (eq c) m Q E) -> hoare D P m Q E.
Proof. intros H s Hs. exact (H s Hs s eq_refl). Qed.

Lemma hx_ret {A} (c : S) (a : A) (Q : A -> S -> Prop) E :
  Q a c -> hoare D (eq c) (mret a) Q E.
Proof. intros H s <-. exact H. Qed.

Lemma hx_throw {A} (c : S) e (Q : A -> S -> Prop) (E : S -> Prop) :
  E c -> hoare D (eq c) (throw e) Q E.
Proof. intros H s <-. exact H. Qed.

Lemma hx_modify (c : S) f (Q : unit -> S -> Prop) (E : S -> Prop) :
  Q tt (f c) -> hoare D (eq c) (modify f) Q E.
Proof. intros H s <-. exact H. Qed.

Lemma hx_massert (c : S) (b : bool) (Q : unit -> S -> Prop) (E : S -> Prop) :
  (b = true -> Q tt c) -> (b = false -> E c) -> hoare D (eq c) (massert b) Q E.
Proof. intros H1 H2 s <-. destruct b; cbn; auto. Qed.

Lemma hx_bind_ret {A B} (c : S) (a : A) (k : A -> M S B) Q E :
  hoare D (eq c) (k a) Q E -> hoare D (eq c) (mret a ≫= k) Q E.
Proof. intros H s <-. exact (H c eq_refl). Qed.

Lemma hx_bind_get {B} (c : S) (k : S -> M S B) Q E :
  hoare D (eq c) (k c) Q E -> hoare D (eq c) (get ≫= k) Q E.
Proof. intros H s <-. exact (H c eq_refl). Qed.

Lemma hx_bind_modify {B} (c : S) f (k : unit -> M S B) Q E :
  hoare D (eq (f c)) (k tt) Q E -> hoare D (eq c) (modify f ≫= k) Q E.
Proof. intros H s <-. exact (H (f c) eq_refl). Qed.

Lemma hx_bind_throw {A B} (c : S) e (k : A -> M S B) Q (E : S -> Prop) :
  E c -> hoare D (eq c) (throw e ≫= k) Q E.
Proof. intros H s <-. exact H. Qed.

Lemma hx_bind_massert {B} (c : S) (b : bool) (k : unit -> M S B) Q (E : S -> Prop) :
  (b = true -> hoare D (eq c) (k tt) Q E) -> (b = false -> E c) ->
  hoare D (eq c) (massert b ≫= k) Q E.
Proof.
  intros H1 H2 s <-. destruct b; unfold mbind, M_bind, massert; cbn.
  - exact (H1 eq_refl c eq_refl).
  - exact (H2 eq_refl).
Qed.

Lemma hx_bind_assoc {A B C} (c : S) (m : M S A) (k1 : A -> M S B) (k : B -> M S C) Q E :
  hoare D (eq c) (m ≫= fun x => k1 x ≫= k) Q E -> hoare D (eq c) ((m ≫= k1) ≫= k) Q E.
Proof.
  intros H s <-. specialize (H c eq_refl). unfold mbind, M_bind in *.
  destruct (m c); auto.
Qed.

(** A call whose specification is known. *)
Lemma hx_bind_call {A B} (P : S -> Prop) (c : S) (m : M S A) (k : A -> M S B) Q' Q E :
  hoare D P m Q' E -> P c ->
  (forall a c', Q' a c' -> hoare D (eq c') (k a) Q E) ->
  hoare D (eq c) (m ≫= k) Q E.
Proof.
  intros Hm Hc Hk s <-. specialize (Hm c Hc). unfold mbind, M_bind.
  destruct (m c) as [a s'|e s'|]; auto.
  exact (Hk a s' Hm s' eq_refl).
Qed.

Lemma hx_call {A} (P : S -> Prop) (c : S) (m : M S A) Q E :
  hoare D P m Q E -> P c -> hoare D (eq c) m Q E.
Proof. intros Hm Hc s <-. exact (Hm c Hc). Qed.

Lemma hx_try_catch {A} (c : S) (m : M S A) (h : Err -> M S A) Q E (E' : S -> Prop) :
  hoare D (eq c) m Q E' -> (forall e c', E' c' -> hoare D (eq c') (h e) Q E) ->
  hoare D (eq c) (try_catch m h) Q E.
Proof.
  intros Hm Hh s <-. specialize (Hm c eq_refl). unfold try_catch.
  destruct (m c) as [a s'|e s'|]; auto.
  exact (Hh e s' Hm s' eq_refl).
Qed.

End Exact.

(** One step of symbolic execution; calls are left to the user. *)
Ltac hx_case b :=
  lazymatch b with
  | true => fail "literal"
  | false => fail "literal"
  | _ => first [ match goal with H : b = _ |- _ => rewrite H end
               | destruct b eqn:?
               | destruct b ]
  end.

Ltac hx_step :=
  cbv beta zeta iota;
  lazymatch goal with
  | |- hoare _ (eq _) (mret _ ≫= _) _ _ => apply hx_bind_ret
  | |- hoare _ (eq _) (get ≫= _) _ _ => apply hx_bind_get
  | |- hoare _ (eq _) (modify _ ≫= _) _ _ => apply hx_bind_modify
  | |- hoare _ (eq _) (throw _ ≫= _) _ _ => apply hx_bind_throw
  | |- hoare _ (eq _) (massert _ ≫= _) _ _ =>
      apply hx_bind_massert; [intros ?|intros ?]
  | |- hoare _ (eq _) ((_ ≫= _) ≫= _) _ _ => apply hx_bind_assoc
  | |- hoare _ (eq _) (when _ _ ≫= _) _ _ => unfold when at 1
  | |- hoare _ (eq _) ((if ?b then _ else _) ≫= _) _ _ => hx_case b
  | |- hoare _ (eq _) (if ?b then _ else _) _ _ => hx_case b
  | |- hoare _ (eq _) (when _ _) _ _ => unfold when at 1
  | |- hoare _ (eq _) (mret _) _ _ => apply hx_ret
  | |- hoare _ (eq _) (throw _) _ _ => apply hx_throw
  | |- hoare _ (eq _) (modify _) _ _ => apply hx_modify
  | |- hoare _ (eq _) (massert _) _ _ => apply hx_massert; intros ?
  | |- hoare _ (eq _) (match ?x with _ => _ end ≫= _) _ _ => hx_case x
  | |- hoare _ (eq _) (match ?x with _ => _ end) _ _ => hx_case x
  end.

(** A call with a known specification, in the middle or at the end. *)
Ltac hx_call_with lem :=
  first [ eapply hx_bind_call; [apply lem| |intros ? ? ?]
        | eapply hx_call; [apply lem|] ].

(** ** The parser-binding client: reconnecting after a close *)

Section ClientBaseFacts.

Import ClientBase.

(** Between the start of the ['close'] listener and the point where it
    looks at the retry delay, nothing touches the delay or the socket
    timeout. *)
Definition closing (d t : Z) (c : Client) : Prop :=
  kRetryDelay c = d /\ kSocketTimeout c = t.

Lemma invoke_all_closing d t reqs err : preserves (closing d t) (invoke_all reqs err).
Proof.
  induction reqs as [|[r|] reqs IH]; cbn [invoke_all].
  - apply hoare_ret. auto.
  - eapply hoare_bind; [|intros ?; exact IH].
    apply hoare_modify. intros s Hs. exact Hs.
  - apply hoare_throw. auto.
Qed.

Lemma Parser_destroy_closing d t err : preserves (closing d t) (Parser_destroy err).
Proof.
  apply hx_intro. intros c Hc. unfold Parser_destroy.
  repeat hx_step; try exact Hc.
  destruct (partition_retry _) as [[retry errs]|]; repeat hx_step; try exact Hc.
  all: eapply hx_call; [apply invoke_all_closing|exact Hc].
Qed.

Lemma destroy_closing d t : preserves (closing d t) destroy.
Proof.
  apply hx_intro. intros c Hc. unfold destroy.
  repeat hx_step; try exact Hc.
  all: destruct Hc as (Hd & Ht); unfold closing; cbn; auto.
Qed.

Lemma write_closing d t r : preserves (closing d t) (write r).
Proof.
  apply hx_intro. intros c Hc. unfold write.
  repeat hx_step; exact Hc.
Qed.

Lemma connect_closing d t : preserves (closing d t) connect.
Proof.
  apply hx_intro. intros c Hc. unfold connect.
  repeat hx_step; exact Hc.
Qed.

Ltac closing_side :=
  match goal with
  | Hc : closing _ _ _ |- closing _ _ _ =>
      let Hd := fresh in let Ht := fresh in
      destruct Hc as (Hd & Ht); unfold closing; cbn; auto
  end.

Lemma resume_closing d t fuel : preserves (closing d t) (resume fuel).
Proof.
  induction fuel as [|fuel IH]; cbn [resume].
  - intros s _. exact I.
  - apply hx_intro. intros c Hc. unfold splice_from.
    repeat hx_step.
    all: try exact Hc.
    all: try closing_side.
    all: repeat first
           [ hx_call_with invoke_all_closing
           | hx_call_with destroy_closing
           | hx_call_with connect_closing
           | hx_call_with write_closing
           | hx_call_with IH
           | hx_step
           | assumption
           | closing_side ].
Qed.

Lemma run_resume_closing d t : preserves (closing d t) run_resume.
Proof.
  apply hx_intro. intros c Hc. unfold run_resume.
  hx_step. hx_call_with resume_closing. exact Hc.
Qed.

(** When the socket closes and requests are pending on a client that is
    not destroyed: with a retry delay of 0 the client connects at once
    and the delay becomes 1s; otherwise a timer is set with the current
    delay, and the delay doubles, capped at the socket timeout. *)
Lemma onClose_retry_delay (c c' : Client) :
  onClose c = Ret tt c' ->
  kDestroyed c' = false ->
  (0 < pending c')%Z ->
  if (kRetryDelay c =? 0)%Z
  then (exists s, kSocket c' = Some s /\ connecting s = true)
       /\ kRetryTimeout c' = None
       /\ kRetryDelay c' = 1000%Z
  else kSocket c' = None
       /\ kRetryTimeout c' = Some (kRetryDelay c)
       /\ kRetryDelay c' = Z.min (kRetryDelay c * 2) (kSocketTimeout c).
Proof.
  intros Hrun.
  cut (hoare True (eq c) onClose
         (fun _ c' =>
            kDestroyed c' = false -> (0 < pending c')%Z ->
            if (kRetryDelay c =? 0)%Z
            then (exists s, kSocket c' = Some s /\ connecting s = true)
                 /\ kRetryTimeout c' = None
                 /\ kRetryDelay c' = 1000%Z
            else kSocket c' = None
                 /\ kRetryTimeout c' = Some (kRetryDelay c)
                 /\ kRetryDelay c' = Z.min (kRetryDelay c * 2) (kSocketTimeout c))
         (fun _ => True)).
  { intros H. specialize (H c eq_refl). rewrite Hrun in H. exact H. }
  unfold onClose. hx_step.
  destruct (kSocket c) as [socket|] eqn:Hsock; [|hx_step; exact I].
  hx_step.
  eapply hx_bind_call with (P := closing (kRetryDelay c) (kSocketTimeout c));
    [ eapply hoare_conseq;
      [apply (Parser_destroy_closing (kRetryDelay c) (kSocketTimeout c))
      |auto|intros ? ? H; exact H|auto]
    | split; reflexivity | intros ? c1 Hc1 ].
  eapply hx_bind_call with (P := closing (kRetryDelay c) (kSocketTimeout c));
    [ eapply hoare_conseq;
      [apply (run_resume_closing (kRetryDelay c) (kSocketTimeout c))
      |auto|intros ? ? H; exact H|auto]
    | exact Hc1 | intros ? c2 [Hd Ht] ].
  hx_step. hx_step.
  { intros Hdes. congruence. }
  hx_step. hx_step. unfold connect.
  repeat hx_step; try exact I.
  all: cbn in *; unfold pending; cbn; fold (pending c2); intros _ Hp.
  all: rewrite ?Hd, ?Ht in *.
  all: repeat match goal with
         | H : negb _ = true |- _ => apply negb_true_iff in H
         | H : negb _ = false |- _ => apply negb_false_iff in H
         | H : bool_decide _ = false |- _ => apply bool_decide_eq_false in H
         | H : (kRetryDelay _ =? 0)%Z = _ |- _ => rewrite H
         end.
  - auto.
  - split; [eauto|]. split; [|reflexivity].
    destruct (kRetryTimeout c2) eqn:Hrt; [|reflexivity].
    exfalso. eauto.
  - exfalso. unfold pending in *. cbn in *. lia.
Qed.

(** When the timer fires on a client that has waited for it, the client
    connects; the delay stays as the close listener left it. *)
Lemma onRetryTimeout_connects (c : Client) (d : Z) :
  kSocket c = None -> kRetryTimeout c = Some d ->
  exists c',
    onRetryTimeout c = Ret tt c'
    /\ (exists s, kSocket c' = Some s /\ connecting s = true)
    /\ kRetryTimeout c' = None
    /\ kRetryDelay c' = kRetryDelay c.
Proof.
  intros Hs Ht. unfold onRetryTimeout, connect, mbind, M_bind, get, modify, massert.
  cbn. rewrite Hs. cbn. eexists. split; [reflexivity|]. cbn. eauto.
Qed.

(** *** The listener always comes back *)

Definition pendingN (c : Client) : nat := length (kQueue c) - kPendingIdx c.

Lemma invoke_all_total reqs err :
  hoare False (fun _ => True) (invoke_all reqs err) (fun _ _ => True) (fun _ => True).
Proof.
  induction reqs as [|[r|] reqs IH]; cbn [invoke_all].
  - apply hoare_ret. auto.
  - eapply hoare_bind; [|intros ?; exact IH]. apply hoare_modify. auto.
  - apply hoare_throw. auto.
Qed.

Lemma destroy_frame c :
  hoare False (eq c) destroy
    (fun _ c' => kQueue c' = kQueue c /\ kPendingIdx c' = kPendingIdx c
                 /\ kRunningIdx c' = kRunningIdx c)
    (fun _ => True).
Proof. unfold destroy. repeat hx_step; cbn; auto. Qed.

Lemma write_frame c r :
  hoare False (eq c) (write r)
    (fun _ c' => kQueue c' = kQueue c /\ kPendingIdx c' = kPendingIdx c)
    (fun _ => True).
Proof. unfold write. repeat hx_step; cbn; auto. Qed.

Lemma connect_total :
  hoare False (fun _ => True) connect (fun _ _ => True) (fun _ => True).
Proof. apply hx_intro. intros c _. unfold connect. repeat hx_step; exact I. Qed.

Lemma Parser_destroy_total err :
  hoare False (fun _ => True) (Parser_destroy err) (fun _ _ => True) (fun _ => True).
Proof.
  apply hx_intro. intros c _. unfold Parser_destroy.
  repeat hx_step; try exact I.
  all: hx_call_with invoke_all_total; exact I.
Qed.

Lemma length_splice_one {A} (i : nat) (l : list A) :
  (i < length l)%nat -> length (splice_one i l) = (length l - 1)%nat.
Proof.
  intros H. unfold splice_one. rewrite length_app, length_take, length_drop. lia.
Qed.

Ltac cb_simpl :=
  cbn [kQueue kRunningIdx kPendingIdx kPipelining kSocket parserBody kSocketTimeout
       kRetryDelay kRetryTimeout kClosed kDestroyed kServerName kWriting kOnDestroyed
       events set_queue set_socket set_parserBody set_retry set_lifecycle
       set_serverName set_writing log] in *.

Ltac measure_side :=
  unfold pendingN in *; cb_simpl;
  repeat match goal with
    | H : _ !! _ = Some _ |- _ => apply lookup_lt_Some in H
    | H : _ /\ _ |- _ => destruct H
    end;
  repeat match goal with
    | H : kQueue _ = _ |- _ => rewrite H in *
    | H : kPendingIdx _ = _ |- _ => rewrite H in *
    end;
  cb_simpl;
  rewrite ?length_splice_one in * by (rewrite ?length_drop in *; lia);
  rewrite ?length_drop in *; lia.

Lemma resume_total fuel :
  hoare False (fun c => (pendingN c < fuel)%nat) (resume fuel)
    (fun _ _ => True) (fun _ => True).
Proof.
  induction fuel as [|fuel IH]; cbn [resume].
  - intros s Hs. lia.
  - apply hx_intro. intros c Hc. unfold splice_from.
    repeat (hx_step; cb_simpl).
    all: try exact I.
    all: repeat first
           [ hx_call_with invoke_all_total
           | hx_call_with connect_total
           | hx_call_with IH
           | eapply hx_bind_call; [apply destroy_frame|reflexivity|intros ? ? ?]
           | eapply hx_bind_call; [apply write_frame|reflexivity|intros ? ? ?]
           | hx_step; cb_simpl
           | exact I ].
    all: measure_side.
Qed.

Lemma run_resume_total :
  hoare False (fun _ => True) run_resume (fun _ _ => True) (fun _ => True).
Proof.
  apply hx_intro. intros c _. unfold run_resume. hx_step.
  hx_call_with resume_total. unfold pendingN. lia.
Qed.

Lemma onClose_terminates c : onClose c <> OutOfFuel.
Proof.
  cut (hoare False (eq c) onClose (fun _ _ => True) (fun _ => True)).
  { intros H Hf. specialize (H c eq_refl). rewrite Hf in H. exact H. }
  unfold onClose. hx_step.
  destruct (kSocket c) as [socket|]; [|hx_step; exact I].
  hx_step.
  hx_call_with Parser_destroy_total; [exact I|].
  hx_call_with run_resume_total; [exact I|].
  repeat (hx_step; cb_simpl); try exact I.
  all: hx_call_with connect_total; try exact I.
  all: repeat (hx_step; cb_simpl); exact I.
Qed.

(** A successful connect resets the delay, so the doubling counts the
    reconnects that failed in a row. *)
Lemma onConnect_resets_retryDelay c c' :
  onConnect c = Ret tt c' -> kRetryDelay c' = 0%Z.
Proof.
  intros Hrun.
  cut (hoare True (eq c) onConnect (fun _ c' => kRetryDelay c' = 0%Z) (fun _ => True)).
  { intros H. specialize (H c eq_refl). rewrite Hrun in H. exact H. }
  unfold onConnect. repeat (hx_step; cb_simpl).
  eapply hx_call with (P := closing 0 (kSocketTimeout c)); [|split; reflexivity].
  eapply hoare_conseq; [apply (run_resume_closing 0%Z (kSocketTimeout c))| | |].
  - auto.
  - intros ? s H. destruct H as [H _]. exact H.
  - auto.
Qed.

End ClientBaseFacts.

(** One pending request, a socket that closes before it ever connects, and
    a socket timeout of 3s: the delays are 1s, 2s, 3s, 3s. *)
Definition cb_request : ClientBase.Request :=
  ClientBase.mkRequest 1 true false false None true.

Definition cb_client : ClientBase.Client :=
  ClientBase.mkClient [Some cb_request] 0 0 1
    (Some (ClientBase.mkSocket true true true false None)) false
    3000 0 None false false None false (Some 0%nat) [].

Definition cb_state (o : Outcome ClientBase.Client unit) : ClientBase.Client :=
  match o with
  | Ret _ c | Exc _ c => c
  | OutOfFuel => cb_client
  end.

Definition cb_after_close (c : ClientBase.Client) : ClientBase.Client :=
  cb_state (ClientBase.onClose c).
Definition cb_after_timer (c : ClientBase.Client) : ClientBase.Client :=
  cb_state (ClientBase.onRetryTimeout c).

Definition cb_client1 : ClientBase.Client := Eval vm_compute in cb_after_close cb_client.
Definition cb_client2 : ClientBase.Client := Eval vm_compute in cb_after_close cb_client1.

Example retry_delay_progression :
  let c1 := cb_after_close cb_client in
  let c2 := cb_after_close c1 in
  let c3 := cb_after_close (cb_after_timer c2) in
  let c4 := cb_after_close (cb_after_timer c3) in
  map ClientBase.kRetryDelay [cb_client; c1; c2; c3; c4]
    = [0; 1000; 2000; 3000; 3000]%Z
  /\ map ClientBase.kRetryTimeout [c1; c2; c3; c4]
    = [None; Some 1000; Some 2000; Some 3000]%Z.
Proof. split; vm_compute; reflexivity. Qed.

(** ** Requests: an error is delivered once and is the last callback *)

Section RequestFacts.

Import Request.

Definition no_error (evs : list Event) : Prop := Forall (fun e => isError e = false) evs.

(** A trace in which an error, if any, comes once and last. *)
Definition error_terminal (evs : list Event) : Prop :=
  no_error evs \/ exists pre e, evs = pre ++ [OnError e] /\ no_error pre.

Lemma call_aborted r c :
  aborted r = true ->
  res_events (call r c) = [] /\ aborted (res_request (call r c)) = true.
Proof.
  intros H. destruct c; cbn; unfold onConnect, onHeaders, onBody, onUpgrade,
    onComplete, onError; rewrite ?H; cbn; auto.
  destruct (kTimeout r); cbn; unfold onError; rewrite ?H; cbn; auto.
Qed.

Lemma run_aborted r cs : aborted r = true -> snd (run r cs) = [].
Proof.
  revert r. induction cs as [|c cs IH]; intros r H; cbn; [reflexivity|].
  destruct (call_aborted r c H) as [He Ha].
  specialize (IH _ Ha). destruct (run (res_request (call r c)) cs) as [r' evs].
  cbn in *. rewrite He, IH. reflexivity.
Qed.

Lemma onError_fresh r err :
  aborted r = false ->
  aborted (res_request (onError r err)) = true /\ res_events (onError r err) = [OnError err].
Proof.
  intros H. unfold onError. rewrite H. cbn.
  destruct (kResume r); cbn; auto.
Qed.

(** One call on a live request: either no error and the request stays
    live, or the error is its last event and the request is aborted. *)
Lemma call_fresh r c :
  aborted r = false ->
  (aborted (res_request (call r c)) = false /\ no_error (res_events (call r c)))
  \/ (aborted (res_request (call r c)) = true
      /\ exists pre e, res_events (call r c) = pre ++ [OnError e] /\ no_error pre).
Proof.
  intros H.
  assert (Herr : forall e,
             aborted (res_request (onError r e)) = true
             /\ exists pre e', res_events (onError r e) = pre ++ [OnError e'] /\ no_error pre).
  { intros e. destruct (onError_fresh r e H) as [Ha He]. split; [exact Ha|].
    exists [], e. rewrite He. split; [reflexivity|constructor]. }
  destruct c; cbn [call]; try (right; apply Herr).
  - (* onConnect *)
    unfold onConnect. rewrite H.
    set (r1 := match kRequestTimeout (set_kResume r true) with
               | Some z => if (z =? 0)%Z then set_kResume r true
                           else set_kTimeout (set_kResume r true) true
               | None => set_kResume r true
               end).
    assert (Hr1 : aborted r1 = false).
    { subst r1. destruct (kRequestTimeout _) as [z|]; [destruct (z =? 0)%Z|]; exact H. }
    assert (Hh : kHandler r1 = kHandler r).
    { subst r1. destruct (kRequestTimeout _) as [z|]; [destruct (z =? 0)%Z|]; reflexivity. }
    destruct (h_onConnect (kHandler r1)) as [|e|e].
    + left. cbn. split; [exact Hr1|]. repeat constructor.
    + right. unfold seq. cbn [returns res_throw res_request res_events].
      destruct (onError_fresh r1 (match e with Some e0 => e0 | None => RequestAbortedError end)
                  Hr1) as [Ha He].
      split; [exact Ha|]. rewrite He.
      eexists [OnConnect], _. split; [reflexivity|]. repeat constructor.
    + left. cbn. split; [exact Hr1|]. repeat constructor.
  - left. unfold onHeaders. rewrite H. cbn. split; [exact H|]. repeat constructor.
  - left. unfold onBody. rewrite H. cbn. split; [exact H|]. repeat constructor.
  - left. unfold onUpgrade. rewrite H. cbn. split; [exact H|]. repeat constructor.
  - left. unfold onComplete. rewrite H. cbn. split; [exact H|]. repeat constructor.
  - destruct (kTimeout r).
    + right. apply Herr.
    + left. cbn. split; [exact H|]. constructor.
Qed.

Lemma run_error_terminal r cs : error_terminal (snd (run r cs)).
Proof.
  revert r. induction cs as [|c cs IH]; intros r; cbn.
  - left. constructor.
  - destruct (aborted r) eqn:Hr.
    + destruct (call_aborted r c Hr) as [He Ha].
      pose proof (run_aborted _ cs Ha) as Hrun.
      destruct (run (res_request (call r c)) cs) as [r' evs]. cbn in *.
      rewrite He, Hrun. left. constructor.
    + destruct (call_fresh r c Hr) as [[Ha Hn]|[Ha (pre & e & He & Hn)]].
      * specialize (IH (res_request (call r c))).
        destruct (run (res_request (call r c)) cs) as [r' evs]. cbn in *.
        destruct IH as [IH|(pre & e & -> & Hpre)].
        -- left. apply Forall_app. auto.
        -- right. exists (res_events (call r c) ++ pre), e.
           rewrite app_assoc. split; [reflexivity|]. apply Forall_app. auto.
      * pose proof (run_aborted _ cs Ha) as Hrun.
        destruct (run (res_request (call r c)) cs) as [r' evs]. cbn in *.
        rewrite Hrun, app_nil_r, He. right. eauto.
Qed.

Lemma filter_no_error evs : no_error evs -> List.filter isError evs = [].
Proof.
  induction 1 as [|e evs He _ IH]; cbn; [reflexivity|]. rewrite He. exact IH.
Qed.

Lemma no_error_split pre e post : ~ no_error (pre ++ OnError e :: post).
Proof.
  intros H. apply Forall_app in H as [_ H].
  apply Forall_cons in H as [H _]. discriminate.
Qed.

(** C3.  Whatever reaches a request (the client's calls, the abort callback,
    the request timer, in any order and number), its handler observes at
    most one [onError], and no callback at all after it. *)
Theorem C3_single_terminal_error (r : Request) (cs : list Call) :
  (length (List.filter isError (snd (run r cs))) <= 1)%nat /\
  (forall pre e post, snd (run r cs) = pre ++ OnError e :: post -> post = []).
Proof.
  destruct (run_error_terminal r cs) as [Hn|(pre' & e' & -> & Hn)].
  - split.
    + rewrite (filter_no_error _ Hn). cbn. lia.
    + intros pre e post Heq. rewrite Heq in Hn. destruct (no_error_split _ _ _ Hn).
  - split.
    + rewrite List.filter_app, (filter_no_error _ Hn). cbn. lia.
    + intros pre e post Heq.
      destruct post as [|x post] using rev_ind; [reflexivity|].
      exfalso. clear IHpost.
      change (pre ++ OnError e :: post ++ [x]) with (pre ++ (OnError e :: post) ++ [x]) in Heq.
      rewrite app_assoc in Heq. apply app_inj_tail in Heq as [Heq _].
      rewrite Heq in Hn. exact (no_error_split _ _ _ Hn).
Qed.

(** The flag the suppression hangs on: a delivered error leaves the request
    aborted, and an aborted request passes nothing on. *)
Lemma error_sets_aborted r cs e :
  In (OnError e) (snd (run r cs)) -> aborted (fst (run r cs)) = true.
Proof.
  revert r. induction cs as [|c cs IH]; intros r; cbn; [intros []|].
  destruct (run (res_request (call r c)) cs) as [r' evs] eqn:Hrun. cbn.
  intros Hin. apply in_app_or in Hin as [Hin|Hin].
  - destruct (aborted r) eqn:Hr.
    + destruct (call_aborted r c Hr) as [He _]. rewrite He in Hin. destruct Hin.
    + destruct (call_fresh r c Hr) as [[_ Hn]|[Ha _]].
      * exfalso. unfold no_error in Hn. rewrite List.Forall_forall in Hn.
        specialize (Hn _ Hin). discriminate.
      * clear IH Hin. revert r' evs Hrun.
        generalize (res_request (call r c)) Ha. clear.
        induction cs as [|c cs IH]; intros r Ha r' evs; cbn.
        -- intros [= <- <-]. exact Ha.
        -- destruct (call_aborted r c Ha) as [_ Ha'].
           destruct (run (res_request (call r c)) cs) as [r'' evs'] eqn:Hrun.
           intros [= <- <-]. exact (IH _ Ha' _ _ Hrun).
  - specialize (IH (res_request (call r c))). rewrite Hrun in IH. exact (IH Hin).
Qed.

End RequestFacts.

(** A request that is connected, gets its headers, is aborted by the user,
    then reached by a late body chunk, a completion and a socket error:
    one [onError], and nothing after it. *)
Definition demo_handler : Request.Handler := Request.mkHandler 1 Request.Proceed.

Definition demo_request : Request.Request :=
  Request.mkRequest demo_handler "GET" None None None false false "/" true None ""
    (Some 30000%Z) false false.

Example abort_is_terminal :
  snd (Request.run demo_request
         [Request.CallConnect; Request.CallHeaders 200; Request.CallAbort None;
          Request.CallBody; Request.CallComplete; Request.TimerFired;
          Request.CallError (SocketError "closed")])
  = [Request.OnConnect; Request.OnHeaders 200; Request.OnError RequestAbortedError].
Proof. reflexivity. Qed.

(** ** The llhttp client *)

Ltac cl_simpl :=
  cbn [Client.config Client.kPipelining Client.kQueue Client.kRunningIdx
       Client.kPendingIdx Client.kSocket Client.kClosed Client.kDestroyed
       Client.kServerName Client.kOnDestroyed Client.kResuming Client.kNeedDrain
       Client.kKeepAliveTimeoutValue Client.trace
       Client.set_queue Client.set_runningIdx Client.set_pendingIdx Client.set_socket
       Client.set_closed Client.set_destroyed Client.set_serverName
       Client.set_onDestroyed Client.set_resuming Client.set_needDrain
       Client.set_keepAliveTimeoutValue Client.set_pipelining Client.log
       Client.kConnecting Client.destroyed Client.kWriting Client.kReset Client.kNoRef
       Client.kError Client.s_servername Client.kParser
       Client.sock_destroyed Client.sock_connecting Client.sock_writing
       Client.sock_reset Client.sock_noRef Client.sock_error Client.sock_parser
       Client.timeoutValue Client.timeoutType Client.statusCode Client.p_upgrade
       Client.p_headers Client.p_trailers Client.shouldKeepAlive Client.paused
       Client.Parser_setTimeout
       fmap option_fmap option_map] in *.

Ltac hxc1 :=
  try unfold Client.on_parser; try unfold Client.on_socket; hx_step; cl_simpl.
Ltac hxc := repeat hxc1.

Section KeepAlive.

Import Client.

Variable parseKeepAliveTimeout : string -> option Z.

(** The idle timeout the client takes from [Keep-Alive: timeout=N]. *)
Definition advertised (c : Client) (N : Z) : Z :=
  Z.min (N * 1000 - kKeepAliveTimeoutThreshold (config c)) (kKeepAliveMaxTimeout (config c)).

Definition reset_flag (c : Client) : option bool := kReset <$> kSocket c.

(** C6 (as the code has it).  On the headers of a keep-alive response to
    the running request [r], on a socket that is not destroyed, when the
    response is not an upgrade, not a status 100 and not a 2xx answer to
    CONNECT, and its first [Keep-Alive] header parses to N seconds: with
    pipelining 0 the header is ignored, the socket's reset flag is set and
    the idle timeout is left alone; otherwise the idle timeout becomes
    min(N * 1000 - threshold, keepAliveMaxTimeout) when that is positive,
    and when it is not the reset flag is set and the idle timeout is left
    alone. *)
Theorem C6_keep_alive_timeout (c c' : Client) (s : Socket) (r : Request.Request)
  (status : Z) (ret : option Z) (val : string) (N : Z) :
  Parser_onHeadersComplete parseKeepAliveTimeout status false true c = Ret ret c' ->
  kSocket c = Some s ->
  destroyed s = false ->
  kQueue c !! kRunningIdx c = Some (Some r) ->
  status <> 100%Z ->
  ~ (Request.method r = "CONNECT" /\ (200 <= status < 300)%Z) ->
  fst (scan_raw (p_headers (kParser s)) None None) = Some val ->
  parseKeepAliveTimeout val = Some (N * 1000)%Z ->
  if (kPipelining c =? 0)%Z
  then reset_flag c' = Some true /\ kKeepAliveTimeoutValue c' = kKeepAliveTimeoutValue c
  else if (advertised c N <=? 0)%Z
  then reset_flag c' = Some true /\ kKeepAliveTimeoutValue c' = kKeepAliveTimeoutValue c
  else reset_flag c' = reset_flag c /\ kKeepAliveTimeoutValue c' = advertised c N.
Proof.
  intros Hrun Hs Hd Hq H100 Hconnect Hval Hparse.
  cut (hoare True (eq c) (Parser_onHeadersComplete parseKeepAliveTimeout status false true)
         (fun ret c' =>
            if (kPipelining c =? 0)%Z
            then reset_flag c' = Some true
                 /\ kKeepAliveTimeoutValue c' = kKeepAliveTimeoutValue c
            else if (advertised c N <=? 0)%Z
            then reset_flag c' = Some true
                 /\ kKeepAliveTimeoutValue c' = kKeepAliveTimeoutValue c
            else reset_flag c' = reset_flag c /\ kKeepAliveTimeoutValue c' = advertised c N)
         (fun _ => True)).
  { intros H. specialize (H c eq_refl). rewrite Hrun in H. exact H. }
  clear Hrun c' ret.
  assert (Hst : (status =? 100)%Z = false) by (apply Z.eqb_neq; exact H100).
  assert (Hco : (String.eqb (Request.method r) "CONNECT"
                 && (200 <=? status)%Z && (status <? 300)%Z) = false).
  { destruct (String.eqb_spec (Request.method r) "CONNECT") as [Hm|Hm]; [|reflexivity].
    destruct (200 <=? status)%Z eqn:H2; [|reflexivity].
    destruct (status <? 300)%Z eqn:H3; [|reflexivity].
    exfalso. apply Hconnect. split; [exact Hm|]. apply Z.leb_le in H2. apply Z.ltb_lt in H3.
    lia. }
  unfold Parser_onHeadersComplete, keepAlive_block, on_parser, on_socket, util_destroy,
    deliver, reset_flag.
  hx_step. rewrite Hs. cl_simpl. rewrite Hd, Hq.
  destruct (scan_raw (p_headers (kParser s)) None None) as [keepAlive trailers].
  cbn [fst] in Hval. subst keepAlive.
  destruct (kPipelining c =? 0)%Z eqn:Hp.
  all: repeat (hxc1; rewrite ?Hs, ?Hp, ?Hparse, ?Hst, ?Hco; cbn [negb andb]; cl_simpl);
    try exact I; try congruence.
  all: try (unfold advertised;
            repeat match goal with
              | H : (Z.min _ _ <=? 0)%Z = _ |- _ => rewrite H
              | H : Some _ = Some _ |- _ => injection H as <-
              end; cl_simpl; auto; fail).
Qed.

End KeepAlive.

(** A GET in flight on a connected socket, and a response carrying
    [Keep-Alive: timeout=10]. *)
Definition get_request (hid : nat) : Request.Request :=
  Request.mkRequest (Request.mkHandler hid Request.Proceed) "GET" None None None
    false false "/" true None "" None false false.

Definition awaiting_headers : Client.Socket :=
  Client.mkSocket false false false false false None None
    (Client.mkParser (Some 30000%Z) (Some Client.TIMEOUT_HEADERS) None false
       ["Keep-Alive"; "timeout=10"] [] false false).

Definition inflight_client (pipelining : Z) : Client.Client :=
  Client.mkClient (Client.defaultConfig "http:") pipelining [Some (get_request 1)] 0 1
    (Some awaiting_headers) false false None (Some 0%nat) 0 2 4000 [].

Definition c6_outcome (pipelining : Z) : Outcome Client.Client (option Z) :=
  Client.Parser_onHeadersComplete Util.parseKeepAliveTimeout 200 false true
    (inflight_client pipelining).

Definition c6_after (pipelining : Z) : Client.Client :=
  Eval vm_compute in
    match c6_outcome pipelining with
    | Ret _ c | Exc _ c => c
    | OutOfFuel => inflight_client pipelining
    end.

(** The same response as the answer to a CONNECT. *)
Definition c6_connect_request : Request.Request :=
  Request.mkRequest (Request.mkHandler 1 Request.Proceed) "CONNECT" None None None
    false false "/" false None "" None false false.

Definition c6_connect_client : Client.Client :=
  Client.mkClient (Client.defaultConfig "http:") 1 [Some c6_connect_request] 0 1
    (Some awaiting_headers) false false None (Some 0%nat) 0 2 4000 [].

Definition c6_connect_outcome : Outcome Client.Client (option Z) :=
  Client.Parser_onHeadersComplete Util.parseKeepAliveTimeout 200 false true c6_connect_client.

Definition c6_connect_after : Client.Client :=
  Eval vm_compute in
    match c6_connect_outcome with
    | Ret _ c | Exc _ c => c
    | OutOfFuel => c6_connect_client
    end.

(** With pipelining 0 the advertised timeout is ignored: the idle timeout
    stays at its default and the socket is marked for reset, although
    min(10 * 1000 - 1000, 600000) = 9000 is positive.  And a 2xx answer
    to CONNECT becomes an upgrade before the header is looked at: the
    idle timeout stays at its default and the reset flag is not touched. *)
Lemma C6_counterexample :
  (c6_outcome 0 = Ret None (c6_after 0) /\
   advertised (inflight_client 0) 10 = 9000%Z /\
   Client.kKeepAliveTimeoutValue (c6_after 0) <> advertised (inflight_client 0) 10 /\
   reset_flag (c6_after 0) = Some true) /\
  (c6_connect_outcome = Ret (Some 2%Z) c6_connect_after /\
   advertised c6_connect_client 10 = 9000%Z /\
   Client.kKeepAliveTimeoutValue c6_connect_after = 4000%Z /\
   reset_flag c6_connect_after = Some false).
Proof.
  split.
  - split; [reflexivity|]. split; [reflexivity|]. split; [|reflexivity].
    vm_compute. discriminate.
  - repeat split; reflexivity.
Qed.

Lemma C6_witness :
  c6_outcome 1 = Ret None (c6_after 1) /\
  reset_flag (c6_after 1) = reset_flag (inflight_client 1) /\
  Client.kKeepAliveTimeoutValue (c6_after 1) = 9000%Z.
Proof.
  assert (H : c6_outcome 1 = Ret None (c6_after 1)) by reflexivity.
  split; [exact H|].
  refine (C6_keep_alive_timeout Util.parseKeepAliveTimeout (inflight_client 1)
            (c6_after 1) awaiting_headers (get_request 1) 200 None "timeout=10" 10
            H eq_refl eq_refl eq_refl _ _ eq_refl eq_refl);
    [discriminate|intros [Hm _]; discriminate].
Defined.

(** The timeout a server advertises can be too short to be of use: with
    [Keep-Alive: timeout=1] and a threshold of one second the socket is
    marked for reset.  And with pipelining 0 every response marks it. *)
Example short_keep_alive_resets :
  let s := Client.sock_parser
             (Client.mkParser (Some 30000%Z) (Some Client.TIMEOUT_HEADERS) None false
                ["Keep-Alive"; "timeout=1"] [] false false) awaiting_headers in
  let c := Client.set_socket (Some s) (inflight_client 1) in
  exists c',
    Client.Parser_onHeadersComplete Util.parseKeepAliveTimeout 200 false true c
      = Ret None c'
    /\ reset_flag c' = Some true
    /\ Client.kKeepAliveTimeoutValue c' = Client.kKeepAliveTimeoutValue c.
Proof. eexists. split; [vm_compute; reflexivity|]. split; reflexivity. Qed.

(** *** Invariants that do not depend on what was read *)

Section Preserves.

Context {S : Type} {D : Prop} (I : S -> Prop).

Lemma pres_ret {A} (a : A) : keeps D I (mret a : M S A).
Proof. apply hoare_ret. auto. Qed.

Lemma pres_throw {A} e : keeps D I (throw e : M S A).
Proof. apply hoare_throw. auto. Qed.

Lemma pres_massert b : keeps D I (massert b).
Proof. apply hoare_massert. intros s Hs. destruct b; exact Hs. Qed.

Lemma pres_bind {A B} (m : M S A) (k : A -> M S B) :
  keeps D I m -> (forall a, keeps D I (k a)) -> keeps D I (m ≫= k).
Proof. intros Hm Hk. eapply hoare_bind; [exact Hm|exact Hk]. Qed.

Lemma pres_get {B} (k : S -> M S B) :
  (forall c, I c -> keeps D I (k c)) -> keeps D I (get ≫= k).
Proof. intros H s Hs. unfold mbind, M_bind, get. exact (H s Hs s Hs). Qed.

Lemma pres_modify f : (forall s, I s -> I (f s)) -> keeps D I (modify f).
Proof. intros H. apply hoare_modify. exact H. Qed.

Lemma pres_try_catch {A} (m : M S A) h :
  keeps D I m -> (forall e, keeps D I (h e)) -> keeps D I (try_catch m h).
Proof. intros Hm Hh. eapply hoare_try_catch; [exact Hm|exact Hh]. Qed.

Lemma pres_out_of_fuel {A} : D -> keeps D I (fun _ => OutOfFuel : Outcome S A).
Proof. intros d s _. exact d. Qed.

End Preserves.

(** One step of an invariant proof; [side] settles what a [modify] does
    to the invariant. *)
Ltac pres_step side :=
  cbv beta zeta iota;
  lazymatch goal with
  | |- keeps _ _ (mret _) => apply pres_ret
  | |- keeps _ _ (throw _) => apply pres_throw
  | |- keeps _ _ (massert _) => apply pres_massert
  | |- keeps _ _ (get ≫= _) => apply pres_get; intros ? ?
  | |- keeps _ _ (modify _) => apply pres_modify; side
  | |- keeps _ _ (try_catch _ _) => apply pres_try_catch; [|intros ?]
  | |- keeps _ _ (when _ _) => unfold when at 1
  | |- keeps _ _ (if ?b then _ else _) => hx_case b
  | |- keeps _ _ (_ ≫= _) => apply pres_bind; [|intros ?]
  | |- keeps _ _ (match ?x with _ => _ end) => hx_case x
  end.

(** *** [kNeedDrain] stays one of 0, 1, 2 *)

Create HintDb pres.

Section Dispatch.

Import Client.

Variable bodyLength : option Request.Body -> option Z.
Variable isIP : string -> bool.

Definition drain_ok (c : Client) : Prop := (kNeedDrain c <= 2)%nat.

Ltac drain_side := intros ? ?; unfold drain_ok in *; cl_simpl; auto with arith.

Ltac drain_auto :=
  repeat first
    [ assumption
    | solve [auto with pres]
    | progress (try unfold on_socket; try unfold on_parser); pres_step drain_side
    | pres_step drain_side ].

Lemma deliver_drain res : preserves drain_ok (deliver res).
Proof. unfold deliver. drain_auto. Qed.
#[local] Hint Resolve deliver_drain : pres.

Lemma fail_request_drain r err : preserves drain_ok (fail_request r err).
Proof. unfold fail_request. drain_auto. Qed.
#[local] Hint Resolve fail_request_drain : pres.

Lemma fail_all_drain reqs err : preserves drain_ok (fail_all reqs err).
Proof. induction reqs as [|[r|] reqs IH]; cbn [fail_all]; drain_auto. Qed.
#[local] Hint Resolve fail_all_drain : pres.

Lemma util_destroy_drain err : preserves drain_ok (util_destroy err).
Proof. unfold util_destroy. drain_auto. Qed.
#[local] Hint Resolve util_destroy_drain : pres.

Lemma connect_drain : preserves drain_ok connect.
Proof. unfold connect. drain_auto. Qed.
#[local] Hint Resolve connect_drain : pres.

Lemma write_drain r : preserves drain_ok (write bodyLength r).
Proof. unfold write. drain_auto. Qed.
#[local] Hint Resolve write_drain : pres.

Lemma emitDrain_drain : preserves drain_ok emitDrain.
Proof. unfold emitDrain. drain_auto. Qed.
#[local] Hint Resolve emitDrain_drain : pres.

Lemma resume_timers_drain s : preserves drain_ok (resume_timers s).
Proof. unfold resume_timers. drain_auto. Qed.
#[local] Hint Resolve resume_timers_drain : pres.

Lemma compact_drain : preserves drain_ok compact.
Proof. unfold compact. drain_auto. Qed.
#[local] Hint Resolve compact_drain : pres.

Lemma destroy_with_drain rt err :
  preserves drain_ok rt -> preserves drain_ok (destroy_with rt err).
Proof. intros H. unfold destroy_with, splice_from. drain_auto. Qed.
#[local] Hint Resolve destroy_with_drain : pres.

Lemma resume_with_drain f sync :
  (forall sync, preserves drain_ok (f sync)) -> preserves drain_ok (resume_with f sync).
Proof. intros H. unfold resume_with. drain_auto. Qed.
#[local] Hint Resolve resume_with_drain : pres.

Lemma resume_dispatch_drain continue socket :
  preserves drain_ok continue ->
  preserves drain_ok (resume_dispatch bodyLength continue socket).
Proof. intros H. unfold resume_dispatch. drain_auto. Qed.
#[local] Hint Resolve resume_dispatch_drain : pres.

Lemma _resume_drain fuel sync : preserves drain_ok (_resume bodyLength fuel sync).
Proof.
  revert sync. induction fuel as [|fuel IH]; intros sync; cbn [_resume].
  - apply pres_out_of_fuel. exact I.
  - drain_auto.
Qed.
#[local] Hint Resolve _resume_drain : pres.

Lemma resume_drain sync : preserves drain_ok (resume bodyLength sync).
Proof. unfold resume. drain_auto. Qed.
#[local] Hint Resolve resume_drain : pres.

Lemma dispatch_drain opts handler :
  preserves drain_ok (dispatch bodyLength isIP opts handler).
Proof.
  unfold dispatch, lift. drain_auto.
  all: destruct (Request.new _ _ _ _); drain_auto.
Qed.


(** What makes [dispatch] fail before anything is queued: the constructor
    throws, or the client is destroyed or closed. *)
Definition dispatch_failure (opts : option Request.Opts) (h : Request.Handler) (c : Client)
  : option Err :=
  match (match opts with
         | Some o => Request.new isIP o Request.VUndefined h
         | None => Throw TypeError
         end) with
  | Throw e => Some e
  | Normal _ =>
      if kDestroyed c then Some ClientDestroyedError
      else if kClosed c then Some ClientClosedError
      else None
  end.

(** C10.  A handler that is not an object makes [dispatch] throw
    [InvalidArgumentError] and nothing is reported.  With a handler object,
    a validation or lifecycle error is thrown to the caller as
    [InvalidArgumentError] when the handler has no [onError] function, and
    otherwise is delivered to [handler.onError], [dispatch] returning
    normally. *)
Theorem C10_dispatch_error_reporting opts handler (c : Client) :
  match handler with
  | HaObject onErrorIsFunction h =>
      match dispatch_failure opts h c with
      | Some err =>
          dispatch bodyLength isIP opts handler c =
          if onErrorIsFunction
          then Ret (kNeedDrain c <? 2)%nat
                   (log [Handler (Request.h_id h) (Request.OnError err)] c)
          else Exc (InvalidArgumentError "invalid onError method") c
      | None => True
      end
  | _ => dispatch bodyLength isIP opts handler c = Exc (InvalidArgumentError "handler") c
  end.
Proof.
  destruct handler as [| | | |onErrorIsFunction h]; try reflexivity.
  unfold dispatch_failure, dispatch, try_catch, lift, mbind, M_bind.
  destruct (match opts with Some o => _ | None => _ end) as [r|e]; cbn.
  - destruct (kDestroyed c) eqn:Hd; cbn.
    + destruct onErrorIsFunction; reflexivity.
    + destruct (kClosed c) eqn:Hc; cbn; [|exact I].
      destruct onErrorIsFunction; reflexivity.
  - destruct onErrorIsFunction; reflexivity.
Qed.

End Dispatch.

(** *** The writer and CONNECT *)

Section Writer.

Import Client.

Variable bodyLength : option Request.Body -> option Z.

(** The content length the writer settles on, and its check against the
    declared one. *)
Definition computedLength (r : Request.Request) : option Z :=
  let contentLength :=
    match bodyLength (Request.body r) with
    | Some n => Some n
    | None => Request.contentLength r
    end in
  if opt_Z_eqb contentLength (Some 0%Z) && negb (expectsPayload (Request.method r))
  then None else contentLength.

Definition length_mismatch (r : Request.Request) : bool :=
  bool_decide (is_Some (Request.contentLength r))
  && negb (opt_Z_eqb (Request.contentLength r) (computedLength r)).

Lemma onConnect_proceed r :
  Request.aborted r = false ->
  Request.h_onConnect (Request.kHandler r) = Request.Proceed ->
  Request.res_throw (Request.onConnect r) = None
  /\ Request.res_events (Request.onConnect r) = [Request.OnConnect]
  /\ Request.aborted (Request.res_request (Request.onConnect r)) = false
  /\ Request.path (Request.res_request (Request.onConnect r)) = Request.path r
  /\ Request.kHandler (Request.res_request (Request.onConnect r)) = Request.kHandler r.
Proof.
  intros Ha Hp. unfold Request.onConnect. rewrite Ha.
  destruct (Request.kRequestTimeout (Request.set_kResume r true)) as [z|];
    [destruct (z =? 0)%Z|]; cbn; rewrite Hp; cbn; auto.
Qed.

(** C8 (as the code has it).  The writer does not reject CONNECT.  A CONNECT
    request is turned down only for what turns down any request (a strict
    content-length mismatch, or a handler that aborts or throws in
    [onConnect]), and then its error is delivered; otherwise it is
    serialized with its method and path and the socket's reset flag is
    set, so that nothing follows it on the connection. *)
Theorem C8_connect_is_written (c c' : Client) (r r' : Request.Request) (ok : bool) :
  Request.method r = "CONNECT" ->
  Request.aborted r = false ->
  write bodyLength r c = Ret (ok, r') c' ->
  if ok
  then reset_flag c' = Some true
       /\ (isStream (Request.body r) = false ->
           exists mid w,
             trace c' = trace c ++ mid
             /\ last mid = Some (Written (Request.h_id (Request.kHandler r)) w)
             /\ w_method w = "CONNECT" /\ w_path w = Request.path r)
  else Request.aborted r' = true
       /\ (length_mismatch r && kStrictContentLength (config c) = true
           \/ Request.h_onConnect (Request.kHandler r) <> Request.Proceed).
Proof.
  intros Hm Ha Hrun.
  cut (hoare True (eq c) (write bodyLength r)
         (fun res c' =>
            if fst res
            then reset_flag c' = Some true
                 /\ (isStream (Request.body r) = false ->
                     exists mid w,
                       trace c' = trace c ++ mid
                       /\ last mid = Some (Written (Request.h_id (Request.kHandler r)) w)
                       /\ w_method w = "CONNECT" /\ w_path w = Request.path r)
            else Request.aborted (snd res) = true
                 /\ (length_mismatch r && kStrictContentLength (config c) = true
                     \/ Request.h_onConnect (Request.kHandler r) <> Request.Proceed))
         (fun _ => True)).
  { intros H. specialize (H c eq_refl). rewrite Hrun in H. exact H. }
  clear Hrun. unfold write, fail_request, deliver, reset_flag.
  fold (computedLength r). fold (length_mismatch r).
  rewrite Hm. cbn [String.eqb Ascii.eqb Bool.eqb orb andb].
  assert (Hpath : Request.path (Request.res_request (Request.onConnect r)) = Request.path r).
  { unfold Request.onConnect. rewrite Ha.
    destruct (Request.kRequestTimeout (Request.set_kResume r true)) as [z|];
      [destruct (z =? 0)%Z|]; cbn;
      destruct (Request.h_onConnect _); cbn; try reflexivity;
      unfold Request.onError; cbn; rewrite Ha; reflexivity. }
  destruct (Request.h_onConnect (Request.kHandler r)) eqn:Hh.
  - destruct (onConnect_proceed r Ha Hh) as (Ht & He & Hab & Hp & Hk).
    repeat (hxc1; rewrite ?Ht, ?He, ?Hab, ?Hp, ?Hk); try exact I; cbn [fst snd]; cl_simpl.
    all: try (split; [assumption|left; reflexivity]).
    all: try match goal with H : _ || true = false |- _ =>
               rewrite orb_true_r in H; discriminate end.
    all: try (match goal with H : kSocket _ = Some _ |- _ => rewrite H end; cl_simpl;
              (split; [reflexivity|]); intros Hst; try discriminate;
              eexists _, _; rewrite <- ?app_assoc; (split; [reflexivity|]);
              rewrite ?app_assoc; (split; [apply last_snoc|]); split; reflexivity).
  - repeat (hxc1; rewrite ?Hpath); try exact I; cbn [fst snd]; cl_simpl.
    all: try (split; [assumption|right; discriminate]).
    all: try match goal with H : _ || true = false |- _ =>
               rewrite orb_true_r in H; discriminate end.
    all: try (match goal with H : kSocket _ = Some _ |- _ => rewrite H end; cl_simpl;
              (split; [reflexivity|]); intros Hst; try discriminate;
              eexists _, _; rewrite <- ?app_assoc; (split; [reflexivity|]);
              rewrite ?app_assoc; (split; [apply last_snoc|]); split; reflexivity).
  - repeat (hxc1; rewrite ?Hpath); try exact I; cbn [fst snd]; cl_simpl.
    all: try (split; [assumption|right; discriminate]).
    all: try match goal with H : _ || true = false |- _ =>
               rewrite orb_true_r in H; discriminate end.
    all: try (match goal with H : kSocket _ = Some _ |- _ => rewrite H end; cl_simpl;
              (split; [reflexivity|]); intros Hst; try discriminate;
              eexists _, _; rewrite <- ?app_assoc; (split; [reflexivity|]);
              rewrite ?app_assoc; (split; [apply last_snoc|]); split; reflexivity).
Qed.

End Writer.

(** A CONNECT request waiting on a connected, idle socket. *)
Definition connect_request : Request.Request :=
  Request.mkRequest (Request.mkHandler 1 Request.Proceed) "CONNECT" None None None
    false false "/" false None "" None false false.

Definition idle_socket : Client.Socket :=
  Client.mkSocket false false false false false None None Client.new_Parser.

Definition tunnel_client : Client.Client :=
  Client.mkClient (Client.defaultConfig "http:") 1 [Some connect_request] 0 0
    (Some idle_socket) false false None (Some 0%nat) 0 0 4000 [].

Definition state_of {A} (o : Outcome Client.Client A) : Client.Client :=
  match o with
  | Ret _ c | Exc _ c => c
  | OutOfFuel => tunnel_client
  end.

Definition tunnel_written : Client.Client :=
  Eval vm_compute in state_of (Client.resume Client.bodyLength false tunnel_client).

Definition tunnel_wire : Client.Wire :=
  Client.mkWire "CONNECT" "/" Client.ConnKeepAlive true "" Client.NoBody.

(** The scheduler hands the CONNECT request to the writer, which puts it
    on the socket: the request is running and no error was delivered. *)
Lemma C8_counterexample :
  Client.resume Client.bodyLength false tunnel_client = Ret tt tunnel_written /\
  Client.trace tunnel_written
    = [Client.Handler 1 Request.OnConnect; Client.Written 1 tunnel_wire] /\
  Client.kRunning tunnel_written = 1%Z /\
  Client.kQueue tunnel_written !! 0%nat
    = Some (Some (Request.res_request (Request.onConnect connect_request))).
Proof. repeat split; reflexivity. Qed.

Lemma C8_witness :
  let c' := state_of (Client.write Client.bodyLength connect_request tunnel_client) in
  Request.method connect_request = "CONNECT" /\
  Request.aborted connect_request = false /\
  Client.write Client.bodyLength connect_request tunnel_client
    = Ret (true, Request.res_request (Request.onConnect connect_request)) c' /\
  reset_flag c' = Some true /\
  (Client.isStream (Request.body connect_request) = false ->
   exists mid w,
     Client.trace c' = Client.trace tunnel_client ++ mid
     /\ last mid = Some (Client.Written 1 w)
     /\ Client.w_method w = "CONNECT" /\ Client.w_path w = "/").
Proof.
  intros c'.
  assert (H : Client.write Client.bodyLength connect_request tunnel_client
              = Ret (true, Request.res_request (Request.onConnect connect_request)) c')
    by reflexivity.
  split; [reflexivity|]. split; [reflexivity|]. split; [exact H|].
  exact (C8_connect_is_written Client.bodyLength tunnel_client c' connect_request _ true
           eq_refl eq_refl H).
Defined.

(** Dispatching a GET on a fresh client: the client starts to connect, the
    request is pending, so the client is busy and [dispatch] returns false. *)
Definition get_opts : Request.Opts :=
  Request.mkOpts (Request.VString "/") (Request.VString "GET") Request.VUndefined None None
    Request.VUndefined Request.VUndefined.

Definition fresh_client : Client.Client :=
  Client.new (Client.defaultConfig "http:") None.

Definition logging_handler : Client.HandlerArg :=
  Client.HaObject true (Request.mkHandler 1 Request.Proceed).

Definition after_first_dispatch : Client.Client :=
  Eval vm_compute in
    state_of (Client.dispatch Client.bodyLength Util.isIP (Some get_opts) logging_handler
                fresh_client).


(** The three ways [dispatch] reports a bad call. *)
Example dispatch_without_handler :
  Client.dispatch Client.bodyLength Util.isIP (Some get_opts) Client.HaUndefined fresh_client
  = Exc (InvalidArgumentError "handler") fresh_client.
Proof. reflexivity. Qed.

Example dispatch_closed_reports :
  Client.dispatch Client.bodyLength Util.isIP (Some get_opts) logging_handler
    (Client.set_closed true fresh_client)
  = Ret true (Client.log [Client.Handler 1 (Request.OnError ClientClosedError)]
                (Client.set_closed true fresh_client)).
Proof. reflexivity. Qed.

(** [NaN] is falsy: an upgrade option of [NaN] passes the constructor,
    nothing is reported, and the request is queued. *)
Example dispatch_upgrade_NaN :
  let o := Request.mkOpts (Request.VString "/") (Request.VString "GET") Request.VUndefined
             None None Request.VNaN Request.VUndefined in
  dispatch_failure Util.isIP (Some o) (Request.mkHandler 1 Request.Proceed) fresh_client
  = None
  /\ exists c',
       Client.dispatch Client.bodyLength Util.isIP (Some o) logging_handler fresh_client
       = Ret false c'
       /\ length (Client.kQueue c') = 1%nat /\ Client.trace c' = [].
Proof. split; [reflexivity|]. eexists. split; [vm_compute; reflexivity|]. split; reflexivity. Qed.

Example dispatch_invalid_without_onError :
  Client.dispatch Client.bodyLength Util.isIP None
    (Client.HaObject false (Request.mkHandler 1 Request.Proceed)) fresh_client
  = Exc (InvalidArgumentError "invalid onError method") fresh_client.
Proof. reflexivity. Qed.

(** *** What the helpers leave alone *)

Section Frames.

Import Client.

Variable bodyLength : option Request.Body -> option Z.
Context {D : Prop}.

(** [c'] differs from [c] at most in the socket's fields and in the trace. *)
Definition same_core (c c' : Client) : Prop :=
  config c' = config c /\ kPipelining c' = kPipelining c /\ kQueue c' = kQueue c
  /\ kRunningIdx c' = kRunningIdx c /\ kPendingIdx c' = kPendingIdx c
  /\ kClosed c' = kClosed c /\ kDestroyed c' = kDestroyed c
  /\ kServerName c' = kServerName c /\ kOnDestroyed c' = kOnDestroyed c
  /\ kResuming c' = kResuming c /\ kNeedDrain c' = kNeedDrain c
  /\ kKeepAliveTimeoutValue c' = kKeepAliveTimeoutValue c
  /\ (is_Some (kSocket c') <-> is_Some (kSocket c)).

Lemma same_core_refl c : same_core c c.
Proof. unfold same_core. intuition. Qed.

Lemma same_core_trans c1 c2 c3 : same_core c1 c2 -> same_core c2 c3 -> same_core c1 c3.
Proof. unfold same_core. intuition congruence. Qed.

Definition framed (c : Client) : Client -> Prop := same_core c.

Ltac frame_side :=
  intros ? ?; unfold framed, same_core in *; cl_simpl; rewrite ?fmap_is_Some; intuition.

Ltac frame_auto :=
  repeat first
    [ assumption
    | solve [auto with pres]
    | progress (try unfold on_socket; try unfold on_parser); pres_step frame_side
    | pres_step frame_side ].

Lemma cl_deliver_frame c res : keeps D (framed c) (deliver res).
Proof. unfold deliver. frame_auto. Qed.
#[local] Hint Resolve cl_deliver_frame : pres.

Lemma cl_fail_request_frame c r err : keeps D (framed c) (fail_request r err).
Proof. unfold fail_request. frame_auto. Qed.
#[local] Hint Resolve cl_fail_request_frame : pres.

Lemma cl_fail_all_frame c reqs err : keeps D (framed c) (fail_all reqs err).
Proof. induction reqs as [|[r|] reqs IH]; cbn [fail_all]; frame_auto. Qed.
#[local] Hint Resolve cl_fail_all_frame : pres.

Lemma cl_util_destroy_frame c err : keeps D (framed c) (util_destroy err).
Proof. unfold util_destroy. frame_auto. Qed.
#[local] Hint Resolve cl_util_destroy_frame : pres.

Lemma cl_write_frame c r : keeps D (framed c) (write bodyLength r).
Proof. unfold write. frame_auto. Qed.
#[local] Hint Resolve cl_write_frame : pres.

Lemma cl_resume_timers_frame c s : keeps D (framed c) (resume_timers s).
Proof. unfold resume_timers. frame_auto. Qed.
#[local] Hint Resolve cl_resume_timers_frame : pres.

End Frames.

(** *** The queue and its three regions *)

(** The slots [from, to) of a queue. *)
Definition region {A} (from to : nat) (l : list A) : list A :=
  take (to - from) (drop from l).

Lemma region_insert_ge {A} (a b i : nat) (x : A) l :
  (b <= i)%nat -> region a b (<[i := x]> l) = region a b l.
Proof.
  intros H. unfold region.
  destruct (decide (a <= b)%nat) as [Hab|Hab].
  - rewrite drop_insert_ge by lia. rewrite take_insert_ge by lia. reflexivity.
  - replace (b - a)%nat with 0%nat by lia. reflexivity.
Qed.

Lemma region_snoc {A} (a b : nat) (x : A) l :
  (a <= b)%nat -> (b < length l)%nat ->
  region a (S b) (<[b := x]> l) = region a b l ++ [x].
Proof.
  intros Hab Hb. unfold region.
  apply list_eq. intros i.
  destruct (decide (i < b - a)%nat) as [Hi|Hi].
  - rewrite lookup_app_l by (rewrite length_take, length_drop; lia).
    rewrite !lookup_take_lt by lia. rewrite !lookup_drop.
    rewrite list_lookup_insert_ne by lia. reflexivity.
  - destruct (decide (i = b - a)%nat) as [->|Hne].
    + rewrite lookup_take_lt by lia. rewrite lookup_drop.
      replace (a + (b - a))%nat with b by lia.
      rewrite list_lookup_insert_eq by lia.
      rewrite lookup_app_r by (rewrite length_take, length_drop; lia).
      rewrite length_take, length_drop.
      replace (b - a - (b - a) `min` (length l - a))%nat with 0%nat by lia.
      reflexivity.
    + rewrite lookup_take_ge by lia.
      symmetry. apply lookup_ge_None.
      rewrite length_app, length_take, length_drop. cbn. lia.
Qed.

Lemma region_take {A} (a b n : nat) (l : list A) :
  (b <= n)%nat -> region a b (take n l) = region a b l.
Proof.
  intros H. unfold region.
  destruct (decide (a <= b)%nat) as [Hab|Hab].
  - apply list_eq. intros i.
    destruct (decide (i < b - a)%nat) as [Hi|Hi].
    + rewrite !lookup_take_lt by lia. rewrite !lookup_drop.
      rewrite lookup_take_lt by lia. reflexivity.
    + rewrite !lookup_take_ge by lia. reflexivity.
  - replace (b - a)%nat with 0%nat by lia. reflexivity.
Qed.

Lemma region_app_l {A} (a b : nat) (l1 l2 : list A) :
  (b <= length l1)%nat -> region a b (l1 ++ l2) = region a b l1.
Proof.
  intros H. unfold region.
  apply list_eq. intros i.
  destruct (decide (i < b - a)%nat) as [Hi|Hi].
  - rewrite !lookup_take_lt by lia. rewrite !lookup_drop.
    rewrite lookup_app_l by lia. reflexivity.
  - rewrite !lookup_take_ge by lia. reflexivity.
Qed.

Lemma region_splice_one {A} (a b i : nat) (l : list A) :
  (b <= i)%nat -> (i <= length l)%nat -> region a b (splice_one i l) = region a b l.
Proof.
  intros H Hl. unfold splice_one.
  rewrite region_app_l by (rewrite length_take; lia).
  apply region_take. exact H.
Qed.

Lemma region_compact {A} (r p : nat) (l : list A) :
  region 1 (p - r) (drop r l) = region (S r) p l.
Proof.
  unfold region. rewrite drop_drop.
  replace (r + 1)%nat with (S r) by lia.
  replace (p - r - 1)%nat with (p - S r)%nat by lia. reflexivity.
Qed.

Lemma region_empty {A} (a b : nat) (l : list A) : (b <= a)%nat -> region a b l = [].
Proof. intros H. unfold region. replace (b - a)%nat with 0%nat by lia. reflexivity. Qed.

Lemma region_tail {A} (a b : nat) (l : list A) :
  region (S a) b l = drop 1 (region a b l).
Proof.
  unfold region. apply list_eq. intros i. rewrite lookup_drop.
  destruct (decide (i < b - S a)%nat) as [Hi|Hi].
  - rewrite !lookup_take_lt by lia. rewrite !lookup_drop.
    f_equal. lia.
  - rewrite !lookup_take_ge by lia. reflexivity.
Qed.

(** *** The invariants of the scheduler *)

Section Scheduler.

Import Client.

Variable bodyLength : option Request.Body -> option Z.

(** The invariant has two optional parts: the bound on the number of
    running requests is tracked when [W] holds, the serialization of
    requests that cannot be pipelined when [T] holds. *)
Variables W T : Prop.

(** The indices split the queue. *)
Definition queue_ok (c : Client) : Prop :=
  (kRunningIdx c <= kPendingIdx c)%nat /\ (kPendingIdx c <= length (kQueue c))%nat.

(** The number of running requests is within the limit the scheduler
    uses, [kPipelining || 1]. *)
Definition within_limit (c : Client) : Prop := (kRunning c <= pipelining_or_1 c)%Z.

(** A request that may follow another one on the wire. *)
Definition pipelineable (r : Request.Request) : bool :=
  Request.idempotent r
  && negb (isStream (Request.body r))
  && negb (Request.upgrade r || String.eqb (Request.method r) "CONNECT").

(** A slot that is harmless behind the head: pipelineable, or already
    failed. *)
Definition settled (o : option Request.Request) : bool :=
  match o with
  | Some r => pipelineable r || Request.aborted r
  | None => true
  end.

(** Every running request behind the head is settled. *)
Definition tail_ok (c : Client) : Prop :=
  Forall (fun o => settled o = true)
         (region (S (kRunningIdx c)) (kPendingIdx c) (kQueue c)).

Definition inv (c : Client) : Prop :=
  queue_ok c /\ (W -> within_limit c) /\ (T -> tail_ok c).

(** What decreases along the scheduler loop. *)
Definition sock_part (c : Client) : nat :=
  match kSocket c with Some _ => 0 | None => 2 end.

Definition backlog (c : Client) : nat :=
  4 * (length (kQueue c) - kPendingIdx c)
  + sock_part c
  + (if kDestroyed c then 0 else 1).

Definition measure (c : Client) : nat :=
  backlog c + (if (kNeedDrain c =? 2)%nat then 1 else 0).

(** The invariant looks at the queue, the indices and the limit only. *)
Lemma inv_same_core c c' : same_core c c' -> inv c -> inv c'.
Proof.
  unfold same_core, inv, queue_ok, within_limit, tail_ok, kRunning, pipelining_or_1.
  intros (Hcfg & Hp & Hq & Hr & Hpe & _). rewrite Hp, Hq, Hr, Hpe. auto.
Qed.

(** The request [write] hands back is the one it was given, up to its
    lifecycle fields. *)
Definition same_kind (r r' : Request.Request) : Prop :=
  Request.idempotent r' = Request.idempotent r
  /\ Request.body r' = Request.body r
  /\ Request.upgrade r' = Request.upgrade r
  /\ Request.method r' = Request.method r.

Lemma onError_kind r err : same_kind r (Request.res_request (Request.onError r err)).
Proof.
  unfold Request.onError, same_kind.
  destruct (Request.aborted r); cbn; [auto|].
  destruct (Request.kResume _); cbn; auto.
Qed.

Lemma same_kind_trans r1 r2 r3 : same_kind r1 r2 -> same_kind r2 r3 -> same_kind r1 r3.
Proof. unfold same_kind. intuition congruence. Qed.

Lemma onConnect_kind r : same_kind r (Request.res_request (Request.onConnect r)).
Proof.
  unfold Request.onConnect.
  destruct (Request.aborted r) eqn:Ha; [cbn; unfold same_kind; auto|].
  set (r1 := match Request.kRequestTimeout (Request.set_kResume r true) with
             | Some z => if (z =? 0)%Z then Request.set_kResume r true
                         else Request.set_kTimeout (Request.set_kResume r true) true
             | None => Request.set_kResume r true
             end).
  assert (H1 : same_kind r r1).
  { subst r1. unfold same_kind.
    destruct (Request.kRequestTimeout _) as [z|]; [destruct (z =? 0)%Z|]; cbn; auto. }
  destruct (Request.h_onConnect (Request.kHandler r1)); cbn; try exact H1.
  eapply same_kind_trans; [exact H1|]. apply onError_kind.
Qed.

(** [write] touches the socket and the trace, and hands the request back
    as the kind of request it was. *)
Lemma write_spec {D} c r :
  hoare D (eq c) (write bodyLength r)
    (fun res c' => same_core c c' /\ same_kind r (snd res)) (same_core c).
Proof.
  pose proof (onConnect_kind r) as Hk.
  pose proof (onError_kind r RequestContentLengthMismatchError) as Hk'.
  assert (Hk2 : forall e, same_kind r (Request.res_request
                   (Request.onError (Request.res_request (Request.onConnect r)) e))).
  { intros e. eapply same_kind_trans; [exact Hk|]. apply onError_kind. }
  unfold write, fail_request, deliver. hxc.
  all: cbn [fst snd]; try split; auto.
  all: unfold same_core; cl_simpl; rewrite ?fmap_is_Some; intuition.
Qed.

(** Calls with a known specification whose exceptional postcondition is
    stronger than the one at hand. *)
Lemma hx_bind_call_weaken {D A B} (P : Client -> Prop) c (m : M Client A)
  (k : A -> M Client B) Q' Q (E' E : Client -> Prop) :
  hoare D P m Q' E' -> P c -> (forall s, E' s -> E s) ->
  (forall a c', Q' a c' -> hoare D (eq c') (k a) Q E) ->
  hoare D (eq c) (m ≫= k) Q E.
Proof.
  intros Hm Hc HE Hk. eapply hx_bind_call; [|exact Hc|exact Hk].
  eapply hoare_conseq; [exact Hm|auto|auto|exact HE].
Qed.

Lemma hx_call_weaken {D A} (P : Client -> Prop) c (m : M Client A) Q' Q
  (E' E : Client -> Prop) :
  hoare D P m Q' E' -> P c -> (forall s, E' s -> E s) ->
  (forall a s, Q' a s -> Q a s) ->
  hoare D (eq c) m Q E.
Proof.
  intros Hm Hc HE HQ. eapply hx_call; [|exact Hc].
  eapply hoare_conseq; [exact Hm|auto|exact HQ|exact HE].
Qed.

(** Inside the scheduler the reentrancy guard is up. *)
Definition looping (c : Client) : Prop := inv c /\ kResuming c = 2%nat.

Lemma looping_same_core c c' : same_core c c' -> looping c -> looping c'.
Proof.
  intros H [Hi Hr]. split; [exact (inv_same_core _ _ H Hi)|].
  destruct H as (_ & _ & _ & _ & _ & _ & _ & _ & _ & H & _). congruence.
Qed.

(** The measure is insensitive to what the helpers change. *)
Lemma sock_part_same_core c c' : same_core c c' -> sock_part c' = sock_part c.
Proof.
  unfold same_core, sock_part.
  intros (_ & _ & _ & _ & _ & _ & _ & _ & _ & _ & _ & _ & Hs).
  destruct (kSocket c') as [s'|], (kSocket c) as [s|]; try reflexivity.
  - destruct Hs as [Hs _]. destruct Hs as [? Hs]; [eauto|discriminate].
  - destruct Hs as [_ Hs]. destruct Hs as [? Hs]; [eauto|discriminate].
Qed.

Lemma backlog_same_core c c' : same_core c c' -> backlog c' = backlog c.
Proof.
  intros H. unfold backlog. rewrite (sock_part_same_core _ _ H).
  destruct H as (_ & _ & Hq & _ & Hp & _ & Hd & _). rewrite Hq, Hp, Hd. reflexivity.
Qed.

Lemma measure_same_core c c' : same_core c c' -> measure c' = measure c.
Proof.
  intros H. unfold measure. rewrite (backlog_same_core _ _ H).
  destruct H as (_ & _ & _ & _ & _ & _ & _ & _ & _ & _ & Hn & _). rewrite Hn. reflexivity.
Qed.

(** Field reads of a later state are brought back to the state they
    are known from. *)
Ltac fact_rewrite :=
  repeat match goal with
    | H : kQueue ?x = _ |- context [kQueue ?x] => rewrite H
    | H : kPendingIdx ?x = _ |- context [kPendingIdx ?x] => rewrite H
    | H : kRunningIdx ?x = _ |- context [kRunningIdx ?x] => rewrite H
    | H : kPipelining ?x = _ |- context [kPipelining ?x] => rewrite H
    | H : config ?x = _ |- context [config ?x] => rewrite H
    | H : kClosed ?x = _ |- context [kClosed ?x] => rewrite H
    | H : kDestroyed ?x = _ |- context [kDestroyed ?x] => rewrite H
    | H : kServerName ?x = _ |- context [kServerName ?x] => rewrite H
    | H : kOnDestroyed ?x = _ |- context [kOnDestroyed ?x] => rewrite H
    | H : kResuming ?x = _ |- context [kResuming ?x] => rewrite H
    | H : kNeedDrain ?x = _ |- context [kNeedDrain ?x] => rewrite H
    | H : kSocket ?x = _ |- context [kSocket ?x] => rewrite H
    end.

(** What a call left alone. *)
Ltac after_call :=
  cbv beta in *;
  repeat match goal with
    | H : framed _ _ |- _ => unfold framed in H
    | H : same_core _ _ /\ _ |- _ => destruct H
    | H : same_core ?c ?c' |- _ =>
        let Hb := fresh "Hsp" in
        pose proof (sock_part_same_core _ _ H) as Hb;
        let Hl := fresh "Hloop" in
        pose proof (looping_same_core _ _ H) as Hl;
        let H1 := fresh in let H2 := fresh in let H3 := fresh in let H4 := fresh in
        let H5 := fresh in let H6 := fresh in let H7 := fresh in let H8 := fresh in
        let H9 := fresh in let H10 := fresh in let H11 := fresh in let H12 := fresh in
        let H13 := fresh "Hsock" in
        destruct H as (H1 & H2 & H3 & H4 & H5 & H6 & H7 & H8 & H9 & H10 & H11 & H12 & H13);
        cl_simpl
    end.

Ltac stable :=
  cbv beta;
  lazymatch goal with
  | |- looping _ => eapply looping_same_core; [eassumption|]
  | |- inv _ => eapply inv_same_core; [eassumption|]
  | |- True => exact I
  end.

Ltac call_framed lem :=
  first
    [ eapply hx_bind_call_weaken with (P := framed _);
      [ apply lem | apply same_core_refl
      | intros ? ?; stable
      | intros ? ? ? ]
    | eapply hx_call_weaken with (P := framed _);
      [ apply lem | apply same_core_refl
      | intros ? ?; stable
      | intros ? ? ?; cbv beta in *; stable ] ].

Ltac unfold_getters := unfold kPending, kRunning, kSize, pipelining_or_1 in *.

Ltac sched_step :=
  first
    [ lazymatch goal with
      | |- hoare _ (eq _) (fail_all _ _ ≫= _) _ _ =>
          call_framed (@cl_fail_all_frame False)
      | |- hoare _ (eq _) (util_destroy _ ≫= _) _ _ =>
          call_framed (@cl_util_destroy_frame False)
      | |- hoare _ (eq _) (util_destroy _) _ _ =>
          call_framed (@cl_util_destroy_frame False)
      | |- hoare _ (eq _) (resume_timers _ ≫= _) _ _ =>
          call_framed (@cl_resume_timers_frame False)
      | |- hoare _ (eq _) (write _ _ ≫= _) _ _ =>
          eapply hx_bind_call_weaken with (P := eq _);
          [ apply write_spec | reflexivity
          | intros ? ?; stable
          | intros ? ? ? ]
      end; after_call; fact_rewrite
    | hxc1; cbn [fst snd]; unfold_getters; fact_rewrite; cl_simpl;
      rewrite ?Nat.eqb_refl ].

(** A write below a region does not show in it. *)
Lemma region_insert_lt {A} (a b i : nat) (x : A) l :
  (i < a)%nat -> region a b (<[i := x]> l) = region a b l.
Proof.
  intros H. unfold region. apply list_eq. intros j.
  destruct (decide (j < b - a)%nat) as [Hj|Hj].
  - rewrite !lookup_take_lt by lia. rewrite !lookup_drop.
    rewrite list_lookup_insert_ne by lia. reflexivity.
  - rewrite !lookup_take_ge by lia. reflexivity.
Qed.

(** A request written behind running ones must be settled; the first
    one need not be. *)
Lemma tail_snoc (run pend : nat) (q : list (option Request.Request)) x :
  (pend < length q)%nat ->
  Forall (fun o => settled o = true) (region (S run) pend q) ->
  ((run < pend)%nat -> settled x = true) ->
  Forall (fun o => settled o = true) (region (S run) (S pend) (<[pend := x]> q)).
Proof.
  intros Hp Hq Hx.
  destruct (decide (run < pend)%nat) as [Hlt|Hge].
  - rewrite region_snoc by lia. apply Forall_app. split; [exact Hq|].
    apply Forall_singleton. auto.
  - rewrite region_empty by lia. constructor.
Qed.

(** What makes a request pipelineable is its kind. *)
Lemma same_kind_pipelineable r r' :
  same_kind r r' -> pipelineable r = true -> pipelineable r' = true.
Proof. unfold same_kind, pipelineable. intros (-> & -> & -> & ->). auto. Qed.

Ltac prep :=
  unfold looping, inv, queue_ok, within_limit in *;
  unfold_getters;
  repeat match goal with
    | H : _ /\ _ |- _ => destruct H
    | H : _ !! _ = Some _ |- _ => apply lookup_lt_Some in H
    | H : (_ =? _)%Z = true |- _ => apply Z.eqb_eq in H
    | H : (_ =? _)%Z = false |- _ => apply Z.eqb_neq in H
    | H : (_ <=? _)%Z = true |- _ => apply Z.leb_le in H
    | H : (_ <=? _)%Z = false |- _ => apply Z.leb_gt in H
    | H : (_ <? _)%Z = true |- _ => apply Z.ltb_lt in H
    | H : (_ <? _)%Z = false |- _ => apply Z.ltb_ge in H
    | H : (_ =? _)%nat = true |- _ => apply Nat.eqb_eq in H
    | H : (_ =? _)%nat = false |- _ => apply Nat.eqb_neq in H
    | H : _ && _ = true |- _ => apply andb_true_iff in H
    end.

Ltac lengths :=
  rewrite ?list_insert_insert_eq in *;
  rewrite ?length_insert, ?length_take, ?length_drop, ?length_app in *;
  cbn [length] in *;
  rewrite ?length_splice_one in * by (rewrite ?length_insert; lia);
  rewrite ?length_insert in *.

Ltac socket_facts :=
  repeat match goal with
    | H : kSocket ?x = _, H' : context [kSocket ?x] |- _ =>
        lazymatch type of H' with
        | kSocket x = _ => fail
        | _ => rewrite H in H'
        end
    | H : kNeedDrain ?x = _, H' : context [kNeedDrain ?x] |- _ =>
        lazymatch type of H' with
        | kNeedDrain x = _ => fail
        | _ => rewrite H in H'
        end
    end.

Ltac settle :=
  let Hlt := fresh "Hlt" in
  intros Hlt;
  match goal with
  | H : Request.aborted ?r = true |- settled (Some ?r) = true =>
      unfold settled; rewrite H; apply orb_true_r
  | |- settled (Some _) = true =>
      unfold settled; apply orb_true_iff; left;
      try (eapply same_kind_pipelineable; [eassumption|]);
      let Hpos := fresh "Hpos" in
      match goal with
      | H : context [(0 <? ?z)%Z] |- _ =>
          assert (Hpos : (0 <? z)%Z = true) by (apply Z.ltb_lt; lia);
          rewrite Hpos in *
      end;
      cbn [andb] in *; unfold pipelineable;
      repeat match goal with
        | H : negb _ = false |- _ => apply negb_false_iff in H
        | |- context [if ?b then _ else _] => destruct b
        end;
      cbn [Request.set_body Request.idempotent Request.body Request.upgrade
           Request.method isStream] in *;
      repeat match goal with
        | H : _ = true |- _ => rewrite H
        | H : _ = false |- _ => rewrite H
        end;
      reflexivity
  end.

Ltac js_set_cases :=
  repeat match goal with
    | |- context [if (?a <? ?b)%nat then _ else _] =>
        let H := fresh in
        destruct (a <? b)%nat eqn:H; [apply Nat.ltb_lt in H|apply Nat.ltb_ge in H]
    end.

Ltac tail_solve :=
  let HT := fresh "HT" in
  intros HT;
  repeat match goal with
    | H : T -> tail_ok _ |- _ => specialize (H HT); unfold tail_ok in H
    end;
  unfold tail_ok; cl_simpl; fact_rewrite; rewrite ?list_insert_insert_eq;
  js_set_cases; try (exfalso; lia);
  first
    [ assumption
    | rewrite region_insert_lt by lia;
      first [assumption | rewrite region_tail; apply Forall_drop; assumption]
    | rewrite region_insert_ge by lia; assumption
    | rewrite region_take by lia; assumption
    | rewrite region_compact; assumption
    | rewrite region_empty by lia; constructor
    | rewrite region_app_l by lia; assumption
    | rewrite region_splice_one by (rewrite ?length_insert; lia);
      rewrite ?region_insert_ge by lia; assumption
    | apply tail_snoc; [lia | assumption | settle] ].

Ltac sock_iff :=
  match goal with
  | |- is_Some _ <-> is_Some _ =>
      repeat match goal with
        | H : is_Some (kSocket ?x) <-> _ |- context [kSocket ?x] => rewrite H
        end;
      fact_rewrite; split; intros [? ?]; first [discriminate | eauto]
  end.

Ltac limit_solve :=
  let HW := fresh "HW" in
  intros HW;
  try (exfalso; match goal with H : ~ W |- _ => exact (H HW) end);
  repeat match goal with
    | H : W -> _ |- _ => specialize (H HW)
    end;
  cl_simpl; fact_rewrite; lengths; lia.

Ltac leaf :=
  try exact I;
  prep; socket_facts; cl_simpl; fact_rewrite; lengths;
  unfold measure, backlog, sock_part in *; cl_simpl; socket_facts; fact_rewrite;
  cbv beta iota in *; cbn [Nat.eqb] in *; lengths;
  repeat match goal with
    | |- _ /\ _ => split
    end;
  try sock_iff;
  js_set_cases; lengths;
  try assumption; try lia;
  try solve [limit_solve];
  try tail_solve;
  try (repeat match goal with
         | |- context [if ?b then _ else _] => destruct b
         | H : context [if ?b then _ else _] |- _ => destruct b
         end; lia).

(** One iteration from the pending check on: the invariant is kept, and
    the next iteration starts with a smaller measure. *)
Lemma resume_dispatch_spec fuel (continue : M Client unit) socket :
  hoare False (fun c => looping c /\ (measure c < fuel)%nat) continue
    (fun _ => looping) looping ->
  hoare False
    (fun c => looping c /\ (is_Some socket <-> is_Some (kSocket c)) /\ (backlog c <= fuel)%nat)
    (resume_dispatch bodyLength continue socket) (fun _ => looping) looping.
Proof.
  intros IH. apply hx_intro. intros c (Hc & Hs & Hb).
  unfold resume_dispatch, connect.
  repeat sched_step.
  all: try exact Hc.
  all: try (eapply hx_call; [exact IH|split]).
  all: leaf.
  all: destruct (kSocket c) as [s0|];
    [destruct Hs as [_ Hs]; destruct Hs as [? Hs]; [eauto|discriminate]|].
  all: destruct (kDestroyed c), (kNeedDrain c =? 2)%nat; unfold sock_part in *; lia.
Qed.

(** The scheduler loop keeps the invariant and comes to an end, given
    fuel above the measure. *)
Lemma _resume_spec fuel sync :
  hoare False (fun c => looping c /\ (measure c < fuel)%nat)
    (_resume bodyLength fuel sync) (fun _ => looping) looping.
Proof.
  revert sync. induction fuel as [|fuel IH]; intros sync; cbn [_resume].
  - intros s [_ Hs]. lia.
  - apply hx_intro. intros c [Hc Hm].
    unfold destroy_with, resume_with, emitDrain, splice_from.
    assert (Hres : kResuming c = 2%nat) by apply Hc.
    repeat sched_step.
    all: try exact Hc.
    all: try (eapply hx_call; [apply IH|split]).
    all: try (eapply hx_call; [apply resume_dispatch_spec; apply IH|split; [|split]]).
    all: leaf.
Qed.

(** [resume] gives the loop enough fuel. *)
Lemma measure_bound c : (measure c < resume_fuel c)%nat.
Proof.
  unfold measure, backlog, sock_part, resume_fuel.
  destruct (kSocket c), (kDestroyed c), (kNeedDrain c =? 2)%nat; lia.
Qed.

Lemma inv_looping c : inv c -> looping (set_resuming 2 c).
Proof. intros H. split; [exact H|reflexivity]. Qed.

Lemma looping_inv c : looping c -> inv c.
Proof. intros [H _]. exact H. Qed.

(** [resume], [destroy], [close] and [dispatch] keep the invariant, also
    when they throw, and come to an end. *)
Lemma resume_spec sync : keeps False inv (resume bodyLength sync).
Proof.
  apply hx_intro. intros c Hc. unfold resume, resume_with, compact.
  hxc1. hxc1. hxc1.
  { hxc1. exact Hc. }
  hxc1.
  eapply hx_bind_call_weaken with (P := fun s => looping s /\ (measure s < resume_fuel c)%nat).
  { apply _resume_spec. }
  { split; [apply inv_looping; exact Hc|apply (measure_bound (set_resuming 2 c))]. }
  { intros s Hs. apply looping_inv. exact Hs. }
  intros [] c1 Hc1. apply looping_inv in Hc1.
  repeat sched_step.
  all: try exact Hc1.
  all: leaf.
Qed.

Lemma destroy_spec err callback : keeps False inv (destroy bodyLength err callback).
Proof.
  apply hx_intro. intros c Hc. unfold destroy, destroy_with, splice_from.
  repeat sched_step.
  all: try exact Hc.
  all: try (eapply hx_call; [apply resume_spec|]).
  all: leaf.
Qed.

Lemma close_spec callback : keeps False inv (close bodyLength callback).
Proof.
  apply hx_intro. intros c Hc. unfold close.
  repeat sched_step.
  all: try exact Hc.
  all: try (eapply hx_call; [apply destroy_spec|]).
  all: leaf.
Qed.

Variable isIP : string -> bool.

(** A constructor that returns or throws, run in the client monad. *)
Lemma lift_spec {A} (m : Completion A) c (Q : A -> Client -> Prop) (E : Client -> Prop) :
  E c -> (forall a, m = Normal a -> Q a c) -> hoare False (eq c) (lift m) Q E.
Proof.
  intros HE HQ. destruct m as [a|e]; cbn [lift].
  - apply hx_ret. auto.
  - apply hx_throw. exact HE.
Qed.

Lemma dispatch_spec opts handler : keeps False inv (dispatch bodyLength isIP opts handler).
Proof.
  apply hx_intro. intros c Hc. unfold dispatch.
  destruct handler as [| | | |onErrorIsFunction h]; try (apply hx_throw; exact Hc).
  eapply hx_bind_call_weaken with (P := eq c) (Q' := fun _ => inv) (E' := inv);
    [|reflexivity|auto|].
  2:{ intros [] c1 Hc1. repeat sched_step. exact Hc1. }
  apply hx_try_catch with (E' := inv).
  2:{ intros e c1 Hc1. repeat sched_step; exact Hc1. }
  set (m := match opts with Some o => _ | None => _ end).
  destruct m as [request|e]; cbn [lift].
  2:{ apply hx_bind_throw. exact Hc. }
  repeat sched_step.
  all: try exact Hc.
  all: try (eapply hx_bind_call_weaken with (P := inv);
            [apply resume_spec| |auto|intros [] c1 Hc1; repeat sched_step]).
  all: leaf.
Qed.

(** *** Socket events *)

Lemma onSocketConnect_spec : keeps False inv (onSocketConnect bodyLength).
Proof.
  apply hx_intro. intros c Hc. unfold onSocketConnect.
  repeat sched_step.
  all: try exact Hc.
  all: try (eapply hx_call; [apply resume_spec|]).
  all: leaf.
Qed.

Lemma onSocketClose_spec :
  hoare False inv (onSocketClose bodyLength) (fun _ => inv) (fun _ => True).
Proof.
  apply hx_intro. intros c Hc. unfold onSocketClose, splice_from, fail_request, deliver, js_set.
  repeat sched_step.
  all: try exact Hc.
  all: try (eapply hx_call_weaken with (P := inv); [apply resume_spec| |auto|auto]).
  all: leaf.
Qed.

(** The certificate error fails the pending requests for the current
    server name and leaves them in the running region. *)
Lemma fail_servername_spec (HW : ~ W) reqs err :
  hoare False
    (fun c => inv c /\ (length reqs <= length (kQueue c) - kPendingIdx c)%nat)
    (fail_servername reqs err) (fun _ => inv) (fun _ => True).
Proof.
  induction reqs as [|[r|] reqs IH]; cbn [fail_servername].
  - apply hx_intro. intros c [Hc _]. apply hx_ret. exact Hc.
  - apply hx_intro. intros c [Hc Hl]. cbn [length] in Hl.
    unfold fail_request, deliver.
    repeat sched_step.
    all: try exact Hc.
    all: try (eapply hx_call; [apply IH|split]).
    all: leaf.
  - apply hx_intro. intros c _. apply hx_throw. exact I.
Qed.

Lemma onSocketError_spec (HW : ~ W) err :
  hoare False inv (onSocketError err) (fun _ => inv) (fun _ => True).
Proof.
  apply hx_intro. intros c Hc. unfold onSocketError, splice_from.
  repeat sched_step.
  all: try exact Hc.
  all: try (eapply hx_call; [apply (fail_servername_spec HW)|split]).
  all: leaf.
Qed.

(** Any other socket error fails the whole queue or nothing, so that the
    bound on the running requests is kept as well. *)
Lemma onSocketError_plain_spec err :
  String.eqb (err_code err) "ERR_TLS_CERT_ALTNAME_INVALID" = false ->
  hoare False inv (onSocketError err) (fun _ => inv) (fun _ => True).
Proof.
  intros Hcode. apply hx_intro. intros c Hc. unfold onSocketError, splice_from.
  repeat sched_step.
  all: try exact Hc.
  all: leaf.
Qed.

(** *** Parser callbacks *)

Variable parseKeepAliveTimeout : string -> option Z.

(** A response belongs to a running request. *)
Lemma Parser_onMessageComplete_spec :
  hoare False (fun c => inv c /\ (0 < kRunning c)%Z)
    (Parser_onMessageComplete bodyLength) (fun _ => inv) (fun _ => True).
Proof.
  apply hx_intro. intros c [Hc Hr].
  unfold Parser_onMessageComplete, fail_request, deliver, js_set.
  repeat sched_step.
  all: try exact Hc.
  all: try (eapply hx_bind_call_weaken with (P := inv);
            [apply resume_spec| |auto|intros [] c1 Hc1; repeat sched_step]).
  all: leaf.
Qed.

Lemma Parser_onHeadersComplete_spec status upgrade shouldKeepAlive' :
  hoare False (fun c => inv c /\ (0 < kRunning c)%Z)
    (Parser_onHeadersComplete parseKeepAliveTimeout status upgrade shouldKeepAlive')
    (fun _ => inv) (fun _ => True).
Proof.
  apply hx_intro. intros c [Hc Hr].
  unfold Parser_onHeadersComplete, keepAlive_block, deliver.
  repeat sched_step.
  all: try exact Hc.
  all: leaf.
Qed.

(** The upgrade hands the socket over and steps past the head. *)
Lemma Parser_onUpgrade_spec :
  hoare False (fun c => inv c /\ (0 < kRunning c)%Z)
    (Parser_onUpgrade bodyLength) (fun _ => inv) (fun _ => True).
Proof.
  apply hx_intro. intros c [Hc Hr].
  unfold Parser_onUpgrade, deliver, js_set.
  repeat sched_step.
  all: try exact Hc.
  all: try (eapply hx_call_weaken with (P := inv); [apply resume_spec| |auto|auto]).
  all: leaf.
Qed.

(** *** A scheduler run that writes nothing *)

(** What the handlers have seen. *)
Fixpoint handler_events (t : list Event) : list (nat * Request.Event) :=
  match t with
  | Handler hid e :: t' => (hid, e) :: handler_events t'
  | _ :: t' => handler_events t'
  | [] => []
  end.

(** [handler_events] goes through concatenation. *)
Lemma handler_events_app t1 t2 :
  handler_events (t1 ++ t2) = handler_events t1 ++ handler_events t2.
Proof.
  induction t1 as [|[] t1 IH]; cbn [handler_events app]; rewrite ?IH; reflexivity.
Qed.

Ltac calm_step :=
  cbv beta zeta iota; cl_simpl; unfold_getters; fact_rewrite;
  repeat match goal with
    | H : kConnecting ?s = true |- context [kConnecting ?s] => rewrite H
    end;
  rewrite ?orb_true_r; cbn [orb andb negb fst snd];
  rewrite ?Nat.eqb_refl;
  hxc1.

Section Calm.

Variable c0 : Client.

(** Nothing is running, and the socket, if there is one, is still
    connecting: the scheduler can connect or destroy, but it tells no
    handler anything and leaves the pending requests as they are. *)
Definition calm (c : Client) : Prop :=
  queue_ok c
  /\ kPendingIdx c = kRunningIdx c
  /\ match kSocket c with Some s => kConnecting s = true | None => True end
  /\ handler_events (trace c) = handler_events (trace c0)
  /\ drop (kPendingIdx c) (kQueue c) = drop (kPendingIdx c0) (kQueue c0).

Definition calm_loop (c : Client) : Prop := calm c /\ kResuming c = 2%nat.

Ltac calm_leaf :=
  try exact I;
  unfold calm_loop, calm in *; prep;
  socket_facts; cl_simpl; fact_rewrite; lengths;
  try match goal with
    | H : kPendingIdx ?x = kRunningIdx ?x |- _ => rewrite H in *
    end;
  unfold measure, backlog, sock_part in *; cl_simpl; socket_facts; fact_rewrite;
  cbv beta iota in *; cl_simpl; cbn [Nat.eqb] in *; lengths;
  rewrite ?handler_events_app; cbn [handler_events]; rewrite ?app_nil_r;
  repeat match goal with
    | |- _ /\ _ => split
    end;
  try sock_iff;
  try assumption; try reflexivity; try lia;
  try (match goal with
       | H : drop _ _ = drop (kPendingIdx c0) (kQueue c0) |- _ => rewrite <- H
       end;
       rewrite ?drop_drop;
       first [ f_equal; lia
             | rewrite !drop_ge by (rewrite ?length_take; lia); reflexivity ]);
  try (repeat match goal with
         | |- context [if ?b then _ else _] => destruct b
         | H : context [if ?b then _ else _] |- _ => destruct b
         end; lia).

(** The socket read at the top of an iteration is there exactly when the
    client has one. *)
Lemma is_Some_None_absurd {A} (x : A) : ~ (is_Some (@None A) <-> is_Some (Some x)).
Proof. intros [_ H]. destruct H as [? H]; [eauto|discriminate]. Qed.

(** In a calm client the iteration can connect, and nothing else. *)
Lemma resume_dispatch_calm fuel (continue : M Client unit) socket :
  hoare False (fun c => calm_loop c /\ (measure c < fuel)%nat) continue
    (fun _ => calm_loop) calm_loop ->
  hoare False
    (fun c => calm_loop c /\ (is_Some socket <-> is_Some (kSocket c))
              /\ (backlog c <= fuel)%nat)
    (resume_dispatch bodyLength continue socket) (fun _ => calm_loop) calm_loop.
Proof.
  intros IH. apply hx_intro. intros c (Hc & Hs & Hb).
  unfold resume_dispatch, connect, util_destroy.
  destruct socket as [s0|], (kSocket c) as [s|] eqn:Hsock.
  - assert (Hconn : kConnecting s = true).
    { destruct Hc as [(_ & _ & H & _) _]. rewrite Hsock in H. exact H. }
    repeat calm_step.
    all: try exact Hc.
    all: calm_leaf.
  - destruct (is_Some_None_absurd s0). tauto.
  - destruct (is_Some_None_absurd s). exact Hs.
  - repeat calm_step.
    all: try exact Hc.
    all: try (eapply hx_call; [exact IH|split]).
    all: calm_leaf.
Qed.

Ltac no_pending :=
  match goal with
  | |- hoare _ _ (fail_all (drop ?n ?l) _ ≫= _) _ _ =>
      replace (drop n l) with (@nil (option Request.Request))
        by (symmetry; apply drop_ge; unfold calm_loop, calm in *; prep; lia);
      cbn [fail_all]
  end.

(** The loop keeps a calm client calm. *)
Lemma _resume_calm fuel sync :
  hoare False (fun c => calm_loop c /\ (measure c < fuel)%nat)
    (_resume bodyLength fuel sync) (fun _ => calm_loop) calm_loop.
Proof.
  revert sync. induction fuel as [|fuel IH]; intros sync; cbn [_resume].
  - intros s [_ Hs]. lia.
  - apply hx_intro. intros c [Hc Hm].
    unfold destroy_with, resume_with, emitDrain, splice_from, resume_timers, util_destroy.
    assert (Hres : kResuming c = 2%nat) by apply Hc.
    destruct (kSocket c) as [s|] eqn:Hsock.
    + assert (Hconn : kConnecting s = true).
      { destruct Hc as [(_ & _ & H & _) _]. rewrite Hsock in H. exact H. }
      repeat calm_step.
      all: try exact Hc.
      all: try (no_pending; repeat calm_step).
      all: try (eapply hx_call; [apply IH|split]).
      all: try (eapply hx_call; [apply resume_dispatch_calm; apply IH|split; [|split]]).
      all: calm_leaf.
    + repeat calm_step.
      all: try exact Hc.
      all: try (no_pending; repeat calm_step).
      all: try (eapply hx_call; [apply IH|split]).
      all: try (eapply hx_call; [apply resume_dispatch_calm; apply IH|split; [|split]]).
      all: calm_leaf.
Qed.

(** So does [resume], head compaction included. *)
Lemma resume_calm sync : keeps False calm (resume bodyLength sync).
Proof.
  apply hx_intro. intros c Hc. unfold resume, resume_with, compact.
  hxc1. hxc1. hxc1.
  { hxc1. exact Hc. }
  hxc1.
  eapply hx_bind_call_weaken
    with (P := fun s => calm_loop s /\ (measure s < resume_fuel c)%nat).
  { apply _resume_calm. }
  { split; [split; [exact Hc|reflexivity]|apply (measure_bound (set_resuming 2 c))]. }
  { intros s Hs. apply Hs. }
  intros [] c1 [Hc1 _].
  repeat calm_step.
  all: try exact Hc1.
  all: calm_leaf.
Qed.

End Calm.

(** *** The socket closes under running requests *)

(** What a close with an error that is not informational does on a live
    client with running requests: the head hears the error, everything
    behind it is pending again. *)
Definition head_failed (c : Client) (h : Request.Request) (err : Err) (c' : Client) : Prop :=
  handler_events (trace c')
  = handler_events (trace c) ++ [(Request.h_id (Request.kHandler h), Request.OnError err)]
  /\ drop (kPendingIdx c') (kQueue c') = drop (S (kRunningIdx c)) (kQueue c)
  /\ kPendingIdx c' = kRunningIdx c'.

(** [onError] leaves the handler in place. *)
Lemma onError_handler r err :
  Request.kHandler (Request.res_request (Request.onError r err)) = Request.kHandler r.
Proof.
  unfold Request.onError. destruct (Request.aborted r); [reflexivity|].
  cbn. destruct (Request.kResume r); reflexivity.
Qed.

(** The close handler on a live client with running requests and an
    error that is not informational. *)
Lemma onSocketClose_head c s h :
  kSocket c = Some s -> kDestroyed c = false -> queue_ok c -> (0 < kRunning c)%Z ->
  kQueue c !! kRunningIdx c = Some (Some h) -> Request.aborted h = false ->
  String.eqb (err_code (default (SocketError "closed") (kError s))) "UND_ERR_INFO" = false ->
  hoare False (eq c) (onSocketClose bodyLength)
    (fun _ => head_failed c h (default (SocketError "closed") (kError s)))
    (head_failed c h (default (SocketError "closed") (kError s))).
Proof.
  intros Hsock Hd [Hq1 Hq2] Hrun Hhead Ha Hcode.
  set (err := default (SocketError "closed") (kError s)) in *.
  destruct (onError_fresh h err Ha) as [Hab Hev].
  pose proof (onError_handler h err) as Hid.
  assert (Hpos : (0 <? kRunning c)%Z = true) by (apply Z.ltb_lt; exact Hrun).
  assert (Hlt : (kRunningIdx c <? length (kQueue c))%nat = true).
  { apply Nat.ltb_lt. apply lookup_lt_Some in Hhead. exact Hhead. }
  unfold onSocketClose, splice_from, fail_request, deliver, js_set.
  repeat (calm_step; fold err;
          rewrite ?Hpos, ?Hcode, ?Hlt, ?Hab, ?Hev, ?Hid, ?Z.sub_diag;
          cbn [negb andb Z.eqb]).
  all: try discriminate.
  all: match goal with
       | |- hoare _ (eq ?X) (resume _ _) _ _ =>
           eapply hx_call_weaken with (P := calm X);
           [ apply resume_calm
           | unfold calm, queue_ok; cl_simpl; rewrite ?length_insert;
             apply lookup_lt_Some in Hhead; repeat split; lia
           | intros c' Hc' | intros [] c' Hc' ]
       end.
  all: destruct Hc' as (_ & Hpr & _ & Htr & Hdr); revert Htr Hdr; cl_simpl;
    rewrite !handler_events_app; cbn [handler_events fmap list_fmap app];
    rewrite ?app_nil_r; intros Htr Hdr.
  all: rewrite drop_insert_lt in Hdr by lia.
  all: exact (conj Htr (conj Hdr Hpr)).
Qed.

(** After a close with an informational error (the client destroyed the
    socket itself) nobody hears an error and every running request is
    pending again. *)
Definition all_pending (c c' : Client) : Prop :=
  handler_events (trace c') = handler_events (trace c)
  /\ drop (kPendingIdx c') (kQueue c') = drop (kRunningIdx c) (kQueue c)
  /\ kPendingIdx c' = kRunningIdx c'.

(** The close handler on a live client after an informational error. *)
Lemma onSocketClose_info c s :
  kSocket c = Some s -> kDestroyed c = false -> queue_ok c ->
  String.eqb (err_code (default (SocketError "closed") (kError s))) "UND_ERR_INFO" = true ->
  hoare False (eq c) (onSocketClose bodyLength) (fun _ => all_pending c) (all_pending c).
Proof.
  intros Hsock Hd [Hq1 Hq2] Hcode.
  set (err := default (SocketError "closed") (kError s)) in *.
  unfold onSocketClose, splice_from, fail_request, deliver, js_set.
  repeat (calm_step; fold err; rewrite ?Hcode, ?Z.sub_diag, ?andb_false_r;
          cbn [negb andb Z.eqb]).
  all: try discriminate.
  all: match goal with
       | |- hoare _ (eq ?X) (resume _ _) _ _ =>
           eapply hx_call_weaken with (P := calm X);
           [ apply resume_calm
           | unfold calm, queue_ok; cl_simpl; repeat split; lia
           | intros c' Hc' | intros [] c' Hc' ]
       end.
  all: destruct Hc' as (_ & Hpr & _ & Htr & Hdr); revert Htr Hdr; cl_simpl;
    rewrite !handler_events_app; cbn [handler_events fmap list_fmap app];
    rewrite ?app_nil_r; intros Htr Hdr.
  all: exact (conj Htr (conj Hdr Hpr)).
Qed.

(** Two adjacent regions. *)
Lemma region_drop {A} (a b : nat) (l : list A) :
  (a <= b)%nat -> region a b l ++ drop b l = drop a l.
Proof.
  intros H. unfold region.
  replace (drop b l) with (drop (b - a) (drop a l)).
  - apply take_drop.
  - rewrite drop_drop. f_equal. lia.
Qed.

(** *** The scheduler holds back what cannot be pipelined *)

(** The requests written to the socket. *)
Fixpoint written (t : list Event) : list nat :=
  match t with
  | Written hid _ :: t' => hid :: written t'
  | _ :: t' => written t'
  | [] => []
  end.

(** [written] goes through concatenation. *)
Lemma written_app t1 t2 : written (t1 ++ t2) = written t1 ++ written t2.
Proof.
  induction t1 as [|[] t1 IH]; cbn [written app]; rewrite ?IH; reflexivity.
Qed.

(** The next request has to wait for the running ones. *)
Definition must_wait (r : Request.Request) : bool :=
  negb (Request.idempotent r)
  || (Request.upgrade r || String.eqb (Request.method r) "CONNECT")
  || (isStream (Request.body r)
      && negb (opt_Z_eqb (bodyLength (Request.body r)) (Some 0%Z))).

Definition held_back (c c' : Client) : Prop :=
  kPendingIdx c' = kPendingIdx c /\ written (trace c') = written (trace c).

(** With requests running, an iteration that finds such a request next
    returns without writing it; all it may do is tear the socket down for a
    new server name. *)
Lemma resume_dispatch_holds_back (continue : M Client unit) s0 c r :
  (0 < kRunning c)%Z ->
  kQueue c !! kPendingIdx c = Some (Some r) ->
  must_wait r = true ->
  hoare False (eq c) (resume_dispatch bodyLength continue (Some s0))
    (fun _ => held_back c) (held_back c).
Proof.
  intros Hrun Hhead Hwait.
  assert (Hpos : (0 <? Z.of_nat (kPendingIdx c) - Z.of_nat (kRunningIdx c))%Z = true)
    by (apply Z.ltb_lt; exact Hrun).
  unfold resume_dispatch, util_destroy.
  repeat (calm_step; rewrite ?Hpos, ?Hhead, ?andb_true_r; cbn [andb]).
  all: try (split; cl_simpl; reflexivity).
  all: exfalso; unfold must_wait in Hwait.
  all: repeat match goal with
         | H : negb (Request.idempotent _) = false |- _ => rewrite H in Hwait; clear H
         | H : Request.upgrade _ || _ = false |- _ => rewrite H in Hwait; clear H
         end.
  all: cbn [orb] in Hwait; apply andb_true_iff in Hwait as [Hs Hz];
    apply negb_true_iff in Hz.
  all: match goal with
       | H : isStream _ = false |- _ => rewrite Hs, Hz in H; cbn [andb] in H; congruence
       end.
Qed.

End Scheduler.

(** *** Reconnecting

    What the scheduler does on a client without socket whose next request
    is waiting: it connects. *)

(** A step of symbolic execution on a state given by its fields. *)
Ltac cl_getters :=
  unfold Client.kBusy, Client.kPending, Client.kRunning, Client.kSize,
    Client.pipelining_or_1 in *.

Ltac xsimpl tac :=
  cl_getters; cl_simpl; tac; cbn [andb orb negb fst snd]; cbv beta iota zeta.

Ltac xstep tac := xsimpl tac; hxc1.

(** As far as the next call. *)
Ltac xrun tac := repeat xstep tac; xsimpl tac.

Lemma resume_fuel_S c : exists n, Client.resume_fuel c = S (S n).
Proof. unfold Client.resume_fuel. exists (4 * length (Client.kQueue c) + 3)%nat. lia. Qed.

Section Reconnect.

Import Client.

Variable bodyLength : option Request.Body -> option Z.

Lemma opt_string_eqb_refl (a : option string) : opt_string_eqb a a = true.
Proof. destruct a as [x|]; cbn; [apply String.eqb_refl|reflexivity]. Qed.

(** The request at the front of the pending region asks for another
    server name than the one the client is connected to. *)
Definition differs (c : Client) (r : Request.Request) : bool :=
  String.eqb (protocol (config c)) "https:"
  && negb (opt_string_eqb (kServerName c) (Request.servername r)).

(** A socket as [connect] makes it, before and after the scheduler has
    armed the connect timeout. *)
Definition fresh_socket (c : Client) (s : Socket) : Prop :=
  kConnecting s = true /\ destroyed s = false /\ kWriting s = false /\ kReset s = false
  /\ s_servername s = kServerName c.

(** The client after a run of the scheduler that did nothing but
    connect. *)
Definition reconnecting (c : Client) (r : Request.Request) (c' : Client) : Prop :=
  (exists s, kSocket c' = Some s /\ fresh_socket c' s)
  /\ kDestroyed c' = false /\ kResuming c' = 0%nat
  /\ config c' = config c /\ kPipelining c' = kPipelining c
  /\ kServerName c' = (if differs c r then Request.servername r else kServerName c)
  /\ kPendingIdx c' = kRunningIdx c'
  /\ (kPendingIdx c' <= length (kQueue c'))%nat
  /\ drop (kPendingIdx c') (kQueue c') = drop (kPendingIdx c) (kQueue c)
  /\ trace c' = trace c.

Lemma resume_connects (c : Client) (r : Request.Request) (sync : bool) :
  kSocket c = None -> kDestroyed c = false -> kResuming c <> 2%nat ->
  kPendingIdx c = kRunningIdx c ->
  kQueue c !! kPendingIdx c = Some (Some r) ->
  (0 <= kPipelining c)%Z ->
  hoare False (eq c) (resume bodyLength sync) (fun _ => reconnecting c r) (fun _ => False).
Proof.
  intros Hs Hd Hres Hp Hq Hpipe.
  pose proof (lookup_lt_Some _ _ _ Hq) as Hlt. rewrite Hp in Hq, Hlt.
  assert (Hres' : (kResuming c =? 2)%nat = false) by (apply Nat.eqb_neq; exact Hres).
  assert (Hsize : (Z.of_nat (length (kQueue c)) - Z.of_nat (kRunningIdx c) =? 0)%Z = false)
    by (apply Z.eqb_neq; lia).
  assert (Hpos : (0 <? Z.of_nat (length (kQueue c)) - Z.of_nat (kRunningIdx c))%Z = true)
    by (apply Z.ltb_lt; lia).
  assert (Hlim : ((if (kPipelining c =? 0)%Z then 1 else kPipelining c)
                  <=? Z.of_nat (kRunningIdx c) - Z.of_nat (kRunningIdx c))%Z = false).
  { apply Z.leb_gt. destruct (kPipelining c =? 0)%Z eqn:Hz; [lia|].
    apply Z.eqb_neq in Hz. lia. }
  unfold resume. hxc1. destruct (resume_fuel_S c) as [n ->].
  unfold resume_with, compact. cbn [_resume].
  unfold resume_dispatch, connect, resume_timers, new_Parser.
  hxc1. rewrite Hres'.
  repeat (cl_getters; cl_simpl;
          rewrite ?Hd, ?Hs, ?Hp, ?Hq, ?Hsize, ?Hpos, ?Hlim, ?Z.sub_diag,
            ?andb_false_r, ?orb_true_r, ?opt_string_eqb_refl;
          cbn [andb orb negb Z.ltb Z.compare bool_decide decide_rel];
          hxc1).
  all: try discriminate.
  all: unfold reconnecting, fresh_socket, differs; cl_simpl.
  all: rewrite ?Hp, ?Nat.sub_diag, ?drop_0.
  all: repeat match goal with
         | H : ?b = _ |- context [if ?b then _ else _] => rewrite H
         end.
  all: repeat split; try eauto 10; try lia; try reflexivity.
Qed.

End Reconnect.

(** *** The trace only grows *)

Create HintDb grow.

Section TraceGrows.

Import Client.

Variable bodyLength : option Request.Body -> option Z.
Variable t0 : list Event.

(** The trace of [c] starts with [t0]. *)
Definition extends (c : Client) : Prop := exists more, trace c = t0 ++ more.

Ltac grow_side :=
  intros ? [? ?]; unfold extends; cl_simpl;
  match goal with
  | H : trace _ = _ |- _ => rewrite H
  end;
  rewrite <- ?app_assoc; eexists; reflexivity.

Ltac grow_auto :=
  repeat first
    [ assumption
    | solve [auto with grow]
    | progress (try unfold on_socket; try unfold on_parser); pres_step grow_side
    | pres_step grow_side ].

Lemma deliver_grows res : preserves extends (deliver res).
Proof. unfold deliver. grow_auto. Qed.
#[local] Hint Resolve deliver_grows : grow.

Lemma fail_request_grows r err : preserves extends (fail_request r err).
Proof. unfold fail_request. grow_auto. Qed.
#[local] Hint Resolve fail_request_grows : grow.

Lemma fail_all_grows reqs err : preserves extends (fail_all reqs err).
Proof. induction reqs as [|[r|] reqs IH]; cbn [fail_all]; grow_auto. Qed.
#[local] Hint Resolve fail_all_grows : grow.

Lemma util_destroy_grows err : preserves extends (util_destroy err).
Proof. unfold util_destroy. grow_auto. Qed.
#[local] Hint Resolve util_destroy_grows : grow.

Lemma connect_grows : preserves extends connect.
Proof. unfold connect. grow_auto. Qed.
#[local] Hint Resolve connect_grows : grow.

Lemma write_grows r : preserves extends (write bodyLength r).
Proof. unfold write. grow_auto. Qed.
#[local] Hint Resolve write_grows : grow.

Lemma emitDrain_grows : preserves extends emitDrain.
Proof. unfold emitDrain. grow_auto. Qed.
#[local] Hint Resolve emitDrain_grows : grow.

Lemma resume_timers_grows s : preserves extends (resume_timers s).
Proof. unfold resume_timers. grow_auto. Qed.
#[local] Hint Resolve resume_timers_grows : grow.

Lemma compact_grows : preserves extends compact.
Proof. unfold compact. grow_auto. Qed.
#[local] Hint Resolve compact_grows : grow.

Lemma destroy_with_grows rt err :
  preserves extends rt -> preserves extends (destroy_with rt err).
Proof. intros H. unfold destroy_with, splice_from. grow_auto. Qed.
#[local] Hint Resolve destroy_with_grows : grow.

Lemma resume_with_grows f sync :
  (forall sync, preserves extends (f sync)) -> preserves extends (resume_with f sync).
Proof. intros H. unfold resume_with. grow_auto. Qed.
#[local] Hint Resolve resume_with_grows : grow.

Lemma resume_dispatch_grows continue socket :
  preserves extends continue ->
  preserves extends (resume_dispatch bodyLength continue socket).
Proof. intros H. unfold resume_dispatch. grow_auto. Qed.
#[local] Hint Resolve resume_dispatch_grows : grow.

Lemma _resume_grows fuel sync : preserves extends (_resume bodyLength fuel sync).
Proof.
  revert sync. induction fuel as [|fuel IH]; intros sync; cbn [_resume].
  - apply pres_out_of_fuel. exact I.
  - grow_auto.
Qed.
#[local] Hint Resolve _resume_grows : grow.

Lemma resume_grows sync : preserves extends (resume bodyLength sync).
Proof. unfold resume. grow_auto. Qed.
#[local] Hint Resolve resume_grows : grow.

Lemma onSocketConnect_grows : preserves extends (onSocketConnect bodyLength).
Proof. unfold onSocketConnect. grow_auto. Qed.

Lemma onSocketClose_grows : preserves extends (onSocketClose bodyLength).
Proof. unfold onSocketClose, splice_from, js_set. grow_auto. Qed.

End TraceGrows.

(** What is known of a run under partial correctness holds of a run that
    comes to an end. *)
Lemma hoare_both {S A} (P P' : S -> Prop) (m : M S A) (Q Q' : A -> S -> Prop)
  (E E' : S -> Prop) :
  hoare False P m Q E -> hoare True P' m Q' E' ->
  hoare False (fun s => P s /\ P' s) m (fun a s => Q a s /\ Q' a s)
    (fun s => E s /\ E' s).
Proof.
  intros H H' s [Hs Hs']. specialize (H s Hs). specialize (H' s Hs').
  destruct (m s); auto.
Qed.

Lemma extends_refl c : extends (Client.trace c) c.
Proof. exists []. rewrite app_nil_r. reflexivity. Qed.

Lemma extends_written t c :
  extends t c -> exists more, written (Client.trace c) = written t ++ more.
Proof. intros [more ->]. exists (written more). apply written_app. Qed.

(** *** Writing the pending requests on a new connection *)

Section Reissue.

Import Client.

Variable bodyLength : option Request.Body -> option Z.

Definition same_flags (s s' : Socket) : Prop :=
  kConnecting s' = kConnecting s /\ destroyed s' = destroyed s
  /\ kWriting s' = kWriting s /\ kReset s' = kReset s
  /\ s_servername s' = s_servername s.

(** The timers at the top of an iteration leave the queue, the trace and
    the socket's flags alone. *)
Lemma resume_timers_quiet c s :
  kSocket c = Some s ->
  ((0 < kRunning c)%Z -> exists h, kQueue c !! kRunningIdx c = Some (Some h)) ->
  hoare False (eq c) (resume_timers s)
    (fun _ c' => same_core c c' /\ trace c' = trace c
                 /\ exists s', kSocket c' = Some s' /\ same_flags s s')
    (fun _ => False).
Proof.
  intros Hs Hhead. unfold resume_timers.
  repeat (hxc1; rewrite ?Hs; cl_simpl).
  all: try (split; [unfold same_core; cl_simpl; rewrite ?Hs; cbn; intuition eauto|];
            split; [reflexivity|]; eexists; split; [reflexivity|];
            unfold same_flags; cl_simpl; intuition; fail).
  all: match goal with
       | H : _ && _ = true |- _ => apply andb_true_iff in H as [H _]; apply Z.ltb_lt in H
       end.
  all: destruct (Hhead ltac:(assumption)) as [h Hh]; congruence.
Qed.

(** The content length [write] settles on. *)
Definition wire_length (r : Request.Request) : option Z :=
  let contentLength0 :=
    match bodyLength (Request.body r) with
    | Some n => Some n
    | None => Request.contentLength r
    end in
  if opt_Z_eqb contentLength0 (Some 0%Z) && negb (expectsPayload (Request.method r))
  then None else contentLength0.

Definition mismatch (r : Request.Request) : bool :=
  bool_decide (is_Some (Request.contentLength r))
  && negb (opt_Z_eqb (Request.contentLength r) (wire_length r)).

(** A request [write] puts on the wire at once: it has not been aborted,
    its handler takes [onConnect], it has no stream body, and its
    content length raises nothing. *)
Definition goes_out (c : Client) (r : Request.Request) : bool :=
  negb (Request.aborted r)
  && match Request.h_onConnect (Request.kHandler r) with
     | Request.Proceed => true
     | _ => false
     end
  && negb (mismatch r && kStrictContentLength (config c))
  && match Request.body r with
     | None => opt_Z_eqb (wire_length r) (Some 0%Z) || opt_Z_eqb (wire_length r) None
     | Some (Request.BodyBuffer _) => bool_decide (is_Some (wire_length r))
     | Some (Request.BodyStream _) => false
     end.

(** A request after which the connection takes no other. *)
Definition closes (r : Request.Request) : bool :=
  String.eqb (Request.method r) "HEAD"
  || (Request.upgrade r || String.eqb (Request.method r) "CONNECT")
  || match Request.body r with
     | Some (Request.BodyBuffer _) => negb (expectsPayload (Request.method r))
     | _ => false
     end.

Lemma onConnect_proceeds r :
  Request.aborted r = false ->
  Request.h_onConnect (Request.kHandler r) = Request.Proceed ->
  exists r2,
    Request.onConnect r = Request.returns r2 [Request.OnConnect]
    /\ Request.aborted r2 = false
    /\ Request.kHandler r2 = Request.kHandler r.
Proof.
  intros Ha Hp. unfold Request.onConnect. rewrite Ha.
  destruct (Request.kRequestTimeout (Request.set_kResume r true)) as [z|];
    [destruct (z =? 0)%Z|]; cbn [Request.kHandler Request.set_kResume Request.set_kTimeout];
    rewrite Hp; eexists; (split; [reflexivity|]); cbn; auto.
Qed.

Definition handler_id (r : Request.Request) : nat := Request.h_id (Request.kHandler r).

Lemma write_goes_out c s r :
  kSocket c = Some s -> goes_out c r = true ->
  hoare False (eq c) (write bodyLength r)
    (fun res c' =>
       fst res = true
       /\ same_core c c'
       /\ written (trace c') = written (trace c) ++ [handler_id r]
       /\ exists s', kSocket c' = Some s'
            /\ kConnecting s' = kConnecting s /\ destroyed s' = destroyed s
            /\ kWriting s' = kWriting s /\ s_servername s' = s_servername s
            /\ kReset s' = kReset s || closes r)
    (fun _ => False).
Proof.
  intros Hs Hgo. unfold goes_out in Hgo.
  apply andb_true_iff in Hgo as [Hgo Hframe].
  apply andb_true_iff in Hgo as [Hgo Hmis].
  apply andb_true_iff in Hgo as [Ha Hp].
  apply negb_true_iff in Ha, Hmis.
  destruct (Request.h_onConnect (Request.kHandler r)) eqn:Hoc; try discriminate.
  destruct (onConnect_proceeds r Ha Hoc) as (r2 & Hcon & Ha2 & Hh2).
  destruct (onConnect_kind r) as (_ & _ & Hup & _). rewrite Hcon in Hup.
  cbn [Request.returns Request.res_request] in Hup.
  unfold mismatch, wire_length in *. cbv zeta in Hmis, Hframe. unfold closes, handler_id.
  unfold write, deliver.
  repeat (hxc1; rewrite ?Hcon, ?Hs, ?Ha2, ?Hh2, ?Hup in *;
          cbn [Request.returns Request.res_request Request.res_events Request.res_throw
               fmap list_fmap] in *; cl_simpl).
  all: try discriminate.
  all: try (split; [reflexivity|]; split;
            [unfold same_core; cl_simpl; rewrite ?Hs; cbn; intuition eauto|];
            split; [rewrite !written_app; cbn [written]; rewrite ?app_nil_r; reflexivity|];
            eexists; split; [reflexivity|]; cl_simpl;
            repeat match goal with
              | H : _ = true |- _ => rewrite H
              | H : _ = false |- _ => rewrite H
              end;
            cbn [orb negb]; rewrite ?orb_true_r, ?orb_false_r; intuition; fail).
  all: exfalso; cbn [orb] in Hframe;
    repeat match goal with
      | H : opt_Z_eqb _ _ = false |- _ => rewrite H in Hframe; clear H
      end;
    cbn in Hframe; try discriminate; eauto using is_Some_None.
Qed.

Definition ready (s : Socket) : Prop :=
  kConnecting s = false /\ destroyed s = false /\ kWriting s = false /\ kReset s = false.

(** Requests the scheduler writes one after the other on a connection
    that is ready: each goes out and asks for the server the client is
    connected to; each but the first may follow another one on the wire;
    and each but the last leaves the connection open for the next. *)
Fixpoint reissuable (c : Client) (first : bool) (L : list Request.Request) : bool :=
  match L with
  | [] => true
  | r :: L' =>
      goes_out c r && negb (differs c r) && (first || pipelineable r)
      && match L' with [] => true | _ => negb (closes r) end
      && reissuable c false L'
  end.

Lemma goes_out_config c c' r : config c' = config c -> goes_out c' r = goes_out c r.
Proof. intros H. unfold goes_out. rewrite H. reflexivity. Qed.

Lemma looping_plain c : queue_ok c -> kResuming c = 2%nat -> looping False False c.
Proof. intros Hq Hr. split; [|exact Hr]. split; [exact Hq|]. split; intros []. Qed.

(** Whatever the scheduler does, it comes back and what was written
    stays written. *)
Lemma _resume_keeps_written fuel sync c :
  queue_ok c -> kResuming c = 2%nat -> (measure c < fuel)%nat ->
  hoare False (eq c) (_resume bodyLength fuel sync)
    (fun _ c' => exists more, written (trace c') = written (trace c) ++ more)
    (fun c' => exists more, written (trace c') = written (trace c) ++ more).
Proof.
  intros Hq Hr Hm.
  eapply hoare_conseq;
    [exact (hoare_both _ _ _ _ _ _ _
              (_resume_spec bodyLength False False fuel sync)
              (_resume_grows bodyLength (trace c) fuel sync))|..].
  - intros s <-. split; [split; [apply looping_plain; assumption|exact Hm]|apply extends_refl].
  - intros _ s [_ H]. apply extends_written. exact H.
  - intros s [_ H]. apply extends_written. exact H.
Qed.

Lemma _resume_reissues c0 L : forall fuel sync c s rest,
  queue_ok c -> kResuming c = 2%nat -> kDestroyed c = false ->
  kSocket c = Some s -> (L <> [] -> ready s) ->
  config c = config c0 -> kServerName c = kServerName c0 ->
  drop (kPendingIdx c) (kQueue c) = (Some <$> L) ++ rest ->
  (Z.of_nat (length L) + kRunning c <= pipelining_or_1 c)%Z ->
  reissuable c0 (kRunning c =? 0)%Z L = true ->
  ((0 < kRunning c)%Z -> exists h, kQueue c !! kRunningIdx c = Some (Some h)) ->
  (measure c < fuel)%nat ->
  hoare False (eq c) (_resume bodyLength fuel sync)
    (fun _ c' => exists more,
       written (trace c') = written (trace c) ++ (handler_id <$> L) ++ more)
    (fun c' => exists more,
       written (trace c') = written (trace c) ++ (handler_id <$> L) ++ more).
Proof.
  induction L as [|r L IH]; intros fuel sync c s rest Hq Hres Hd Hs Hready Hcfg Hname
    Hdrop Hlim Hre Hhead Hm.
  { cbn [fmap list_fmap app]. apply _resume_keeps_written; assumption. }
  destruct fuel as [|fuel]; [lia|]. cbn [_resume].
  destruct (Hready ltac:(discriminate)) as (Hrc & Hrd & Hrw & Hrr).
  cbn [reissuable] in Hre.
  apply andb_true_iff in Hre as [Hre Hrest].
  apply andb_true_iff in Hre as [Hre Hopen].
  apply andb_true_iff in Hre as [Hre Hpipe].
  apply andb_true_iff in Hre as [Hgo Hsame]. apply negb_true_iff in Hsame.
  assert (Hlook : kQueue c !! kPendingIdx c = Some (Some r)).
  { rewrite <- (Nat.add_0_r (kPendingIdx c)), <- lookup_drop, Hdrop. reflexivity. }
  pose proof (lookup_lt_Some _ _ _ Hlook) as Hlt.
  destruct Hq as [Hq1 Hq2].
  assert (Hcs : kClosed c
                && (Z.of_nat (length (kQueue c)) - Z.of_nat (kRunningIdx c) =? 0)%Z = false).
  { apply andb_false_iff. right. apply Z.eqb_neq. lia. }
  xrun ltac:(rewrite ?Hd, ?Hcs, ?Hs).
  eapply hx_bind_call_weaken;
    [apply (resume_timers_quiet c s Hs Hhead)|reflexivity|intros ? []|].
  intros [] c1 (Hcore & Htr1 & s1 & Hs1 & Hfl).
  destruct Hfl as (Hc1 & Hd1 & Hw1 & Hr1 & Hn1).
  rewrite Hrc in Hc1. rewrite Hrd in Hd1. rewrite Hrw in Hw1. rewrite Hrr in Hr1.
  destruct Hcore as (Ecfg & Epip & Equ & Erun & Epen & Ecl & Ede & Esn & Eod & Ers & End & Eka & _).
  assert (Hpos : (0 <? Z.of_nat (length (kQueue c)) - Z.of_nat (kPendingIdx c))%Z = true)
    by (apply Z.ltb_lt; lia).
  assert (Hpend0 : (Z.of_nat (length (kQueue c)) - Z.of_nat (kPendingIdx c) =? 0)%Z = false)
    by (apply Z.eqb_neq; lia).
  assert (Hlimb : ((if (kPipelining c =? 0)%Z then 1 else kPipelining c)
                   <=? Z.of_nat (kPendingIdx c) - Z.of_nat (kRunningIdx c))%Z = false).
  { apply Z.leb_gt. cbn [length] in Hlim. lia. }
  unfold differs in Hsame.
  assert (Hgo' := Hgo). unfold goes_out in Hgo'.
  apply andb_true_iff in Hgo' as [Hgo' Hframe].
  apply andb_true_iff in Hgo' as [Hgo' _].
  apply andb_true_iff in Hgo' as [Ha _]. apply negb_true_iff in Ha.
  assert (Hstream : isStream (Request.body r) = false).
  { destruct (Request.body r) as [[|]|]; try reflexivity. discriminate. }
  assert (Hidem : (0 <? Z.of_nat (kPendingIdx c) - Z.of_nat (kRunningIdx c))%Z
                  && negb (Request.idempotent r) = false).
  { destruct (Z.of_nat (kPendingIdx c) - Z.of_nat (kRunningIdx c) =? 0)%Z eqn:Hz.
    - apply Z.eqb_eq in Hz. rewrite Hz. reflexivity.
    - cbn [orb] in Hpipe. unfold pipelineable in Hpipe.
      apply andb_true_iff in Hpipe as [Hpipe _]. apply andb_true_iff in Hpipe as [-> _].
      apply andb_false_r. }
  assert (Hupg : (0 <? Z.of_nat (kPendingIdx c) - Z.of_nat (kRunningIdx c))%Z
                 && (Request.upgrade r || String.eqb (Request.method r) "CONNECT") = false).
  { destruct (Z.of_nat (kPendingIdx c) - Z.of_nat (kRunningIdx c) =? 0)%Z eqn:Hz.
    - apply Z.eqb_eq in Hz. rewrite Hz. reflexivity.
    - cbn [orb] in Hpipe. unfold pipelineable in Hpipe.
      apply andb_true_iff in Hpipe as [_ Hpipe]. apply negb_true_iff in Hpipe.
      rewrite Hpipe. apply andb_false_r. }
  unfold resume_dispatch.
  xrun ltac:(rewrite ?Ecfg, ?Epip, ?Equ, ?Erun, ?Epen, ?Esn, ?Hs1, ?Hcfg, ?Hname,
               ?Hpos, ?Hpend0, ?Hlimb, ?Hlook, ?Hsame, ?Hd1, ?Hc1, ?Hw1, ?Hr1,
               ?Hidem, ?Hupg, ?Hstream, ?Ha, ?orb_true_r, ?andb_false_r).
  rewrite list_insert_id by exact Hlook.
  eapply hx_bind_call_weaken;
    [eapply (write_goes_out _ s1)| reflexivity | intros ? [] |].
  { cl_simpl. exact Hs1. }
  { rewrite <- Hgo. apply goes_out_config. cl_simpl. congruence. }
  intros [b r2] c3 (Hb & Hcore3 & Hwr & s3 & Hs3 & Hc3 & Hd3 & Hw3 & Hn3 & Hr3).
  cbn [fst] in Hb. subst b. revert Hwr. cl_simpl. rewrite Htr1. intros Hwr.
  destruct Hcore3 as (Fcfg & Fpip & Fqu & Frun & Fpen & Fcl & Fde & Fsn & Fod & Frs & Fnd
                      & Fka & _).
  cl_simpl.
  xrun ltac:(rewrite ?Fcfg, ?Fpip, ?Fqu, ?Frun, ?Fpen, ?Fsn, ?Epen, ?Equ, ?Erun).
  assert (Hpost : forall c' : Client,
             (exists more, written (trace c')
                           = written (trace c3) ++ (handler_id <$> L) ++ more) ->
             exists more, written (trace c')
                          = written (trace c) ++ (handler_id <$> r :: L) ++ more).
  { intros c' [more H]. exists more. rewrite H, Hwr, <- !app_assoc. reflexivity. }
  eapply hoare_conseq;
    [eapply (IH fuel sync _ s3 rest)|intros ? H; exact H
    |intros ? c' H; apply Hpost; exact H|intros c' H; apply Hpost; exact H].
  all: cl_getters; cl_simpl.
  all: rewrite ?Frun, ?Fpip, ?Fcfg, ?Fsn, ?Frs, ?Fde; cl_simpl;
    rewrite ?Erun, ?Epip, ?Ecfg, ?Esn, ?Ers, ?Ede.
  - unfold queue_ok. cl_simpl. rewrite Frun. cl_simpl. rewrite Erun, length_insert. lia.
  - exact Hres.
  - exact Hd.
  - exact Hs3.
  - intros HL. unfold ready. rewrite Hc3, Hd3, Hw3, Hr3, Hc1, Hd1, Hw1, Hr1.
    destruct L; [contradiction|]. apply negb_true_iff in Hopen. rewrite Hopen. auto.
  - exact Hcfg.
  - exact Hname.
  - rewrite drop_insert_lt by lia.
    rewrite (drop_S _ _ _ Hlook) in Hdrop. cbn in Hdrop. injection Hdrop as Hdrop.
    exact Hdrop.
  - cbn [length] in Hlim. lia.
  - destruct (Z.of_nat (S (kPendingIdx c)) - Z.of_nat (kRunningIdx c) =? 0)%Z eqn:Hz;
      [apply Z.eqb_eq in Hz; lia|exact Hrest].
  - intros _. destruct (decide (kRunningIdx c = kPendingIdx c)) as [Heq|Hne].
    + rewrite Heq, list_lookup_insert_eq by lia. eauto.
    + rewrite list_lookup_insert_ne by lia. apply Hhead. lia.
  - unfold measure, backlog, sock_part in *. cl_simpl.
    rewrite Hs3, Fde, Fnd, length_insert. cl_simpl. rewrite Ede, Hd.
    rewrite Hs, Hd in Hm. cbn [Nat.eqb].
    destruct (kNeedDrain c =? 2)%nat; lia.
Qed.

End Reissue.

(** *** The close listener, and the connect that follows *)

Section Reconnected.

Import Client.

Variable bodyLength : option Request.Body -> option Z.

Lemma onError_aborted r err :
  Request.aborted (Request.res_request (Request.onError r err)) = true.
Proof.
  unfold Request.onError. destruct (Request.aborted r) eqn:Ha; [exact Ha|].
  cbn. destruct (Request.kResume r); reflexivity.
Qed.

(** The socket has connected: the scheduler writes the requests at the
    front of the queue, in their order. *)
Lemma onSocketConnect_reissues c s L rest :
  kSocket c = Some s -> destroyed s = false -> kWriting s = false -> kReset s = false ->
  kDestroyed c = false -> kResuming c <> 2%nat ->
  kPendingIdx c = kRunningIdx c -> (kPendingIdx c <= length (kQueue c))%nat ->
  drop (kPendingIdx c) (kQueue c) = (Some <$> L) ++ rest ->
  (Z.of_nat (length L) <= pipelining_or_1 c)%Z ->
  reissuable bodyLength c true L = true ->
  hoare False (eq c) (onSocketConnect bodyLength)
    (fun _ c' => exists more,
       written (trace c') = written (trace c) ++ (handler_id <$> L) ++ more)
    (fun c' => exists more,
       written (trace c') = written (trace c) ++ (handler_id <$> L) ++ more).
Proof.
  intros Hs Hd Hw Hr Hde Hres Hp Hlen Hdrop Hlim Hre.
  assert (Hres' : (kResuming c =? 2)%nat = false) by (apply Nat.eqb_neq; exact Hres).
  unfold onSocketConnect, resume, resume_with, compact.
  xrun ltac:(rewrite ?Hs, ?Hres').
  match goal with
  | |- hoare _ (eq ?X) _ _ _ => set (c1 := X)
  end.
  assert (Hpost : forall c' : Client,
             (exists more, written (trace c')
                           = written (trace c1) ++ (handler_id <$> L) ++ more) ->
             exists more, written (trace c')
                          = written (trace c) ++ (handler_id <$> L) ++ more).
  { intros c' [more H]. exists more. rewrite H. subst c1. cl_simpl.
    rewrite written_app. cbn [written]. rewrite app_nil_r. reflexivity. }
  eapply hx_bind_call_weaken with (P := eq c1);
    [eapply (_resume_reissues bodyLength c L _ false c1 (sock_connecting false s) rest)
    |reflexivity|intros c' H; apply Hpost; exact H|].
  all: subst c1; cl_getters; cl_simpl.
  - unfold queue_ok. cl_simpl. lia.
  - reflexivity.
  - exact Hde.
  - reflexivity.
  - intros _. unfold ready. cl_simpl. auto.
  - reflexivity.
  - reflexivity.
  - exact Hdrop.
  - rewrite Hp. lia.
  - rewrite Hp, Z.sub_diag. exact Hre.
  - rewrite Hp. lia.
  - apply (measure_bound (set_resuming 2
             (log [Emit "connect" None] (set_socket (Some (sock_connecting false s)) c)))).
  - intros [] c' H. apply Hpost in H. clear Hpost.
    repeat hxc1; exact H.
Qed.

(** What the close listener leaves when a request is waiting: a new
    socket that is connecting, the pending requests as they were, and
    nothing written. *)
Definition reconnected (c : Client) (next : nat) (r : Request.Request) (c' : Client)
  : Prop :=
  (exists s, kSocket c' = Some s /\ fresh_socket c' s)
  /\ kDestroyed c' = false /\ kResuming c' = 0%nat
  /\ config c' = config c /\ kPipelining c' = kPipelining c
  /\ kServerName c' = (if differs c r then Request.servername r else kServerName c)
  /\ kPendingIdx c' = kRunningIdx c'
  /\ (kPendingIdx c' <= length (kQueue c'))%nat
  /\ drop (kPendingIdx c') (kQueue c') = drop next (kQueue c)
  /\ written (trace c') = written (trace c).

(** The head of the running requests hears of the close, unless the
    error is informational. *)
Definition head_fails (c : Client) (s : Socket) : bool :=
  (0 <? kRunning c)%Z
  && negb (String.eqb (err_code (default (SocketError "closed") (kError s))) "UND_ERR_INFO").

(** The first request that is pending once the listener is done. *)
Definition next_pending (c : Client) (s : Socket) : nat :=
  if head_fails c s then S (kRunningIdx c) else kRunningIdx c.

Lemma written_handlers id (evs : list Request.Event) :
  written (Handler id <$> evs) = [].
Proof. induction evs as [|e evs IH]; cbn; [reflexivity|exact IH]. Qed.

Lemma onSocketClose_reconnects c s r :
  kSocket c = Some s -> kDestroyed c = false -> kResuming c <> 2%nat ->
  queue_ok c -> (0 <= kPipelining c)%Z ->
  (head_fails c s = true -> exists h, kQueue c !! kRunningIdx c = Some (Some h)) ->
  kQueue c !! next_pending c s = Some (Some r) ->
  hoare False (eq c) (onSocketClose bodyLength)
    (fun _ => reconnected c (next_pending c s) r) (fun _ => False).
Proof.
  intros Hs Hd Hres [Hq1 Hq2] Hpipe Hhead Hnext.
  unfold next_pending, head_fails in *.
  set (err := default (SocketError "closed") (kError s)) in *.
  unfold onSocketClose, fail_request, deliver, js_set.
  destruct ((0 <? kRunning c)%Z && negb (String.eqb (err_code err) "UND_ERR_INFO"))
    eqn:Hfail.
  - destruct (Hhead eq_refl) as [h Hh].
    pose proof (lookup_lt_Some _ _ _ Hh) as Hlt. apply Nat.ltb_lt in Hlt.
    xrun ltac:(fold err; rewrite ?Hs, ?Hd, ?Hfail, ?Hh, ?Hlt, ?onError_aborted, ?Z.sub_diag).
    all: try discriminate.
    all: match goal with
         | |- hoare _ (eq ?X) (resume _ _) _ _ =>
             eapply hx_call_weaken with (P := eq X);
             [ apply (resume_connects bodyLength X r false)
             | reflexivity | intros ? [] | intros [] c' Hc' ]
         end; cl_simpl; try assumption; try reflexivity.
    all: try (rewrite list_lookup_insert_ne by lia; exact Hnext).
    all: destruct Hc' as (Hsock & Hd' & Hr' & Hcfg & Hpip & Hname & Hpr & Hle & Hdrop & Htr).
    all: revert Hsock Hcfg Hpip Hname Hdrop Htr; unfold differs; cl_simpl;
      intros Hsock Hcfg Hpip Hname Hdrop Htr.
    all: rewrite drop_insert_lt in Hdrop by lia.
    all: unfold reconnected, differs; rewrite Htr, !written_app, written_handlers;
      cbn [written]; rewrite !app_nil_r; auto 12.
  - xrun ltac:(fold err; rewrite ?Hs, ?Hd, ?Hfail, ?Z.sub_diag).
    all: try discriminate.
    all: match goal with
         | |- hoare _ (eq ?X) (resume _ _) _ _ =>
             eapply hx_call_weaken with (P := eq X);
             [ apply (resume_connects bodyLength X r false)
             | reflexivity | intros ? [] | intros [] c' Hc' ]
         end; cl_simpl; try assumption; try reflexivity.
    all: destruct Hc' as (Hsock & Hd' & Hr' & Hcfg & Hpip & Hname & Hpr & Hle & Hdrop & Htr).
    all: revert Hsock Hcfg Hpip Hname Hdrop Htr; unfold differs; cl_simpl;
      intros Hsock Hcfg Hpip Hname Hdrop Htr.
    all: unfold reconnected, differs; rewrite Htr, !written_app;
      cbn [written]; rewrite !app_nil_r; auto 12.
Qed.

Lemma reissuable_same c c' first L :
  config c' = config c -> kServerName c' = kServerName c ->
  reissuable bodyLength c' first L = reissuable bodyLength c first L.
Proof.
  intros Hc Hn. revert first. induction L as [|r L IH]; intros first; cbn [reissuable];
    [reflexivity|].
  rewrite IH. unfold goes_out, differs. rewrite Hc, Hn. reflexivity.
Qed.

Lemma region_head {A} (a b : nat) (l : list A) x xs :
  region a b l = x :: xs -> l !! a = Some x /\ (a < b)%nat.
Proof.
  unfold region. intros H.
  destruct (decide (a < b)%nat) as [Hlt|Hge].
  - split; [|exact Hlt].
    assert (Hx : take (b - a) (drop a l) !! 0%nat = Some x) by (rewrite H; reflexivity).
    rewrite lookup_take_lt in Hx by lia. rewrite lookup_drop, Nat.add_0_r in Hx. exact Hx.
  - replace (b - a)%nat with 0%nat in H by lia. discriminate.
Qed.

(** The socket closes under running requests and the next one connects:
    the requests that are pending again are written in their order, when
    the scheduler can write them one after the other. *)
Lemma reissue_after_close c s L :
  kSocket c = Some s -> kDestroyed c = false -> kResuming c <> 2%nat ->
  queue_ok c -> (0 < kRunning c)%Z -> (kRunning c <= pipelining_or_1 c)%Z ->
  (head_fails c s = true -> exists h, kQueue c !! kRunningIdx c = Some (Some h)) ->
  region (next_pending c s) (kPendingIdx c) (kQueue c) = Some <$> L ->
  reissuable bodyLength c true L = true ->
  match onSocketClose bodyLength c with
  | Ret _ c' =>
      (L <> [] ->
       written (trace c') = written (trace c)
       /\ exists s', kSocket c' = Some s' /\ kConnecting s' = true)
      /\ match onSocketConnect bodyLength c' with
         | Ret _ c'' | Exc _ c'' =>
             exists more,
               written (trace c'') = written (trace c') ++ (handler_id <$> L) ++ more
         | OutOfFuel => False
         end
  | Exc _ _ => L = []
  | OutOfFuel => False
  end.
Proof.
  intros Hs Hd Hres Hq Hrun Hlim Hhead Hreg Hre.
  destruct L as [|r L].
  - (* nothing behind the head *)
    pose proof (onSocketClose_spec bodyLength False False c) as Hclose.
    assert (Hinv : inv False False c) by (split; [exact Hq|split; intros []]).
    specialize (Hclose Hinv).
    destruct (onSocketClose bodyLength c) as [[] c'|e c'|]; [|reflexivity|exact Hclose].
    split; [intros H; contradiction|].
    pose proof (hoare_both _ _ _ _ _ _ _
                  (onSocketConnect_spec bodyLength False False)
                  (onSocketConnect_grows bodyLength (trace c'))
                  c' (conj Hclose (extends_refl c'))) as Hconn.
    cbn [fmap list_fmap app].
    destruct (onSocketConnect bodyLength c') as [[] c''|e c''|]; [| |exact Hconn].
    all: destruct Hconn as [_ Hext]; apply extends_written; exact Hext.
  - (* requests behind the head *)
    cbn [fmap list_fmap] in Hreg.
    destruct (region_head _ _ _ _ _ Hreg) as [Hnext Hlt].
    assert (Hpipe : (0 <= kPipelining c)%Z).
    { unfold pipelining_or_1 in Hlim. destruct (kPipelining c =? 0)%Z eqn:Hz; [|lia].
      apply Z.eqb_eq in Hz. lia. }
    pose proof (onSocketClose_reconnects c s r Hs Hd Hres Hq Hpipe Hhead Hnext c eq_refl)
      as Hclose.
    destruct (onSocketClose bodyLength c) as [[] c'|e c'|]; try contradiction.
    destruct Hclose as ((s' & Hs' & Hfresh) & Hd' & Hr' & Hcfg & Hpip & Hname & Hpr & Hle
                        & Hdrop & Htr).
    destruct Hfresh as (Hc1 & Hd1 & Hw1 & Hr1 & _).
    split; [intros _; split; [exact Htr|eauto]|].
    assert (Hdiff : differs c r = false).
    { cbn [reissuable] in Hre. apply andb_true_iff in Hre as [Hre _].
      apply andb_true_iff in Hre as [Hre _]. apply andb_true_iff in Hre as [Hre _].
      apply andb_true_iff in Hre as [_ Hre]. apply negb_true_iff in Hre. exact Hre. }
    rewrite Hdiff in Hname.
    assert (Hrest : drop (kPendingIdx c') (kQueue c')
                    = (Some <$> r :: L) ++ drop (kPendingIdx c) (kQueue c)).
    { rewrite Hdrop. cbn [fmap list_fmap]. rewrite <- Hreg. symmetry.
      apply region_drop. lia. }
    assert (Hlen : (Z.of_nat (length (r :: L)) <= pipelining_or_1 c')%Z).
    { assert (Hl : length (Some <$> r :: L) = length (r :: L)) by apply length_fmap.
      cbn [fmap list_fmap] in Hl. rewrite <- Hl, <- Hreg.
      unfold region. rewrite length_take, length_drop.
      unfold pipelining_or_1 in *. rewrite Hpip. unfold kRunning in *.
      unfold next_pending in *. destruct (head_fails c s); lia. }
    pose proof (onSocketConnect_reissues c' s' (r :: L) _ Hs' Hd1 Hw1 Hr1 Hd'
                  ltac:(rewrite Hr'; discriminate) Hpr Hle Hrest Hlen
                  ltac:(rewrite (reissuable_same c c') by assumption; exact Hre)
                  c' eq_refl) as Hconn.
    destruct (onSocketConnect bodyLength c') as [[] c''|e c''|]; exact Hconn.
Qed.

End Reconnected.

(** *** Operations and events of a client *)

Section Steps.

Import Client.

Variable bodyLength : option Request.Body -> option Z.
Variable isIP : string -> bool.
Variable parseKeepAliveTimeout : string -> option Z.

(** The public operations, and a run of the scheduler. *)
Inductive Operation :=
| OpDispatch (opts : option Request.Opts) (handler : HandlerArg)
| OpClose (callback : Callback)
| OpDestroy (err : option Err) (callback : Callback)
| OpResume (sync : bool).

(** What can happen to a client: an operation, a socket event, or a
    callback of the parser. *)
Inductive Step :=
| Public (op : Operation)
| OnSocketConnect
| OnSocketError (err : Err)
| OnSocketClose
| OnHeadersComplete (status : Z) (upgrade keepAlive : bool)
| OnMessageComplete
| OnUpgrade.

Definition void {A} (o : Outcome Client A) : Outcome Client unit :=
  match o with
  | Ret _ c => Ret tt c
  | Exc e c => Exc e c
  | OutOfFuel => OutOfFuel
  end.

Definition perform (op : Operation) : M Client unit :=
  match op with
  | OpDispatch opts handler => fun c => void (dispatch bodyLength isIP opts handler c)
  | OpClose callback => close bodyLength callback
  | OpDestroy err callback => destroy bodyLength err callback
  | OpResume sync => resume bodyLength sync
  end.

Definition fire (st : Step) : M Client unit :=
  match st with
  | Public op => perform op
  | OnSocketConnect => onSocketConnect bodyLength
  | OnSocketError err => onSocketError err
  | OnSocketClose => onSocketClose bodyLength
  | OnHeadersComplete status upgrade keepAlive => fun c =>
      void (Parser_onHeadersComplete parseKeepAliveTimeout status upgrade keepAlive c)
  | OnMessageComplete => fun c => void (Parser_onMessageComplete bodyLength c)
  | OnUpgrade => Parser_onUpgrade bodyLength
  end.

(** A run of steps that all return. *)
Fixpoint fire_all (steps : list Step) (c : Client) : option Client :=
  match steps with
  | [] => Some c
  | st :: rest =>
      match fire st c with
      | Ret _ c' => fire_all rest c'
      | _ => None
      end
  end.

Definition is_public (st : Step) : bool :=
  match st with Public _ => true | _ => false end.

(** The parser calls back for the response to a running request. *)
Definition is_answer (st : Step) : bool :=
  match st with
  | OnHeadersComplete _ _ _ | OnMessageComplete | OnUpgrade => true
  | _ => false
  end.

(** Queue integrity, with the limit the scheduler uses,
    [kPipelining || 1]. *)
Definition queue_integrity (c : Client) : Prop :=
  ((kRunningIdx c <= kPendingIdx c)%nat /\ (kPendingIdx c <= length (kQueue c))%nat)
  /\ (kRunning c <= pipelining_or_1 c)%Z.

(** The running requests behind the head of the pipeline. *)
Definition behind_head (c : Client) : list (option Request.Request) :=
  region (S (kRunningIdx c)) (kPendingIdx c) (kQueue c).

(** Only the head of the running requests may be a request that cannot be
    pipelined and has not failed. *)
Definition serialized (c : Client) : Prop :=
  ((kRunningIdx c <= kPendingIdx c)%nat /\ (kPendingIdx c <= length (kQueue c))%nat)
  /\ Forall (fun o => settled o = true) (behind_head c).

Lemma queue_integrity_inv c : queue_integrity c <-> inv True False c.
Proof.
  unfold queue_integrity, inv, queue_ok, within_limit. intuition.
Qed.

Lemma serialized_inv c : serialized c <-> inv False True c.
Proof.
  unfold serialized, behind_head, inv, queue_ok, tail_ok. intuition.
Qed.

Lemma void_hoare {A} (m : M Client A) (P : Client -> Prop) Q E :
  hoare False P m (fun _ => Q) E -> hoare False P (fun c => void (m c)) (fun _ => Q) E.
Proof. intros H c Hc. specialize (H c Hc). destruct (m c); exact H. Qed.

Lemma perform_spec W T op : keeps False (inv W T) (perform op).
Proof.
  destruct op; cbn [perform].
  - apply void_hoare. apply dispatch_spec.
  - apply close_spec.
  - apply destroy_spec.
  - apply resume_spec.
Qed.

(** Each operation on its own: when the indices are in order and the
    number of running requests is at most [kPipelining || 1], then
    dispatch, close, destroy and a run of the scheduler come to an end,
    and both hold in the client they leave, whether they return or
    throw. *)
Lemma perform_queue_integrity (op : Operation) (c : Client) :
  queue_integrity c ->
  match perform op c with
  | Ret _ c' | Exc _ c' => queue_integrity c'
  | OutOfFuel => False
  end.
Proof.
  intros Hc. apply queue_integrity_inv in Hc.
  pose proof (perform_spec True False op c Hc) as H.
  destruct (perform op c); try apply queue_integrity_inv; exact H.
Qed.

(** What a client has been through: the operations its user called, which
    may throw, and the events of its socket and parser, which return. *)
Inductive Run :=
| Reached (c : Client)           (* every step was taken *)
| Uncaught (c : Client)          (* a listener threw *)
| Unsolicited (c : Client)       (* the parser called back with nothing running *)
| Diverged.                      (* the scheduler did not come back *)

Fixpoint history (steps : list Step) (c : Client) : Run :=
  match steps with
  | [] => Reached c
  | st :: rest =>
      if is_answer st && negb (0 <? kRunning c)%Z then Unsolicited c
      else
        match fire st c with
        | Ret _ c' => history rest c'
        | Exc _ c' => if is_public st then history rest c' else Uncaught c'
        | OutOfFuel => Diverged
        end
  end.

(** The certificate of the server does not match its name. *)
Definition is_altname (st : Step) : bool :=
  match st with
  | OnSocketError err => String.eqb (err_code err) "ERR_TLS_CERT_ALTNAME_INVALID"
  | _ => false
  end.

Lemma fire_spec W T st :
  (W -> is_altname st = false) ->
  hoare False (fun c => inv W T c /\ (is_answer st = true -> (0 < kRunning c)%Z))
    (fire st) (fun _ => inv W T)
    (fun c' => is_public st = true -> inv W T c').
Proof.
  intros Halt.
  assert (Hev : forall m : M Client unit,
             hoare False (inv W T) m (fun _ => inv W T) (fun _ => True) ->
             hoare False (fun c => inv W T c /\ (false = true -> (0 < kRunning c)%Z))
               m (fun _ => inv W T) (fun c' => false = true -> inv W T c')).
  { intros m Hm. eapply hoare_conseq; [exact Hm|..]; cbn; intuition discriminate. }
  assert (Hans : forall A (m : M Client A),
             hoare False (fun c => inv W T c /\ (0 < kRunning c)%Z) m
               (fun _ => inv W T) (fun _ => True) ->
             hoare False (fun c => inv W T c /\ (true = true -> (0 < kRunning c)%Z))
               (fun c => void (m c)) (fun _ => inv W T)
               (fun c' => false = true -> inv W T c')).
  { intros A m Hm. apply void_hoare.
    eapply hoare_conseq; [exact Hm|..]; cbn; intuition discriminate. }
  destruct st as [op| |err| |status upgrade keepAlive| |]; cbn [fire is_public is_answer].
  - eapply hoare_conseq; [apply (perform_spec W T op)|..]; cbn; intuition.
  - apply Hev.
    eapply hoare_conseq; [apply (onSocketConnect_spec bodyLength W T)|auto..].
  - apply Hev. cbn [is_altname] in Halt.
    destruct (String.eqb (err_code err) "ERR_TLS_CERT_ALTNAME_INVALID") eqn:Hcode.
    + apply onSocketError_spec. intros HW. specialize (Halt HW). discriminate.
    + apply onSocketError_plain_spec. exact Hcode.
  - apply Hev. apply onSocketClose_spec.
  - apply Hans. apply Parser_onHeadersComplete_spec.
  - apply Hans. apply Parser_onMessageComplete_spec.
  - eapply hoare_conseq; [apply (Parser_onUpgrade_spec bodyLength W T)|..]; cbn;
      intuition discriminate.
Qed.

(** The invariant holds along every history that starts where it holds;
    the bound on the running requests as long as no certificate was
    refused. *)
Lemma history_inv W T steps : forall c,
  inv W T c ->
  (W -> existsb is_altname steps = false) ->
  match history steps c with
  | Reached c' => inv W T c'
  | Uncaught _ | Unsolicited _ => True
  | Diverged => False
  end.
Proof.
  induction steps as [|st steps IH]; intros c Hc Halt; cbn [history]; [exact Hc|].
  destruct (is_answer st && negb (0 <? kRunning c)%Z) eqn:Hans; [exact I|].
  assert (Hrun : is_answer st = true -> (0 < kRunning c)%Z).
  { intros Ha. rewrite Ha in Hans. cbn in Hans. apply negb_false_iff in Hans.
    apply Z.ltb_lt. exact Hans. }
  assert (Hst : W -> is_altname st = false).
  { intros HW. specialize (Halt HW). cbn [existsb] in Halt.
    apply orb_false_iff in Halt. apply Halt. }
  assert (Hrest : W -> existsb is_altname steps = false).
  { intros HW. specialize (Halt HW). cbn [existsb] in Halt.
    apply orb_false_iff in Halt. apply Halt. }
  pose proof (fire_spec W T st Hst c (conj Hc Hrun)) as H.
  destruct (fire st c) as [[] c'|e c'|]; [apply IH; assumption| |exact H].
  destruct (is_public st); [apply IH; auto|exact I].
Qed.

(** C2 (as the code has it).  A client is built by the constructor and goes
    through any sequence of operations (dispatch, close, destroy, a run
    of the scheduler), socket events and parser callbacks for a running
    request.  The scheduler always comes back, and after every step, also
    one in which an operation threw, the indices are in order,
    0 <= run <= pend <= length.  The number of running requests is at
    most [kPipelining || 1] after every step, when the pipelining option
    is not negative and no socket error was a certificate that does not
    match the server name. *)
Theorem C2_queue_integrity (cfg : Config) (pipelining : option Z) (steps : list Step) :
  match history steps (new cfg pipelining) with
  | Reached c =>
      ((kRunningIdx c <= kPendingIdx c)%nat /\ (kPendingIdx c <= length (kQueue c))%nat)
      /\ ((0 <= default 1 pipelining)%Z -> existsb is_altname steps = false ->
          (kRunning c <= pipelining_or_1 c)%Z)
  | Uncaught _ | Unsolicited _ => True
  | Diverged => False
  end.
Proof.
  set (W := (0 <= default 1 pipelining)%Z /\ existsb is_altname steps = false).
  assert (H0 : inv W False (new cfg pipelining)).
  { unfold inv, queue_ok, within_limit, kRunning, pipelining_or_1, new. cl_simpl. cbn [length].
    split; [lia|]. split; [|tauto]. intros [Hp _].
    destruct (default 1 pipelining =? 0)%Z eqn:Hz; lia. }
  pose proof (history_inv W False steps _ H0 (fun HW => proj2 HW)) as H.
  destruct (history steps (new cfg pipelining)) as [c| | |]; try exact H.
  destruct H as (Hq & Hw & _). split; [exact Hq|].
  intros Hp Ha. apply Hw. split; assumption.
Qed.

(** C4 (as the code has it).  That every running request behind the head
    can be pipelined (it is idempotent, has no stream body and is no
    upgrade or CONNECT) or has already failed is kept by every operation
    and by every event of the socket and the parser; an event that throws
    is an uncaught exception and is not covered. *)
Theorem C4_serialized (st : Step) (c : Client) :
  serialized c ->
  (is_answer st = true -> (0 < kRunning c)%Z) ->
  match fire st c with
  | Ret _ c' => serialized c'
  | Exc _ c' => is_public st = true -> serialized c'
  | OutOfFuel => False
  end.
Proof.
  intros Hc Hrun. apply serialized_inv in Hc.
  assert (Hev : forall m : M Client unit,
             hoare False (inv False True) m (fun _ => inv False True) (fun _ => True) ->
             match m c with
             | Ret _ c' => serialized c'
             | Exc _ c' => false = true -> serialized c'
             | OutOfFuel => False
             end).
  { intros m Hm. specialize (Hm c Hc).
    destruct (m c); [apply serialized_inv; exact Hm|discriminate|exact Hm]. }
  destruct st as [op| |err| |status upgrade keepAlive| |]; cbn [fire is_public].
  - pose proof (perform_spec False True op c Hc) as H.
    destruct (perform op c); [apply serialized_inv; exact H| |exact H].
    intros _. apply serialized_inv. exact H.
  - apply Hev.
    eapply hoare_conseq; [apply (onSocketConnect_spec bodyLength False True)|auto..].
  - apply Hev. apply onSocketError_spec. tauto.
  - apply Hev. apply onSocketClose_spec.
  - pose proof (Parser_onHeadersComplete_spec False True parseKeepAliveTimeout status
                  upgrade keepAlive c (conj Hc (Hrun eq_refl))) as H.
    cbn beta in H. unfold void.
    destruct (Parser_onHeadersComplete _ _ _ _ c);
      [apply serialized_inv; exact H|discriminate|exact H].
  - pose proof (Parser_onMessageComplete_spec bodyLength False True c
                  (conj Hc (Hrun eq_refl))) as H.
    cbn beta in H. unfold void.
    destruct (Parser_onMessageComplete _ c);
      [apply serialized_inv; exact H|discriminate|exact H].
  - pose proof (Parser_onUpgrade_spec bodyLength False True c (conj Hc (Hrun eq_refl))) as H.
    cbn beta in H.
    destruct (Parser_onUpgrade _ c);
      [apply serialized_inv; exact H|discriminate|exact H].
Qed.

(** C1 (as the code has it).  The socket of a live client closes while
    requests are running and the head has not failed yet.  The close
    handler comes to an end, with nothing running.  Unless the socket's
    error is informational (the client destroyed the socket itself), the
    head's handler gets the error, and only it; the head's slot is
    cleared, and the requests behind it are pending again, in their
    order, in front of those that were pending.  When the error is
    informational, no handler hears of it and the head is pending again
    with the others.  The requests [L] that are pending again are written
    again on the next connection, in their order: when the listener was
    not called from within the scheduler, the running requests are within
    the limit, and the scheduler can write [L] one after the other
    ([reissuable]), the listener returns with a socket that is
    connecting and has written nothing, and when that socket connects
    the scheduler writes [L], in order, before anything else. *)
Theorem C1_head_of_line (c : Client) (s : Socket) (h : Request.Request) :
  kSocket c = Some s ->
  kDestroyed c = false ->
  (kRunningIdx c <= kPendingIdx c)%nat /\ (kPendingIdx c <= length (kQueue c))%nat ->
  (0 < kRunning c)%Z ->
  kQueue c !! kRunningIdx c = Some (Some h) ->
  Request.aborted h = false ->
  let err := default (SocketError "closed") (kError s) in
  let info := String.eqb (err_code err) "UND_ERR_INFO" in
  match onSocketClose bodyLength c with
  | Ret _ c' | Exc _ c' =>
      kRunning c' = 0%Z
      /\ if info
         then handler_events (trace c') = handler_events (trace c)
              /\ drop (kPendingIdx c') (kQueue c')
                 = region (kRunningIdx c) (kPendingIdx c) (kQueue c)
                   ++ drop (kPendingIdx c) (kQueue c)
         else handler_events (trace c')
              = handler_events (trace c)
                ++ [(Request.h_id (Request.kHandler h), Request.OnError err)]
              /\ drop (kPendingIdx c') (kQueue c')
                 = region (S (kRunningIdx c)) (kPendingIdx c) (kQueue c)
                   ++ drop (kPendingIdx c) (kQueue c)
  | OutOfFuel => False
  end
  /\ forall L : list Request.Request,
       kResuming c <> 2%nat ->
       (kRunning c <= pipelining_or_1 c)%Z ->
       region (if info then kRunningIdx c else S (kRunningIdx c)) (kPendingIdx c) (kQueue c)
       = Some <$> L ->
       reissuable bodyLength c true L = true ->
       match onSocketClose bodyLength c with
       | Ret _ c' =>
           (L <> [] ->
            written (trace c') = written (trace c)
            /\ exists s', kSocket c' = Some s' /\ kConnecting s' = true)
           /\ match onSocketConnect bodyLength c' with
              | Ret _ c'' | Exc _ c'' =>
                  exists more,
                    written (trace c'')
                    = written (trace c') ++ (handler_id <$> L) ++ more
              | OutOfFuel => False
              end
       | Exc _ _ => L = []
       | OutOfFuel => False
       end.
Proof.
  intros Hs Hd Hq Hrun Hhead Ha err info.
  assert (Hlt : (S (kRunningIdx c) <= kPendingIdx c)%nat) by (unfold kRunning in Hrun; lia).
  split.
  - subst info. destruct (String.eqb (err_code err) "UND_ERR_INFO") eqn:Hcode.
    + pose proof (onSocketClose_info bodyLength c s Hs Hd Hq Hcode c eq_refl) as H.
      rewrite region_drop by apply Hq.
      destruct (onSocketClose bodyLength c); try exact H.
      all: destruct H as (Htr & Hdr & Hp);
        split; [unfold kRunning; rewrite Hp; lia|split; assumption].
    + pose proof (onSocketClose_head bodyLength c s h Hs Hd Hq Hrun Hhead Ha Hcode c eq_refl)
        as H.
      rewrite region_drop by exact Hlt.
      destruct (onSocketClose bodyLength c); try exact H.
      all: destruct H as (Htr & Hdr & Hp);
        split; [unfold kRunning; rewrite Hp; lia|split; assumption].
  - intros L Hres Hlim Hreg Hre.
    assert (Hnext : next_pending c s = if info then kRunningIdx c else S (kRunningIdx c)).
    { unfold next_pending, head_fails. fold err. fold info.
      assert (Hpos : (0 <? kRunning c)%Z = true) by (apply Z.ltb_lt; exact Hrun).
      rewrite Hpos. destruct info; reflexivity. }
    apply (reissue_after_close bodyLength c s L Hs Hd Hres Hq Hrun Hlim).
    + intros _. eauto.
    + rewrite Hnext. exact Hreg.
    + exact Hre.
Qed.

End Steps.

(** *** Reconnecting after a close, in the two clients *)

Section RetryDelay.

Variable bodyLength : option Request.Body -> option Z.

(** C5 (as the code has it).  In the parser-binding client, when the socket
    closes and requests are pending on a client that is not destroyed:
    with a retry delay of 0 the client connects at once and the delay
    becomes 1s; otherwise a timer is set with the current delay and the
    delay doubles, capped at the socket timeout, and when the timer fires
    the client connects.  The llhttp client has no retry delay: when its
    socket closes, it is not destroyed and a request is pending, the
    close listener itself leaves it with a new socket that is
    connecting. *)
Theorem C5_reconnect_after_close :
  (forall c c' : ClientBase.Client,
     ClientBase.onClose c = Ret tt c' ->
     ClientBase.kDestroyed c' = false ->
     (0 < ClientBase.pending c')%Z ->
     if (ClientBase.kRetryDelay c =? 0)%Z
     then (exists s, ClientBase.kSocket c' = Some s /\ ClientBase.connecting s = true)
          /\ ClientBase.kRetryTimeout c' = None
          /\ ClientBase.kRetryDelay c' = 1000%Z
     else ClientBase.kSocket c' = None
          /\ ClientBase.kRetryTimeout c' = Some (ClientBase.kRetryDelay c)
          /\ ClientBase.kRetryDelay c'
             = Z.min (ClientBase.kRetryDelay c * 2) (ClientBase.kSocketTimeout c)
          /\ exists c'',
               ClientBase.onRetryTimeout c' = Ret tt c''
               /\ (exists s, ClientBase.kSocket c'' = Some s
                             /\ ClientBase.connecting s = true)
               /\ ClientBase.kRetryTimeout c'' = None
               /\ ClientBase.kRetryDelay c'' = ClientBase.kRetryDelay c')
  /\ (forall (k : Client.Client) (s : Client.Socket) (r : Request.Request),
        Client.kSocket k = Some s ->
        Client.kDestroyed k = false ->
        Client.kResuming k <> 2%nat ->
        (Client.kRunningIdx k <= Client.kPendingIdx k)%nat
        /\ (Client.kPendingIdx k <= length (Client.kQueue k))%nat ->
        (0 <= Client.kPipelining k)%Z ->
        (head_fails k s = true ->
         exists h, Client.kQueue k !! Client.kRunningIdx k = Some (Some h)) ->
        Client.kQueue k !! next_pending k s = Some (Some r) ->
        exists k' s',
          Client.onSocketClose bodyLength k = Ret tt k'
          /\ Client.kSocket k' = Some s'
          /\ Client.kConnecting s' = true /\ Client.destroyed s' = false
          /\ (0 < Client.kPending k')%Z).
Proof.
  split.
  - intros c c' Hrun Hd Hp.
    pose proof (onClose_retry_delay c c' Hrun Hd Hp) as H.
    destruct (ClientBase.kRetryDelay c =? 0)%Z; [exact H|].
    destruct H as (Hs & Ht & Hdelay). repeat (split; [assumption|]).
    exact (onRetryTimeout_connects c' _ Hs Ht).
  - intros k s r Hs Hd Hres Hq Hpipe Hhead Hnext.
    pose proof (onSocketClose_reconnects bodyLength k s r Hs Hd Hres Hq Hpipe Hhead Hnext
                  k eq_refl) as H.
    destruct (Client.onSocketClose bodyLength k) as [[] k'|e k'|]; try contradiction.
    destruct H as ((s' & Hs' & Hc & Hds & _) & _ & _ & _ & _ & _ & Hpr & Hle & Hdrop & _).
    exists k', s'. repeat (split; [assumption || reflexivity|]).
    pose proof (lookup_lt_Some _ _ _ Hnext) as Hlt.
    assert (Hlen : (length (drop (Client.kPendingIdx k') (Client.kQueue k')) > 0)%nat).
    { rewrite Hdrop, length_drop. lia. }
    rewrite length_drop in Hlen. unfold Client.kPending. lia.
Qed.

End RetryDelay.

(** *** Runs of concrete clients *)

Definition run_steps : list Step -> Client.Client -> option Client.Client :=
  fire_all Client.bodyLength Util.isIP Util.parseKeepAliveTimeout.

Definition get_with (id : nat) : Step :=
  Public (OpDispatch (Some get_opts) (Client.HaObject true (Request.mkHandler id Request.Proceed))).

(** A client that was told not to keep connections alive. *)
Definition zero_client : Client.Client :=
  Client.new (Client.defaultConfig "http:") (Some 0%Z).

Definition post_opts : Request.Opts :=
  Request.mkOpts (Request.VString "/") (Request.VString "POST") Request.VUndefined
    (Some [("host", Request.HVScalar "a.example" None)]) None
    Request.VUndefined Request.VUndefined.

Definition post_with (id : nat) : Step :=
  Public (OpDispatch (Some post_opts)
            (Client.HaObject true (Request.mkHandler id Request.Proceed))).

Definition altname_error : Err :=
  mkErr "Error" "ERR_TLS_CERT_ALTNAME_INVALID" "Hostname/IP does not match certificate's altnames".

Definition tls_client : Client.Client :=
  Client.new (Client.defaultConfig "https:") None.

(** With [pipelining: 0] the scheduler still sends one request at a
    time: one request is running, above a limit of zero.  After a
    certificate that does not match, the requests that were failed stay
    in the running region until the socket closes: a dispatch leaves two
    of them, above a limit of one.  And a negative pipelining option,
    which the constructor takes, is below every number of running
    requests. *)
Lemma C2_counterexample :
  (exists c',
     run_steps [get_with 1; OnSocketConnect] zero_client = Some c'
     /\ Client.kPipelining c' = 0%Z
     /\ Client.kRunning c' = 1%Z
     /\ ~ (Client.kRunning c' <= Client.kPipelining c')%Z)
  /\ (exists c',
        run_steps [post_with 1; post_with 2; OnSocketError altname_error; post_with 3]
          tls_client = Some c'
        /\ Client.kPipelining c' = 1%Z
        /\ Client.kRunning c' = 2%Z
        /\ ~ (Client.kRunning c' <= Client.pipelining_or_1 c')%Z)
  /\ (exists c',
        run_steps [get_with 1] (Client.new (Client.defaultConfig "http:") (Some (-1)%Z))
          = Some c'
        /\ Client.kPipelining c' = (-1)%Z
        /\ Client.kRunning c' = 0%Z
        /\ ~ (Client.kRunning c' <= Client.kPipelining c')%Z).
Proof.
  split; [|split].
  all: eexists; (split; [vm_compute; reflexivity|]).
  all: repeat split; try reflexivity.
  all: vm_compute; intros H; apply H; reflexivity.
Qed.

(** Two requests in flight on a client that pipelines two. *)
Definition pipelined_client : Client.Client :=
  Eval vm_compute in
    default zero_client
      (run_steps [get_with 1; get_with 2; OnSocketConnect]
         (Client.new (Client.defaultConfig "http:") (Some 2%Z))).

(** Two requests in flight and a third one waiting. *)
Definition queued_steps : list Step :=
  [get_with 1; get_with 2; OnSocketConnect; get_with 3].

Definition queued_client : Client.Client :=
  Eval vm_compute in
    match history Client.bodyLength Util.isIP Util.parseKeepAliveTimeout queued_steps
            (Client.new (Client.defaultConfig "http:") (Some 2%Z)) with
    | Reached c => c
    | _ => zero_client
    end.

Lemma queued_history :
  history Client.bodyLength Util.isIP Util.parseKeepAliveTimeout queued_steps
    (Client.new (Client.defaultConfig "http:") (Some 2%Z))
  = Reached queued_client.
Proof. vm_compute. reflexivity. Qed.

Lemma C2_witness :
  ((Client.kRunningIdx queued_client <= Client.kPendingIdx queued_client)%nat
   /\ (Client.kPendingIdx queued_client <= length (Client.kQueue queued_client))%nat)
  /\ (Client.kRunning queued_client <= Client.pipelining_or_1 queued_client)%Z.
Proof.
  pose proof (C2_queue_integrity Client.bodyLength Util.isIP Util.parseKeepAliveTimeout
                (Client.defaultConfig "http:") (Some 2%Z) queued_steps) as H.
  rewrite queued_history in H. destruct H as [Hq Hw].
  split; [exact Hq|]. apply Hw; [cbn; lia|reflexivity].
Defined.

(** A certificate error fails both pending POST requests and leaves them
    in the running region: two requests that are not idempotent. *)
Lemma C4_counterexample :
  exists c' r1 r2,
    run_steps [post_with 1; post_with 2; OnSocketError altname_error] tls_client = Some c'
    /\ region (Client.kRunningIdx c') (Client.kPendingIdx c') (Client.kQueue c')
       = [Some r1; Some r2]
    /\ Request.idempotent r1 = false
    /\ Request.idempotent r2 = false.
Proof.
  do 3 eexists. split; [vm_compute; reflexivity|].
  split; [vm_compute; reflexivity|]. split; reflexivity.
Qed.

(** The head of two pipelined requests has its headers. *)
Definition answering_client : Client.Client :=
  Eval vm_compute in
    default zero_client
      (run_steps [OnHeadersComplete 200 false true] pipelined_client).

Lemma C4_witness :
  serialized answering_client
  /\ (0 < Client.kRunning answering_client)%Z
  /\ match fire Client.bodyLength Util.isIP Util.parseKeepAliveTimeout OnMessageComplete
            answering_client with
     | Ret _ c' => serialized c'
     | Exc _ c' => false = true -> serialized c'
     | OutOfFuel => False
     end.
Proof.
  assert (H : serialized answering_client).
  { unfold serialized, behind_head. vm_compute. repeat split; try lia.
    repeat constructor. }
  assert (Hr : (0 < Client.kRunning answering_client)%Z) by reflexivity.
  split; [exact H|]. split; [exact Hr|].
  exact (C4_serialized Client.bodyLength Util.isIP Util.parseKeepAliveTimeout
           OnMessageComplete answering_client H (fun _ => Hr)).
Defined.

(** The server answers the first of two pipelined requests with
    [Connection: close].  The client resets the socket; when it closes,
    the second request is the head of the running requests. *)
Definition reset_client : Client.Client :=
  Eval vm_compute in
    default zero_client
      (run_steps [OnHeadersComplete 200 false false; OnMessageComplete;
                  OnSocketError (InformationalError "reset")] pipelined_client).

(** The head hears no error and is pending again. *)
Lemma C1_counterexample :
  exists c' r,
    Client.kRunning reset_client = 1%Z
    /\ Client.kQueue reset_client !! Client.kRunningIdx reset_client = Some (Some r)
    /\ run_steps [OnSocketClose] reset_client = Some c'
    /\ handler_events (Client.trace c') = handler_events (Client.trace reset_client)
    /\ drop (Client.kPendingIdx c') (Client.kQueue c') = [Some r].
Proof.
  do 2 eexists. split; [reflexivity|]. split; [reflexivity|].
  split; [vm_compute; reflexivity|]. split; reflexivity.
Qed.

Definition first_socket : Client.Socket :=
  Eval vm_compute in
    default (Client.mkSocket false false false false false None None Client.new_Parser)
      (Client.kSocket pipelined_client).

Definition first_request : Request.Request :=
  Eval vm_compute in
    match Client.kQueue pipelined_client with
    | Some r :: _ => r
    | _ => connect_request
    end.

Definition second_request : Request.Request :=
  Eval vm_compute in
    match Client.kQueue pipelined_client with
    | _ :: Some r :: _ => r
    | _ => connect_request
    end.

Lemma C1_witness :
  let c := pipelined_client in
  let err := default (SocketError "closed") (Client.kError first_socket) in
  let info := String.eqb (err_code err) "UND_ERR_INFO" in
  match Client.onSocketClose Client.bodyLength c with
  | Ret _ c' | Exc _ c' =>
      Client.kRunning c' = 0%Z
      /\ if info
         then handler_events (Client.trace c') = handler_events (Client.trace c)
              /\ drop (Client.kPendingIdx c') (Client.kQueue c')
                 = region (Client.kRunningIdx c) (Client.kPendingIdx c) (Client.kQueue c)
                   ++ drop (Client.kPendingIdx c) (Client.kQueue c)
         else handler_events (Client.trace c')
              = handler_events (Client.trace c)
                ++ [(Request.h_id (Request.kHandler first_request), Request.OnError err)]
              /\ drop (Client.kPendingIdx c') (Client.kQueue c')
                 = region (S (Client.kRunningIdx c)) (Client.kPendingIdx c) (Client.kQueue c)
                   ++ drop (Client.kPendingIdx c) (Client.kQueue c)
  | OutOfFuel => False
  end
  /\ match Client.onSocketClose Client.bodyLength c with
     | Ret _ c' =>
         ([second_request] <> [] ->
          written (Client.trace c') = written (Client.trace c)
          /\ exists s', Client.kSocket c' = Some s' /\ Client.kConnecting s' = true)
         /\ match Client.onSocketConnect Client.bodyLength c' with
            | Ret _ c'' | Exc _ c'' =>
                exists more,
                  written (Client.trace c'')
                  = written (Client.trace c') ++ (handler_id <$> [second_request]) ++ more
            | OutOfFuel => False
            end
     | Exc _ _ => [second_request] = []
     | OutOfFuel => False
     end.
Proof.
  intros c err info.
  assert (Hq : (Client.kRunningIdx c <= Client.kPendingIdx c)%nat
               /\ (Client.kPendingIdx c <= length (Client.kQueue c))%nat) by (cbn; lia).
  destruct (C1_head_of_line Client.bodyLength pipelined_client first_socket first_request
              eq_refl eq_refl Hq eq_refl eq_refl eq_refl) as [H1 H2].
  split; [exact H1|].
  apply (H2 [second_request]).
  - discriminate.
  - vm_compute. discriminate.
  - reflexivity.
  - reflexivity.
Defined.

(** What the witness comes to: the first request hears that the socket
    closed, the second is pending again. *)
Example close_under_two_requests :
  exists c' r2,
    Client.onSocketClose Client.bodyLength pipelined_client = Ret tt c'
    /\ handler_events (Client.trace c')
       = [(1%nat, Request.OnConnect); (2%nat, Request.OnConnect);
          (1%nat, Request.OnError (SocketError "closed"))]
    /\ drop (Client.kPendingIdx c') (Client.kQueue c') = [Some r2]
    /\ Request.h_id (Request.kHandler r2) = 2%nat.
Proof.
  do 2 eexists. split; [vm_compute; reflexivity|].
  split; [reflexivity|]. split; reflexivity.
Qed.

(** A request waits on a socket that is still connecting. *)
Definition waiting_socket : Client.Socket :=
  Eval vm_compute in
    default (Client.mkSocket false false false false false None None Client.new_Parser)
      (Client.kSocket after_first_dispatch).

Definition waiting_request : Request.Request :=
  Eval vm_compute in
    match Client.kQueue after_first_dispatch with
    | Some r :: _ => r
    | _ => connect_request
    end.

(** The llhttp client does not wait: the connection fails twice in a row,
    and each time the close listener leaves a new socket that is
    connecting, with the request still pending. *)
Lemma C5_counterexample :
  exists c1 c2 s1 s2,
    run_steps [get_with 1; OnSocketClose] fresh_client = Some c1
    /\ Client.kSocket c1 = Some s1 /\ Client.kConnecting s1 = true
    /\ run_steps [OnSocketClose] c1 = Some c2
    /\ Client.kSocket c2 = Some s2 /\ Client.kConnecting s2 = true
    /\ Client.kPending c2 = 1%Z
    /\ Client.trace c2
       = [Client.Emit "connectionError" (Some (SocketError "closed"));
          Client.Emit "connectionError" (Some (SocketError "closed"))].
Proof.
  do 4 eexists. split; [vm_compute; reflexivity|].
  split; [reflexivity|]. split; [reflexivity|].
  split; [vm_compute; reflexivity|].
  split; [reflexivity|]. split; [reflexivity|]. split; reflexivity.
Qed.

Lemma C5_witness :
  (ClientBase.onClose cb_client1 = Ret tt cb_client2
   /\ ClientBase.kDestroyed cb_client2 = false
   /\ (0 < ClientBase.pending cb_client2)%Z
   /\ ClientBase.kSocket cb_client2 = None
   /\ ClientBase.kRetryTimeout cb_client2 = Some 1000%Z
   /\ ClientBase.kRetryDelay cb_client2 = 2000%Z
   /\ exists c'',
        ClientBase.onRetryTimeout cb_client2 = Ret tt c''
        /\ (exists s, ClientBase.kSocket c'' = Some s /\ ClientBase.connecting s = true)
        /\ ClientBase.kRetryTimeout c'' = None
        /\ ClientBase.kRetryDelay c'' = 2000%Z)
  /\ exists k' s',
       Client.onSocketClose Client.bodyLength after_first_dispatch = Ret tt k'
       /\ Client.kSocket k' = Some s'
       /\ Client.kConnecting s' = true /\ Client.destroyed s' = false
       /\ (0 < Client.kPending k')%Z.
Proof.
  destruct (C5_reconnect_after_close Client.bodyLength) as [HA HB]. split.
  - assert (H : ClientBase.onClose cb_client1 = Ret tt cb_client2) by reflexivity.
    split; [exact H|]. split; [reflexivity|]. split; [reflexivity|].
    exact (HA cb_client1 cb_client2 H eq_refl eq_refl).
  - apply (HB after_first_dispatch waiting_socket waiting_request).
    + reflexivity.
    + reflexivity.
    + discriminate.
    + cbn. lia.
    + cbn. lia.
    + intros H. discriminate H.
    + reflexivity.
Defined.

(** *** The parser-binding client: [Parser.destroy] *)

Section ParserDestroy.

Import ClientBase.

(** A request the older client retries. *)
Definition retried (o : option Request) : Prop :=
  exists r, o = Some r /\ idempotent r = true /\ streaming r = false.

Lemma partition_retry_all reqs :
  Forall retried reqs -> partition_retry reqs = Some (reqs, []).
Proof.
  induction 1 as [|o reqs (r & -> & Hi & Hs) _ IH]; cbn [partition_retry].
  - reflexivity.
  - rewrite IH. cbn. rewrite Hi, Hs. reflexivity.
Qed.

(** In the older client every error that destroys the parser fails the
    head, and the running requests behind it, idempotent and not
    streaming as the scheduler left them, go to the front of the queue. *)
Lemma Parser_destroy_fails_head (c : Client) (h : Request) (err : Err) :
  (kRunningIdx c < kPendingIdx c)%nat ->
  kQueue c !! kRunningIdx c = Some (Some h) ->
  Forall retried (slice (S (kRunningIdx c)) (kPendingIdx c) (kQueue c)) ->
  exists c',
    Parser_destroy err c = Ret tt c'
    /\ events c'
       = events c ++ (if parserBody c then [EvBody err] else []) ++ [EvInvoke (id h) err]
    /\ kQueue c'
       = slice (S (kRunningIdx c)) (kPendingIdx c) (kQueue c) ++ drop (kPendingIdx c) (kQueue c)
    /\ kRunningIdx c' = 0%nat /\ kPendingIdx c' = 0%nat.
Proof.
  intros Hlt Hhead Htail.
  unfold Parser_destroy, mbind, M_bind, get.
  destruct (kPendingIdx c <=? kRunningIdx c)%nat eqn:Hle;
    [apply Nat.leb_le in Hle; lia|].
  rewrite Hhead. cbn [default modify].
  rewrite (partition_retry_all _ Htail).
  unfold when, splice_head. cbn [set_queue set_parserBody parserBody].
  destruct (parserBody c); cbn; eexists; (split; [reflexivity|]); cbn;
    rewrite <- ?app_assoc; auto.
Qed.

End ParserDestroy.

(** * Further properties *)

(** ** lib/core/request.js: what the constructor lets through *)

Section RequestHeaders.

Import Request.

Variable isIP : string -> bool.

Lemma length_toLowerCase s : String.length (Js.toLowerCase s) = String.length s.
Proof. induction s as [|c s IH]; cbn; [reflexivity|]. rewrite IH. reflexivity. Qed.

(** The header names the constructor refuses, in lower case. *)
Definition refused_headers : list string :=
  ["transfer-encoding"; "connection"; "keep-alive"; "upgrade"; "expect"].

Lemma scan_headers_refuses hs : forall acc sc,
  scan_headers hs acc = Normal sc ->
  forall key val, In (key, val) hs ->
    val <> HVObject
    /\ (val <> HVUndefined -> ~ In (Js.toLowerCase key) refused_headers).
Proof.
  induction hs as [|[k v] hs IH]; intros acc sc Hscan key val Hin; [destruct Hin|].
  cbn [scan_headers] in Hscan.
  destruct v as [| |text parsed]; [discriminate| |].
  - destruct Hin as [Heq|Hin]; [|exact (IH _ _ Hscan _ _ Hin)].
    inversion Heq; subst. split; [discriminate|congruence].
  - assert (Hk : ~ In (Js.toLowerCase k) refused_headers
                 /\ exists acc', scan_headers hs acc' = Normal sc).
    { pose proof (length_toLowerCase k) as Hlen.
      cbv zeta in Hscan.
      destruct (_ && _ && (Js.toLowerCase k =? "content-length")) eqn:Hcl.
      - apply andb_true_iff in Hcl as [_ Hcl]. apply String.eqb_eq in Hcl.
        split; [rewrite Hcl; cbn; intuition discriminate|].
        destruct parsed; [eauto|discriminate].
      - repeat match type of Hscan with
          | (if (?n =? ?m)%nat && (?s =? ?t) then _ else _) = _ =>
              let H := fresh "Hc" in
              destruct (s =? t) eqn:H;
              [ apply String.eqb_eq in H; rewrite H in Hlen; cbn in Hlen;
                rewrite <- Hlen in Hscan; cbn in Hscan; discriminate
              | rewrite andb_false_r in Hscan; apply String.eqb_neq in H ]
          end.
        split; [|eauto]. cbn. intuition congruence. }
    destruct Hk as [Hk [acc' Hrest]].
    destruct Hin as [Heq|Hin]; [|exact (IH _ _ Hrest _ _ Hin)].
    inversion Heq; subst. split; [discriminate|]. intros _. exact Hk.
Qed.

Lemma new_scans o d h r :
  new isIP o d h = Normal r ->
  exists sc, scan_headers (default [] (o_headers o)) (mkScan None "") = Normal sc
             /\ headers r = sc_headers sc /\ contentLength r = sc_contentLength sc.
Proof.
  unfold new. intros H.
  repeat match type of H with
    | (mbind _ ?m) = _ =>
        let x := fresh "x" in destruct m as [x|] eqn:?; cbn [mbind completion_bind] in H;
        [|discriminate]
    end.
  revert H.
  destruct (o_headers o) as [hs|]; cbn [default];
    match goal with H : scan_headers _ _ = Normal ?sc |- _ => intros Hr; exists sc end;
    (split; [assumption|]); inversion Hr; subst; cbn; auto.
Qed.

(** The entries of [opts.headers] the loop does not skip: those whose
    value is not [undefined]. *)
Definition defined (kv : string * HeaderVal) : bool :=
  match snd kv with HVUndefined => false | _ => true end.

Definition is_content_length (key : string) : bool :=
  String.eqb (Js.toLowerCase key) "content-length".

(** The first content-length entry is read, not written. *)
Fixpoint without_content_length (hs : list (string * HeaderVal))
  : list (string * HeaderVal) :=
  match hs with
  | [] => []
  | (key, val) :: rest =>
      if is_content_length key then rest else (key, val) :: without_content_length rest
  end.

Definition first_content_length (hs : list (string * HeaderVal)) : option Z :=
  match List.find (fun kv => is_content_length (fst kv)) hs with
  | Some (_, HVScalar _ parsed) => parsed
  | _ => None
  end.

(** One line of the header block: key and value as they are. *)
Definition header_line (kv : string * HeaderVal) : string :=
  match kv with
  | (key, HVScalar text _) => key ++ ": " ++ text ++ String "013" (String "010" "")
  | _ => ""
  end.

Fixpoint header_lines (hs : list (string * HeaderVal)) : string :=
  match hs with
  | [] => ""
  | kv :: rest => header_line kv ++ header_lines rest
  end.

Lemma append_assoc (a b c : string) : ((a ++ b) ++ c = a ++ (b ++ c))%string.
Proof. induction a as [|x a IH]; cbn; [reflexivity|]. rewrite IH. reflexivity. Qed.

Lemma append_nil_r (a : string) : (a ++ "" = a)%string.
Proof. induction a as [|x a IH]; cbn; [reflexivity|]. rewrite IH. reflexivity. Qed.

Lemma scan_headers_block hs : forall acc sc,
  scan_headers hs acc = Normal sc ->
  sc_headers sc
  = (sc_headers acc
     ++ header_lines (match sc_contentLength acc with
                      | None => without_content_length (List.filter defined hs)
                      | Some _ => List.filter defined hs
                      end))%string
  /\ sc_contentLength sc
     = match sc_contentLength acc with
       | None => first_content_length (List.filter defined hs)
       | Some n => Some n
       end.
Proof.
  induction hs as [|[k v] hs IH]; intros acc sc Hscan.
  { cbn in Hscan. injection Hscan as <-. cbn.
    destruct (sc_contentLength acc); rewrite append_nil_r; auto. }
  cbn [scan_headers] in Hscan.
  destruct v as [| |text parsed]; [discriminate|exact (IH _ _ Hscan)|].
  cbn [List.filter defined snd]. cbv zeta in Hscan.
  pose proof (length_toLowerCase k) as Hlen.
  assert (Hcl : ((String.length k =? 14)%nat && (Js.toLowerCase k =? "content-length")%string)
                = is_content_length k).
  { unfold is_content_length. destruct (Js.toLowerCase k =? "content-length")%string eqn:He.
    - apply String.eqb_eq in He. rewrite He in Hlen. cbn in Hlen. rewrite <- Hlen. reflexivity.
    - apply andb_false_r. }
  rewrite <- andb_assoc, Hcl in Hscan.
  destruct (sc_contentLength acc) as [n|] eqn:Hacc; cbn [andb] in Hscan.
  - (* a content length has been read *)
    assert (Hrest : scan_headers hs
                      (mkScan (Some n)
                         (sc_headers acc ++ k ++ ": " ++ text
                          ++ String "013" (String "010" ""))%string) = Normal sc).
    { repeat match type of Hscan with
        | (if ?b then Throw _ else _) = _ => destruct b; [discriminate|]
        end. exact Hscan. }
    destruct (IH _ _ Hrest) as [Hh Hc]. cbn [sc_headers sc_contentLength] in Hh, Hc.
    split; [|exact Hc]. rewrite Hh. cbn [header_lines header_line].
    rewrite !append_assoc. reflexivity.
  - destruct (is_content_length k) eqn:Hk.
    + (* the first content-length entry *)
      destruct parsed as [n|]; [|discriminate].
      destruct (IH _ _ Hscan) as [Hh Hc]. cbn [sc_headers sc_contentLength] in Hh, Hc.
      unfold first_content_length.
      cbn [without_content_length List.find fst]. rewrite Hk.
      auto.
    + assert (Hrest : scan_headers hs
                        (mkScan None
                           (sc_headers acc ++ k ++ ": " ++ text
                            ++ String "013" (String "010" ""))%string) = Normal sc).
      { repeat match type of Hscan with
          | (if ?b then Throw _ else _) = _ => destruct b; [discriminate|]
          end. exact Hscan. }
      destruct (IH _ _ Hrest) as [Hh Hc]. cbn [sc_headers sc_contentLength] in Hh, Hc.
      unfold first_content_length in *.
      cbn [without_content_length List.find fst]. rewrite Hk.
      split; [|exact Hc]. rewrite Hh. cbn [header_lines header_line].
      rewrite !append_assoc. reflexivity.
Qed.

(** X1.  Of a request that was built, no option header has an object for
    value, and none with a defined value is named transfer-encoding,
    connection, keep-alive, upgrade or expect, in whatever case.  Its
    header block is one line [key: value CRLF] for each option header
    whose value is not [undefined], in their order, but for the first
    one named content-length, whose number is the request's
    [contentLength].  Keys and values are copied as they are. *)
Theorem new_header_block (o : Opts) (d : Value) (h : Handler) (r : Request)
  (hs : list (string * HeaderVal)) :
  new isIP o d h = Normal r ->
  o_headers o = Some hs ->
  (forall key val, In (key, val) hs ->
     val <> HVObject
     /\ (val <> HVUndefined -> ~ In (Js.toLowerCase key) refused_headers))
  /\ headers r = header_lines (without_content_length (List.filter defined hs))
  /\ contentLength r = first_content_length (List.filter defined hs).
Proof.
  intros Hnew Hhs. destruct (new_scans _ _ _ _ Hnew) as (sc & Hscan & Hh & Hc).
  rewrite Hhs in Hscan. cbn [default from_option id] in Hscan.
  split; [exact (scan_headers_refuses _ _ _ Hscan)|].
  destruct (scan_headers_block _ _ _ Hscan) as [Hb Hl]. cbn in Hb, Hl.
  rewrite Hh, Hc. auto.
Qed.

End RequestHeaders.

Definition plain_opts (hs : list (string * Request.HeaderVal)) : Request.Opts :=
  Request.mkOpts (Request.VString "/") (Request.VString "GET") Request.VUndefined
    (Some hs) None Request.VUndefined Request.VUndefined.

Definition never_ip (s : string) : bool := false.

(** Headers with an undefined value and with two content lengths. *)
Definition mixed_headers : list (string * Request.HeaderVal) :=
  [("Accept", Request.HVScalar "text/html" None);
   ("x-trace", Request.HVUndefined);
   ("Content-Length", Request.HVScalar "5" (Some 5%Z));
   ("content-length", Request.HVScalar "7" (Some 7%Z))].

Definition accept_request : Request.Request :=
  Request.mkRequest demo_handler "GET" None None None false false "/" true
    (Some 5%Z)
    ("Accept: text/html" ++ String "013" (String "010" "")
     ++ "content-length: 7" ++ String "013" (String "010" ""))
    None false false.

Lemma new_header_block_witness :
  Request.new never_ip (plain_opts mixed_headers) Request.VUndefined demo_handler
    = Normal accept_request
  /\ Request.headers accept_request
     = header_lines (without_content_length (List.filter defined mixed_headers))
  /\ Request.contentLength accept_request
     = first_content_length (List.filter defined mixed_headers).
Proof.
  split; [reflexivity|].
  exact (proj2 (new_header_block never_ip (plain_opts mixed_headers) Request.VUndefined
                  demo_handler accept_request mixed_headers eq_refl eq_refl)).
Defined.

(** Keys and values are not looked into: a value with a line break in it
    is accepted, and the block then has a line the constructor would have
    refused as a header of its own. *)
Example header_value_is_copied :
  let crlf := String "013" (String "010" "") in
  exists r,
    Request.new never_ip
      (plain_opts [("x-a", Request.HVScalar ("1" ++ crlf ++ "connection: close")%string
                             None)])
      Request.VUndefined demo_handler = Normal r
    /\ Request.headers r = ("x-a: 1" ++ crlf ++ "connection: close" ++ crlf)%string.
Proof. eexists. split; reflexivity. Qed.

(** [NaN] is falsy: an upgrade option of [NaN] is let through, and the
    request is not an upgrade. *)
Example upgrade_NaN_is_accepted :
  exists r,
    Request.new never_ip
      (Request.mkOpts (Request.VString "/") (Request.VString "GET") Request.VUndefined
         None None Request.VNaN Request.VUndefined)
      Request.VNaN demo_handler = Normal r
    /\ Request.upgrade r = false /\ Request.kRequestTimeout r = None.
Proof. eexists. split; [reflexivity|]. split; reflexivity. Qed.

(** ** lib/core/request.js: timers and the abort flag *)

Section RequestLife.

Import Request.

Variable isIP : string -> bool.

Lemma new_fresh o d h r :
  new isIP o d h = Normal r ->
  aborted r = false /\ kTimeout r = false /\ kResume r = false.
Proof.
  unfold new. intros H.
  repeat match type of H with
    | (mbind _ ?m) = _ =>
        let x := fresh "x" in destruct m as [x|] eqn:?; cbn [mbind completion_bind] in H;
        [|discriminate]
    end.
  inversion H; subst; cbn; auto.
Qed.

(** An aborted request holds no timer and no resume callback. *)
Definition disarmed (r : Request) : Prop :=
  aborted r = true -> kTimeout r = false /\ kResume r = false.

Lemma call_disarmed r c : disarmed r -> disarmed (res_request (call r c)).
Proof.
  unfold disarmed. intros Hr.
  assert (Herr : forall e, aborted (res_request (onError r e)) = true ->
            kTimeout (res_request (onError r e)) = false
            /\ kResume (res_request (onError r e)) = false).
  { intros e. unfold onError. destruct (aborted r) eqn:Ha; cbn; [auto|].
    destruct (kResume r) eqn:Hk; cbn; auto. }
  destruct c; cbn [call]; try apply Herr.
  - unfold onConnect. destruct (aborted r) eqn:Ha; [cbn; intros _; apply Hr; reflexivity|].
    set (r2 := match kRequestTimeout (set_kResume r true) with
               | Some z => if (z =? 0)%Z then set_kResume r true
                           else set_kTimeout (set_kResume r true) true
               | None => set_kResume r true
               end).
    assert (Ha2 : aborted r2 = false).
    { subst r2. destruct (kRequestTimeout _) as [z|]; [destruct (z =? 0)%Z|]; exact Ha. }
    destruct (h_onConnect (kHandler r2)) as [|e|e]; cbn; try congruence.
    unfold seq, onError. cbn. rewrite Ha2. cbn.
    destruct (kResume r2) eqn:Hk; cbn; auto.
  - unfold onHeaders. destruct (aborted r) eqn:Ha; cbn; [auto|congruence].
  - unfold onBody. destruct (aborted r) eqn:Ha; cbn; [auto|congruence].
  - unfold onUpgrade. destruct (aborted r) eqn:Ha; cbn; [auto|congruence].
  - unfold onComplete. destruct (aborted r) eqn:Ha; cbn; [auto|congruence].
  - destruct (kTimeout r) eqn:Ht; [apply Herr|cbn; rewrite Ht; exact Hr].
Qed.

Lemma run_disarmed cs : forall r, disarmed r -> disarmed (fst (run r cs)).
Proof.
  induction cs as [|c cs IH]; intros r Hr; cbn; [exact Hr|].
  specialize (IH _ (call_disarmed r c Hr)).
  destruct (run (res_request (call r c)) cs) as [r' evs]. exact IH.
Qed.

(** X2.  Once a request built by the constructor has been aborted (an error, an
    abort by the user or its timer), and whatever is called on it before or
    after, it holds no armed timer and no resume callback: nothing is left
    that could fire for it later. *)
Theorem aborted_request_is_disarmed (o : Opts) (d : Value) (h : Handler) (r : Request)
  (cs : list Call) :
  new isIP o d h = Normal r ->
  aborted (fst (run r cs)) = true ->
  kTimeout (fst (run r cs)) = false /\ kResume (fst (run r cs)) = false.
Proof.
  intros Hnew. apply run_disarmed. intros Ha.
  destruct (new_fresh _ _ _ _ Hnew) as (Ha' & _). congruence.
Qed.

(** The request timer is off and stays off. *)
Definition untimed (r : Request) : Prop :=
  kTimeout r = false
  /\ (kRequestTimeout r = None \/ kRequestTimeout r = Some 0%Z).

Lemma call_untimed r c :
  untimed r ->
  untimed (res_request (call r c))
  /\ (forall e, In (OnError e) (res_events (call r c)) ->
        match c with
        | CallError e' => e = e'
        | CallAbort e' => e = default RequestAbortedError e'
        | CallConnect =>
            exists e', h_onConnect (kHandler r) = AbortNow e'
                       /\ e = default RequestAbortedError e'
        | _ => False
        end).
Proof.
  intros [Ht Hz].
  assert (Herr : forall e,
            untimed (res_request (onError r e))
            /\ forall e0, In (OnError e0) (res_events (onError r e)) -> e0 = e).
  { intros e. unfold onError, untimed.
    destruct (aborted r); cbn; [intuition|].
    destruct (kResume r); cbn; (split; [auto|]); intros e0 [[=]|[]]; auto. }
  destruct c; cbn [call].
  - unfold onConnect. destruct (aborted r) eqn:Ha; [cbn; split; [split; auto|intros ? []]|].
    assert (Hr2 : match kRequestTimeout (set_kResume r true) with
               | Some z => if (z =? 0)%Z then set_kResume r true
                           else set_kTimeout (set_kResume r true) true
               | None => set_kResume r true
               end = set_kResume r true).
    { cbn. destruct Hz as [->| ->]; reflexivity. }
    rewrite Hr2. cbn [kHandler set_kResume].
    destruct (h_onConnect (kHandler r)) as [|e|e] eqn:Hh; cbn.
    + split; [split; auto|]. intros e0 [[=]|[]].
    + unfold onError. cbn. rewrite Ha. cbn. split; [split; auto|].
      intros e0 [[=]|[[=]|[]]]. subst. exists e. split; [reflexivity|].
      destruct e; reflexivity.
    + split; [split; auto|]. intros e0 [[=]|[]].
  - unfold onHeaders. destruct (aborted r); cbn; (split; [split; auto|]).
    + intros ? []. + intros e0 [[=]|[]].
  - unfold onBody. destruct (aborted r); cbn; (split; [split; auto|]).
    + intros ? []. + intros e0 [[=]|[]].
  - unfold onUpgrade. destruct (aborted r); cbn; (split; [split; auto|]).
    + intros ? []. + intros e0 [[=]|[]].
  - unfold onComplete. destruct (aborted r); cbn; (split; [split; auto|]).
    + intros ? []. + intros e0 [[=]|[]].
  - apply Herr.
  - destruct (Herr (match err with Some e => e | None => RequestAbortedError end))
      as [H1 H2]. split; [exact H1|]. intros e0 Hin. rewrite (H2 _ Hin).
    destruct err; reflexivity.
  - rewrite Ht. cbn. split; [split; auto|]. intros ? [].
Qed.

(** The error a call hands over by itself, if any. *)
Definition passes_timeout (h : Handler) (c : Call) : bool :=
  match c with
  | CallError e | CallAbort (Some e) =>
      String.eqb (err_code e) "UND_ERR_REQUEST_TIMEOUT"
  | CallConnect =>
      match h_onConnect h with
      | AbortNow (Some e) => String.eqb (err_code e) "UND_ERR_REQUEST_TIMEOUT"
      | _ => false
      end
  | _ => false
  end.

Lemma kHandler_call r c : kHandler (res_request (call r c)) = kHandler r.
Proof.
  assert (Herr : forall e, kHandler (res_request (onError r e)) = kHandler r).
  { intros e. unfold onError. destruct (aborted r); cbn; [reflexivity|].
    destruct (kResume r); reflexivity. }
  destruct c; cbn [call]; try apply Herr.
  - unfold onConnect. destruct (aborted r); [reflexivity|].
    set (r2 := match kRequestTimeout (set_kResume r true) with
               | Some z => if (z =? 0)%Z then set_kResume r true
                           else set_kTimeout (set_kResume r true) true
               | None => set_kResume r true
               end).
    assert (H2 : kHandler r2 = kHandler r).
    { subst r2. destruct (kRequestTimeout _) as [z|]; [destruct (z =? 0)%Z|]; reflexivity. }
    destruct (h_onConnect (kHandler r2)); cbn; try exact H2.
    unfold seq, onError. cbn. destruct (aborted r2); cbn; [exact H2|].
    destruct (kResume r2); exact H2.
  - unfold onHeaders. destruct (aborted r); reflexivity.
  - unfold onBody. destruct (aborted r); reflexivity.
  - unfold onUpgrade. destruct (aborted r); reflexivity.
  - unfold onComplete. destruct (aborted r); reflexivity.
  - destruct (kTimeout r); [apply Herr|reflexivity].
Qed.

Lemma run_untimed cs : forall r,
  untimed r ->
  forallb (fun c => negb (passes_timeout (kHandler r) c)) cs = true ->
  forall e, In (OnError e) (snd (run r cs)) ->
    err_code e <> "UND_ERR_REQUEST_TIMEOUT".
Proof.
  induction cs as [|c cs IH]; intros r Hr Hcs e; cbn; [intros []|].
  cbn in Hcs. apply andb_true_iff in Hcs as [Hc Hcs].
  destruct (call_untimed r c Hr) as [Hr' He].
  specialize (IH (res_request (call r c)) Hr').
  rewrite kHandler_call in IH. specialize (IH Hcs e).
  destruct (run (res_request (call r c)) cs) as [r' evs]. cbn in *.
  intros Hin. apply in_app_or in Hin as [Hin|Hin]; [|exact (IH Hin)].
  specialize (He _ Hin). apply negb_true_iff in Hc.
  destruct c; cbn in Hc; try contradiction.
  - destruct He as (e' & Hh & ->). rewrite Hh in Hc.
    destruct e' as [e'|]; cbn; [now apply String.eqb_neq|discriminate].
  - subst. now apply String.eqb_neq.
  - subst. destruct err as [e'|]; cbn; [now apply String.eqb_neq|discriminate].
Qed.

(** X3.  A request built with [requestTimeout: 0] never times out, even when
    the client has a default request timeout: unless a caller hands it a
    timeout error itself, no call sequence (timer events included) makes its
    handler see a request timeout. *)
Theorem zero_timeout_never_fires (o : Opts) (d : Value) (h : Handler) (r : Request)
  (cs : list Call) (e : Err) :
  o_requestTimeout o = VInt 0 ->
  new isIP o d h = Normal r ->
  forallb (fun c => negb (passes_timeout h c)) cs = true ->
  In (OnError e) (snd (run r cs)) ->
  err_code e <> "UND_ERR_REQUEST_TIMEOUT".
Proof.
  intros Ho Hnew Hcs.
  assert (Hh : kHandler r = h /\ kRequestTimeout r = Some 0%Z).
  { revert Hnew. unfold new. rewrite Ho. cbn [nullish andb].
    intros H.
    repeat match type of H with
    | (mbind _ ?m) = _ =>
        let x := fresh "x" in destruct m as [x|] eqn:?; cbn [mbind completion_bind] in H;
        [|discriminate]
    end.
    cbn in *. inversion H; subst; cbn. split; congruence. }
  destruct Hh as [Hh Hz].
  destruct (new_fresh _ _ _ _ Hnew) as (_ & Ht & _).
  apply run_untimed; [split; auto|]. rewrite Hh. exact Hcs.
Qed.

End RequestLife.

Definition zero_timeout_opts : Request.Opts :=
  Request.mkOpts (Request.VString "/") (Request.VString "GET") Request.VUndefined
    None None Request.VUndefined (Request.VInt 0).

Lemma aborted_request_is_disarmed_witness :
  exists r,
    Request.new never_ip (plain_opts []) (Request.VInt 30000) demo_handler = Normal r /\
    Request.kTimeout (fst (Request.run r [Request.CallConnect; Request.CallAbort None]))
      = false /\
    Request.kResume (fst (Request.run r [Request.CallConnect; Request.CallAbort None]))
      = false.
Proof.
  eexists. split; [reflexivity|].
  apply (aborted_request_is_disarmed never_ip (plain_opts []) (Request.VInt 30000)
           demo_handler); reflexivity.
Defined.

Definition zero_timeout_request : Request.Request :=
  Request.mkRequest demo_handler "GET" None None None false false "/" true
    None "" (Some 0%Z) false false.

Lemma zero_timeout_never_fires_witness :
  Request.new never_ip zero_timeout_opts (Request.VInt 30000) demo_handler
    = Normal zero_timeout_request
  /\ In (Request.OnError (SocketError "closed"))
       (snd (Request.run zero_timeout_request
               [Request.CallConnect; Request.TimerFired;
                Request.CallError (SocketError "closed")]))
  /\ err_code (SocketError "closed") <> "UND_ERR_REQUEST_TIMEOUT".
Proof.
  split; [reflexivity|]. split; [vm_compute; auto|].
  apply (zero_timeout_never_fires never_ip zero_timeout_opts (Request.VInt 30000)
           demo_handler zero_timeout_request
           [Request.CallConnect; Request.TimerFired;
            Request.CallError (SocketError "closed")]);
    [reflexivity|reflexivity|reflexivity|vm_compute; auto].
Defined.

(** Induction over a flat array of pairs. *)
Lemma pair_ind {A} (P : list A -> Prop) :
  P [] -> (forall x, P [x]) -> (forall x y l, P l -> P (x :: y :: l)) -> forall l, P l.
Proof.
  intros H0 H1 H2. fix IH 1. intros [|x [|y l]]; [exact H0|exact (H1 x)|].
  exact (H2 x y l (IH l)).
Qed.

(** ** The redirect handler: request headers across hops *)

Section RedirectHeaders.

Import Redirect.

(** A header array as the handler expects it: names and values in pairs. *)
Definition paired (h : Headers) : Prop :=
  match h with
  | HeadersArray flat => Nat.Even (length flat)
  | _ => True
  end.

Lemma shouldRemoveHeader_orb k rc rc' :
  shouldRemoveHeader k (rc || rc') = shouldRemoveHeader k rc || shouldRemoveHeader k rc'.
Proof.
  unfold shouldRemoveHeader.
  destruct (_ && (Js.toLowerCase k =? "host")), rc, rc',
    (Js.startsWith "content-" (Js.toLowerCase k)); reflexivity.
Qed.

Lemma Even_SS n : Nat.Even (S (S n)) -> Nat.Even n.
Proof. intros [m Hm]. exists (m - 1)%nat. lia. Qed.

Lemma cleanArray_again flat : forall rc rc',
  cleanArray (cleanArray flat rc) rc' = cleanArray flat (rc || rc').
Proof.
  induction flat as [|k|k v rest IH] using pair_ind; intros rc rc'; try reflexivity.
  cbn [cleanArray]. rewrite shouldRemoveHeader_orb.
  destruct (shouldRemoveHeader k rc) eqn:H1; cbn [orb].
  - rewrite IH. reflexivity.
  - cbn [cleanArray]. rewrite IH.
    destruct (shouldRemoveHeader k rc'); reflexivity.
Qed.

Lemma cleanObject_again es : forall rc rc',
  cleanArray (cleanObject es rc) rc' = cleanObject es (rc || rc').
Proof.
  induction es as [|[k v] es IH]; intros rc rc'; [reflexivity|].
  cbn [cleanObject]. rewrite shouldRemoveHeader_orb.
  destruct (shouldRemoveHeader k rc) eqn:H1; cbn [orb].
  - apply IH.
  - cbn [cleanArray]. rewrite IH.
    destruct (shouldRemoveHeader k rc'); reflexivity.
Qed.

(** X4.  Headers cleaned on one hop and cleaned again on the next are the
    headers cleaned once, with the content headers removed when either
    hop was a 303: across a chain of redirects nothing comes back and
    nothing else is lost. *)
Theorem cleanRequestHeaders_compose (h : Headers) (rc rc' : bool) (out : list string) :
  paired h ->
  cleanRequestHeaders h rc = Some out ->
  cleanRequestHeaders (HeadersArray out) rc' = cleanRequestHeaders h (rc || rc').
Proof.
  intros _. destruct h as [|flat|es|]; cbn; intros [= <-]; try reflexivity.
  - f_equal. apply cleanArray_again.
  - f_equal. apply cleanObject_again.
Qed.

(** The name/value pairs of a flat header array, and the entries of
    whatever [opts.headers] holds. *)
Fixpoint pairs (flat : list string) : list (string * string) :=
  match flat with
  | k :: v :: rest => (k, v) :: pairs rest
  | _ => []
  end.

Definition entries (h : Headers) : list (string * string) :=
  match h with
  | HeadersArray flat => pairs flat
  | HeadersObject es => es
  | _ => []
  end.

(** A header that refers to the original request: Host, and the content
    headers once the body is dropped. *)
Definition stale (k : string) (removeContent : bool) : Prop :=
  Js.toLowerCase k = "host"
  \/ (removeContent = true /\ Js.startsWith "content-" (Js.toLowerCase k) = true).

Lemma shouldRemoveHeader_stale k rc : shouldRemoveHeader k rc = true <-> stale k rc.
Proof.
  unfold shouldRemoveHeader, stale. rewrite orb_true_iff, !andb_true_iff.
  rewrite String.eqb_eq, Nat.eqb_eq. split.
  - intros [[_ H]|H]; [left|right]; assumption.
  - intros [H|H]; [left|right; exact H]. split; [|exact H].
    rewrite <- length_toLowerCase, H. reflexivity.
Qed.

Lemma pairs_cleanArray flat : forall rc,
  pairs (cleanArray flat rc)
  = List.filter (fun kv => negb (shouldRemoveHeader (fst kv) rc)) (pairs flat).
Proof.
  induction flat as [|k0|k0 v rest IH] using pair_ind; intros rc; try reflexivity.
  cbn [cleanArray pairs List.filter fst].
  destruct (shouldRemoveHeader k0 rc); cbn [negb pairs]; rewrite IH; reflexivity.
Qed.

Lemma pairs_cleanObject es : forall rc,
  pairs (cleanObject es rc)
  = List.filter (fun kv => negb (shouldRemoveHeader (fst kv) rc)) es.
Proof.
  induction es as [|[k0 v] es IH]; intros rc; [reflexivity|].
  cbn [cleanObject List.filter fst].
  destruct (shouldRemoveHeader k0 rc); cbn [negb pairs]; rewrite IH; reflexivity.
Qed.

Lemma sublist_List_filter {A} (f : A -> bool) (l : list A) : sublist (List.filter f l) l.
Proof.
  induction l as [|x l IH]; cbn; [constructor|].
  destruct (f x); [apply sublist_skip|apply sublist_cons]; exact IH.
Qed.

(** X5.  The headers sent to the redirect target are the original ones, in
    their order and with their values, without the Host header (in
    whatever letter case) and, after a 303, without any header whose name
    starts with content-. *)
Theorem cleanRequestHeaders_keeps (h : Headers) (rc : bool) (out : list string) :
  paired h ->
  cleanRequestHeaders h rc = Some out ->
  sublist (pairs out) (entries h)
  /\ forall k v, In (k, v) (pairs out) <-> In (k, v) (entries h) /\ ~ stale k rc.
Proof.
  intros _ Hout.
  assert (Hp : pairs out
               = List.filter (fun kv => negb (shouldRemoveHeader (fst kv) rc)) (entries h)).
  { destruct h as [|flat|es|]; cbn in Hout; try discriminate; injection Hout as <-;
      cbn [entries]; [reflexivity|apply pairs_cleanArray|apply pairs_cleanObject]. }
  rewrite Hp. split; [apply sublist_List_filter|].
  intros k v. rewrite List.filter_In. cbn [fst].
  rewrite negb_true_iff, <- not_true_iff_false, shouldRemoveHeader_stale. reflexivity.
Qed.

(** X6.  [parseLocation] finds the Location header whatever its letter case,
    and the first one when there are several. *)
Theorem parseLocation_first (pre rest : list string) (k v : string) :
  Nat.Even (length pre) ->
  (forall k' v', In (k', v') (pairs pre) -> Js.toLowerCase k' <> "location") ->
  Js.toLowerCase k = "location" ->
  parseLocation (pre ++ k :: v :: rest) = Some v.
Proof.
  induction pre as [|k0|k0 v0 pre' IH] using pair_ind; intros Hev Hpre Hk.
  - cbn [app parseLocation]. pose proof (length_toLowerCase k) as Hlen.
    rewrite Hk in *. cbn in Hlen. rewrite <- Hlen. reflexivity.
  - destruct Hev as [m Hm]. cbn in Hm. lia.
  - cbn [app parseLocation].
    destruct (_ && (Js.toLowerCase k0 =? "location")) eqn:H0.
    + apply andb_true_iff in H0 as [_ H0]. apply String.eqb_eq in H0.
      destruct (Hpre k0 v0); [left; reflexivity|exact H0].
    + apply IH; [apply Even_SS; exact Hev| |exact Hk].
      intros k' v' Hin. apply (Hpre k' v'). right. exact Hin.
Qed.

End RedirectHeaders.

Definition patch_headers : Redirect.Headers :=
  Redirect.HeadersObject
    [("Host", "localhost"); ("Content-Type", "application/json"); ("X-Foo", "1")].

Lemma cleanRequestHeaders_compose_witness :
  Redirect.cleanRequestHeaders patch_headers false
    = Some ["Content-Type"; "application/json"; "X-Foo"; "1"]
  /\ Redirect.cleanRequestHeaders
       (Redirect.HeadersArray ["Content-Type"; "application/json"; "X-Foo"; "1"]) true
     = Redirect.cleanRequestHeaders patch_headers (false || true).
Proof.
  split; [reflexivity|].
  apply (cleanRequestHeaders_compose patch_headers false true); [exact I|reflexivity].
Defined.

Lemma cleanRequestHeaders_keeps_witness :
  Redirect.cleanRequestHeaders patch_headers true = Some ["X-Foo"; "1"]
  /\ sublist (pairs ["X-Foo"; "1"]) (entries patch_headers)
  /\ forall k v, In (k, v) (pairs ["X-Foo"; "1"])
       <-> In (k, v) (entries patch_headers) /\ ~ stale k true.
Proof.
  split; [reflexivity|].
  apply (cleanRequestHeaders_keeps patch_headers true); [exact I|reflexivity].
Defined.

Lemma parseLocation_first_witness :
  Redirect.parseLocation
    (["Content-Length"; "0"] ++ "LOCATION" :: "http://b/" :: ["location"; "http://c/"])
  = Some "http://b/".
Proof.
  apply (parseLocation_first ["Content-Length"; "0"] ["location"; "http://c/"]
           "LOCATION" "http://b/").
  - exists 1%nat. reflexivity.
  - intros k' v' [[= <- <-]|[]]. discriminate.
  - reflexivity.
Defined.

(** ** The redirect agent

    [RedirectAgent.dispatch] wraps the user's handler in a
    [RedirectHandler] and sends the request through the inner agent; the
    handler's [onComplete] comes back to [dispatch] with the rewritten
    options.  The inner agent is the environment: it is given by the
    answers it delivers, one for each request it is handed.  An answer may
    have several heads: the llhttp client hands every interim head (a
    status below 200 other than 100) to [onHeaders] before the final one.
    [maxRedirections] is a natural number here (lines 259-261 reject
    everything else), and there is one redirect agent, so that the
    circular-dispatch tag is its own.  Upgrades, which the handler passes
    on as they are, and the events of a stream body are left out. *)

Module RedirectAgent.

Import Redirect.

(** What the inner agent and the user's handler observe, in order. *)
Inductive Step :=
| Sent (o : Opts)                (* agent.dispatch (opts, ...) on the inner agent *)
| Connect                        (* handler.onConnect *)
| Seen (e : Event)               (* handler.onHeaders, onData, onComplete *)
| Failed                         (* handler.onError *)
| Thrown.                        (* onHeaders threw into the inner agent *)

Inductive Ending := Completes | Errors.

(** What the inner agent delivers for one request: no connection at all,
    or the heads of a response (the interim ones, then the final one with
    [statusCode] and [raw]), body chunks and an end.  Nothing is assumed
    of the status codes of the interim heads. *)
Inductive Response :=
| Unreachable
| Answer (interim : list (nat * list string)) (statusCode : nat) (raw : list string)
         (chunks : nat) (e : Ending).


Definition head_event (h : nat * list string) : Event := EvHeaders (fst h) (snd h).

Definition isStream (b : option Body) : bool :=
  match b with Some BodyStream => true | _ => false end.

(** [RedirectHandler.onData]. *)
Definition onData (h : RedirectHandler) : RedirectHandler :=
  if followed h then h else mkRH (location h) (opts h) (trace h ++ [EvData]).

(** An answer delivered to the user's handler itself. *)
Definition direct (rs : list Response) : list Step :=
  match rs with
  | [] => []
  | Unreachable :: _ => [Failed]
  | Answer interim s raw k e :: _ =>
      Connect :: (Seen <$> (head_event <$> interim ++ [(s, raw)]))
        ++ replicate k (Seen EvData)
        ++ [match e with Completes => Seen EvComplete | Errors => Failed end]
  end.

Section Dispatch.

Variable resolve : string -> string -> option ParsedURL.

(** [util.bodyLength], a collaborator: [None] is JavaScript's null. *)
Variable bodyLength : option Body -> option Z.

(** The heads of one answer go through [RedirectHandler.onHeaders] one
    after the other, until one of them throws. *)
Fixpoint onHeads (h : RedirectHandler) (hs : list (nat * list string)) : Outcome :=
  match hs with
  | [] => Done h
  | (s, raw) :: rest =>
      match onHeaders resolve h s raw with
      | Done h1 => onHeads h1 rest
      | Threw h1 => Threw h1
      end
  end.

(** [dispatch (opts, handler)] with [n] the value of
    [opts.maxRedirections]. *)
Fixpoint dispatch_from (n : nat) (o : Opts) (rs : list Response) : list Step :=
  match n with
  | O => Sent o :: direct rs
  | S n' =>
      if isStream (body o)
         && negb match bodyLength (body o) with Some z => (z =? 0)%Z | None => false end
      then Sent o :: direct rs
      else
        let o1 := mkOpts (origin o) (path o) (method o) (headers o)
                    (if isStream (body o) then None else body o) n' in
        Sent o1 ::
        match rs with
        | [] => []
        | Unreachable :: _ => [Failed]
        | Answer interim s raw k e :: rs' =>
            Connect ::
            match onHeads (mkRH None o1 []) (interim ++ [(s, raw)]) with
            | Threw h1 => (Seen <$> trace h1) ++ [Thrown]
            | Done h1 =>
                let h2 := Nat.iter k onData h1 in
                match e with
                | Errors => (Seen <$> trace h2) ++ [Failed]
                | Completes =>
                    if followed h2
                    then (Seen <$> trace h2) ++ dispatch_from n' (opts h2) rs'
                    else Seen <$> trace (onComplete h2)
                end
            end
        end
  end.

Definition dispatch (o : Opts) (rs : list Response) : list Step :=
  dispatch_from (maxRedirections o) o rs.

End Dispatch.

Definition is_sent (s : Step) : bool :=
  match s with Sent _ => true | _ => false end.


Definition is_head (e : Event) : bool :=
  match e with EvHeaders _ _ => true | _ => false end.



End RedirectAgent.

Section RedirectAgentFacts.

Import Redirect RedirectAgent.

Variable resolve : string -> string -> option ParsedURL.
Variable bodyLength : option Body -> option Z.

(** What [onHeaders] does to a handler: the head is passed on, or it is
    swallowed; the redirections left are untouched either way, and nothing
    but the head is shown. *)
Lemma onHeaders_step h s raw h1 :
  onHeaders resolve h s raw = Done h1 ->
  maxRedirections (opts h1) = maxRedirections (opts h)
  /\ (trace h1 = trace h ++ [EvHeaders s raw] \/ trace h1 = trace h).
Proof.
  unfold onHeaders, forward. cbn [trace opts location].
  destruct (negb (existsb _ _)).
  { intros [= <-]. cbn. auto. }
  destruct (parseLocation raw) as [l|] eqn:Hloc.
  2:{ intros [= <-]. cbn. auto. }
  destruct (Js.truthy_string l) eqn:Hl; cbn [negb].
  2:{ intros [= <-]. cbn. auto. }
  destruct (resolve l (origin (opts h))) as [u|]; [|discriminate].
  destruct (cleanRequestHeaders _ _) as [hs|]; [|discriminate].
  intros [= <-]. cbn [trace opts]. split; [|right; reflexivity].
  destruct (_ && _); reflexivity.
Qed.

Lemma onHeaders_threw h s raw h1 :
  onHeaders resolve h s raw = Threw h1 -> trace h1 = trace h.
Proof.
  unfold onHeaders, forward. cbn [trace opts location].
  destruct (negb (existsb _ _)); [discriminate|].
  destruct (parseLocation raw) as [l|]; [|discriminate].
  destruct (negb (Js.truthy_string l)); [discriminate|].
  destruct (resolve l (origin (opts h))) as [u|].
  - destruct (cleanRequestHeaders _ _); [discriminate|]. intros [= <-]. reflexivity.
  - intros [= <-]. reflexivity.
Qed.

(** The same of a whole run of heads: what is shown is a selection of
    the heads, in their order. *)
Lemma onHeads_spec hs : forall h,
  exists shown,
    sublist shown (head_event <$> hs)
    /\ match onHeads resolve h hs with
       | Done h1 =>
           trace h1 = trace h ++ shown
           /\ maxRedirections (opts h1) = maxRedirections (opts h)
       | Threw h1 => trace h1 = trace h ++ shown
       end.
Proof.
  induction hs as [|[s raw] hs IH]; intros h; cbn [onHeads].
  - exists []. rewrite app_nil_r. split; [constructor|auto].
  - destruct (onHeaders resolve h s raw) as [h1|h1] eqn:Hh.
    + destruct (onHeaders_step _ _ _ _ Hh) as (Hm & Ht).
      destruct (IH h1) as (sh & Hsub & H).
      destruct Ht as [Ht|Ht].
      * exists (EvHeaders s raw :: sh). split; [cbn; constructor; exact Hsub|].
        destruct (onHeads resolve h1 hs); rewrite Ht, <- app_assoc in H; cbn in H.
        -- destruct H as [-> ->]. auto.
        -- exact H.
      * exists sh. split; [cbn; constructor; exact Hsub|].
        destruct (onHeads resolve h1 hs); rewrite Ht in H.
        -- destruct H as [-> ->]. auto.
        -- exact H.
    + exists []. rewrite app_nil_r. split; [apply sublist_nil_l|].
      apply (onHeaders_threw _ _ _ _ Hh).
Qed.


Lemma replicate_snoc {A} (k : nat) (x : A) : replicate k x ++ [x] = replicate (S k) x.
Proof. induction k as [|k IH]; cbn; [reflexivity|]. f_equal. exact IH. Qed.

Lemma app_nil_r_if (h : RedirectHandler) :
  trace h ++ (if followed h then [] else replicate 0 EvData) = trace h.
Proof. destruct (followed h); apply app_nil_r. Qed.

Lemma onData_step g :
  followed (onData g) = followed g
  /\ opts (onData g) = opts g
  /\ trace (onData g) = trace g ++ (if followed g then [] else [EvData]).
Proof.
  unfold onData. destruct (followed g) eqn:Hg.
  - rewrite app_nil_r. auto.
  - unfold followed in *. cbn. auto.
Qed.

Lemma onData_iter k h :
  followed (Nat.iter k onData h) = followed h
  /\ opts (Nat.iter k onData h) = opts h
  /\ trace (Nat.iter k onData h)
     = trace h ++ (if followed h then [] else replicate k EvData).
Proof.
  induction k as [|k (IHf & IHo & IHt)].
  - cbn [Nat.iter nat_rect]. rewrite (app_nil_r_if h). repeat split.
  - rewrite !Nat.iter_succ. destruct (onData_step (Nat.iter k onData h)) as (Hf & Ho & Ht).
    rewrite Hf, Ho, Ht, IHf, IHo, IHt. repeat split.
    rewrite <- app_assoc. destruct (followed h); [reflexivity|].
    rewrite replicate_snoc. reflexivity.
Qed.

(** The options [onComplete] hands back to [dispatch] carry the
    redirections left, so that the recursion of [dispatch_from] is the one
    of [dispatch]. *)
Lemma redispatch_budget o1 hs h1 k :
  onHeads resolve (mkRH None o1 []) hs = Done h1 ->
  dispatch_from resolve bodyLength (maxRedirections o1) (opts (Nat.iter k onData h1))
  = dispatch resolve bodyLength (opts (Nat.iter k onData h1)).
Proof.
  intros Hh. destruct (onData_iter k h1) as (_ & Ho & _).
  unfold dispatch. rewrite Ho.
  destruct (onHeads_spec hs (mkRH None o1 [])) as (sh & _ & H). rewrite Hh in H.
  destruct H as [_ ->]. reflexivity.
Qed.

Lemma sent_Seen (l : list Event) : List.filter is_sent (Seen <$> l) = [].
Proof. induction l; cbn; auto. Qed.

Lemma sent_replicate k : List.filter is_sent (replicate k (Seen EvData)) = [].
Proof. induction k; cbn; auto. Qed.

Lemma sent_direct rs : List.filter is_sent (direct rs) = [].
Proof.
  destruct rs as [|[|interim s raw k e] rs]; try reflexivity.
  cbn [direct List.filter is_sent]. rewrite !List.filter_app, sent_Seen, sent_replicate.
  destruct e; reflexivity.
Qed.




(** X7.  A request is handed to the inner agent at most
    [maxRedirections + 1] times, whatever the servers answer: the redirect
    chain stops. *)
Theorem dispatch_bounded (o : Opts) (rs : list Response) :
  (length (List.filter is_sent (dispatch resolve bodyLength o rs))
   <= S (maxRedirections o))%nat.
Proof.
  unfold dispatch. generalize (maxRedirections o) as n. intros n. revert o rs.
  induction n as [|n IH]; intros o rs; cbn [dispatch_from].
  - cbn [List.filter is_sent]. rewrite sent_direct. cbn. lia.
  - destruct (_ && _).
    { cbn [List.filter is_sent]. rewrite sent_direct. cbn. lia. }
    cbn [List.filter is_sent length].
    destruct rs as [|[|interim s raw k e] rs]; cbn [List.filter is_sent length]; try lia.
    destruct (onHeads _ _ _) as [h1|h1].
    2:{ rewrite List.filter_app, sent_Seen. cbn. lia. }
    destruct e.
    + destruct (followed _).
      * rewrite List.filter_app, sent_Seen. cbn [app].
        specialize (IH (opts (Nat.iter k onData h1)) rs). lia.
      * rewrite sent_Seen. cbn. lia.
    + rewrite List.filter_app, sent_Seen. cbn. lia.
Qed.




Lemma heads_are_heads (hs : list (nat * list string)) :
  forallb is_head (head_event <$> hs) = true.
Proof. induction hs as [|h hs IH]; cbn; auto. Qed.









End RedirectAgentFacts.

(** An early-hints head, then a redirect that is followed, then the page:
    the handler is shown the interim head of the first exchange and the
    whole of the second. *)
Definition resolve_path (location origin : string) : option Redirect.ParsedURL :=
  Some (Redirect.mkURL origin location "").

Example early_hints_are_forwarded :
  let o := Redirect.mkOpts "http://a" "/" "GET" Redirect.HeadersNullish None 2 in
  RedirectAgent.dispatch resolve_path (fun _ => Some 0%Z) o
    [RedirectAgent.Answer [(103%nat, ["link"; "</style.css>"])] 302 ["location"; "/b"] 1
       RedirectAgent.Completes;
     RedirectAgent.Answer [] 200 [] 1 RedirectAgent.Completes]
  = [RedirectAgent.Sent (Redirect.mkOpts "http://a" "/" "GET" Redirect.HeadersNullish None 1);
     RedirectAgent.Connect;
     RedirectAgent.Seen (Redirect.EvHeaders 103 ["link"; "</style.css>"]);
     RedirectAgent.Sent (Redirect.mkOpts "http://a" "/b" "GET" (Redirect.HeadersArray [])
                           None 0);
     RedirectAgent.Connect;
     RedirectAgent.Seen (Redirect.EvHeaders 200 []);
     RedirectAgent.Seen Redirect.EvData;
     RedirectAgent.Seen Redirect.EvComplete].
Proof. reflexivity. Qed.

(** ** The llhttp client: who hears of a failure *)

Section Failures.

Import Client.

Variable bodyLength : option Request.Body -> option Z.

(** The errors a batch of requests gives rise to: one [onError] for each
    request that has not been aborted before, in queue order. *)
Definition failures (reqs : list (option Request.Request)) (err : Err)
  : list (nat * Request.Event) :=
  flat_map (fun o =>
              match o with
              | Some r =>
                  if Request.aborted r then []
                  else [(Request.h_id (Request.kHandler r), Request.OnError err)]
              | None => []
              end) reqs.

Lemma log_nil c : log [] c = c.
Proof. destruct c. unfold log. cbn. rewrite app_nil_r. reflexivity. Qed.

Lemma log_log e1 e2 c : log e2 (log e1 c) = log (e1 ++ e2) c.
Proof. unfold log. cbn. rewrite app_assoc. reflexivity. Qed.

Lemma onError_events r err :
  Request.res_events (Request.onError r err)
  = if Request.aborted r then [] else [Request.OnError err].
Proof.
  unfold Request.onError. destruct (Request.aborted r); [reflexivity|].
  cbn. destruct (Request.kResume r); reflexivity.
Qed.

(** [fail_all] only adds to the trace, and what the handlers see of it is
    [failures]. *)
Lemma fail_all_exact {D : Prop} reqs err : forall c,
  Forall is_Some reqs ->
  hoare D (eq c) (fail_all reqs err)
    (fun _ c' => exists evs, c' = log evs c /\ handler_events evs = failures reqs err)
    (fun _ => False).
Proof.
  induction reqs as [|o reqs IH]; intros c Hall; cbn [fail_all].
  - apply hx_ret. exists []. rewrite log_nil. split; reflexivity.
  - apply Forall_cons in Hall as [[r ->] Hall].
    unfold fail_request, deliver. hxc.
    + intros s <-.
      match goal with |- match fail_all _ _ ?c1 with _ => _ end =>
        pose proof (IH c1 Hall c1 eq_refl) as Hrest;
        destruct (fail_all reqs err c1) as [[] c2|e c2|]
      end; [|exact Hrest..].
      destruct Hrest as (evs & -> & Hevs). rewrite log_log. eexists. split; [reflexivity|].
      rewrite handler_events_app, Hevs. cbn [failures flat_map]. f_equal.
      rewrite onError_events, onError_handler.
      destruct (Request.aborted r); reflexivity.
    + rewrite onError_aborted in *. discriminate.
Qed.

(** What [resume] leaves alone on a destroyed client. *)
Definition at_rest (c c' : Client) : Prop :=
  trace c' = trace c /\ kDestroyed c' = kDestroyed c /\ kClosed c' = kClosed c
  /\ kSocket c' = kSocket c /\ kOnDestroyed c' = kOnDestroyed c
  /\ drop (kRunningIdx c') (kQueue c') = drop (kRunningIdx c) (kQueue c)
  /\ kPending c' = kPending c /\ kRunning c' = kRunning c.

(** On a destroyed client whose pending requests are gone the scheduler
    does nothing but compact the queue. *)
Lemma resume_destroyed {D : Prop} c sync :
  kDestroyed c = true -> kPendingIdx c = length (kQueue c) ->
  (kRunningIdx c <= kPendingIdx c)%nat ->
  hoare D (eq c) (resume bodyLength sync) (fun _ => at_rest c) (fun _ => False).
Proof.
  intros Hd Hp Hr. unfold resume. hxc1.
  destruct (resume_fuel_S c) as [n ->]. unfold resume_with, compact. cbn [_resume].
  hxc; unfold at_rest, kPending, kRunning in *; cl_simpl;
    rewrite ?length_drop, ?drop_drop, ?Nat.add_0_r in *;
    try (repeat split; (reflexivity || lia));
    try (rewrite Hp, Z.sub_diag in *; discriminate).
Qed.

(** What is left of a client after its pending requests were failed:
    [reqs] heard [err], the running requests are untouched. *)
Definition failed_from (from : nat) (c : Client) (err : Err) (c' : Client) : Prop :=
  handler_events (trace c')
  = handler_events (trace c) ++ failures (drop from (kQueue c)) err
  /\ drop (kRunningIdx c') (kQueue c') = region (kRunningIdx c) from (kQueue c)
  /\ kPending c' = 0%Z.

Lemma drop_take_region {A} (a b : nat) (l : list A) :
  (a <= b)%nat -> drop a (take b l) = region a b l.
Proof.
  intros H. unfold region. rewrite take_drop_commute. do 2 f_equal. lia.
Qed.

(** The state in which the requests from [from] on have been failed and
    cut off a destroyed client. *)
Definition cut_off (from : nat) (c : Client) (err : Err) (c0 : Client) : Prop :=
  kDestroyed c0 = true /\ kClosed c0 = true
  /\ kQueue c0 = take from (kQueue c)
  /\ kRunningIdx c0 = kRunningIdx c /\ kPendingIdx c0 = from
  /\ handler_events (trace c0)
     = handler_events (trace c) ++ failures (drop from (kQueue c)) err.

Definition destroyed_with (from : nat) (c : Client) (err : Err) (c' : Client) : Prop :=
  kDestroyed c' = true /\ kClosed c' = true
  /\ failed_from from c err c'
  /\ kRunning c' = (Z.of_nat from - Z.of_nat (kRunningIdx c))%Z.

Lemma resume_cut_off from c err c0 sync :
  (kRunningIdx c <= from)%nat -> (from <= length (kQueue c))%nat ->
  cut_off from c err c0 ->
  hoare False (eq c0) (resume bodyLength sync)
    (fun _ c' => destroyed_with from c err c' /\ kSocket c' = kSocket c0)
    (fun _ => False).
Proof.
  intros Hr Hf (Hd & Hc & Hq & Hri & Hpi & Hev).
  eapply hx_call_weaken with (P := eq c0);
    [ apply resume_destroyed; rewrite ?Hq, ?length_take; (assumption || lia)
    | reflexivity | auto | ].
  intros [] c' (Ht & Hd' & Hc' & Hso & _ & Hdq & Hpe & Hru).
  split; [|exact Hso].
  unfold destroyed_with, failed_from. unfold kPending, kRunning in Hpe, Hru.
  rewrite Hq, Hpi, Hri, length_take in *.
  rewrite Ht, Hev, Hdq, drop_take_region by lia.
  rewrite Hd', Hc', Hd, Hc. unfold kPending, kRunning.
  repeat split; lia.
Qed.

(** X9.  [destroy] on a live client fails every pending request with the
    error given (or [ClientDestroyedError]), in queue order and each one
    once; the running requests are left for the socket's close to fail.
    The client is destroyed and closed when it comes back, and it comes
    back. *)
Theorem destroy_fails_pending (c : Client) (err : option Err) (callback : Callback)
  (n : nat) :
  kDestroyed c = false -> kOnDestroyed c = Some n ->
  (kRunningIdx c <= kPendingIdx c)%nat -> (kPendingIdx c <= length (kQueue c))%nat ->
  Forall is_Some (drop (kPendingIdx c) (kQueue c)) ->
  callback <> CbOther ->
  match destroy bodyLength err callback c with
  | Ret _ c' =>
      kDestroyed c' = true /\ kClosed c' = true
      /\ failed_from (kPendingIdx c) c (default ClientDestroyedError err) c'
      /\ kRunning c' = kRunning c
  | Exc _ _ | OutOfFuel => False
  end.
Proof.
  intros Hd Hn Hr Hp Hall Hcb.
  set (e := default ClientDestroyedError err).
  assert (H : hoare False (eq c) (destroy bodyLength err callback)
                (fun _ => destroyed_with (kPendingIdx c) c e) (fun _ => False)).
  2:{ specialize (H c eq_refl). destruct (destroy _ _ _ c); exact H. }
  unfold destroy. destruct callback; [| |congruence];
    unfold destroy_with, splice_from; hxc1; rewrite Hd; hxc1; fold e.
  all: eapply hx_bind_call_weaken with (P := eq (set_queue (take (kPendingIdx c) (kQueue c)) c));
    [apply (fail_all_exact _ e _ Hall)|reflexivity|auto|].
  all: intros [] c1 (evs & -> & Hevs).
  all: hxc1; hxc1; rewrite Hn; hxc1; unfold util_destroy.
  all: hxc.
  all: eapply hx_call_weaken;
    [apply (resume_cut_off (kPendingIdx c) c e); [assumption|assumption|]
    |reflexivity|auto|intros [] c' [Hc' _]; exact Hc'].
  all: unfold cut_off; cl_simpl; rewrite ?handler_events_app, ?Hevs; cbn [handler_events];
    rewrite ?app_nil_r; repeat split; reflexivity.
Qed.

(** X10.  When the socket of a destroyed client closes, every request still in
    the queue (the ones that were running) is failed with the socket's
    error, in queue order, and the queue is empty afterwards. *)
Theorem onSocketClose_destroyed_fails_all (c : Client) (s : Socket) :
  kSocket c = Some s -> kDestroyed c = true -> kClosed c = true ->
  (kRunningIdx c <= kPendingIdx c)%nat -> kPendingIdx c = length (kQueue c) ->
  Forall is_Some (drop (kRunningIdx c) (kQueue c)) ->
  match onSocketClose bodyLength c with
  | Ret _ c' =>
      handler_events (trace c')
      = handler_events (trace c)
          ++ failures (drop (kRunningIdx c) (kQueue c))
               (default (SocketError "closed") (kError s))
      /\ kSize c' = 0%Z /\ kSocket c' = None
  | Exc _ _ | OutOfFuel => False
  end.
Proof.
  intros Hs Hd Hc Hr Hp Hall.
  set (e := default (SocketError "closed") (kError s)).
  assert (H : hoare False (eq c) (onSocketClose bodyLength)
                (fun _ c' => destroyed_with (kRunningIdx c) c e c' /\ kSocket c' = None)
                (fun _ => False)).
  2:{ specialize (H c eq_refl). destruct (onSocketClose _ c) as [[] c'|? ?|]; try exact H.
      destruct H as [(_ & _ & (Hev & Hdq & Hpe) & Hru) Hso].
      split; [exact Hev|]. split; [|exact Hso].
      unfold kSize, kPending, kRunning in *. lia. }
  unfold onSocketClose, splice_from. hxc. fold e.
  2:{ unfold kPending in *. cl_simpl. rewrite Hp, Z.sub_diag in *. discriminate. }
  eapply hx_bind_call_weaken;
    [eapply fail_all_exact; exact Hall|reflexivity|auto|].
  intros [] c1 (evs & -> & Hevs). hxc.
  all: try (unfold kRunning in *; cl_simpl; rewrite Z.sub_diag in *; discriminate).
  all: eapply hx_call_weaken;
    [ apply (resume_cut_off (kRunningIdx c) c e); [lia|lia|]
    | reflexivity | auto | intros [] c' [Hc' Hso]; split; [exact Hc'|exact Hso] ].
  all: unfold cut_off; cl_simpl; rewrite ?handler_events_app, ?Hevs; cbn [handler_events];
    rewrite ?app_nil_r; repeat split; assumption || reflexivity.
Qed.

(** X11.  A connection error (an error on a socket with nothing running that
    is neither informational, nor a socket error, nor an invalid
    certificate name) fails the whole queue, in order, and empties it. *)
Theorem onSocketError_fails_queue (c : Client) (s : Socket) (err : Err) :
  kSocket c = Some s ->
  kPendingIdx c = kRunningIdx c -> (kRunningIdx c <= length (kQueue c))%nat ->
  Forall is_Some (drop (kRunningIdx c) (kQueue c)) ->
  String.eqb (err_code err) "ERR_TLS_CERT_ALTNAME_INVALID" = false ->
  String.eqb (err_code err) "UND_ERR_INFO" = false ->
  String.eqb (err_code err) "UND_ERR_SOCKET" = false ->
  match onSocketError err c with
  | Ret _ c' =>
      handler_events (trace c')
      = handler_events (trace c) ++ failures (drop (kRunningIdx c) (kQueue c)) err
      /\ kSize c' = 0%Z
      /\ (kError <$> kSocket c') = Some (Some err)
  | Exc _ _ | OutOfFuel => False
  end.
Proof.
  intros Hs Hp Hr Hall H1 H2 H3.
  assert (H : hoare False (eq c) (onSocketError err)
                (fun _ c' =>
                   handler_events (trace c')
                   = handler_events (trace c)
                       ++ failures (drop (kRunningIdx c) (kQueue c)) err
                   /\ kSize c' = 0%Z
                   /\ (kError <$> kSocket c') = Some (Some err))
                (fun _ => False)).
  2:{ specialize (H c eq_refl). destruct (onSocketError err c); exact H. }
  unfold onSocketError, splice_from. hxc1. unfold kRunning.
  rewrite Hs, Hp, Z.sub_diag, H1, H2, H3. cbn [Z.eqb negb andb]. hxc.
  2:{ rewrite Nat.eqb_refl in *. discriminate. }
  eapply hx_bind_call_weaken;
    [eapply fail_all_exact; exact Hall|reflexivity|auto|].
  intros [] c1 (evs & -> & Hevs). hxc.
  - rewrite handler_events_app, Hevs. rewrite Hs. cbn. repeat split.
    unfold kSize. cl_simpl. rewrite length_take. lia.
  - unfold kSize in *. cl_simpl. rewrite length_take in *.
    match goal with H : (_ =? 0)%Z = false |- _ => apply Z.eqb_neq in H end. lia.
Qed.

(** X12.  A closed client whose queue has drained destroys itself at the next
    run of the scheduler: the socket, if there is one, is destroyed with
    [ClientDestroyedError], no handler hears anything, and the callbacks
    registered by [close] wait for [onDestroyed]. *)
Theorem resume_destroys_drained_client (c : Client) (sync : bool) (n : nat) :
  kClosed c = true -> kDestroyed c = false ->
  kRunningIdx c = length (kQueue c) -> kPendingIdx c = length (kQueue c) ->
  kResuming c <> 2%nat -> kOnDestroyed c = Some n ->
  match resume bodyLength sync c with
  | Ret _ c' =>
      kDestroyed c' = true
      /\ kOnDestroyed c' = Some (S n)
      /\ handler_events (trace c') = handler_events (trace c)
      /\ match kSocket c with
         | Some s =>
             if destroyed s then trace c' = trace c
             else trace c' = trace c ++ [SocketDestroy (Some ClientDestroyedError)]
         | None => trace c' = trace c ++ [NextTick "onDestroyed"]
         end
  | Exc _ _ | OutOfFuel => False
  end.
Proof.
  intros Hc Hd Hr Hp Hres Hn.
  assert (H : hoare False (eq c) (resume bodyLength sync)
                (fun _ c' =>
                   kDestroyed c' = true
                   /\ kOnDestroyed c' = Some (S n)
                   /\ handler_events (trace c') = handler_events (trace c)
                   /\ match kSocket c with
                      | Some s =>
                          if destroyed s then trace c' = trace c
                          else trace c' = trace c ++ [SocketDestroy (Some ClientDestroyedError)]
                      | None => trace c' = trace c ++ [NextTick "onDestroyed"]
                      end)
                (fun _ => False)).
  2:{ specialize (H c eq_refl). destruct (resume _ _ c); exact H. }
  unfold resume. hxc1. destruct (resume_fuel_S c) as [m ->].
  unfold resume_with, compact. cbn [_resume]. unfold destroy_with, splice_from, util_destroy,
    resume_with, kSize, kPending.
  assert (Hres' : (kResuming c =? 2)%nat = false) by (apply Nat.eqb_neq; exact Hres).
  hxc1. rewrite Hres'.
  repeat (hxc1;
          rewrite ?Hd, ?Hc, ?Hr, ?Hp, ?Hn, ?Z.sub_diag, ?drop_all, ?take_ge by lia;
          cbn [andb Z.eqb default fail_all Nat.eqb]).
  all: try discriminate.
  all: try (rewrite !handler_events_app; cbn [handler_events]; rewrite ?app_nil_r).
  all: try (rewrite <- ?app_assoc; cbn [app]; repeat split; reflexivity).
Qed.

End Failures.

(** Two requests in flight and a third one waiting. *)
Definition backed_up_client : Client.Client :=
  Eval vm_compute in
    default zero_client
      (run_steps [get_with 1; get_with 2; OnSocketConnect; get_with 3]
         (Client.new (Client.defaultConfig "http:") (Some 2%Z))).

Lemma destroy_fails_pending_witness :
  match Client.destroy Client.bodyLength None Client.CbUndefined backed_up_client with
  | Ret _ c' =>
      Client.kDestroyed c' = true /\ Client.kClosed c' = true
      /\ failed_from (Client.kPendingIdx backed_up_client) backed_up_client
           (default ClientDestroyedError None) c'
      /\ Client.kRunning c' = Client.kRunning backed_up_client
  | Exc _ _ | OutOfFuel => False
  end.
Proof.
  apply (destroy_fails_pending Client.bodyLength backed_up_client None Client.CbUndefined 0);
    try reflexivity.
  - vm_compute. lia.
  - vm_compute. lia.
  - vm_compute. repeat constructor. eexists. reflexivity.
  - discriminate.
Defined.

(** The same client after [destroy]: the two requests in flight wait for
    the socket to close. *)
Definition doomed_client : Client.Client :=
  Eval vm_compute in
    default zero_client
      (run_steps [Public (OpDestroy None Client.CbUndefined)] backed_up_client).

Definition doomed_socket : Client.Socket :=
  Eval vm_compute in default first_socket (Client.kSocket doomed_client).

Lemma onSocketClose_destroyed_fails_all_witness :
  match Client.onSocketClose Client.bodyLength doomed_client with
  | Ret _ c' =>
      handler_events (Client.trace c')
      = handler_events (Client.trace doomed_client)
          ++ failures (drop (Client.kRunningIdx doomed_client) (Client.kQueue doomed_client))
               (default (SocketError "closed") (Client.kError doomed_socket))
      /\ Client.kSize c' = 0%Z /\ Client.kSocket c' = None
  | Exc _ _ | OutOfFuel => False
  end.
Proof.
  apply (onSocketClose_destroyed_fails_all Client.bodyLength doomed_client doomed_socket);
    try reflexivity.
  - vm_compute. lia.
  - vm_compute. repeat constructor; eexists; reflexivity.
Defined.

(** Two requests queued on a client that is still connecting. *)
Definition connecting_client : Client.Client :=
  Eval vm_compute in
    default zero_client
      (run_steps [get_with 1; get_with 2]
         (Client.new (Client.defaultConfig "http:") None)).

Definition connecting_socket : Client.Socket :=
  Eval vm_compute in default first_socket (Client.kSocket connecting_client).

Definition refused_error : Err := mkErr "Error" "ECONNREFUSED" "connect ECONNREFUSED".

Lemma onSocketError_fails_queue_witness :
  match Client.onSocketError refused_error connecting_client with
  | Ret _ c' =>
      handler_events (Client.trace c')
      = handler_events (Client.trace connecting_client)
          ++ failures (drop (Client.kRunningIdx connecting_client)
                         (Client.kQueue connecting_client)) refused_error
      /\ Client.kSize c' = 0%Z
      /\ (Client.kError <$> Client.kSocket c') = Some (Some refused_error)
  | Exc _ _ | OutOfFuel => False
  end.
Proof.
  apply (onSocketError_fails_queue connecting_client connecting_socket refused_error);
    try reflexivity.
  - vm_compute. lia.
  - vm_compute. repeat constructor; eexists; reflexivity.
Defined.

(** A client that was closed and has nothing left to do. *)
Definition drained_client : Client.Client :=
  Client.set_closed true (Client.new (Client.defaultConfig "http:") None).

Lemma resume_destroys_drained_client_witness :
  match Client.resume Client.bodyLength false drained_client with
  | Ret _ c' =>
      Client.kDestroyed c' = true
      /\ Client.kOnDestroyed c' = Some 1%nat
      /\ handler_events (Client.trace c') = handler_events (Client.trace drained_client)
      /\ Client.trace c' = Client.trace drained_client ++ [Client.NextTick "onDestroyed"]
  | Exc _ _ | OutOfFuel => False
  end.
Proof.
  apply (resume_destroys_drained_client Client.bodyLength drained_client false 0);
    try reflexivity.
  discriminate.
Defined.

(** ** The llhttp client's parser: response headers

    The header callbacks of [class Parser]: llhttp hands over the names
    and values of the response headers in chunks, as they come off the
    socket.  Buffers are strings of bytes. *)

Module ParserHeaders.

Record Parser := mkParser {
  headers : list string;         (* name, value, name, value, ... *)
  headersSize : nat;
  headersMaxSize : nat;
  overflow : bool                (* util.destroy (socket, new HeadersOverflowError ()) *)
}.

(** [trackHeader (len)]. *)
Definition trackHeader (len : nat) (p : Parser) : Parser :=
  let size := (headersSize p + len)%nat in
  mkParser (headers p) size (headersMaxSize p)
    (if (headersMaxSize p <=? size)%nat then true else overflow p).

(** [this.headers[len - 1] = Buffer.concat([this.headers[len - 1], buf])];
    on an empty array the element is undefined and [Buffer.concat]
    throws. *)
Definition concat_last (buf : string) (p : Parser) : Completion Parser :=
  let len := length (headers p) in
  match headers p !! (len - 1)%nat with
  | Some last =>
      Normal (mkParser (<[(len - 1)%nat := (last ++ buf)%string]> (headers p))
                (headersSize p) (headersMaxSize p) (overflow p))
  | None => Throw TypeError
  end.

Definition push (buf : string) (p : Parser) : Parser :=
  mkParser (headers p ++ [buf]) (headersSize p) (headersMaxSize p) (overflow p).

Definition onHeaderField (buf : string) (p : Parser) : Completion Parser :=
  let len := length (headers p) in
  p1 ← (if (Nat.land len 1 =? 0)%nat then Normal (push buf p) else concat_last buf p);
  Normal (trackHeader (String.length buf) p1).

Definition onHeaderValue (buf : string) (p : Parser) : Completion Parser :=
  let len := length (headers p) in
  p1 ← (if (Nat.land len 1 =? 1)%nat then Normal (push buf p) else concat_last buf p);
  Normal (trackHeader (String.length buf) p1).

(** The parser as the constructor leaves it. *)
Definition new (maxHeadersSize : nat) : Parser := mkParser [] 0 maxHeadersSize false.

Inductive Callback :=
| Field (buf : string)
| Value (buf : string).

Definition call (cb : Callback) (p : Parser) : Completion Parser :=
  match cb with
  | Field buf => onHeaderField buf p
  | Value buf => onHeaderValue buf p
  end.

Fixpoint run (cbs : list Callback) (p : Parser) : Completion Parser :=
  match cbs with
  | [] => Normal p
  | cb :: rest => p1 ← call cb p; run rest p1
  end.

End ParserHeaders.

Section ParserHeadersFacts.

Import ParserHeaders.

(** A header as llhttp delivers it: the chunks of its name, then the
    chunks of its value. *)
Definition chunks (h : list string * list string) : list Callback :=
  (Field <$> fst h) ++ (Value <$> snd h).

Definition joined (bufs : list string) : string := fold_right String.append "" bufs.

Definition total (bufs : list string) : nat := String.length (joined bufs).

Lemma length_append (a b : string) :
  String.length (a ++ b) = (String.length a + String.length b)%nat.
Proof. induction a as [|c a IH]; cbn; [reflexivity|]. rewrite IH. reflexivity. Qed.

Lemma append_empty (a : string) : (a ++ "")%string = a.
Proof. induction a as [|x a IH]; cbn; [reflexivity|]. rewrite IH. reflexivity. Qed.

Lemma land_1 n : Nat.land n 1 = (n mod 2)%nat.
Proof. exact (Nat.land_ones n 1). Qed.

(** The flag says whether the size has reached the limit. *)
Definition tracked (p : Parser) : Prop :=
  overflow p = (headersMaxSize p <=? headersSize p)%nat.

(** [p'] has taken [k] more bytes than [p]. *)
Definition grown (k : nat) (p p' : Parser) : Prop :=
  headersSize p' = (headersSize p + k)%nat
  /\ headersMaxSize p' = headersMaxSize p
  /\ (tracked p -> tracked p').

Lemma grown_refl p : grown 0 p p.
Proof. unfold grown. rewrite Nat.add_0_r. auto. Qed.

Lemma grown_trans k1 k2 p1 p2 p3 :
  grown k1 p1 p2 -> grown k2 p2 p3 -> grown (k1 + k2) p1 p3.
Proof.
  intros (Hs1 & Hm1 & Ho1) (Hs2 & Hm2 & Ho2). unfold grown.
  rewrite Hs2, Hm2, Hs1, Hm1. repeat split; [lia|auto].
Qed.

Lemma trackHeader_grown k hs p :
  grown k p (trackHeader k (mkParser hs (headersSize p) (headersMaxSize p) (overflow p))).
Proof.
  unfold grown, trackHeader, tracked. cbn. repeat split. intros ->.
  destruct (headersMaxSize p <=? headersSize p + k)%nat eqn:H1; [reflexivity|].
  apply Nat.leb_gt in H1. apply Nat.leb_gt. lia.
Qed.

(** A further chunk of the name or value that is last in the list. *)
Definition continues (cb : Callback) (len : nat) : Prop :=
  match cb with
  | Field _ => Nat.Odd len
  | Value _ => Nat.Even len
  end.

Definition buf_of (cb : Callback) : string :=
  match cb with Field b | Value b => b end.

Lemma Even_land n : Nat.Even n -> Nat.land n 1 = 0%nat.
Proof.
  intros [m ->]. rewrite land_1. replace (2 * m)%nat with (m * 2)%nat by lia.
  apply Nat.Div0.mod_mul.
Qed.

Lemma Odd_land n : Nat.Odd n -> Nat.land n 1 = 1%nat.
Proof.
  intros [m ->]. rewrite land_1. replace (2 * m + 1)%nat with (1 + m * 2)%nat by lia.
  rewrite Nat.Div0.mod_add. reflexivity.
Qed.

Lemma call_continues cb pre x p :
  headers p = pre ++ [x] -> continues cb (length (pre ++ [x])) ->
  exists p', call cb p = Normal p'
    /\ headers p' = pre ++ [(x ++ buf_of cb)%string]
    /\ grown (String.length (buf_of cb)) p p'.
Proof.
  intros Hh Hc.
  assert (Hlast : headers p !! (length (headers p) - 1)%nat = Some x).
  { rewrite Hh, length_app. cbn. replace (length pre + 1 - 1)%nat with (length pre) by lia.
    rewrite lookup_app_r, Nat.sub_diag by lia. reflexivity. }
  assert (Hins : <[(length (headers p) - 1)%nat := (x ++ buf_of cb)%string]> (headers p)
                 = pre ++ [(x ++ buf_of cb)%string]).
  { rewrite Hh, length_app. cbn. replace (length pre + 1 - 1)%nat with (length pre + 0)%nat by lia.
    rewrite insert_app_r. reflexivity. }
  destruct cb as [buf|buf]; cbn [call continues buf_of] in *;
    unfold onHeaderField, onHeaderValue, concat_last; rewrite <- Hh in Hc.
  - rewrite (Odd_land _ Hc). cbn [Nat.eqb]. rewrite Hlast. cbn [mbind completion_bind].
    eexists. split; [reflexivity|]. split; [exact Hins|]. apply trackHeader_grown.
  - rewrite (Even_land _ Hc). cbn [Nat.eqb]. rewrite Hlast. cbn [mbind completion_bind].
    eexists. split; [reflexivity|]. split; [exact Hins|]. apply trackHeader_grown.
Qed.

Lemma total_cons b bufs : total (b :: bufs) = (String.length b + total bufs)%nat.
Proof. unfold total. cbn. apply length_append. Qed.

Lemma total_app b1 b2 : total (b1 ++ b2) = (total b1 + total b2)%nat.
Proof.
  induction b1 as [|b b1 IH]; [reflexivity|].
  cbn [app]. rewrite !total_cons, IH. lia.
Qed.

(** Further chunks of one name or value are appended to it. *)
Lemma run_continues (mk : string -> Callback) bufs : forall pre x p,
  (forall b, buf_of (mk b) = b) ->
  (forall b, continues (mk b) (length (pre ++ [x]))) ->
  headers p = pre ++ [x] ->
  exists p', run (mk <$> bufs) p = Normal p'
    /\ headers p' = pre ++ [(x ++ joined bufs)%string]
    /\ grown (total bufs) p p'.
Proof.
  induction bufs as [|b bufs IH]; intros pre x p Hmk Hc Hh.
  - exists p. cbn. rewrite append_empty. split; [reflexivity|]. split; [exact Hh|].
    apply grown_refl.
  - destruct (call_continues (mk b) pre x p Hh (Hc b)) as (p1 & Hcall & Hh1 & Hg1).
    rewrite Hmk in Hh1, Hg1.
    destruct (IH pre (x ++ b)%string p1 Hmk) as (p2 & Hrun & Hh2 & Hg2).
    { intros b'. rewrite length_app in *. exact (Hc b'). }
    { exact Hh1. }
    exists p2. cbn [fmap list_fmap run]. rewrite Hcall. cbn [mbind completion_bind].
    split; [exact Hrun|]. split.
    + rewrite Hh2. cbn [joined fold_right]. rewrite append_assoc. reflexivity.
    + rewrite total_cons. exact (grown_trans _ _ _ _ _ Hg1 Hg2).
Qed.

(** The first chunk of a name or value opens a new entry. *)
Lemma call_opens cb p :
  continues cb (S (length (headers p))) ->
  exists p', call cb p = Normal p'
    /\ headers p' = headers p ++ [buf_of cb]
    /\ grown (String.length (buf_of cb)) p p'.
Proof.
  intros Hc. destruct cb as [buf|buf]; cbn [call continues buf_of] in *;
    unfold onHeaderField, onHeaderValue, push.
  - assert (He : Nat.Even (length (headers p))).
    { destruct Hc as [m Hm]. exists m. lia. }
    rewrite (Even_land _ He). cbn [Nat.eqb mbind completion_bind].
    eexists. split; [reflexivity|]. split; [reflexivity|]. apply trackHeader_grown.
  - assert (Ho : Nat.Odd (length (headers p))).
    { destruct Hc as [m Hm]. destruct m as [|m]; [lia|]. exists m. lia. }
    rewrite (Odd_land _ Ho). cbn [Nat.eqb mbind completion_bind].
    eexists. split; [reflexivity|]. split; [reflexivity|]. apply trackHeader_grown.
Qed.

Lemma run_app cbs1 cbs2 p :
  run (cbs1 ++ cbs2) p = (p1 ← run cbs1 p; run cbs2 p1).
Proof.
  revert p. induction cbs1 as [|cb cbs1 IH]; intros p; [reflexivity|].
  cbn [app run]. destruct (call cb p) as [p1|e]; cbn [mbind completion_bind];
    [apply IH|reflexivity].
Qed.

(** One name or value, in one chunk or more. *)
Lemma run_entry (mk : string -> Callback) b bufs p :
  (forall b, buf_of (mk b) = b) ->
  (forall b, continues (mk b) (S (length (headers p)))) ->
  exists p', run (mk <$> (b :: bufs)) p = Normal p'
    /\ headers p' = headers p ++ [joined (b :: bufs)]
    /\ grown (total (b :: bufs)) p p'.
Proof.
  intros Hmk Hc.
  destruct (call_opens (mk b) p (Hc b)) as (p1 & Hcall & Hh1 & Hg1).
  rewrite Hmk in Hh1, Hg1.
  destruct (run_continues mk bufs (headers p) b p1 Hmk) as (p2 & Hrun & Hh2 & Hg2).
  { intros b'. rewrite length_app. cbn [length]. rewrite Nat.add_1_r. exact (Hc b'). }
  { exact Hh1. }
  exists p2. cbn [fmap list_fmap run]. rewrite Hcall. cbn [mbind completion_bind].
  split; [exact Hrun|]. split; [exact Hh2|].
  rewrite total_cons. exact (grown_trans _ _ _ _ _ Hg1 Hg2).
Qed.

(** The headers llhttp has delivered, put together again. *)
Definition assembled (hs : list (list string * list string)) : list string :=
  flat_map (fun h => [joined (fst h); joined (snd h)]) hs.

Definition bytes (hs : list (list string * list string)) : nat :=
  list_sum ((fun h => total (fst h) + total (snd h))%nat <$> hs).

Lemma run_headers hs : forall p,
  Forall (fun h => fst h <> [] /\ snd h <> []) hs ->
  Nat.Even (length (headers p)) ->
  exists p', run (flat_map chunks hs) p = Normal p'
    /\ headers p' = headers p ++ assembled hs
    /\ grown (bytes hs) p p'.
Proof.
  induction hs as [|[fs vs] hs IH]; intros p Hall Hev.
  - exists p. cbn. rewrite app_nil_r. split; [reflexivity|]. split; [reflexivity|].
    apply grown_refl.
  - apply Forall_cons in Hall as [[Hf Hv] Hall]. cbn [fst snd] in *.
    destruct fs as [|f fs]; [congruence|]. destruct vs as [|v vs]; [congruence|].
    destruct (run_entry Field f fs p) as (p1 & Hr1 & Hh1 & Hg1); [reflexivity| |].
    { intros b'. cbn. destruct Hev as [m Hm]. exists m. lia. }
    destruct (run_entry Value v vs p1) as (p2 & Hr2 & Hh2 & Hg2); [reflexivity| |].
    { intros b'. cbn. rewrite Hh1, length_app. cbn. destruct Hev as [m Hm].
      exists (S m). lia. }
    destruct (IH p2 Hall) as (p3 & Hr3 & Hh3 & Hg3).
    { rewrite Hh2, Hh1, !length_app. cbn. destruct Hev as [m Hm]. exists (S m). lia. }
    exists p3. cbn [flat_map]. unfold chunks at 1. cbn [fst snd].
    rewrite !run_app, Hr1. cbn [mbind completion_bind]. rewrite Hr2.
    cbn [mbind completion_bind]. split; [exact Hr3|]. split.
    + rewrite Hh3, Hh2, Hh1, <- !app_assoc. reflexivity.
    + unfold bytes. cbn [fmap list_fmap list_sum fst snd].
      exact (grown_trans _ _ _ _ _ (grown_trans _ _ _ _ _ Hg1 Hg2) Hg3).
Qed.

(** X13.  However llhttp cuts the names and values of the response headers
    into chunks, the parser ends up with the whole names and values, in
    order and in pairs; the size it has counted is the number of bytes of
    all of them, and the socket has been destroyed for a header overflow
    exactly when that number has reached the limit. *)
Theorem headers_reassembled (max : nat) (hs : list (list string * list string)) :
  (0 < max)%nat ->
  Forall (fun h => fst h <> [] /\ snd h <> []) hs ->
  exists p,
    run (flat_map chunks hs) (new max) = Normal p
    /\ headers p = assembled hs
    /\ headersSize p = bytes hs
    /\ overflow p = (max <=? bytes hs)%nat.
Proof.
  intros Hmax Hall.
  destruct (run_headers hs (new max) Hall) as (p & Hrun & Hh & Hs & Hm & Ht).
  { exists 0%nat. reflexivity. }
  exists p. split; [exact Hrun|]. split; [exact Hh|]. split; [exact Hs|].
  unfold tracked in Ht. rewrite Ht, Hm, Hs; [reflexivity|].
  cbn. symmetry. apply Nat.leb_gt. exact Hmax.
Qed.

End ParserHeadersFacts.

Lemma headers_reassembled_witness :
  exists p,
    ParserHeaders.run
      (flat_map chunks [(["con"; "tent-length"], ["1"; "0"]); (["date"], ["now"])])
      (ParserHeaders.new 23)
    = Normal p
    /\ ParserHeaders.headers p = ["content-length"; "10"; "date"; "now"]
    /\ ParserHeaders.headersSize p = 23%nat
    /\ ParserHeaders.overflow p = true.
Proof.
  apply (headers_reassembled 23 [(["con"; "tent-length"], ["1"; "0"]); (["date"], ["now"])]).
  - lia.
  - repeat constructor; discriminate.
Defined.

(** ** lib/llhttp/parser.js: the stand-alone parser

    [HTTPParser] keeps the names and the values of the headers in two
    arrays and counts their bytes; the wasm callbacks return a number,
    zero to go on. *)

Module HTTPParser.

Record HTTPParser := mkHTTPParser {
  kStatusMessage : option string;
  kHeadersFields : list string;
  kHeadersValues : list string;
  kMaxHeadersSize : nat;
  kHeaderSize : nat;
  delivered : list (list (option string))   (* what kOnHeadersComplete and kOnHeaders got *)
}.

(** The constructor. *)
Definition new (maxHeadersSize : nat) : HTTPParser :=
  mkHTTPParser None [] [] maxHeadersSize 0 [].

Section Callbacks.

(** [constants.ERROR.USER]; the constants are not among the sources. *)
Variable USER : Z.

(** [kTrackHeader (length)]. *)
Definition kTrackHeader (length : nat) (p : HTTPParser) : HTTPParser * Z :=
  let size := (kHeaderSize p + length)%nat in
  let p1 := mkHTTPParser (kStatusMessage p) (kHeadersFields p) (kHeadersValues p)
              (kMaxHeadersSize p) size (delivered p) in
  if (kMaxHeadersSize p <=? size)%nat then (p1, USER) else (p1, 0%Z).

(** [kGetHeaders ()]: the loop runs over the names; a missing value is
    undefined. *)
Definition kGetHeaders (p : HTTPParser) : HTTPParser * list (option string) :=
  let rawHeaders :=
    flat_map (fun c => [kHeadersFields p !! c; kHeadersValues p !! c])
             (seq 0 (length (kHeadersFields p))) in
  (mkHTTPParser (kStatusMessage p) [] [] (kMaxHeadersSize p) 0 (delivered p), rawHeaders).

Definition deliver (raw : list (option string)) (p : HTTPParser) : HTTPParser :=
  mkHTTPParser (kStatusMessage p) (kHeadersFields p) (kHeadersValues p)
    (kMaxHeadersSize p) (kHeaderSize p) (delivered p ++ [raw]).

Definition wasm_on_message_begin (p : HTTPParser) : HTTPParser * Z :=
  (mkHTTPParser None (kHeadersFields p) (kHeadersValues p) (kMaxHeadersSize p)
     (kHeaderSize p) (delivered p), 0%Z).

Definition wasm_on_status (s : string) (p : HTTPParser) : HTTPParser * Z :=
  let '(p1, ret) := kTrackHeader (String.length s) p in
  if negb (ret =? 0)%Z then (p1, ret)
  else (mkHTTPParser (Some s) (kHeadersFields p1) (kHeadersValues p1)
          (kMaxHeadersSize p1) (kHeaderSize p1) (delivered p1), 0%Z).

Definition wasm_on_header_field (s : string) (p : HTTPParser) : HTTPParser * Z :=
  let '(p1, ret) := kTrackHeader (String.length s) p in
  if negb (ret =? 0)%Z then (p1, ret)
  else (mkHTTPParser (kStatusMessage p1) (kHeadersFields p1 ++ [s]) (kHeadersValues p1)
          (kMaxHeadersSize p1) (kHeaderSize p1) (delivered p1), 0%Z).

Definition wasm_on_header_value (s : string) (p : HTTPParser) : HTTPParser * Z :=
  let '(p1, ret) := kTrackHeader (String.length s) p in
  if negb (ret =? 0)%Z then (p1, ret)
  else (mkHTTPParser (kStatusMessage p1) (kHeadersFields p1) (kHeadersValues p1 ++ [s])
          (kMaxHeadersSize p1) (kHeaderSize p1) (delivered p1), 0%Z).

(** [kOnHeadersComplete], [kOnHeaders] and [kOnMessageComplete] are the
    hooks of the class itself, which return zero. *)
Definition wasm_on_headers_complete (p : HTTPParser) : HTTPParser * Z :=
  let p0 := mkHTTPParser (kStatusMessage p) (kHeadersFields p) (kHeadersValues p)
              (kMaxHeadersSize p) 0 (delivered p) in
  let '(p1, rawHeaders) := kGetHeaders p0 in
  (deliver rawHeaders p1, 0%Z).

Definition wasm_on_message_complete (p : HTTPParser) : HTTPParser * Z :=
  if negb (length (kHeadersFields p) =? 0)%nat then
    let '(p1, rawHeaders) := kGetHeaders p in
    (deliver rawHeaders p1, 0%Z)
  else (p, 0%Z).

Inductive Callback :=
| MessageBegin
| Status (s : string)
| HeaderField (s : string)
| HeaderValue (s : string)
| HeadersComplete
| MessageComplete.

Definition call (cb : Callback) (p : HTTPParser) : HTTPParser * Z :=
  match cb with
  | MessageBegin => wasm_on_message_begin p
  | Status s => wasm_on_status s p
  | HeaderField s => wasm_on_header_field s p
  | HeaderValue s => wasm_on_header_value s p
  | HeadersComplete => wasm_on_headers_complete p
  | MessageComplete => wasm_on_message_complete p
  end.

(** The parser after a sequence of callbacks, whatever they returned. *)
Fixpoint run (cbs : list Callback) (p : HTTPParser) : HTTPParser :=
  match cbs with
  | [] => p
  | cb :: rest => run rest (fst (call cb p))
  end.

End Callbacks.

(** The header bytes the parser holds. *)
Definition stored (p : HTTPParser) : nat :=
  (total (kHeadersFields p) + total (kHeadersValues p))%nat.

End HTTPParser.

Section HTTPParserFacts.

Import HTTPParser.

Variable USER : Z.
Hypothesis USER_nonzero : USER <> 0%Z.

Definition bounded (p : HTTPParser) : Prop :=
  (stored p <= kHeaderSize p)%nat /\ (stored p < kMaxHeadersSize p)%nat.

Lemma total_snoc bufs s : total (bufs ++ [s]) = (total bufs + String.length s)%nat.
Proof. rewrite total_app, total_cons. unfold total, joined. cbn. lia. Qed.

Ltac hp_simpl :=
  cbn [fst snd negb Z.eqb kHeadersFields kHeadersValues kHeaderSize kMaxHeadersSize].

Lemma call_bounded cb p :
  bounded p ->
  bounded (fst (call USER cb p))
  /\ kMaxHeadersSize (fst (call USER cb p)) = kMaxHeadersSize p.
Proof.
  intros [H1 H2].
  assert (HU : (USER =? 0)%Z = false) by (apply Z.eqb_neq; exact USER_nonzero).
  destruct cb; cbn [call]; unfold wasm_on_message_begin, wasm_on_status,
    wasm_on_header_field, wasm_on_header_value, wasm_on_headers_complete,
    wasm_on_message_complete, kTrackHeader, kGetHeaders, deliver, bounded, stored in *;
    cbn [fst snd kHeadersFields kHeadersValues kHeaderSize kMaxHeadersSize].
  - auto.
  - destruct (_ <=? _)%nat eqn:Hle; rewrite ?HU; hp_simpl; (split; [split; lia|reflexivity]).
  - destruct (_ <=? _)%nat eqn:Hle; rewrite ?HU; hp_simpl; [split; [split; lia|reflexivity]|].
    apply Nat.leb_gt in Hle. rewrite total_snoc. split; [split; lia|reflexivity].
  - destruct (_ <=? _)%nat eqn:Hle; rewrite ?HU; hp_simpl; [split; [split; lia|reflexivity]|].
    apply Nat.leb_gt in Hle. rewrite total_snoc. split; [split; lia|reflexivity].
  - hp_simpl. unfold total, joined. cbn. split; [split; lia|reflexivity].
  - destruct (negb _); hp_simpl; [unfold total, joined; cbn|]; (split; [split; lia|reflexivity]).
Qed.

(** X14.  The stand-alone parser never holds as many header bytes as
    [kMaxHeadersSize]: whatever llhttp calls back, and in whatever
    order, the names and values kept for the next delivery stay below
    the limit. *)
Theorem stored_below_limit (max : nat) (cbs : list Callback) :
  (0 < max)%nat ->
  (stored (run USER cbs (new max)) < max)%nat.
Proof.
  intros Hmax.
  assert (H : forall p, bounded p ->
            bounded (run USER cbs p)
            /\ kMaxHeadersSize (run USER cbs p) = kMaxHeadersSize p).
  { induction cbs as [|cb cbs IH]; intros p Hp; cbn [run]; [auto|].
    destruct (call_bounded cb p Hp) as [Hb Hm].
    destruct (IH _ Hb) as [Hb' Hm']. split; [exact Hb'|congruence]. }
  destruct (H (new max)) as [[_ Hlt] Hm].
  { unfold bounded, stored, total. cbn. lia. }
  rewrite Hm in Hlt. exact Hlt.
Qed.

End HTTPParserFacts.

Lemma stored_below_limit_witness :
  (HTTPParser.stored
     (HTTPParser.run 24
        [HTTPParser.MessageBegin; HTTPParser.Status "OK";
         HTTPParser.HeaderField "content-length"; HTTPParser.HeaderValue "0";
         HTTPParser.HeaderField "server"]
        (HTTPParser.new 20)) < 20)%nat.
Proof.
  apply (stored_below_limit 24); [discriminate|lia].
Defined.

(** ** The llhttp client's parser: the shared parse buffer

    [Parser.execute] copies each chunk into one buffer in wasm memory,
    which it replaces by a larger one when the chunk does not fit.
    Lengths and sizes are natural numbers. *)

Module ParserBuffer.

(** [Math.ceil (data.length / 4096) * 4096]. *)
Definition round_up (len : N) : N := ((len + 4095) / 4096 * 4096)%N.

(** The top of [execute (data)]: [currentBufferSize] afterwards. *)
Definition execute (len : N) (currentBufferSize : N) : N :=
  if (currentBufferSize <? len)%N then round_up len else currentBufferSize.

(** [let currentBufferSize = 16384]. *)
Definition initialBufferSize : N := 16384%N.

(** The buffer size after chunks of the given lengths. *)
Definition run (lens : list N) : N :=
  fold_left (fun size len => execute len size) lens initialBufferSize.

End ParserBuffer.

Section ParserBufferFacts.

Import ParserBuffer.

Lemma round_up_spec len :
  exists q, round_up len = (q * 4096)%N /\ (len <= q * 4096)%N /\ (q * 4096 < len + 4096)%N.
Proof.
  unfold round_up. exists ((len + 4095) / 4096)%N.
  pose proof (N.div_mod (len + 4095) 4096 ltac:(lia)) as H.
  pose proof (N.mod_upper_bound (len + 4095) 4096 ltac:(lia)) as H'.
  split; [reflexivity|].
  revert H H'. generalize ((len + 4095) / 4096)%N ((len + 4095) mod 4096)%N.
  intros q r H H'. lia.
Qed.

Lemma round_up_least len k : (len <= k * 4096)%N -> (round_up len <= k * 4096)%N.
Proof.
  intros H. destruct (round_up_spec len) as (q & -> & _ & Hq).
  assert (q <= k)%N by nia. nia.
Qed.

Lemma round_up_mono a b : (a <= b)%N -> (round_up a <= round_up b)%N.
Proof.
  intros H. destruct (round_up_spec b) as (q & Hq & Hb & _). rewrite Hq.
  apply round_up_least. lia.
Qed.

(** The largest chunk so far. *)
Definition largest (lens : list N) : N := fold_right N.max 0%N lens.

Lemma fold_execute lens : forall size m k,
  size = N.max initialBufferSize (round_up m) -> size = (k * 4096)%N ->
  fold_left (fun size len => execute len size) lens size
  = N.max initialBufferSize (round_up (N.max m (largest lens))).
Proof.
  induction lens as [|l lens IH]; intros size m k Hs Hk; cbn [fold_left largest fold_right].
  - rewrite N.max_0_r. exact Hs.
  - rewrite N.max_assoc.
    destruct (round_up_spec l) as (q & Hq & Hl & Hq').
    unfold execute. destruct (size <? l)%N eqn:Hlt.
    + apply N.ltb_lt in Hlt.
      assert (Hm : (m < l)%N).
      { destruct (round_up_spec m) as (qm & Hqm & Hm & _). lia. }
      apply (IH _ (N.max m l) q); [|exact Hq].
      rewrite (N.max_r m l) by lia. lia.
    + apply N.ltb_ge in Hlt.
      apply (IH _ (N.max m l) k); [|exact Hk].
      destruct (N.max_spec m l) as [[Hml ->]|[Hml ->]]; [|exact Hs].
      pose proof (round_up_least l k ltac:(lia)) as Hle.
      pose proof (round_up_mono m l ltac:(lia)) as Hmono. lia.
Qed.

(** X15.  After any sequence of chunks the parse buffer has the size of the
    largest chunk seen, rounded up to a multiple of 4096, and 16384 at
    least; every chunk fitted into the buffer it was copied to. *)
Theorem buffer_fits_largest_chunk (lens : list N) :
  run lens = N.max initialBufferSize (round_up (largest lens))
  /\ Forall (fun len => (len <= run lens)%N) lens.
Proof.
  assert (H : run lens = N.max initialBufferSize (round_up (largest lens))).
  { unfold run. rewrite (fold_execute lens initialBufferSize 0 4) by reflexivity.
    rewrite N.max_0_l. reflexivity. }
  split; [exact H|]. rewrite H. clear H.
  apply Forall_forall. intros l Hin.
  assert (Hl : (l <= largest lens)%N).
  { induction lens as [|x lens IH]; [inversion Hin|]. cbn [largest fold_right].
    apply elem_of_cons in Hin as [->|Hin]; [lia|]. specialize (IH Hin).
    unfold largest in IH. lia. }
  destruct (round_up_spec (largest lens)) as (q & -> & Hq & _). lia.
Qed.

End ParserBufferFacts.

(** ** The parser-binding client: what [Parser.destroy] does to the pipeline *)

Section ParserDestroyPartition.

Import ClientBase.

(** A request that is sent again: idempotent and not streaming. *)
Definition retriable (o : option Request) : bool :=
  match o with
  | Some r => idempotent r && negb (streaming r)
  | None => false
  end.

Definition unretriable (o : option Request) : bool := negb (retriable o).

(** The callbacks invoked with the error. *)
Definition invoked (reqs : list (option Request)) (err : Err) : list Event :=
  flat_map (fun o => match o with Some r => [EvInvoke (id r) err] | None => [] end) reqs.

Lemma partition_retry_filter reqs :
  Forall is_Some reqs ->
  partition_retry reqs = Some (List.filter retriable reqs, List.filter unretriable reqs).
Proof.
  induction 1 as [|o reqs [r ->] _ IH]; cbn [partition_retry List.filter]; [reflexivity|].
  rewrite IH. cbn [mbind option_bind]. unfold unretriable. cbn [retriable].
  destruct (idempotent r && negb (streaming r)); reflexivity.
Qed.

Lemma log_nil_base c : log [] c = c.
Proof. destruct c. unfold log. cbn. rewrite app_nil_r. reflexivity. Qed.

Lemma log_log_base e1 e2 c : log e2 (log e1 c) = log (e1 ++ e2) c.
Proof. unfold log. cbn. rewrite app_assoc. reflexivity. Qed.

Lemma invoke_all_exact reqs err : forall c,
  Forall is_Some reqs -> invoke_all reqs err c = Ret tt (log (invoked reqs err) c).
Proof.
  induction reqs as [|o reqs IH]; intros c Hall; cbn [invoke_all invoked flat_map].
  - rewrite log_nil_base. reflexivity.
  - apply Forall_cons in Hall as [[r ->] Hall].
    unfold mbind, M_bind, modify. rewrite (IH _ Hall), log_log_base. reflexivity.
Qed.

Lemma slice_cons {A} (a b : nat) (l : list A) (x : A) :
  (a < b)%nat -> l !! a = Some x -> slice a b l = x :: slice (S a) b l.
Proof.
  intros Hab Hx. unfold slice. rewrite (drop_S _ _ _ Hx).
  replace (b - a)%nat with (S (b - S a)) by lia. reflexivity.
Qed.

(** X16.  When the parser is destroyed under running requests, none of them
    is lost and none is served twice: the head and every request behind
    it that cannot be retried have their callback invoked with the error,
    in queue order; the others go to the front of the queue, in order,
    before the pending requests; and both indices are back at zero. *)
Theorem Parser_destroy_partitions (c : Client) (err : Err) :
  (kRunningIdx c < kPendingIdx c)%nat -> (kPendingIdx c <= length (kQueue c))%nat ->
  Forall is_Some (slice (kRunningIdx c) (kPendingIdx c) (kQueue c)) ->
  exists c' head tail,
    Parser_destroy err c = Ret tt c'
    /\ slice (kRunningIdx c) (kPendingIdx c) (kQueue c) = head :: tail
    /\ events c'
       = events c ++ (if parserBody c then [EvBody err] else [])
           ++ invoked (head :: List.filter unretriable tail) err
    /\ kQueue c' = List.filter retriable tail ++ drop (kPendingIdx c) (kQueue c)
    /\ kRunningIdx c' = 0%nat /\ kPendingIdx c' = 0%nat.
Proof.
  intros Hlt Hlen Hall.
  destruct (kQueue c !! kRunningIdx c) as [head|] eqn:Hhead.
  2:{ apply lookup_ge_None in Hhead. lia. }
  rewrite (slice_cons _ _ _ _ Hlt Hhead) in *.
  apply Forall_cons in Hall as [Hh Hall].
  exists (log ((if parserBody c then [EvBody err] else [])
               ++ invoked (head :: List.filter unretriable
                                      (slice (S (kRunningIdx c)) (kPendingIdx c) (kQueue c))) err)
            (set_queue (splice_head (kPendingIdx c)
                          (List.filter retriable
                             (slice (S (kRunningIdx c)) (kPendingIdx c) (kQueue c)))
                          (kQueue c)) 0 0 (set_parserBody false c))),
    head, (slice (S (kRunningIdx c)) (kPendingIdx c) (kQueue c)).
  split; [|split; [reflexivity|split; [|split; [|split]]]; reflexivity].
  unfold Parser_destroy, mbind at 1, M_bind at 1, get.
  destruct (kPendingIdx c <=? kRunningIdx c)%nat eqn:Hle;
    [apply Nat.leb_le in Hle; lia|].
  rewrite Hhead. cbn [default]. rewrite (partition_retry_filter _ Hall).
  assert (Hinv : Forall is_Some
                   (head :: List.filter unretriable
                              (slice (S (kRunningIdx c)) (kPendingIdx c) (kQueue c)))).
  { constructor; [exact Hh|]. apply List.Forall_forall. intros x Hx.
    apply List.filter_In in Hx as [Hx _].
    rewrite List.Forall_forall in Hall. exact (Hall _ Hx). }
  unfold mbind, M_bind, modify, when. cbn [set_queue set_parserBody parserBody kQueue].
  destruct (parserBody c); cbn [mret M_ret]; rewrite (invoke_all_exact _ _ _ Hinv);
    rewrite ?log_log_base; reflexivity.
Qed.

End ParserDestroyPartition.

(** Three requests in flight (the last one cannot be retried) and one
    waiting. *)
Definition broken_pipeline : ClientBase.Client :=
  ClientBase.mkClient
    [Some (ClientBase.mkRequest 1 true false false None true);
     Some (ClientBase.mkRequest 2 true false false None true);
     Some (ClientBase.mkRequest 3 false false true None true);
     Some (ClientBase.mkRequest 4 true false false None true)]
    0 3 3 None true 30000 0 None false false None false (Some 0%nat) [].

Lemma Parser_destroy_partitions_witness :
  exists c' head tail,
    ClientBase.Parser_destroy (SocketError "closed") broken_pipeline = Ret tt c'
    /\ ClientBase.slice (ClientBase.kRunningIdx broken_pipeline)
         (ClientBase.kPendingIdx broken_pipeline) (ClientBase.kQueue broken_pipeline)
       = head :: tail
    /\ ClientBase.events c'
       = ClientBase.events broken_pipeline
           ++ (if ClientBase.parserBody broken_pipeline
               then [ClientBase.EvBody (SocketError "closed")] else [])
           ++ invoked (head :: List.filter unretriable tail) (SocketError "closed")
    /\ ClientBase.kQueue c'
       = List.filter retriable tail
           ++ drop (ClientBase.kPendingIdx broken_pipeline) (ClientBase.kQueue broken_pipeline)
    /\ ClientBase.kRunningIdx c' = 0%nat /\ ClientBase.kPendingIdx c' = 0%nat.
Proof.
  apply (Parser_destroy_partitions broken_pipeline (SocketError "closed")).
  - vm_compute. lia.
  - vm_compute. lia.
  - vm_compute. repeat constructor; eexists; reflexivity.
Defined.

(** ** The llhttp client: writing a stream body

    The last branch of [write]: the request head is held back until the
    body gives its first bytes or ends, and the listeners [onData],
    [onDrain], [onAbort] and [onFinished] put the body on the socket.
    A run starts where [write] has set [socket[kWriting]]. *)

Module StreamBody.

(** The shapes of the request head the listeners write. *)
Inductive Head :=
| Chunked                        (* header, transfer-encoding: chunked *)
| ContentLength (n : Z)          (* header, content-length: n, CRLF CRLF *)
| ContentLengthZero              (* header, content-length: 0, CRLF CRLF CRLF *)
| Bare.                          (* header, CRLF *)

(** One [socket.write]. *)
Inductive Write :=
| WHead (h : Head)
| WChunkSize (len : Z)           (* CRLF, the length in hexadecimal, CRLF *)
| WChunk (len : Z)               (* the chunk itself *)
| WLastChunk.                    (* CRLF 0 CRLF CRLF *)

Record State := mkState {
  finished : bool;
  bytesWritten : Z;
  listening : bool;              (* the listeners are still attached *)
  destroyed : bool;              (* socket.destroyed *)
  sockError : option Err;        (* what the socket was destroyed with *)
  kWriting : bool;
  kReset : bool;
  writes : list Write;
  bodyDestroyed : list (option Err);   (* util.destroy (body, err), in order *)
  warnings : nat;                (* process.emitWarning *)
  resumed : nat;                 (* resume (client) *)
  uncaught : list Err            (* what a listener threw *)
}.

Definition set_finished (st : State) : State :=
  mkState true (bytesWritten st) (listening st) (destroyed st) (sockError st)
    (kWriting st) (kReset st) (writes st) (bodyDestroyed st) (warnings st) (resumed st)
    (uncaught st).
Definition set_bytesWritten (n : Z) (st : State) : State :=
  mkState (finished st) n (listening st) (destroyed st) (sockError st)
    (kWriting st) (kReset st) (writes st) (bodyDestroyed st) (warnings st) (resumed st)
    (uncaught st).
Definition removeListeners (st : State) : State :=
  mkState (finished st) (bytesWritten st) false (destroyed st) (sockError st)
    (kWriting st) (kReset st) (writes st) (bodyDestroyed st) (warnings st) (resumed st)
    (uncaught st).
Definition set_kWriting (b : bool) (st : State) : State :=
  mkState (finished st) (bytesWritten st) (listening st) (destroyed st) (sockError st)
    b (kReset st) (writes st) (bodyDestroyed st) (warnings st) (resumed st) (uncaught st).
Definition set_kReset (b : bool) (st : State) : State :=
  mkState (finished st) (bytesWritten st) (listening st) (destroyed st) (sockError st)
    (kWriting st) b (writes st) (bodyDestroyed st) (warnings st) (resumed st) (uncaught st).
Definition socket_write (w : Write) (st : State) : State :=
  mkState (finished st) (bytesWritten st) (listening st) (destroyed st) (sockError st)
    (kWriting st) (kReset st) (writes st ++ [w]) (bodyDestroyed st) (warnings st)
    (resumed st) (uncaught st).
Definition destroy_body (err : option Err) (st : State) : State :=
  mkState (finished st) (bytesWritten st) (listening st) (destroyed st) (sockError st)
    (kWriting st) (kReset st) (writes st) (bodyDestroyed st ++ [err]) (warnings st)
    (resumed st) (uncaught st).
Definition emitWarning (st : State) : State :=
  mkState (finished st) (bytesWritten st) (listening st) (destroyed st) (sockError st)
    (kWriting st) (kReset st) (writes st) (bodyDestroyed st) (S (warnings st))
    (resumed st) (uncaught st).
Definition resume_client (st : State) : State :=
  mkState (finished st) (bytesWritten st) (listening st) (destroyed st) (sockError st)
    (kWriting st) (kReset st) (writes st) (bodyDestroyed st) (warnings st)
    (S (resumed st)) (uncaught st).
Definition throws (e : Err) (st : State) : State :=
  mkState (finished st) (bytesWritten st) (listening st) (destroyed st) (sockError st)
    (kWriting st) (kReset st) (writes st) (bodyDestroyed st) (warnings st) (resumed st)
    (uncaught st ++ [e]).

(** Modelled from the spec: [util.destroy (socket, err)] is not among the
    sources; the spec has it destroy the socket, and a socket is destroyed
    once. *)
Definition destroy_socket (err : Err) (st : State) : State :=
  if destroyed st then st
  else mkState (finished st) (bytesWritten st) (listening st) true (Some err)
         (kWriting st) (kReset st) (writes st) (bodyDestroyed st) (warnings st)
         (resumed st) (uncaught st).

(** What a listener finds when it runs: the number of running requests,
    the parser's timeout type, and whether the socket has been destroyed
    by somebody else in the meantime. *)
Record View := mkView {
  kRunning : Z;
  timeoutType : option nat;
  socketDestroyed : bool
}.

Definition look (v : View) (st : State) : State :=
  if socketDestroyed v && negb (destroyed st)
  then mkState (finished st) (bytesWritten st) (listening st) true (sockError st)
         (kWriting st) (kReset st) (writes st) (bodyDestroyed st) (warnings st)
         (resumed st) (uncaught st)
  else st.

Section Listeners.

(** What [write] has computed before it attaches the listeners. *)
Variable contentLength : option Z.
Variable expectsPayload : bool.
Variable kStrictContentLength : bool.

Definition onData (len : Z) (st : State) : State :=
  if finished st then destroy_body (Some AssertionError) st
  else if (len =? 0)%Z then st
  else
    let over :=
      match contentLength with
      | Some n => (n <? bytesWritten st + len)%Z
      | None => false
      end in
    if over && kStrictContentLength then
      destroy_socket RequestContentLengthMismatchError st
    else
      let st1 := if over then emitWarning st else st in
      let st2 :=
        if (bytesWritten st1 =? 0)%Z then
          socket_write
            (WHead match contentLength with
                   | None => Chunked
                   | Some n => ContentLength n
                   end)
            (if negb expectsPayload then set_kReset true st1 else st1)
        else st1 in
      let st3 :=
        match contentLength with
        | None => socket_write (WChunkSize len) st2
        | Some _ => st2
        end in
      socket_write (WChunk len) (set_bytesWritten (bytesWritten st3 + len) st3).

Definition onDrain (st : State) : State :=
  if finished st then throws AssertionError st else st.

Definition onFinished (v : View) (err : option Err) (st : State) : State :=
  if finished st then st
  else
    let st1 := set_finished st in
    if negb (destroyed st1 || (kWriting st1 && (kRunning v <=? 1)%Z)) then
      throws AssertionError st1
    else
      let st2 := set_kWriting false st1 in
      let mismatch :=
        match err, contentLength with
        | None, Some n => negb (bytesWritten st2 =? n)%Z
        | _, _ => false
        end in
      let err1 :=
        if mismatch && kStrictContentLength
        then Some RequestContentLengthMismatchError else err in
      let st3 := if mismatch && negb kStrictContentLength then emitWarning st2 else st2 in
      let st4 := removeListeners st3 in
      let st5 :=
        match err1 with
        | Some e =>
            if negb (String.eqb (err_code e) "UND_ERR_INFO")
               || negb (String.eqb (err_message e) "reset")
            then destroy_body (Some e) st4
            else destroy_body None st4
        | None => destroy_body None st4
        end in
      match
        match err1 with
        | Some e =>
            if (kRunning v <=? 1)%Z then Normal (destroy_socket e st5)
            else Throw AssertionError
        | None => Normal st5
        end
      with
      | Throw e => throws e st5
      | Normal st6 =>
          if destroyed st6 then st6
          else
            let st7 :=
              if (bytesWritten st6 =? 0)%Z then
                socket_write (WHead (if expectsPayload then ContentLengthZero else Bare)) st6
              else
                match contentLength with
                | None => socket_write WLastChunk st6
                | Some _ => st6
                end in
            if bool_decide (timeoutType v = Some Client.TIMEOUT_HEADERS)
            then resume_client st7
            else throws AssertionError st7
      end.

Definition onAbort (v : View) (st : State) : State :=
  onFinished v (Some RequestAbortedError) st.

(** What the body and the socket emit. *)
Inductive Event :=
| BodyData (len : N)             (* 'data', with the chunk's byte length *)
| BodyEnd
| BodyError (err : Err)
| BodyClose
| SocketDrain
| SocketError (err : Err).

Definition emit (v : View) (ev : Event) (st : State) : State :=
  let st := look v st in
  if negb (listening st) then st
  else
    match ev with
    | BodyData len => onData (Z.of_N len) st
    | BodyEnd => onFinished v None st
    | BodyError err => onFinished v (Some err) st
    | BodyClose => onAbort v st
    | SocketDrain => onDrain st
    | SocketError err => onFinished v (Some err) st
    end.

Definition run (evs : list (View * Event)) (st : State) : State :=
  fold_left (fun st ev => emit (fst ev) (snd ev) st) evs st.

End Listeners.

(** The state in which [write] leaves the listeners: nothing written,
    [socket[kWriting]] set. *)
Definition start (reset : bool) : State :=
  mkState false 0 true false None true reset [] [] 0 0 [].

(** The body bytes handed to the socket. *)
Fixpoint chunk_bytes (ws : list Write) : Z :=
  match ws with
  | [] => 0
  | WChunk len :: rest => len + chunk_bytes rest
  | _ :: rest => chunk_bytes rest
  end.

End StreamBody.

Section StreamBodyFacts.

Import StreamBody.

Variable contentLength : option Z.
Variable expectsPayload : bool.
Variable kStrictContentLength : bool.

Abbreviation emit' := (emit contentLength expectsPayload kStrictContentLength).
Abbreviation run' := (run contentLength expectsPayload kStrictContentLength).

Ltac sb_simpl :=
  cbn [finished bytesWritten listening destroyed sockError kWriting kReset writes
       bodyDestroyed warnings resumed uncaught
       set_finished set_bytesWritten removeListeners set_kWriting set_kReset socket_write
       destroy_body emitWarning resume_client throws] in *.

Lemma chunk_bytes_app ws1 ws2 : chunk_bytes (ws1 ++ ws2) = (chunk_bytes ws1 + chunk_bytes ws2)%Z.
Proof.
  induction ws1 as [|w ws1 IH]; [reflexivity|]. cbn [app chunk_bytes].
  destruct w; rewrite IH; lia.
Qed.

(** What holds of the writer whatever happens. *)
Definition accounted (st : State) : Prop :=
  chunk_bytes (writes st) = bytesWritten st
  /\ (0 <= bytesWritten st)%Z
  /\ (kStrictContentLength = true ->
      forall n, contentLength = Some n -> (bytesWritten st = 0 \/ bytesWritten st <= n)%Z)
  /\ (kStrictContentLength = true -> uncaught st = [] -> finished st = true ->
      destroyed st = false ->
      forall n, contentLength = Some n -> bytesWritten st = n).

Lemma look_accounted v st : accounted st -> accounted (look v st).
Proof.
  unfold look, accounted. destruct (socketDestroyed v && negb (destroyed st)); [|auto].
  sb_simpl. intros (H1 & H2 & H3 & H4). repeat split; auto. intros _ _ _ [=].
Qed.

Lemma destroy_socket_fields e st :
  finished (destroy_socket e st) = finished st
  /\ bytesWritten (destroy_socket e st) = bytesWritten st
  /\ writes (destroy_socket e st) = writes st
  /\ uncaught (destroy_socket e st) = uncaught st
  /\ destroyed (destroy_socket e st) = true.
Proof. unfold destroy_socket. destruct (destroyed st) eqn:Hd; cbn; auto. Qed.

Lemma onData_accounted len st :
  (0 <= len)%Z -> accounted st -> accounted (onData contentLength expectsPayload kStrictContentLength len st).
Proof.
  intros Hlen Hacc. unfold onData.
  destruct (finished st) eqn:Hf; [exact Hacc|].
  destruct (len =? 0)%Z eqn:Hz; [exact Hacc|].
  destruct Hacc as (H1 & H2 & H3 & H4).
  apply Z.eqb_neq in Hz.
  destruct (_ && kStrictContentLength) eqn:Hover.
  { destruct (destroy_socket_fields RequestContentLengthMismatchError st)
      as (E1 & E2 & E3 & E4 & E5).
    unfold accounted. rewrite E1, E2, E3, E4, E5. repeat split; auto.
    intros _ _ _ [=]. }
  unfold accounted.
  repeat match goal with
    | |- context [if ?b then _ else _] => destruct b eqn:?
    | |- context [match contentLength with _ => _ end] => destruct contentLength eqn:?
    end; sb_simpl; rewrite ?chunk_bytes_app; cbn [chunk_bytes];
    repeat split; try lia; try congruence.
  all: intros Hs n' [= <-]; rewrite Hs in Hover; cbn in Hover; try discriminate.
  all: right; repeat match goal with
                | H : (_ <? _)%Z = false |- _ => apply Z.ltb_ge in H
                end; lia.
Qed.

Lemma onFinished_accounted v err st :
  accounted st ->
  accounted (onFinished contentLength expectsPayload kStrictContentLength v err st).
Proof.
  intros Hacc. unfold onFinished.
  destruct (finished st) eqn:Hf; [exact Hacc|].
  destruct Hacc as (H1 & H2 & H3 & H4).
  assert (Hkeep : forall st', writes st' = writes st -> bytesWritten st' = bytesWritten st ->
            (uncaught st' <> [] \/ destroyed st' = true
             \/ (kStrictContentLength = true ->
                 forall n, contentLength = Some n -> bytesWritten st = n)) ->
            accounted st').
  { intros st' Hw Hb Hend. unfold accounted. rewrite Hw, Hb.
    split; [exact H1|]. split; [exact H2|]. split; [exact H3|].
    intros Hs Hu _ Hd n Hn. destruct Hend as [Hend|[Hend|Hend]];
      [contradiction|congruence|exact (Hend Hs n Hn)]. }
  assert (Hwrite : forall st' w, (forall len, w <> WChunk len) -> accounted st' ->
            accounted (socket_write w st')).
  { intros st' w Hw (A1 & A2 & A3 & A4). unfold accounted. sb_simpl.
    rewrite chunk_bytes_app. split; [|auto].
    destruct w; cbn [chunk_bytes]; try lia. destruct (Hw len eq_refl). }
  destruct (negb _) eqn:Hassert.
  { apply Hkeep; [reflexivity..|]. left. sb_simpl. intros H. destruct (uncaught st); discriminate. }
  set (mismatch := match err, contentLength with
                   | None, Some n => negb (bytesWritten (set_kWriting false (set_finished st)) =? n)%Z
                   | _, _ => false
                   end).
  set (err1 := if mismatch && kStrictContentLength
               then Some RequestContentLengthMismatchError else err).
  set (st3 := if mismatch && negb kStrictContentLength then _ else _).
  assert (Hst3 : writes st3 = writes st /\ bytesWritten st3 = bytesWritten st
                 /\ uncaught st3 = uncaught st).
  { subst st3. destruct (_ && negb _); cbn; auto. }
  set (st5 := match err1 with
              | Some e =>
                  if negb (String.eqb (err_code e) "UND_ERR_INFO")
                     || negb (String.eqb (err_message e) "reset")
                  then destroy_body (Some e) (removeListeners st3)
                  else destroy_body None (removeListeners st3)
              | None => destroy_body None (removeListeners st3)
              end).
  assert (Hst5 : writes st5 = writes st /\ bytesWritten st5 = bytesWritten st
                 /\ uncaught st5 = uncaught st).
  { subst st5. destruct err1 as [e|];
      [destruct (negb (String.eqb (err_code e) "UND_ERR_INFO")
                 || negb (String.eqb (err_message e) "reset"))|]; cbn; exact Hst3. }
  destruct Hst5 as (W5 & B5 & U5).
  destruct err1 as [e|] eqn:He1.
  - destruct (kRunning v <=? 1)%Z.
    + destruct (destroy_socket_fields e st5) as (E1 & E2 & E3 & E4 & E5).
      rewrite E5. apply Hkeep; [congruence..|]. right. left. exact E5.
    + apply Hkeep; [exact W5|exact B5|]. left. sb_simpl.
      intros H. destruct (uncaught st5); discriminate.
  - assert (Hok : kStrictContentLength = true ->
                  forall n, contentLength = Some n -> bytesWritten st = n).
    { intros Hs n Hn. subst err1. rewrite Hs, andb_true_r in He1.
      destruct mismatch eqn:Hm; [discriminate|]. subst mismatch.
      rewrite He1, Hn in Hm. cbn in Hm. apply negb_false_iff, Z.eqb_eq in Hm. exact Hm. }
    assert (A5 : accounted st5) by (apply Hkeep; auto).
    destruct (destroyed st5) eqn:Hd5; [exact A5|].
    assert (A7 : forall st7, writes st7 = writes st5 \/ (exists w, (forall len, w <> WChunk len)
                                /\ st7 = socket_write w st5) ->
                 bytesWritten st7 = bytesWritten st5 -> accounted st7 ->
                 accounted (if bool_decide (timeoutType v = Some Client.TIMEOUT_HEADERS)
                            then resume_client st7 else throws AssertionError st7)).
    { intros st7 _ _ A. destruct (bool_decide _); [exact A|].
      destruct A as (A1 & A2 & A3 & A4). unfold accounted. sb_simpl.
      repeat split; auto. intros _ H. destruct (uncaught st7); discriminate. }
    destruct (bytesWritten st5 =? 0)%Z; [|destruct contentLength].
    + apply A7; [right; eexists; split; [|reflexivity]; discriminate|reflexivity|].
      apply Hwrite; [discriminate|exact A5].
    + apply A7; [left; reflexivity|reflexivity|exact A5].
    + apply A7; [right; eexists; split; [|reflexivity]; discriminate|reflexivity|].
      apply Hwrite; [discriminate|exact A5].
Qed.

Lemma emit_accounted v ev st : accounted st -> accounted (emit' v ev st).
Proof.
  intros Hacc. unfold emit. pose proof (look_accounted v st Hacc) as Hl.
  destruct (negb (listening (look v st))); [exact Hl|].
  destruct ev; try (apply onFinished_accounted; exact Hl).
  - apply onData_accounted; [lia|exact Hl].
  - unfold onDrain. destruct (finished (look v st)) eqn:Hf; [|exact Hl].
    destruct Hl as (A1 & A2 & A3 & A4). unfold accounted. sb_simpl.
    repeat split; auto. intros _ H. destruct (uncaught (look v st)); discriminate.
Qed.

Lemma run_accounted evs : forall st, accounted st -> accounted (run' evs st).
Proof.
  induction evs as [|[v ev] evs IH]; intros st Hacc; [exact Hacc|].
  cbn [run fold_left fst snd]. apply IH, emit_accounted, Hacc.
Qed.

(** X17.  With [strictContentLength] a stream body never puts more bytes on
    the socket than the content-length the request announced; and when
    the body has finished, nothing was thrown and the socket is still
    alive, it has put exactly that many. *)
Theorem strict_stream_length (n : Z) (reset : bool) (evs : list (View * Event)) :
  kStrictContentLength = true -> contentLength = Some n ->
  let st := run' evs (start reset) in
  chunk_bytes (writes st) = bytesWritten st
  /\ (chunk_bytes (writes st) <= Z.max 0 n)%Z
  /\ (finished st = true -> destroyed st = false -> uncaught st = [] ->
      chunk_bytes (writes st) = n).
Proof.
  intros Hs Hn st.
  destruct (run_accounted evs (start reset)) as (A1 & A2 & A3 & A4).
  { unfold accounted, start. cbn. repeat split; auto; try lia; try discriminate. }
  fold st in A1, A2, A3, A4. split; [exact A1|]. rewrite A1. split.
  - destruct (A3 Hs n Hn); lia.
  - intros Hf Hd Hu. exact (A4 Hs Hu Hf Hd n Hn).
Qed.

(** A listener that finds the client as the scheduler leaves it for a
    stream body: nothing else in the pipeline, the parser waiting for the
    response headers, the socket alive. *)
Definition undisturbed (v : View) : Prop :=
  (kRunning v <= 1)%Z /\ timeoutType v = Some Client.TIMEOUT_HEADERS
  /\ socketDestroyed v = false.

(** The frames of a chunked body: an empty chunk gives none. *)
Definition frame (len : N) : list Write :=
  if (Z.of_N len =? 0)%Z then [] else [WChunkSize (Z.of_N len); WChunk (Z.of_N len)].

Definition frames (lens : list N) : list Write := flat_map frame lens.

Definition data (chunks : list (View * N)) : list (View * Event) :=
  (fun c => (fst c, BodyData (snd c))) <$> chunks.

(** The writer in the middle of a body. *)
Definition writing (st : State) : Prop :=
  finished st = false /\ listening st = true /\ destroyed st = false
  /\ kWriting st = true /\ uncaught st = [] /\ resumed st = 0%nat
  /\ (0 <= bytesWritten st)%Z.

Lemma look_undisturbed v st : undisturbed v -> look v st = st.
Proof. intros (_ & _ & Hd). unfold look. rewrite Hd. reflexivity. Qed.

Lemma run_data_chunked strict chunks : forall st,
  Forall undisturbed (fst <$> chunks) -> writing st ->
  let st' := run None expectsPayload strict (data chunks) st in
  writing st'
  /\ writes st'
     = writes st
         ++ (if (bytesWritten st =? 0)%Z then
               match frames (snd <$> chunks) with [] => [] | _ => [WHead Chunked] end
             else [])
         ++ frames (snd <$> chunks)
  /\ (bytesWritten st' = 0%Z <-> bytesWritten st = 0%Z /\ frames (snd <$> chunks) = [])
  /\ kReset st'
     = (if (bytesWritten st =? 0)%Z && negb expectsPayload then
          match frames (snd <$> chunks) with [] => kReset st | _ => true end
        else kReset st).
Proof.
  induction chunks as [|[v len] chunks IH]; intros st Hv Hw.
  - cbv zeta. cbn [data fmap list_fmap run fold_left frames flat_map].
    split; [exact Hw|].
    split; [destruct (bytesWritten st =? 0)%Z; cbn; rewrite ?app_nil_r; reflexivity|].
    split; [tauto|]. destruct (_ && _); reflexivity.
  - cbn [fmap list_fmap fst snd] in Hv. apply Forall_cons in Hv as [Hv Hvs].
    cbn [data fmap list_fmap run fold_left fst snd].
    set (st1 := emit None expectsPayload strict v (BodyData len) st).
    destruct Hw as (Wf & Wl & Wd & Wk & Wu & Wr & Wb).
    assert (Hst1 : writing st1
                   /\ writes st1
                      = writes st
                          ++ (if (bytesWritten st =? 0)%Z then
                                match frame len with [] => [] | _ => [WHead Chunked] end
                              else [])
                          ++ frame len
                   /\ bytesWritten st1 = (bytesWritten st + Z.of_N len)%Z
                   /\ kReset st1
                      = (if (bytesWritten st =? 0)%Z && negb expectsPayload then
                           match frame len with [] => kReset st | _ => true end
                         else kReset st)).
    { subst st1. unfold emit. rewrite (look_undisturbed _ _ Hv), Wl. cbn [negb].
      unfold onData, frame. rewrite Wf. cbn [andb].
      destruct (Z.of_N len =? 0)%Z eqn:Hz.
      - apply Z.eqb_eq in Hz. rewrite Hz, Z.add_0_r.
        destruct (bytesWritten st =? 0)%Z; cbn; rewrite ?app_nil_r;
          destruct (negb expectsPayload); unfold writing; auto 10.
      - apply Z.eqb_neq in Hz.
        destruct (bytesWritten st =? 0)%Z eqn:Hb; cbn [andb];
          destruct (negb expectsPayload); sb_simpl; unfold writing; sb_simpl;
          rewrite <- ?app_assoc; cbn [app];
          (split; [repeat split; auto; lia|split; [reflexivity|split; reflexivity]]). }
    destruct Hst1 as (Hw1 & Hwr1 & Hb1 & Hr1).
    specialize (IH st1 Hvs Hw1). cbv zeta in IH.
    fold (data chunks) in IH |- *.
    change (fold_left _ (data chunks) st1)
      with (run None expectsPayload strict (data chunks) st1).
    destruct IH as (IHw & IHwr & IHb & IHr).
    split; [exact IHw|].
    assert (Hlen : (0 <= Z.of_N len)%Z) by lia.
    assert (Hfr : frame len = [] <-> Z.of_N len = 0%Z).
    { unfold frame. destruct (Z.of_N len =? 0)%Z eqn:Hz;
        [apply Z.eqb_eq in Hz|apply Z.eqb_neq in Hz]; split; intros H;
        (reflexivity || discriminate || lia || assumption). }
    unfold frames in *. cbn [flat_map fmap list_fmap snd].
    rewrite IHwr, Hwr1, IHb, IHr, Hr1, Hb1.
    destruct (frame len) as [|w1 fr] eqn:Hframe.
    + assert (Hz : Z.of_N len = 0%Z) by (apply Hfr; reflexivity).
      rewrite Hz, Z.add_0_r. cbn [app].
      destruct (bytesWritten st =? 0)%Z; cbn [andb app]; rewrite ?app_nil_r.
      all: split; [reflexivity|]; split; [tauto|].
      all: destruct (negb expectsPayload); reflexivity.
    + assert (Hz : Z.of_N len <> 0%Z) by (intros H; apply Hfr in H; discriminate).
      assert (Hnz : (bytesWritten st + Z.of_N len =? 0)%Z = false)
        by (apply Z.eqb_neq; lia).
      rewrite Hnz. cbn [andb app].
      destruct (bytesWritten st =? 0)%Z eqn:Hb; cbn [andb app];
        rewrite <- ?app_assoc; cbn [app];
        (split; [reflexivity|]); (split; [split; [lia|intros [_ [=]]]|]);
        destruct (negb expectsPayload); reflexivity.
Qed.

(** X18.  A body without announced length goes out chunked: the head with
    transfer-encoding: chunked, the size and the bytes of every chunk that
    is not empty, in order, and the last-chunk when the body ends.  A body
    that ends without a byte goes out as a head alone.  The scheduler is
    called once, at the end. *)
Theorem chunked_framing (strict reset : bool) (chunks : list (View * N)) (v : View) :
  Forall undisturbed (v :: (fst <$> chunks)) ->
  let st := run None expectsPayload strict (data chunks ++ [(v, BodyEnd)]) (start reset) in
  writes st
  = match frames (snd <$> chunks) with
    | [] => [WHead (if expectsPayload then ContentLengthZero else Bare)]
    | fr => WHead Chunked :: fr ++ [WLastChunk]
    end
  /\ resumed st = 1%nat /\ kWriting st = false /\ uncaught st = []
  /\ destroyed st = false /\ finished st = true.
Proof.
  intros Hv st. apply Forall_cons in Hv as [Hv Hvs].
  destruct (run_data_chunked strict chunks (start reset) Hvs) as (Hw & Hwr & Hb & _).
  { unfold writing, start. cbn. repeat split; auto. lia. }
  subst st. unfold run in *. rewrite fold_left_app. cbn [fold_left fst snd].
  set (st1 := fold_left _ (data chunks) (start reset)) in *.
  destruct Hw as (Wf & Wl & Wd & Wk & Wu & Wr & Wb).
  unfold emit. rewrite (look_undisturbed _ _ Hv), Wl. cbn [negb].
  unfold onFinished. rewrite Wf. destruct Hv as (Hrun & Htt & _).
  apply Z.leb_le in Hrun. sb_simpl. rewrite Wd, Wk, Hrun. cbn [orb andb negb].
  unfold destroy_body, removeListeners. sb_simpl. rewrite ?Wd, Htt.
  rewrite bool_decide_eq_true_2 by reflexivity.
  cbn [start bytesWritten writes Z.eqb app] in Hwr, Hb.
  destruct (frames (snd <$> chunks)) as [|w fr] eqn:Hfr.
  - assert (Hz : bytesWritten st1 = 0%Z) by (apply Hb; auto).
    rewrite Hz. cbn [Z.eqb]. sb_simpl. rewrite Hwr. cbn. auto 10.
  - assert (Hz : (bytesWritten st1 =? 0)%Z = false).
    { apply Z.eqb_neq. intros H. apply Hb in H as [_ [=]]. }
    rewrite Hz. sb_simpl. rewrite Hwr. cbn. auto 10.
Qed.

End StreamBodyFacts.

Definition quiet_view : StreamBody.View :=
  StreamBody.mkView 1 (Some Client.TIMEOUT_HEADERS) false.

Lemma strict_stream_length_witness :
  StreamBody.chunk_bytes
    (StreamBody.writes
       (StreamBody.run (Some 5%Z) true true
          [(quiet_view, StreamBody.BodyData 3); (quiet_view, StreamBody.BodyData 4);
           (quiet_view, StreamBody.BodyEnd)]
          (StreamBody.start false)))
  = StreamBody.bytesWritten
      (StreamBody.run (Some 5%Z) true true
         [(quiet_view, StreamBody.BodyData 3); (quiet_view, StreamBody.BodyData 4);
          (quiet_view, StreamBody.BodyEnd)]
         (StreamBody.start false))
  /\ (StreamBody.chunk_bytes
        (StreamBody.writes
           (StreamBody.run (Some 5%Z) true true
              [(quiet_view, StreamBody.BodyData 3); (quiet_view, StreamBody.BodyData 4);
               (quiet_view, StreamBody.BodyEnd)]
              (StreamBody.start false))) <= Z.max 0 5)%Z.
Proof.
  destruct (strict_stream_length (Some 5%Z) true true 5 false
              [(quiet_view, StreamBody.BodyData 3); (quiet_view, StreamBody.BodyData 4);
               (quiet_view, StreamBody.BodyEnd)] eq_refl eq_refl) as (H1 & H2 & _).
  exact (conj H1 H2).
Defined.

Lemma chunked_framing_witness :
  StreamBody.writes
    (StreamBody.run None true false
       (data [(quiet_view, 3%N); (quiet_view, 0%N); (quiet_view, 10%N)]
          ++ [(quiet_view, StreamBody.BodyEnd)])
       (StreamBody.start false))
  = [StreamBody.WHead StreamBody.Chunked;
     StreamBody.WChunkSize 3; StreamBody.WChunk 3;
     StreamBody.WChunkSize 10; StreamBody.WChunk 10;
     StreamBody.WLastChunk].
Proof.
  apply (chunked_framing true false false
           [(quiet_view, 3%N); (quiet_view, 0%N); (quiet_view, 10%N)] quiet_view).
  repeat constructor; reflexivity.
Defined.

(** ** The llhttp client: what [write] puts on the wire *)

Section WriteFacts.

Import Client.

Variable bodyLength : option Request.Body -> option Z.

Lemma fail_request_result r err c :
  exists r1 c1, fail_request r err c = Ret r1 c1.
Proof.
  unfold fail_request, deliver, mbind, M_bind, modify, mret, M_ret, massert.
  cbn. rewrite onError_aborted. cbn. eauto.
Qed.

(** X19.  With [strictContentLength], a request that [write] accepts has a
    content-length header, if it has one, that is the length of its body
    (or the body is a stream of unknown length); and a header of zero is
    accepted only with a method that expects a payload. *)
Theorem write_strict_content_length (c c' : Client) (r r' : Request.Request) (n : Z) :
  kStrictContentLength (config c) = true ->
  Request.contentLength r = Some n ->
  write bodyLength r c = Ret (true, r') c' ->
  (bodyLength (Request.body r) = Some n \/ bodyLength (Request.body r) = None)
  /\ (n = 0%Z -> expectsPayload (Request.method r) = true).
Proof.
  intros Hs Hn. unfold write. unfold mbind at 1, M_bind at 1, get. rewrite Hs, Hn, andb_true_r.
  cbn [bool_decide]. rewrite bool_decide_eq_true_2 by eauto. cbn [andb].
  destruct (negb _) eqn:Hmis.
  - destruct (fail_request_result r RequestContentLengthMismatchError c) as (r1 & c1 & Hf).
    unfold mbind, M_bind. rewrite Hf. cbn. discriminate.
  - intros _. apply negb_false_iff in Hmis.
    destruct (bodyLength (Request.body r)) as [m|] eqn:Hb.
    + destruct (opt_Z_eqb (Some m) (Some 0%Z) && negb (expectsPayload (Request.method r)))
        eqn:Hz; cbn in Hmis; [discriminate|].
      apply Z.eqb_eq in Hmis. subst m. split; [left; reflexivity|].
      intros ->. cbn in Hz. destruct (expectsPayload _); [reflexivity|discriminate].
    + split; [right; reflexivity|].
      destruct (opt_Z_eqb (Some n) (Some 0%Z) && negb (expectsPayload (Request.method r)))
        eqn:Hz; cbn in Hmis; [discriminate|].
      intros ->. cbn in Hz. destruct (expectsPayload _); [reflexivity|discriminate].
Qed.

(** Requests after which the connection is not used again. *)
Definition closes_connection (r : Request.Request) : Prop :=
  Request.method r = "HEAD" \/ Request.upgrade r = true \/ Request.method r = "CONNECT"
  \/ ((exists len, Request.body r = Some (Request.BodyBuffer len))
      /\ expectsPayload (Request.method r) = false).

Lemma onConnect_upgrade r :
  Request.upgrade (Request.res_request (Request.onConnect r)) = Request.upgrade r
  /\ Request.method (Request.res_request (Request.onConnect r)) = Request.method r.
Proof. destruct (onConnect_kind r) as (H1 & H2 & H3 & H4). auto. Qed.

(** X20.  A request that [write] accepts and that is a HEAD, an upgrade or a
    CONNECT, or that carries a buffer body with a method that expects no
    payload, leaves the socket marked for reset: no further request is
    sent on the connection. *)
Theorem write_resets_connection (c c' : Client) (r r' : Request.Request) :
  write bodyLength r c = Ret (true, r') c' ->
  closes_connection r ->
  exists s', kSocket c' = Some s' /\ kReset s' = true.
Proof.
  intros Hw Hc.
  assert (H : hoare True (eq c) (write bodyLength r)
                (fun res c' => fst res = true -> exists s', kSocket c' = Some s' /\ kReset s' = true)
                (fun _ => True)).
  2:{ specialize (H c eq_refl). rewrite Hw in H. exact (H eq_refl). }
  clear Hw. unfold write, fail_request, deliver.
  destruct (onConnect_upgrade r) as [Hup Hme].
  hxc.
  all: try exact I.
  all: cbn [fst]; intros Ht; try discriminate.
  all: repeat match goal with
         | H : kSocket _ = Some _ |- _ => rewrite H
         end; cbn [fmap option_fmap option_map].
  all: eexists; split; [reflexivity|]; cbn [kReset sock_reset sock_writing].
  all: try reflexivity.
  all: rewrite ?Hup in *.
  all: destruct Hc as [Hm|[Hu|[Hm|[[? Hb] He]]]];
    repeat match goal with
      | H : (_ || _) = false |- _ => apply orb_false_iff in H as [? ?]
      | H : negb _ = false |- _ => apply negb_false_iff in H
      end;
    try (rewrite Hm in *; discriminate); try congruence.
Qed.

(** X21.  When a response is complete, the trailing headers the parser
    collected come in pairs (as the parser asserts) and a trailer the
    response announced is not among them, the request at the head is
    neither completed nor failed by the parser: the socket is destroyed
    with [TrailerMismatchError], the parser stops, and the queue is as it
    was. *)
Theorem trailer_mismatch_destroys_socket (c : Client) (s : Socket) (r : Request.Request)
  (status : Z) :
  kSocket c = Some s -> destroyed s = false -> p_upgrade (kParser s) = false ->
  kQueue c !! kRunningIdx c = Some (Some r) ->
  statusCode (kParser s) = Some status -> (200 <= status)%Z ->
  Nat.even (length (p_headers (kParser s))) = true ->
  forallb (fun t => has_key t (p_headers (kParser s))) (p_trailers (kParser s)) = false ->
  exists c',
    Parser_onMessageComplete bodyLength c = Ret (Some (-1)%Z) c'
    /\ trace c' = trace c ++ [SocketDestroy (Some TrailerMismatchError)]
    /\ kQueue c' = kQueue c /\ kRunningIdx c' = kRunningIdx c
    /\ kPendingIdx c' = kPendingIdx c
    /\ (destroyed <$> kSocket c') = Some true.
Proof.
  intros Hs Hd Hu Hq Hst Hge Hev Htr.
  assert (H : hoare False (eq c) (Parser_onMessageComplete bodyLength)
                (fun res c' =>
                   res = Some (-1)%Z
                   /\ trace c' = trace c ++ [SocketDestroy (Some TrailerMismatchError)]
                   /\ kQueue c' = kQueue c /\ kRunningIdx c' = kRunningIdx c
                   /\ kPendingIdx c' = kPendingIdx c
                   /\ (destroyed <$> kSocket c') = Some true)
                (fun _ => False)).
  2:{ specialize (H c eq_refl).
      destruct (Parser_onMessageComplete bodyLength c) as [res c'|e c'|]; try contradiction.
      destruct H as (-> & H). exists c'. split; [reflexivity|exact H]. }
  assert (H100 : (100 <=? status)%Z = true) by (apply Z.leb_le; lia).
  assert (H200 : (status <? 200)%Z = false) by (apply Z.ltb_ge; lia).
  unfold Parser_onMessageComplete, util_destroy.
  repeat (hxc1; rewrite ?Hst in *; cbn [default from_option id] in *;
          rewrite ?H100, ?H200, ?Hev, ?Htr, ?Hs in *;
          cbn [negb fmap option_fmap option_map destroyed sock_parser] in *;
          rewrite ?Hd in * ).
  all: try discriminate.
  all: cbn; auto 10.
Qed.

End WriteFacts.

(** A connected client with nothing to do, and a POST with a body of
    five bytes that says so. *)
Definition idle_client : Client.Client :=
  Client.set_socket (Some first_socket) (Client.new (Client.defaultConfig "http:") None).

Definition post_five : Request.Request :=
  Request.mkRequest demo_handler "POST" (Some (Request.BodyBuffer 5)) None None false
    false "/" false (Some 5%Z) "" None false false.

Definition head_request : Request.Request :=
  Request.mkRequest demo_handler "HEAD" None None None false false "/" true None ""
    None false false.

Lemma write_strict_content_length_witness :
  exists r' c',
    Client.write Client.bodyLength post_five idle_client = Ret (true, r') c'
    /\ (Client.bodyLength (Request.body post_five) = Some 5%Z
        \/ Client.bodyLength (Request.body post_five) = None)
    /\ (5%Z = 0%Z -> Client.expectsPayload (Request.method post_five) = true).
Proof.
  eexists. eexists. split; [vm_compute; reflexivity|].
  eapply (write_strict_content_length Client.bodyLength idle_client _ post_five _ 5);
    [reflexivity|reflexivity|vm_compute; reflexivity].
Defined.

Lemma write_resets_connection_witness :
  exists r' c',
    Client.write Client.bodyLength head_request idle_client = Ret (true, r') c'
    /\ exists s', Client.kSocket c' = Some s' /\ Client.kReset s' = true.
Proof.
  eexists. eexists. split; [vm_compute; reflexivity|].
  eapply (write_resets_connection Client.bodyLength idle_client _ head_request _);
    [vm_compute; reflexivity|left; reflexivity].
Defined.

(** The head of two pipelined requests has its response, which announced
    a trailer that has not come; another one has. *)
Definition trailing_socket : Client.Socket :=
  Client.sock_parser
    (Client.mkParser None None (Some 200%Z) false ["x-served-by"; "a"] ["x-checksum"]
       true false)
    first_socket.

Definition trailing_client : Client.Client :=
  Client.set_socket (Some trailing_socket) pipelined_client.

Lemma trailer_mismatch_destroys_socket_witness :
  exists c',
    Client.Parser_onMessageComplete Client.bodyLength trailing_client
      = Ret (Some (-1)%Z) c'
    /\ Client.trace c'
       = Client.trace trailing_client ++ [Client.SocketDestroy (Some Client.TrailerMismatchError)]
    /\ Client.kQueue c' = Client.kQueue trailing_client
    /\ Client.kRunningIdx c' = Client.kRunningIdx trailing_client
    /\ Client.kPendingIdx c' = Client.kPendingIdx trailing_client
    /\ (Client.destroyed <$> Client.kSocket c') = Some true.
Proof.
  apply (trailer_mismatch_destroys_socket Client.bodyLength trailing_client trailing_socket
           first_request 200); first [reflexivity|lia].
Defined.

(** ** The llhttp client: a certificate that does not match *)

Section AltName.

Import Client.

(** The requests at the front that ask for the server name [name]. *)
Fixpoint leading (name : option string) (reqs : list (option Request.Request))
  : list (option Request.Request) :=
  match reqs with
  | Some r :: rest =>
      if opt_string_eqb (Request.servername r) name then Some r :: leading name rest else []
  | _ => []
  end.

Definition altname_failed (c : Client) (reqs : list (option Request.Request)) (err : Err)
  (c' : Client) : Prop :=
  handler_events (trace c')
  = handler_events (trace c) ++ failures (leading (kServerName c) reqs) err
  /\ kPendingIdx c' = (kPendingIdx c + length (leading (kServerName c) reqs))%nat
  /\ drop (kPendingIdx c') (kQueue c')
     = drop (length (leading (kServerName c) reqs)) reqs
  /\ take (kPendingIdx c) (kQueue c') = take (kPendingIdx c) (kQueue c)
  /\ kRunningIdx c' = kRunningIdx c /\ kServerName c' = kServerName c
  /\ kSocket c' = kSocket c.

Lemma fail_servername_exact reqs err : forall c,
  Forall is_Some reqs -> drop (kPendingIdx c) (kQueue c) = reqs ->
  hoare False (eq c) (fail_servername reqs err)
    (fun _ => altname_failed c reqs err) (fun _ => False).
Proof.
  induction reqs as [|o reqs IH]; intros c Hall Hdrop; cbn [fail_servername].
  - apply hx_ret. unfold altname_failed. cbn [leading failures flat_map length drop].
    rewrite app_nil_r, Nat.add_0_r. repeat split; auto.
  - apply Forall_cons in Hall as [[r ->] Hall].
    assert (Hlook : kQueue c !! kPendingIdx c = Some (Some r)).
    { rewrite <- (Nat.add_0_r (kPendingIdx c)), <- lookup_drop, Hdrop. reflexivity. }
    assert (Hrest : drop (S (kPendingIdx c)) (kQueue c) = reqs).
    { rewrite (drop_S _ _ _ Hlook) in Hdrop. congruence. }
    assert (Hlen : (kPendingIdx c < length (kQueue c))%nat)
      by (apply lookup_lt_Some in Hlook; exact Hlook).
    unfold fail_request, deliver. cbn [leading].
    hxc1. destruct (opt_string_eqb (Request.servername r) (kServerName c)) eqn:Hname.
    2:{ apply hx_ret. unfold altname_failed. cbn [leading]. rewrite Hname.
        cbn [failures flat_map length drop]. rewrite app_nil_r, Nat.add_0_r.
        repeat split; auto. }
    hxc.
    2:{ rewrite onError_aborted in *. discriminate. }
    eapply hx_call_weaken; [eapply IH; [exact Hall|]|reflexivity|auto|].
    + cl_simpl. rewrite drop_insert_lt by lia. exact Hrest.
    + intros [] c' (Hev & Hp & Hd & Ht & Hr & Hn & Hs). revert Hev Hp Hd Ht Hr Hn Hs.
      cl_simpl. intros Hev Hp Hd Ht Hr Hn Hs. unfold altname_failed.
      cbn [leading]. rewrite Hname. cbn [length failures flat_map drop].
      split; [|split; [|split; [|split; [|split; [|split]]]]].
      * rewrite Hev, handler_events_app, <- app_assoc. f_equal. f_equal.
        rewrite onError_events, onError_handler.
        destruct (Request.aborted r); reflexivity.
      * rewrite Hp. lia.
      * rewrite Hd. reflexivity.
      * apply (f_equal (take (kPendingIdx c))) in Ht.
        rewrite !take_take, Nat.min_l in Ht by lia.
        rewrite Ht, take_insert_ge by lia. reflexivity.
      * exact Hr.
      * exact Hn.
      * exact Hs.
Qed.

(** X22.  When the certificate does not match the server name, the pending
    requests at the front of the queue that ask for the client's current
    server name are failed with the error, in order, up to the first one
    that asks for another name; that one and all behind it stay pending,
    untouched.  The failed requests are stepped over, not removed. *)
Theorem onSocketError_altname (c : Client) (s : Socket) (err : Err) :
  kSocket c = Some s ->
  err_code err = "ERR_TLS_CERT_ALTNAME_INVALID" ->
  kPendingIdx c = kRunningIdx c ->
  Forall is_Some (drop (kPendingIdx c) (kQueue c)) ->
  match onSocketError err c with
  | Ret _ c' =>
      let failed := leading (kServerName c) (drop (kPendingIdx c) (kQueue c)) in
      handler_events (trace c') = handler_events (trace c) ++ failures failed err
      /\ kPendingIdx c' = (kPendingIdx c + length failed)%nat
      /\ drop (kPendingIdx c') (kQueue c')
         = drop (length failed) (drop (kPendingIdx c) (kQueue c))
      /\ kRunningIdx c' = kRunningIdx c
  | Exc _ _ | OutOfFuel => False
  end.
Proof.
  intros Hs Hcode Hp Hall.
  assert (H : hoare False (eq c) (onSocketError err)
                (fun _ c' =>
                   let failed := leading (kServerName c) (drop (kPendingIdx c) (kQueue c)) in
                   handler_events (trace c') = handler_events (trace c) ++ failures failed err
                   /\ kPendingIdx c' = (kPendingIdx c + length failed)%nat
                   /\ drop (kPendingIdx c') (kQueue c')
                      = drop (length failed) (drop (kPendingIdx c) (kQueue c))
                   /\ kRunningIdx c' = kRunningIdx c)
                (fun _ => False)).
  2:{ specialize (H c eq_refl). destruct (onSocketError err c) as [[] c'|? ?|]; exact H. }
  assert (Hc : String.eqb (err_code err) "ERR_TLS_CERT_ALTNAME_INVALID" = true)
    by (rewrite Hcode; reflexivity).
  assert (Hrun : (kRunning c =? 0)%Z = true)
    by (unfold kRunning; rewrite Hp, Z.sub_diag; reflexivity).
  unfold onSocketError. hxc.
  2:{ congruence. }
  eapply hx_call_weaken; [eapply fail_servername_exact; [exact Hall|]|reflexivity|auto|].
  - cl_simpl. reflexivity.
  - intros [] c' H'. revert H'. unfold altname_failed. cl_simpl.
    match goal with H : kSocket _ = Some _ |- _ => rewrite H end.
    cbn [fmap option_fmap option_map]. intros (A1 & A2 & A3 & A4 & A5 & A6 & A7).
    cbv zeta. repeat split; assumption.
Qed.

End AltName.

(** Two requests for a.example and one for no name, on a TLS client
    that is connecting to a.example. *)
Definition mixed_client : Client.Client :=
  Eval vm_compute in
    default zero_client (run_steps [post_with 1; post_with 2; get_with 3] tls_client).

Definition mixed_socket : Client.Socket :=
  Eval vm_compute in default first_socket (Client.kSocket mixed_client).

Lemma onSocketError_altname_witness :
  match Client.onSocketError altname_error mixed_client with
  | Ret _ c' =>
      let failed :=
        leading (Client.kServerName mixed_client)
          (drop (Client.kPendingIdx mixed_client) (Client.kQueue mixed_client)) in
      handler_events (Client.trace c')
      = handler_events (Client.trace mixed_client) ++ failures failed altname_error
      /\ Client.kPendingIdx c' = (Client.kPendingIdx mixed_client + length failed)%nat
      /\ drop (Client.kPendingIdx c') (Client.kQueue c')
         = drop (length failed)
             (drop (Client.kPendingIdx mixed_client) (Client.kQueue mixed_client))
      /\ Client.kRunningIdx c' = Client.kRunningIdx mixed_client
  | Exc _ _ | OutOfFuel => False
  end.
Proof.
  apply (onSocketError_altname mixed_client mixed_socket altname_error);
    try reflexivity.
  vm_compute. repeat constructor; eexists; reflexivity.
Defined.

(** ** The upgrade handler

    [UpgradeHandler] turns the callbacks of a dispatched upgrade request
    into one call of the user's callback. *)

Module UpgradeHandler.

(** A call of the user's callback: [callback (null, data)] from
    [onUpgrade], or [callback (err, ...)] from [onError] on the next tick. *)
Inductive Invocation :=
| WithSocket (statusCode : Z)
| WithError (err : Err).

Record UpgradeHandler := mkUpgradeHandler {
  callback : bool;               (* [this.callback] is still set *)
  invocations : list Invocation;
  thrown : list Err
}.

(** The constructor, for [opts] that are an object. *)
Definition new : UpgradeHandler := mkUpgradeHandler true [] [].

Definition onConnect (h : UpgradeHandler) : UpgradeHandler := h.

(** [runInAsyncScope] applies the callback; applying null is a
    [TypeError]. *)
Definition onUpgrade (statusCode : Z) (h : UpgradeHandler) : UpgradeHandler :=
  if callback h
  then mkUpgradeHandler false (invocations h ++ [WithSocket statusCode]) (thrown h)
  else mkUpgradeHandler false (invocations h) (thrown h ++ [TypeError]).

Definition onError (err : Err) (h : UpgradeHandler) : UpgradeHandler :=
  if callback h
  then mkUpgradeHandler false (invocations h ++ [WithError err]) (thrown h)
  else h.

Inductive Call :=
| CallConnect
| CallUpgrade (statusCode : Z)
| CallError (err : Err).

Definition call (c : Call) (h : UpgradeHandler) : UpgradeHandler :=
  match c with
  | CallConnect => onConnect h
  | CallUpgrade s => onUpgrade s h
  | CallError e => onError e h
  end.

Definition run (cs : list Call) (h : UpgradeHandler) : UpgradeHandler :=
  fold_left (fun h c => call c h) cs h.

End UpgradeHandler.

Section UpgradeHandlerFacts.

Import UpgradeHandler.

(** The first call that is not [onConnect]. *)
Fixpoint first_outcome (cs : list Call) : list Invocation :=
  match cs with
  | [] => []
  | CallConnect :: rest => first_outcome rest
  | CallUpgrade s :: _ => [WithSocket s]
  | CallError e :: _ => [WithError e]
  end.

Lemma run_spent cs : forall h,
  callback h = false ->
  invocations (run cs h) = invocations h /\ callback (run cs h) = false.
Proof.
  induction cs as [|c cs IH]; intros h Hh; [auto|].
  cbn [run fold_left]. destruct c; cbn [call]; unfold onConnect, onUpgrade, onError;
    rewrite ?Hh; try (apply IH; exact Hh).
  destruct (IH (mkUpgradeHandler false (invocations h) (thrown h ++ [TypeError]))
              eq_refl) as [H1 H2].
  split; [exact H1|exact H2].
Qed.

(** X23.  Whatever is called on an upgrade handler, in whatever order and
    however often, the user's callback is invoked once at most: for the
    first upgrade or error, and for nothing after it. *)
Theorem callback_invoked_once (cs : list Call) :
  invocations (run cs new) = first_outcome cs
  /\ (length (invocations (run cs new)) <= 1)%nat.
Proof.
  assert (H : forall h, callback h = true ->
            invocations (run cs h) = invocations h ++ first_outcome cs).
  { induction cs as [|c cs IH]; intros h Hh; cbn [run fold_left first_outcome].
    - rewrite app_nil_r. reflexivity.
    - destruct c; cbn [call]; unfold onConnect, onUpgrade, onError; rewrite ?Hh.
      + apply IH. exact Hh.
      + apply (run_spent cs (mkUpgradeHandler false _ _)). reflexivity.
      + apply (run_spent cs (mkUpgradeHandler false _ _)). reflexivity. }
  rewrite (H new eq_refl). cbn [new invocations app]. split; [reflexivity|].
  clear. induction cs as [|[] cs IH]; cbn; lia.
Qed.

End UpgradeHandlerFacts.
